(** * Accessibility health checker: model of the orchestration core

    A shallow embedding of the TypeScript sources of
    [@healthchecks-ts/accessibility]: the issue and score model
    ([utils.ts], [constants.ts], [types.ts]), the checker registry
    ([checkers/index.ts] and the five checker classes), the browser session
    manager ([browser.ts]) and the orchestrator ([health-checker.ts]).

    Conventions.
    - TypeScript enums are inductive types, one module per enum, so that
      [WcagLevel.A], [Severity.ERROR], [CheckType.ALT_TEXT] read as in the
      source.  Interfaces are records, one module per interface, so that
      field names are the source's ([Issue.severity], [PageReport.issues], ...).
    - JavaScript numbers that stand for counts and indices (scores, issue
      counts, array indices, and the concurrency limit, which the command
      line reads with [parseInt]) are [Z] or [nat]; the two thresholds are
      rationals and are only passed around.
    - What the program cannot decide by itself (what a URL serves, what a DOM
      scan finds, when a promise settles, what [Date.now] and [Math.random]
      return, whether a Playwright call fails) is read from a [World] record.
    - Asynchronous code is a state-and-error monad [Run] over the session
      manager that also collects the sequence of external calls made.
      Among tasks that run concurrently the sequence has the calls each
      task makes before its first suspension in the order of the calls, and
      the later calls of a task together, at the point where the task
      settles: how the later calls of different tasks interleave is not
      recorded. *)

From stdpp Require Import gmap strings list sorting.
From Stdlib Require Import ZArith QArith Qround Lia.

Local Open Scope string_scope.
Local Open Scope Z_scope.
Local Open Scope list_scope.
Local Open Scope stdpp_scope.

(** ** Enumerations ([types.ts]) *)

Module WcagLevel.
Inductive t := A | AA | AAA.
#[global] Instance eq_dec : EqDecision t.
Proof. solve_decision. Defined.
Definition all : list t := [A; AA; AAA].
End WcagLevel.
Abbreviation WcagLevel := WcagLevel.t.

Module Severity.
Inductive t := ERROR | WARNING | INFO.
#[global] Instance eq_dec : EqDecision t.
Proof. solve_decision. Defined.
End Severity.
Abbreviation Severity := Severity.t.

Module CheckType.
Inductive t :=
| ALT_TEXT
| COLOR_CONTRAST
| HEADING_STRUCTURE
| ARIA_ATTRIBUTES
| KEYBOARD_NAVIGATION
| FORM_LABELS
| FOCUS_INDICATORS
| LANDMARK_REGIONS.
#[global] Instance eq_dec : EqDecision t.
Proof. solve_decision. Defined.

(** The string each member evaluates to; these strings are the keys of
    every [Record<CheckType, _>] object. *)
Definition value (c : t) : string :=
  match c with
  | ALT_TEXT => "alt-text"
  | COLOR_CONTRAST => "color-contrast"
  | HEADING_STRUCTURE => "heading-structure"
  | ARIA_ATTRIBUTES => "aria-attributes"
  | KEYBOARD_NAVIGATION => "keyboard-navigation"
  | FORM_LABELS => "form-labels"
  | FOCUS_INDICATORS => "focus-indicators"
  | LANDMARK_REGIONS => "landmark-regions"
  end.

(** [Object.values(CheckType)]: the members in declaration order. *)
Definition values : list t :=
  [ALT_TEXT; COLOR_CONTRAST; HEADING_STRUCTURE; ARIA_ATTRIBUTES;
   KEYBOARD_NAVIGATION; FORM_LABELS; FOCUS_INDICATORS; LANDMARK_REGIONS].
End CheckType.
Abbreviation CheckType := CheckType.t.

(** ** Interfaces ([types.ts]) *)

Module Element.
Record t := {
  selector : string;
  tagName : string;
  attributes : list (string * string);
  innerText : option string;
  outerHTML : string;
}.
End Element.

Module Location.
Record t := {
  line : option nat;
  column : option nat;
  xpath : string;
}.
End Location.

Module Issue.
Record t := {
  id : string;
  type : CheckType;
  severity : Severity;
  wcagLevel : WcagLevel;
  wcagReference : string;
  message : string;
  description : string;
  element : option Element.t;
  location : Location.t;
  suggestedFix : option string;
  helpUrl : option string;
}.
End Issue.
Abbreviation AccessibilityIssue := Issue.t.

(** ** Constants ([constants.ts]) *)

Definition WCAG_REFERENCES (type : CheckType) (level : WcagLevel) : option string :=
  match type, level with
  | CheckType.ALT_TEXT, _ => Some "1.1.1"
  | CheckType.COLOR_CONTRAST, WcagLevel.A => None
  | CheckType.COLOR_CONTRAST, WcagLevel.AA => Some "1.4.3"
  | CheckType.COLOR_CONTRAST, WcagLevel.AAA => Some "1.4.6"
  | CheckType.HEADING_STRUCTURE, _ => Some "1.3.1"
  | CheckType.ARIA_ATTRIBUTES, _ => Some "4.1.2"
  | CheckType.KEYBOARD_NAVIGATION, WcagLevel.A => Some "2.1.1"
  | CheckType.KEYBOARD_NAVIGATION, WcagLevel.AA => Some "2.1.1"
  | CheckType.KEYBOARD_NAVIGATION, WcagLevel.AAA => Some "2.1.3"
  | CheckType.FORM_LABELS, _ => Some "1.3.1"
  | CheckType.FOCUS_INDICATORS, _ => Some "2.4.7"
  | CheckType.LANDMARK_REGIONS, _ => Some "1.3.1"
  end.

(** ** Issue construction and scoring ([utils.ts]) *)

(** JavaScript truthiness of a string: every string but the empty one. *)
Definition truthy (s : string) : bool := negb (String.eqb s "").

(** [x || d] on a value that is a string, [null] or [undefined]. *)
Definition or_else (x : option string) (d : string) : string :=
  match x with
  | Some s => if truthy s then s else d
  | None => d
  end.

(** [if (x) { field = f(x) }] on a value that is a string or absent. *)
Definition when_truthy {B} (x : option string) (f : string -> B) : option B :=
  match x with
  | Some s => if truthy s then Some (f s) else None
  | None => None
  end.

Definition getWcagReference (type : CheckType) (level : WcagLevel) : option string :=
  WCAG_REFERENCES type level.

Definition getWcagUrl (reference : string) : string :=
  "https://www.w3.org/WAI/WCAG21/Understanding/" +:+ reference +:+ ".html".

(** The [location] argument is a [Partial] of the location interface. *)
Module PartialLocation.
Record t := {
  line : option nat;
  column : option nat;
  xpath : option string;
}.
End PartialLocation.

(** [createAccessibilityIssue].  The identifier [generateIssueId()] builds
    from the clock and the random generator is passed in as [newId]. *)
Definition createAccessibilityIssue (newId : string)
    (type : CheckType) (severity : Severity) (wcagLevel : WcagLevel)
    (message description : string)
    (element : option Element.t)
    (location : option PartialLocation.t)
    (suggestedFix : option string) : AccessibilityIssue :=
  let wcagReference := getWcagReference type wcagLevel in
  {| Issue.id := newId;
     Issue.type := type;
     Issue.severity := severity;
     Issue.wcagLevel := wcagLevel;
     Issue.wcagReference := or_else wcagReference "N/A";
     Issue.message := message;
     Issue.description := description;
     Issue.location :=
       {| Location.xpath := or_else (location ≫= PartialLocation.xpath) "";
          Location.line := location ≫= PartialLocation.line;
          Location.column := location ≫= PartialLocation.column |};
     Issue.element := element;
     Issue.suggestedFix := when_truthy suggestedFix (fun s => s);
     Issue.helpUrl := when_truthy wcagReference getWcagUrl |}.

(** The [weights] object of [calculateScore]. *)
Definition weights (s : Severity) : Z :=
  match s with
  | Severity.ERROR => 10
  | Severity.WARNING => 5
  | Severity.INFO => 1
  end.

(** [Math.round]: the nearest integer, halves rounded up. *)
Definition Math_round (x : Q) : Z := Qfloor (x + (1 # 2))%Q.

Definition calculateScore (issues : list AccessibilityIssue) : Z :=
  if decide (length issues = 0%nat) then 100
  else
    let totalPenalty :=
      foldl (fun total issue => total + weights (Issue.severity issue)) 0 issues in
    let score := Z.max 0 (100 - totalPenalty) in
    Math_round (inject_Z score).


(** ** Configuration and reports ([types.ts], [constants.ts]) *)

Module Format.
Inductive t := json | html | console.
#[global] Instance eq_dec : EqDecision t.
Proof. solve_decision. Defined.
End Format.

Module Config.
Record Checks := { enabled : list CheckType; disabled : list CheckType }.
Record Thresholds := { colorContrastRatio : Q; maxHeadingJump : Q }.
Record Output := {
  format : list Format.t;
  outputDir : option string;
  verbose : bool;
}.
Record Viewport := { width : Z; height : Z }.
Record Browser := {
  headless : bool;
  viewport : Viewport;
  userAgent : option string;
}.
Record t := {
  wcagLevel : WcagLevel;
  checks : Checks;
  thresholds : Thresholds;
  output : Output;
  browser : Browser;
  timeout : Z;
  concurrent : Z;
}.
End Config.
Abbreviation HealthCheckConfig := Config.t.

Definition DEFAULT_CONFIG : HealthCheckConfig :=
  {| Config.wcagLevel := WcagLevel.AA;
     Config.checks :=
       {| Config.enabled := CheckType.values; Config.disabled := [] |};
     Config.thresholds :=
       {| Config.colorContrastRatio := (45 # 10)%Q; Config.maxHeadingJump := 1%Q |};
     Config.output :=
       {| Config.format := [Format.console];
          Config.outputDir := None;
          Config.verbose := false |};
     Config.browser :=
       {| Config.headless := true;
          Config.viewport := {| Config.width := 1920; Config.height := 1080 |};
          Config.userAgent := None |};
     Config.timeout := 30000;
     Config.concurrent := 3 |}.

Module CheckerResult.
Record t := {
  type : CheckType;
  issues : list AccessibilityIssue;
  duration : nat;
}.
End CheckerResult.
Abbreviation CheckerResult := CheckerResult.t.

(** [Record<Severity, number>], written in the source as an object literal
    with the three severities as keys. *)
Module BySeverity.
Record t := { error : nat; warning : nat; info : nat }.
End BySeverity.

(** The [wcagCompliance] object, one boolean per level. *)
Module Compliance.
Record t := { A : bool; AA : bool; AAA : bool }.
Definition at_level (c : t) (level : WcagLevel) : bool :=
  match level with
  | WcagLevel.A => A c
  | WcagLevel.AA => AA c
  | WcagLevel.AAA => AAA c
  end.
End Compliance.

Module PageReport.
Record t := {
  url : string;
  timestamp : nat;
  duration : nat;
  totalIssues : nat;
  issuesBySeverity : BySeverity.t;
  issuesByType : gmap string nat;
  wcagCompliance : Compliance.t;
  issues : list AccessibilityIssue;
  score : Z;
}.
End PageReport.
Abbreviation PageHealthReport := PageReport.t.

Module Summary.
Record t := {
  totalPages : nat;
  totalIssues : nat;
  overallScore : Z;
  timestamp : nat;
  duration : nat;
}.
End Summary.

Module Report.
Record t := {
  summary : Summary.t;
  pages : list PageHealthReport;
  configuration : HealthCheckConfig;
}.
End Report.
Abbreviation HealthCheckReport := Report.t.

(** ** The outside world *)

(** An object a checker's DOM scan pushes to its [results] array. *)
Module Raw.
Record t := {
  element : option Element.t;
  severity : string;
  message : string;
  description : string;
  suggestedFix : option string;
}.
End Raw.

(** What the browser page opened for a URL does. *)
Module Dom.
Record t := {
  (** [context.newPage()] rejects *)
  newPageFails : bool;
  (** [page.addInitScript] rejects *)
  addInitScriptFails : bool;
  (** [page.goto] rejects with this cause *)
  gotoError : option string;
  (** [waitForFunction] sees [window.axe] within its bound *)
  axeLoads : bool;
  (** [waitForLoadState('networkidle')] is fulfilled *)
  networkIdle : bool;
  (** [waitForTimeout(1000)] is fulfilled *)
  timeoutElapses : bool;
  (** [page.close()] rejects *)
  closeFails : bool;
  (** [page.evaluate] of a checker's scan, given the threshold the checker
      passes to it; [None] when the call rejects *)
  evaluate : CheckType -> option Q -> option (list Raw.t);
  (** the instant at which that call settles *)
  evaluateSettles : CheckType -> nat;
  (** [generateIssueId()] for the n-th finding of a checker *)
  issueId : CheckType -> nat -> string;
  (** [Date.now() - startTime] in a checker *)
  checkerDuration : CheckType -> nat;
  (** the instant at which the whole check of this page settles *)
  settles : nat;
  (** [new Date()] and [Date.now() - startTime] in [checkPage] *)
  timestamp : nat;
  duration : nat;
}.
End Dom.

Record World := {
  browse : string -> Dom.t;
  chromiumLaunchFails : bool;
  newContextFails : bool;
  contextCloseFails : bool;
  browserCloseFails : bool;
  reporterFails : Format.t -> bool;
  reporterSettles : Format.t -> nat;
  runTimestamp : nat;
  runDuration : nat;
}.

(** ** Errors, calls and the [Run] monad *)

Inductive Error :=
| LaunchError
| SessionError
| NewPageError
| InitScriptError
| NavigationError (url cause : string)
| StabilizationError
| CheckerError (type : CheckType)
| PageCloseError
| ReporterError (format : Format.t)
| TeardownError.

Inductive Result (A : Type) :=
| Ok (value : A)
| Err (reason : Error).
Arguments Ok {A} value.
Arguments Err {A} reason.

(** The external calls a run makes, in the order it makes them. *)
Inductive Event :=
| EvLaunch
| EvNewContext
| EvNewPage
| EvAddInitScript
| EvGoto (url : string)
| EvWaitAxe
| EvWaitLoadState
| EvWaitTimeout
| EvEvaluate (type : CheckType)
| EvEvaluated (type : CheckType)
| EvPageClose
| EvMkdir (dir : string)
| EvGenerate (format : Format.t)
| EvContextClose
| EvBrowserClose.

Inductive Browser := BrowserHandle.
Inductive BrowserContext := ContextHandle.
Inductive Page := PageHandle.

Module BrowserManager.
Record t := {
  browser : option Browser;
  context : option BrowserContext;
}.
End BrowserManager.
Abbreviation BrowserManager := BrowserManager.t.

(** A computation reads and writes the session manager, returns or throws,
    and makes external calls. *)
Definition Run (A : Type) : Type :=
  BrowserManager -> Result A * BrowserManager * list Event.

Definition ret {A} (a : A) : Run A := fun mgr => (Ok a, mgr, []).

Definition throw {A} (e : Error) : Run A := fun mgr => (Err e, mgr, []).

Definition bind {A B} (m : Run A) (k : A -> Run B) : Run B := fun mgr =>
  match m mgr with
  | (Ok a, mgr1, evs1) =>
      match k a mgr1 with
      | (r, mgr2, evs2) => (r, mgr2, evs1 ++ evs2)
      end
  | (Err e, mgr1, evs1) => (Err e, mgr1, evs1)
  end.

Notation "'let*' x := m 'in' k" := (bind m (fun x => k))
  (at level 10, x pattern, m at level 100, k at level 200).

Definition emit (ev : Event) : Run unit := fun mgr => (Ok (), mgr, [ev]).

Definition get : Run BrowserManager := fun mgr => (Ok mgr, mgr, []).

Definition put (mgr : BrowserManager) : Run unit := fun _ => (Ok (), mgr, []).

(** An awaited external call that may reject. *)
Definition external (ev : Event) (fails : bool) (e : Error) : Run unit :=
  let* _ := emit ev in
  if fails then throw e else ret ().

(** [try { body } finally { cleanup }]: the cleanup always runs; what it
    throws replaces the outcome of the body. *)
Definition try_finally {A} (body : Run A) (cleanup : Run unit) : Run A := fun mgr =>
  match body mgr with
  | (r, mgr1, evs1) =>
      match cleanup mgr1 with
      | (Ok _, mgr2, evs2) => (r, mgr2, evs1 ++ evs2)
      | (Err e, mgr2, evs2) => (Err e, mgr2, evs1 ++ evs2)
      end
  end.

(** ** Promises *)

(** A started asynchronous call: the calls it made before its first
    suspension, the instant it settles, how it settles, and the calls it
    made in between, which a run records when the task settles. *)
Record Task (A : Type) := {
  started : list Event;
  settles : nat;
  outcome : Result A;
  settled : list Event;
}.
Arguments started {A} _.
Arguments settles {A} _.
Arguments outcome {A} _.
Arguments settled {A} _.

(** Calling an [async] function whose body is [const x = await call; rest],
    [call] being what runs up to the first suspension.  The tasks started
    in this program read the session manager and never write it. *)
Definition spawn {X A} (call : Run X) (rest : X -> Run A) (instant : nat)
    (mgr : BrowserManager) : Task A :=
  match call mgr with
  | (Ok x, mgr1, evs1) =>
      match rest x mgr1 with
      | (r, _, evs2) =>
          {| started := evs1; settles := instant; outcome := r; settled := evs2 |}
      end
  | (Err e, _, evs1) =>
      {| started := evs1; settles := instant; outcome := Err e; settled := [] |}
  end.

Definition settlesBefore {A} (x y : nat * Task A) : Prop :=
  (settles x.2 < settles y.2)%nat \/
  (settles x.2 = settles y.2 /\ (x.1 <= y.1)%nat).

#[global] Instance settlesBefore_dec {A} (x y : nat * Task A) :
  Decision (settlesBefore x y).
Proof. unfold settlesBefore. apply _. Defined.

(** The order in which the tasks settle: by increasing instant, and among
    tasks that settle at the same instant the one started first. *)
Definition settleOrder {A} (tasks : list (Task A)) : list (nat * Task A) :=
  merge_sort settlesBefore (imap pair tasks).

(** The reactions of [Promise.all] to its inputs settling one after the
    other: a fulfilment stores the value at the index of its promise, the
    first rejection rejects the whole. *)
Fixpoint settleAll {A} (order : list (nat * Task A)) (values : list (option A))
    : Result (list (option A)) * list Event :=
  match order with
  | [] => (Ok values, [])
  | (index, task) :: rest =>
      match outcome task with
      | Err reason => (Err reason, settled task)
      | Ok value =>
          match settleAll rest (<[index := Some value]> values) with
          | (r, evs) => (r, settled task ++ evs)
          end
      end
  end.

(** [Promise.all(tasks)].  When the last input has settled every slot of
    the values array is filled (lemma [stored_all]), so reading the array
    back with [omap] drops nothing.  After a rejection the inputs that are
    still pending are no longer awaited, and what they go on to do is not
    recorded. *)
Definition Promise_all {A} (tasks : list (Task A)) : Result (list A) * list Event :=
  match settleAll (settleOrder tasks) (replicate (length tasks) None) with
  | (Ok values, evs) => (Ok (omap id values), (tasks ≫= started) ++ evs)
  | (Err reason, evs) => (Err reason, (tasks ≫= started) ++ evs)
  end.

(** [await Promise.all(array.map(f))]. *)
Definition await_all {A} (tasks : list (BrowserManager -> Task A)) : Run (list A) :=
  fun mgr =>
    match Promise_all (map (fun task => task mgr) tasks) with
    | (r, evs) => (r, mgr, evs)
    end.

(** ** The checkers ([checkers/*.ts]) *)

Module Checker.
Record t := {
  type : CheckType;
  check : Dom.t -> HealthCheckConfig -> Task CheckerResult;
}.
End Checker.
Abbreviation AccessibilityChecker := Checker.t.

(** The frame every [check] method shares:
    [const issues = await page.evaluate(scan, threshold);
     const accessibilityIssues = issues.map(toIssue);
     return { type, issues: accessibilityIssues, duration }]. *)
Definition evaluateAndMap (type : CheckType) (page : Dom.t) (threshold : option Q)
    (toIssue : string -> Raw.t -> AccessibilityIssue) : Task CheckerResult :=
  {| started := [EvEvaluate type];
     settles := Dom.evaluateSettles page type;
     outcome :=
       match Dom.evaluate page type threshold with
       | Some issues =>
           Ok {| CheckerResult.type := type;
                 CheckerResult.issues :=
                   imap (fun n issue => toIssue (Dom.issueId page type n) issue) issues;
                 CheckerResult.duration := Dom.checkerDuration page type |}
       | None => Err (CheckerError type)
       end;
     settled := [EvEvaluated type] |}.

(** [issue.severity === 'error' ? Severity.ERROR : Severity.WARNING] *)
Definition errorOrWarning (severity : string) : Severity :=
  if String.eqb severity "error" then Severity.ERROR else Severity.WARNING.

Definition AltTextChecker : AccessibilityChecker :=
  {| Checker.type := CheckType.ALT_TEXT;
     Checker.check := fun page _config =>
       evaluateAndMap CheckType.ALT_TEXT page None (fun newId issue =>
         createAccessibilityIssue newId
           CheckType.ALT_TEXT
           (errorOrWarning (Raw.severity issue))
           WcagLevel.A
           (Raw.message issue)
           (Raw.description issue)
           (Raw.element issue)
           None
           (Raw.suggestedFix issue)) |}.

Definition ColorContrastChecker : AccessibilityChecker :=
  {| Checker.type := CheckType.COLOR_CONTRAST;
     Checker.check := fun page config =>
       evaluateAndMap CheckType.COLOR_CONTRAST page
         (Some (Config.colorContrastRatio (Config.thresholds config)))
         (fun newId issue =>
         createAccessibilityIssue newId
           CheckType.COLOR_CONTRAST
           (errorOrWarning (Raw.severity issue))
           (Config.wcagLevel config)
           (Raw.message issue)
           (Raw.description issue)
           (Raw.element issue)
           None
           (Raw.suggestedFix issue)) |}.

Definition HeadingStructureChecker : AccessibilityChecker :=
  {| Checker.type := CheckType.HEADING_STRUCTURE;
     Checker.check := fun page config =>
       evaluateAndMap CheckType.HEADING_STRUCTURE page
         (Some (Config.maxHeadingJump (Config.thresholds config)))
         (fun newId issue =>
         createAccessibilityIssue newId
           CheckType.HEADING_STRUCTURE
           (if String.eqb (Raw.severity issue) "error" then Severity.ERROR
            else if String.eqb (Raw.severity issue) "warning" then Severity.WARNING
            else Severity.INFO)
           WcagLevel.A
           (Raw.message issue)
           (Raw.description issue)
           (Raw.element issue)
           None
           (Raw.suggestedFix issue)) |}.

Definition AriaAttributesChecker : AccessibilityChecker :=
  {| Checker.type := CheckType.ARIA_ATTRIBUTES;
     Checker.check := fun page _config =>
       evaluateAndMap CheckType.ARIA_ATTRIBUTES page None (fun newId issue =>
         createAccessibilityIssue newId
           CheckType.ARIA_ATTRIBUTES
           (errorOrWarning (Raw.severity issue))
           WcagLevel.A
           (Raw.message issue)
           (Raw.description issue)
           (Raw.element issue)
           None
           (Raw.suggestedFix issue)) |}.

Definition FormLabelsChecker : AccessibilityChecker :=
  {| Checker.type := CheckType.FORM_LABELS;
     Checker.check := fun page _config =>
       evaluateAndMap CheckType.FORM_LABELS page None (fun newId issue =>
         createAccessibilityIssue newId
           CheckType.FORM_LABELS
           (errorOrWarning (Raw.severity issue))
           WcagLevel.A
           (Raw.message issue)
           (Raw.description issue)
           (Raw.element issue)
           None
           (Raw.suggestedFix issue)) |}.

(** [checkers/index.ts] *)
Definition ALL_CHECKERS : list AccessibilityChecker :=
  [AltTextChecker;
   ColorContrastChecker;
   HeadingStructureChecker;
   AriaAttributesChecker;
   FormLabelsChecker].

(** ** The session manager ([browser.ts]) *)

Definition launch (w : World) (_config : HealthCheckConfig) : Run unit :=
  let* _ := external EvLaunch (chromiumLaunchFails w) LaunchError in
  let* this := get in
  let* _ := put {| BrowserManager.browser := Some BrowserHandle;
                   BrowserManager.context := BrowserManager.context this |} in
  let* _ := external EvNewContext (newContextFails w) LaunchError in
  let* this := get in
  put {| BrowserManager.browser := BrowserManager.browser this;
         BrowserManager.context := Some ContextHandle |}.

(** [createPage] up to its first suspension: the test of the context and
    [await this.context.newPage()].  [page] is the page the call opens. *)
Definition openPage (page : Dom.t) : Run Page :=
  let* this := get in
  match BrowserManager.context this with
  | None => throw SessionError
  | Some _ =>
      let* _ := external EvNewPage (Dom.newPageFails page) NewPageError in
      ret PageHandle
  end.

(** The rest of [createPage]: [await page.addInitScript(...); return page]. *)
Definition injectAxe (page : Dom.t) (opened : Page) : Run Page :=
  let* _ := external EvAddInitScript (Dom.addInitScriptFails page) InitScriptError in
  ret opened.

Definition createPage (page : Dom.t) : Run Page :=
  let* opened := openPage page in
  injectAxe page opened.

Definition close (w : World) : Run unit :=
  let* this := get in
  let* _ :=
    match BrowserManager.context this with
    | Some _ =>
        let* _ := external EvContextClose (contextCloseFails w) TeardownError in
        put {| BrowserManager.browser := BrowserManager.browser this;
               BrowserManager.context := None |}
    | None => ret ()
    end in
  let* this := get in
  match BrowserManager.browser this with
  | Some _ =>
      let* _ := external EvBrowserClose (browserCloseFails w) TeardownError in
      put {| BrowserManager.browser := None;
             BrowserManager.context := BrowserManager.context this |}
  | None => ret ()
  end.

Definition isLaunched (this : BrowserManager) : bool :=
  bool_decide (BrowserManager.browser this <> None) &&
  bool_decide (BrowserManager.context this <> None).

(** [PageAnalyzer.waitForAccessibilityTree]: three awaited calls, each of
    which may reject. *)
Definition waitForAccessibilityTree (page : Dom.t) : Run unit :=
  let* _ := external EvWaitAxe (negb (Dom.axeLoads page)) StabilizationError in
  let* _ := external EvWaitLoadState (negb (Dom.networkIdle page)) StabilizationError in
  external EvWaitTimeout (negb (Dom.timeoutElapses page)) StabilizationError.

(** [page.close()] *)
Definition page_close (page : Dom.t) : Run unit :=
  external EvPageClose (Dom.closeFails page) PageCloseError.

(** ** The orchestrator ([health-checker.ts]) *)

(** [Array.prototype.slice]: an index below zero counts from the end, and
    both ends are clamped to the array. *)
Definition relativeIndex (len i : Z) : Z :=
  if i <? 0 then Z.max (len + i) 0 else Z.min i len.

Definition slice {T} (array : list T) (start final : Z) : list T :=
  let len := Z.of_nat (length array) in
  let k := relativeIndex len start in
  take (Z.to_nat (relativeIndex len final - k)) (drop (Z.to_nat k) array).

(** The loop of [chunkArray], [for (let i = 0; i < array.length; i +=
    chunkSize) chunks.push(array.slice(i, i + chunkSize))], as a condition
    and a body on the pair of [i] and [chunks]. *)
Definition loopCondition {T} (array : list T) (st : Z * list (list T)) : bool :=
  st.1 <? Z.of_nat (length array).

Definition loopBody {T} (array : list T) (chunkSize : Z)
    (st : Z * list (list T)) : Z * list (list T) :=
  (st.1 + chunkSize, st.2 ++ [slice array st.1 (st.1 + chunkSize)]).

(** The loop run for at most [fuel] tests of its condition; [None] when
    the fuel runs out before the condition fails. *)
Fixpoint forLoop {T} (fuel : nat) (array : list T) (chunkSize : Z)
    (st : Z * list (list T)) : option (list (list T)) :=
  match fuel with
  | O => None
  | S fuel' =>
      if loopCondition array st
      then forLoop fuel' array chunkSize (loopBody array chunkSize st)
      else Some st.2
  end.

Definition chunkArray {T} (fuel : nat) (array : list T) (chunkSize : Z)
    : option (list (list T)) :=
  forLoop fuel array chunkSize (0, []).

Definition isWcagCompliant (issues : list AccessibilityIssue) (level : WcagLevel) : bool :=
  negb (existsb (fun issue =>
          bool_decide (Issue.wcagLevel issue = level) &&
          bool_decide (Issue.severity issue = Severity.ERROR)) issues).

(** The filter of [checkPage] over the registry. *)
Definition enabledCheckers (config : HealthCheckConfig) : list AccessibilityChecker :=
  filter (fun checker =>
            Checker.type checker ∈ Config.enabled (Config.checks config) /\
            Checker.type checker ∉ Config.disabled (Config.checks config))
         ALL_CHECKERS.

Definition checkPage (w : World) (config : HealthCheckConfig)
    (_page : Page) (url : string) : Run PageHealthReport :=
  let page := browse w url in
  let* _ := emit (EvGoto url) in
  let* _ :=
    match Dom.gotoError page with
    | Some error => throw (NavigationError url error)
    | None => ret ()
    end in
  let* _ := waitForAccessibilityTree page in
  let* checkerResults :=
    await_all (map (fun checker _ => Checker.check checker page config)
                   (enabledCheckers config)) in
  let allIssues := checkerResults ≫= CheckerResult.issues in
  let issuesBySeverity :=
    {| BySeverity.error :=
         length (filter (fun issue => Issue.severity issue = Severity.ERROR) allIssues);
       BySeverity.warning :=
         length (filter (fun issue => Issue.severity issue = Severity.WARNING) allIssues);
       BySeverity.info :=
         length (filter (fun issue => Issue.severity issue = Severity.INFO) allIssues) |} in
  let issuesByType :=
    foldl (fun acc type =>
             <[CheckType.value type :=
                 length (filter (fun issue => Issue.type issue = type) allIssues)]> acc)
          (∅ : gmap string nat) CheckType.values in
  let wcagCompliance :=
    {| Compliance.A := isWcagCompliant allIssues WcagLevel.A;
       Compliance.AA := isWcagCompliant allIssues WcagLevel.AA;
       Compliance.AAA := isWcagCompliant allIssues WcagLevel.AAA |} in
  let score := calculateScore allIssues in
  ret {| PageReport.url := url;
         PageReport.timestamp := Dom.timestamp page;
         PageReport.duration := Dom.duration page;
         PageReport.totalIssues := length allIssues;
         PageReport.issuesBySeverity := issuesBySeverity;
         PageReport.issuesByType := issuesByType;
         PageReport.wcagCompliance := wcagCompliance;
         PageReport.issues := allIssues;
         PageReport.score := score |}.

(** [if (!this.browserManager.isLaunched()) await this.browserManager.launch(this.config)] *)
Definition ensureLaunched (w : World) (config : HealthCheckConfig) : Run unit :=
  let* browserManager := get in
  if isLaunched browserManager then ret () else launch w config.

Definition checkUrl (w : World) (config : HealthCheckConfig) (url : string)
    : Run PageHealthReport :=
  let* _ := ensureLaunched w config in
  let* page := createPage (browse w url) in
  try_finally (checkPage w config page url) (page_close (browse w url)).

(** ** The console reporter (class [ConsoleReporter] of [reporters/]) *)

(** [Array.prototype.sort(compareFn)], which sorts in place and is stable:
    an element is moved behind the elements it compares greater than, and
    stays in front of those it compares equal to. *)
Fixpoint Array_sort_insert {T} (compareFn : T -> T -> Z) (x : T) (sorted : list T)
    : list T :=
  match sorted with
  | [] => [x]
  | y :: rest =>
      if 0 <? compareFn x y
      then y :: Array_sort_insert compareFn x rest
      else x :: sorted
  end.

Definition Array_sort {T} (compareFn : T -> T -> Z) (array : list T) : list T :=
  foldr (Array_sort_insert compareFn) [] array.

(** The object literal [{ error: 3, warning: 2, info: 1 }] of
    [renderPageReport]. *)
Definition severityWeight (s : Severity) : Z :=
  match s with
  | Severity.ERROR => 3
  | Severity.WARNING => 2
  | Severity.INFO => 1
  end.

(** The comparison function [renderPageReport] sorts with. *)
Definition bySeverity (a b : AccessibilityIssue) : Z :=
  severityWeight (Issue.severity b) - severityWeight (Issue.severity a).

(** What [renderPageReport] does to the page report it is given and which
    issues it lists: with at least one issue,
    [page.issues.sort((a, b) => severityWeight[b.severity] -
    severityWeight[a.severity]).slice(0, 3)].  The sort is in place, so
    the page report holds the sorted array afterwards.  The lines written
    to the console are not part of the model. *)
Definition renderPageReport (page : PageHealthReport)
    : PageHealthReport * list AccessibilityIssue :=
  let issueCount := PageReport.totalIssues page in
  if bool_decide (0 < issueCount)%nat then
    let sorted :=
      Array_sort bySeverity (PageReport.issues page) in
    let topIssues := slice sorted 0 3 in
    ({| PageReport.url := PageReport.url page;
        PageReport.timestamp := PageReport.timestamp page;
        PageReport.duration := PageReport.duration page;
        PageReport.totalIssues := PageReport.totalIssues page;
        PageReport.issuesBySeverity := PageReport.issuesBySeverity page;
        PageReport.issuesByType := PageReport.issuesByType page;
        PageReport.wcagCompliance := PageReport.wcagCompliance page;
        PageReport.issues := sorted;
        PageReport.score := PageReport.score page |},
     topIssues)
  else (page, []).

(** The report object after [ConsoleReporter.generate(report)], which
    calls [renderPageReport] on every page of the report in turn. *)
Definition ConsoleReporter_generate (report : HealthCheckReport) : HealthCheckReport :=
  {| Report.summary := Report.summary report;
     Report.pages := map (fun page => (renderPageReport page).1) (Report.pages report);
     Report.configuration := Report.configuration report |}.

(** ** The reporters as [generateReports] uses them *)

(** The promise of one reporter's [generate(report)].  What the reporter
    writes is not part of the model; what the console reporter does to the
    report object it is given is [ConsoleReporter_generate]. *)
Definition generate (w : World) (format : Format.t) (_report : HealthCheckReport)
    (_ : BrowserManager) : Task unit :=
  {| started := [EvGenerate format];
     settles := reporterSettles w format;
     outcome := if reporterFails w format then Err (ReporterError format) else Ok ();
     settled := [] |}.

(** [generateReports].  The directory is made first, whatever the formats,
    and a rejection of [fs.mkdir] is caught and dropped.  The console
    reporter has no [await]: its call sorts the issues of the pages before
    the other reporters are called with the same object, and the caller
    holds that object too, so the run returns the report as this call
    leaves it. *)
Definition generateReports (w : World) (config : HealthCheckConfig)
    (report : HealthCheckReport) : Run HealthCheckReport :=
  let formats := Config.format (Config.output config) in
  let outputDir := or_else (Config.outputDir (Config.output config)) "./reports" in
  let* _ := emit (EvMkdir outputDir) in
  let rendered :=
    if bool_decide (Format.console ∈ formats)
    then ConsoleReporter_generate report else report in
  let reportPromises :=
    (if bool_decide (Format.console ∈ formats)
     then [generate w Format.console report] else []) ++
    (if bool_decide (Format.json ∈ formats)
     then [generate w Format.json rendered] else []) ++
    (if bool_decide (Format.html ∈ formats)
     then [generate w Format.html rendered] else []) in
  let* _ := await_all reportPromises in
  ret rendered.

(** The async arrow function mapped over a chunk:
    [async (url) => { const page = await createPage();
                      try { return await checkPage(page, url) }
                      finally { await page.close() } }]. *)
Definition checkInNewPage (w : World) (config : HealthCheckConfig) (url : string)
    : BrowserManager -> Task PageHealthReport :=
  spawn (openPage (browse w url))
        (fun opened =>
           let* page := injectAxe (browse w url) opened in
           try_finally (checkPage w config page url) (page_close (browse w url)))
        (Dom.settles (browse w url)).

(** One turn of the loop over the chunks: a page check is started for every
    URL of the chunk and all of them are awaited together. *)
Definition checkChunk (w : World) (config : HealthCheckConfig) (chunk : list string)
    : Run (list PageHealthReport) :=
  await_all (map (checkInNewPage w config) chunk).

(** [for (const chunk of chunks) { ...; pageReports.push(...chunkResults) }] *)
Fixpoint forChunks (w : World) (config : HealthCheckConfig)
    (chunks : list (list string)) (pageReports : list PageHealthReport)
    : Run (list PageHealthReport) :=
  match chunks with
  | [] => ret pageReports
  | chunk :: chunks' =>
      let* chunkResults := checkChunk w config chunk in
      forChunks w config chunks' (pageReports ++ chunkResults)
  end.

(** The [try] block of [checkUrls] from the loop onwards. *)
Definition checkChunks (w : World) (config : HealthCheckConfig)
    (chunks : list (list string)) : Run HealthCheckReport :=
  let* pageReports := forChunks w config chunks [] in
  let duration := runDuration w in
  let totalIssues :=
    foldl (fun sum page => (sum + PageReport.totalIssues page)%nat) 0%nat pageReports in
  let overallScore :=
    if bool_decide (0 < length pageReports)%nat
    then
      let total := foldl (fun sum page => sum + PageReport.score page) 0 pageReports in
      Math_round (inject_Z total / inject_Z (Z.of_nat (length pageReports)))%Q
    else 100 in
  let report :=
    {| Report.summary :=
         {| Summary.totalPages := length pageReports;
            Summary.totalIssues := totalIssues;
            Summary.overallScore := overallScore;
            Summary.timestamp := runTimestamp w;
            Summary.duration := duration |};
       Report.pages := pageReports;
       Report.configuration := config |} in
  let* report := generateReports w config report in
  ret report.

(** [checkUrls].  The session is launched outside the [try]; inside it the
    URL list is chunked first, and when that loop does not end within
    [fuel] tests of its condition the call has no outcome. *)
Definition checkUrls (fuel : nat) (w : World) (config : HealthCheckConfig)
    (urls : list string) (mgr : BrowserManager)
    : option (Result HealthCheckReport * BrowserManager * list Event) :=
  match ensureLaunched w config mgr with
  | (Err e, mgr1, evs1) => Some (Err e, mgr1, evs1)
  | (Ok _, mgr1, evs1) =>
      match chunkArray fuel urls (Config.concurrent config) with
      | None => None
      | Some chunks =>
          match try_finally (checkChunks w config chunks) (close w) mgr1 with
          | (r, mgr2, evs2) => Some (r, mgr2, evs1 ++ evs2)
          end
      end
  end.

(** ** Vocabulary of the statements *)

(** What [checkUrl] and the function mapped over a chunk have in common:
    [const page = await createPage();
     try { return await checkPage(page, url) } finally { await page.close() }]. *)
Definition checkInPage (w : World) (config : HealthCheckConfig) (url : string)
    : Run PageHealthReport :=
  let* page := createPage (browse w url) in
  try_finally (checkPage w config page url) (page_close (browse w url)).

(** The three waits of [waitForAccessibilityTree] are fulfilled on a
    page. *)
Definition stabilizes (page : Dom.t) : bool :=
  Dom.axeLoads page && Dom.networkIdle page && Dom.timeoutElapses page.

(** The calls of [waitForAccessibilityTree] on a page: each wait is made
    when the one before it was fulfilled. *)
Definition waitEvents (page : Dom.t) : list Event :=
  EvWaitAxe ::
  (if Dom.axeLoads page
   then EvWaitLoadState :: (if Dom.networkIdle page then [EvWaitTimeout] else [])
   else []).

(** The sum of the severity weights of a list of issues. *)
Definition penalty (issues : list AccessibilityIssue) : Z :=
  foldr (fun issue acc => weights (Issue.severity issue) + acc) 0 issues.

(** The value a task is fulfilled with, if it is. *)
Definition fulfilment {A} (task : Task A) : option A :=
  match outcome task with
  | Ok value => Some value
  | Err _ => None
  end.

(** The values array after the fulfilments of [order] have been stored. *)
Definition stored {A} (values : list (option A)) (order : list (nat * Task A))
    : list (option A) :=
  foldl (fun vs x => match outcome x.2 with
                     | Ok value => <[x.1 := Some value]> vs
                     | Err _ => vs
                     end) values order.

(** The sum of the counts held by a [Record<CheckType, number>]. *)
Definition bucketTotal (m : gmap string nat) : nat :=
  map_fold (fun _ count acc => (count + acc)%nat) 0%nat m.

(** The object the reduction over [Object.values(CheckType)] builds when
    the count it stores for a type is [count type]. *)
Definition byType (count : CheckType -> nat) : gmap string nat :=
  foldl (fun acc type => <[CheckType.value type := count type]> acc)
        ∅ CheckType.values.

(** [configure({ wcagLevel: level })] on a configuration. *)
Definition configure_wcagLevel (level : WcagLevel) (config : HealthCheckConfig)
    : HealthCheckConfig :=
  {| Config.wcagLevel := level;
     Config.checks := Config.checks config;
     Config.thresholds := Config.thresholds config;
     Config.output := Config.output config;
     Config.browser := Config.browser config;
     Config.timeout := Config.timeout config;
     Config.concurrent := Config.concurrent config |}.

(** A list of chunks of size [chunkSize]: none is empty or longer than
    [chunkSize], and all but the last have exactly that size. *)
Definition wellChunked {T} (chunkSize : Z) (chunks : list (list T)) : Prop :=
  (forall k chunk, chunks !! k = Some chunk -> (S k < length chunks)%nat ->
     Z.of_nat (length chunk) = chunkSize) /\
  (forall chunk, chunk ∈ chunks ->
     (0 < length chunk)%nat /\ Z.of_nat (length chunk) <= chunkSize).

(** What holds of [i] and [chunks] each time the loop of [chunkArray]
    tests its condition. *)
Definition chunking_invariant {T} (array : list T) (chunkSize : Z)
    (st : Z * list (list T)) : Prop :=
  st.1 = chunkSize * Z.of_nat (length st.2) /\
  concat st.2 = take (Z.to_nat st.1) array /\
  wellChunked chunkSize st.2 /\
  (st.1 <= Z.of_nat (length array) ->
   Forall (fun chunk => Z.of_nat (length chunk) = chunkSize) st.2).

(** The errors raised inside the [try] block of [checkUrls]: those of a
    page check, with the opening and the closing of its page, and those of
    a reporter. *)
Definition fromPageCheckOrReporter (e : Error) : Prop :=
  match e with
  | SessionError | NewPageError | InitScriptError | NavigationError _ _
  | StabilizationError | CheckerError _ | PageCloseError | ReporterError _ => True
  | LaunchError | TeardownError => False
  end.

(** The report [checkPage] builds from the results of the checkers. *)
Definition pageReport (page : Dom.t) (url : string)
    (checkerResults : list CheckerResult) : PageHealthReport :=
  let allIssues := checkerResults ≫= CheckerResult.issues in
  {| PageReport.url := url;
     PageReport.timestamp := Dom.timestamp page;
     PageReport.duration := Dom.duration page;
     PageReport.totalIssues := length allIssues;
     PageReport.issuesBySeverity :=
       {| BySeverity.error :=
            length (filter (fun issue => Issue.severity issue = Severity.ERROR) allIssues);
          BySeverity.warning :=
            length (filter (fun issue => Issue.severity issue = Severity.WARNING) allIssues);
          BySeverity.info :=
            length (filter (fun issue => Issue.severity issue = Severity.INFO) allIssues) |};
     PageReport.issuesByType :=
       byType (fun type =>
                 length (filter (fun issue => Issue.type issue = type) allIssues));
     PageReport.wcagCompliance :=
       {| Compliance.A := isWcagCompliant allIssues WcagLevel.A;
          Compliance.AA := isWcagCompliant allIssues WcagLevel.AA;
          Compliance.AAA := isWcagCompliant allIssues WcagLevel.AAA |};
     PageReport.issues := allIssues;
     PageReport.score := calculateScore allIssues |}.

(** A world that differs from [w] in nothing but the instants at which the
    page checks, the scans of the checkers and the reporters settle. *)
Definition reschedule (pageAt : string -> nat) (scanAt : string -> CheckType -> nat)
    (reportAt : Format.t -> nat) (w : World) : World :=
  {| browse := fun url =>
       {| Dom.newPageFails := Dom.newPageFails (browse w url);
          Dom.addInitScriptFails := Dom.addInitScriptFails (browse w url);
          Dom.gotoError := Dom.gotoError (browse w url);
          Dom.axeLoads := Dom.axeLoads (browse w url);
          Dom.networkIdle := Dom.networkIdle (browse w url);
          Dom.timeoutElapses := Dom.timeoutElapses (browse w url);
          Dom.closeFails := Dom.closeFails (browse w url);
          Dom.evaluate := Dom.evaluate (browse w url);
          Dom.evaluateSettles := scanAt url;
          Dom.issueId := Dom.issueId (browse w url);
          Dom.checkerDuration := Dom.checkerDuration (browse w url);
          Dom.settles := pageAt url;
          Dom.timestamp := Dom.timestamp (browse w url);
          Dom.duration := Dom.duration (browse w url) |};
     chromiumLaunchFails := chromiumLaunchFails w;
     newContextFails := newContextFails w;
     contextCloseFails := contextCloseFails w;
     browserCloseFails := browserCloseFails w;
     reporterFails := reporterFails w;
     reporterSettles := reportAt;
     runTimestamp := runTimestamp w;
     runDuration := runDuration w |}.

(** The isolation of a failing checker as the specification words it: when
    exactly one enabled checker throws, the page check still returns, and
    its report holds exactly the issues of the other checkers. *)
Definition soft_failure_isolated : Prop :=
  forall w config p url mgr checker,
    Dom.gotoError (browse w url) = None ->
    Dom.axeLoads (browse w url) = true ->
    Dom.networkIdle (browse w url) = true ->
    Dom.timeoutElapses (browse w url) = true ->
    checker ∈ enabledCheckers config ->
    fulfilment (Checker.check checker (browse w url) config) = None ->
    (forall other, other ∈ enabledCheckers config ->
       Checker.type other <> Checker.type checker ->
       is_Some (fulfilment (Checker.check other (browse w url) config))) ->
    exists r mgr' evs,
      checkPage w config p url mgr = (Ok r, mgr', evs) /\
      PageReport.issues r =
        omap (fun other => fulfilment (Checker.check other (browse w url) config))
             (enabledCheckers config) ≫= CheckerResult.issues.

(** ** Sample worlds *)

Definition sampleFinding (severity : string) : Raw.t :=
  {| Raw.element := None;
     Raw.severity := severity;
     Raw.message := "Image missing alt attribute";
     Raw.description := "All images must have an alt attribute for screen readers";
     Raw.suggestedFix := Some "Add an alt attribute" |}.

(** A page with one image without [alt] and one low-contrast text; the
    alt-text scan is the last one to settle. *)
Definition samplePage (instant : nat) : Dom.t :=
  {| Dom.newPageFails := false;
     Dom.addInitScriptFails := false;
     Dom.gotoError := None;
     Dom.axeLoads := true;
     Dom.networkIdle := true;
     Dom.timeoutElapses := true;
     Dom.closeFails := false;
     Dom.evaluate := fun type _ =>
       match type with
       | CheckType.ALT_TEXT => Some [sampleFinding "error"]
       | CheckType.COLOR_CONTRAST => Some [sampleFinding "warning"]
       | _ => Some []
       end;
     Dom.evaluateSettles := fun type =>
       match type with CheckType.ALT_TEXT => 5%nat | _ => 1%nat end;
     Dom.issueId := fun _ _ => "issue-1700000000000-abc123xyz";
     Dom.checkerDuration := fun _ => 3%nat;
     Dom.settles := instant;
     Dom.timestamp := 0%nat;
     Dom.duration := 7%nat |}.

(** The same page, except that the DOM scan of the alt-text checker throws. *)
Definition brokenScanPage : Dom.t :=
  {| Dom.newPageFails := false;
     Dom.addInitScriptFails := false;
     Dom.gotoError := None;
     Dom.axeLoads := true;
     Dom.networkIdle := true;
     Dom.timeoutElapses := true;
     Dom.closeFails := false;
     Dom.evaluate := fun type threshold =>
       match type with
       | CheckType.ALT_TEXT => None
       | _ => Dom.evaluate (samplePage 0) type threshold
       end;
     Dom.evaluateSettles := Dom.evaluateSettles (samplePage 0);
     Dom.issueId := Dom.issueId (samplePage 0);
     Dom.checkerDuration := Dom.checkerDuration (samplePage 0);
     Dom.settles := 0%nat;
     Dom.timestamp := 0%nat;
     Dom.duration := 7%nat |}.

(** A world in which every Playwright call and every reporter succeeds and
    a page settles the earlier the longer its URL is, so that in a chunk
    in which the URLs grow the last page is the first to finish. *)
Definition sampleWorld : World :=
  {| browse := fun url =>
       if String.eqb url "https://broken.example"
       then brokenScanPage
       else samplePage (100 - String.length url);
     chromiumLaunchFails := false;
     newContextFails := false;
     contextCloseFails := false;
     browserCloseFails := false;
     reporterFails := fun _ => false;
     reporterSettles := fun _ => 0%nat;
     runTimestamp := 0%nat;
     runDuration := 42%nat |}.

Definition unlaunched : BrowserManager :=
  {| BrowserManager.browser := None; BrowserManager.context := None |}.

(** The default configuration with two page checks at a time. *)
Definition twoAtATime : HealthCheckConfig :=
  {| Config.wcagLevel := WcagLevel.AA;
     Config.checks := Config.checks DEFAULT_CONFIG;
     Config.thresholds := Config.thresholds DEFAULT_CONFIG;
     Config.output := Config.output DEFAULT_CONFIG;
     Config.browser := Config.browser DEFAULT_CONFIG;
     Config.timeout := 30000;
     Config.concurrent := 2 |}.

(** The default configuration with a concurrency limit of zero. *)
Definition noneAtATime : HealthCheckConfig :=
  {| Config.wcagLevel := WcagLevel.AA;
     Config.checks := Config.checks DEFAULT_CONFIG;
     Config.thresholds := Config.thresholds DEFAULT_CONFIG;
     Config.output := Config.output DEFAULT_CONFIG;
     Config.browser := Config.browser DEFAULT_CONFIG;
     Config.timeout := 30000;
     Config.concurrent := 0 |}.

(** The default configuration with the alt-text checker both enabled and
    disabled. *)
Definition altTextBothWays : HealthCheckConfig :=
  {| Config.wcagLevel := WcagLevel.AA;
     Config.checks :=
       {| Config.enabled := CheckType.values;
          Config.disabled := [CheckType.ALT_TEXT] |};
     Config.thresholds := Config.thresholds DEFAULT_CONFIG;
     Config.output := Config.output DEFAULT_CONFIG;
     Config.browser := Config.browser DEFAULT_CONFIG;
     Config.timeout := 30000;
     Config.concurrent := 3 |}.

Definition sampleIssue (severity : Severity) (level : WcagLevel) : AccessibilityIssue :=
  createAccessibilityIssue "issue-1700000000000-abc123xyz" CheckType.ALT_TEXT
    severity level "Image missing alt attribute"
    "All images must have an alt attribute for screen readers" None None None.

Definition sampleUrls : list string :=
  ["https://a.example"; "https://bb.example"; "https://ccc.example";
   "https://dddd.example"; "https://eeeee.example"].

(** The URLs a sequence of calls navigates to, in order. *)
Definition navigations (evs : list Event) : list string :=
  omap (fun ev => match ev with EvGoto url => Some url | _ => None end) evs.

(** The checker types whose scan a sequence of calls starts, in order. *)
Definition evaluations (evs : list Event) : list CheckType :=
  omap (fun ev => match ev with EvEvaluate type => Some type | _ => None end) evs.

(** * Further vocabulary *)

(** A session manager never holds a context without the browser it was
    made in. *)
Definition sessionConsistent (mgr : BrowserManager) : Prop :=
  BrowserManager.context mgr <> None -> BrowserManager.browser mgr <> None.

#[global] Instance Error_eq_dec : EqDecision Error.
Proof. solve_decision. Defined.

#[global] Instance Event_eq_dec : EqDecision Event.
Proof. solve_decision. Defined.

(** The calls on a page that the check of one URL can make: opening the
    page, adding the init script, the navigation to the URL, the three
    waits, the scans of checkers and closing the page. *)
Definition pageCall (url : string) (ev : Event) : Prop :=
  ev ∈ [EvNewPage; EvAddInitScript; EvGoto url; EvWaitAxe;
        EvWaitLoadState; EvWaitTimeout; EvPageClose] \/
  exists type, ev = EvEvaluate type \/ ev = EvEvaluated type.

(** The calls of a sequence that start the browser or a context. *)
Definition launches (evs : list Event) : list Event :=
  filter (fun ev => ev = EvLaunch \/ ev = EvNewContext) evs.

(** The reporters a sequence of calls starts, in order. *)
Definition generations (evs : list Event) : list Format.t :=
  omap (fun ev => match ev with EvGenerate format => Some format | _ => None end) evs.

(** The reporters [generateReports] starts for a configuration: the tests
    [formats.includes('console')], [formats.includes('json')] and
    [formats.includes('html')], in that order. *)
Definition configuredFormats (config : HealthCheckConfig) : list Format.t :=
  filter (fun format => format ∈ Config.format (Config.output config))
         [Format.console; Format.json; Format.html].

(** The errors of a page check, with the opening and the closing of its
    page. *)
Definition fromPageCheck (e : Error) : Prop :=
  match e with
  | SessionError | NewPageError | InitScriptError | NavigationError _ _
  | StabilizationError | CheckerError _ | PageCloseError => True
  | LaunchError | ReporterError _ | TeardownError => False
  end.

(** A world in which the browser starts and making a context fails. *)
Definition noContext : World :=
  {| browse := browse sampleWorld;
     chromiumLaunchFails := false;
     newContextFails := true;
     contextCloseFails := false;
     browserCloseFails := false;
     reporterFails := fun _ => false;
     reporterSettles := fun _ => 0%nat;
     runTimestamp := 0%nat;
     runDuration := 42%nat |}.

(** The sample world with one page served for every URL. *)
Definition serving (page : Dom.t) : World :=
  {| browse := fun _ => page;
     chromiumLaunchFails := false;
     newContextFails := false;
     contextCloseFails := false;
     browserCloseFails := false;
     reporterFails := fun _ => false;
     reporterSettles := fun _ => 0%nat;
     runTimestamp := 0%nat;
     runDuration := 42%nat |}.

(** The sample page, except that it does not take the init script. *)
Definition noInitPage : Dom.t :=
  {| Dom.newPageFails := false;
     Dom.addInitScriptFails := true;
     Dom.gotoError := None;
     Dom.axeLoads := true;
     Dom.networkIdle := true;
     Dom.timeoutElapses := true;
     Dom.closeFails := false;
     Dom.evaluate := Dom.evaluate (samplePage 0);
     Dom.evaluateSettles := Dom.evaluateSettles (samplePage 0);
     Dom.issueId := Dom.issueId (samplePage 0);
     Dom.checkerDuration := Dom.checkerDuration (samplePage 0);
     Dom.settles := 0%nat;
     Dom.timestamp := 0%nat;
     Dom.duration := 7%nat |}.

(** The sample page, except that closing it fails. *)
Definition noClosePage : Dom.t :=
  {| Dom.newPageFails := false;
     Dom.addInitScriptFails := false;
     Dom.gotoError := None;
     Dom.axeLoads := true;
     Dom.networkIdle := true;
     Dom.timeoutElapses := true;
     Dom.closeFails := true;
     Dom.evaluate := Dom.evaluate (samplePage 0);
     Dom.evaluateSettles := Dom.evaluateSettles (samplePage 0);
     Dom.issueId := Dom.issueId (samplePage 0);
     Dom.checkerDuration := Dom.checkerDuration (samplePage 0);
     Dom.settles := 0%nat;
     Dom.timestamp := 0%nat;
     Dom.duration := 7%nat |}.

(** The sample page, except that its network never gets idle. *)
Definition neverIdlePage : Dom.t :=
  {| Dom.newPageFails := false;
     Dom.addInitScriptFails := false;
     Dom.gotoError := None;
     Dom.axeLoads := true;
     Dom.networkIdle := false;
     Dom.timeoutElapses := true;
     Dom.closeFails := false;
     Dom.evaluate := Dom.evaluate (samplePage 0);
     Dom.evaluateSettles := Dom.evaluateSettles (samplePage 0);
     Dom.issueId := Dom.issueId (samplePage 0);
     Dom.checkerDuration := Dom.checkerDuration (samplePage 0);
     Dom.settles := 0%nat;
     Dom.timestamp := 0%nat;
     Dom.duration := 7%nat |}.

(** A world in which writing the JSON report fails. *)
Definition jsonFails : World :=
  {| browse := browse sampleWorld;
     chromiumLaunchFails := false;
     newContextFails := false;
     contextCloseFails := false;
     browserCloseFails := false;
     reporterFails := fun format => bool_decide (format = Format.json);
     reporterSettles := fun _ => 0%nat;
     runTimestamp := 0%nat;
     runDuration := 42%nat |}.

(** The default configuration with the formats listed twice and out of
    order. *)
Definition htmlTwiceThenConsole : HealthCheckConfig :=
  {| Config.wcagLevel := WcagLevel.AA;
     Config.checks := Config.checks DEFAULT_CONFIG;
     Config.thresholds := Config.thresholds DEFAULT_CONFIG;
     Config.output :=
       {| Config.format := [Format.html; Format.html; Format.console];
          Config.outputDir := None;
          Config.verbose := false |};
     Config.browser := Config.browser DEFAULT_CONFIG;
     Config.timeout := 30000;
     Config.concurrent := 2 |}.

(** Three URLs of which the second serves the page whose alt-text scan
    throws. *)
Definition brokenSecond : list string :=
  ["https://a.example"; "https://broken.example"; "https://ccc.example"].

(** The argument a checker passes to its DOM scan besides the scan itself:
    the contrast ratio, the largest heading jump, or nothing. *)
Definition scanArgument (config : HealthCheckConfig) (type : CheckType) : option Q :=
  match type with
  | CheckType.COLOR_CONTRAST => Some (Config.colorContrastRatio (Config.thresholds config))
  | CheckType.HEADING_STRUCTURE => Some (Config.maxHeadingJump (Config.thresholds config))
  | _ => None
  end.

(** A world in which [window.axe] never appears on a page. *)
Definition withoutAxe : World :=
  {| browse := fun url =>
       {| Dom.newPageFails := false;
          Dom.addInitScriptFails := false;
          Dom.gotoError := None;
          Dom.axeLoads := false;
          Dom.networkIdle := true;
          Dom.timeoutElapses := true;
          Dom.closeFails := false;
          Dom.evaluate := Dom.evaluate (browse sampleWorld url);
          Dom.evaluateSettles := Dom.evaluateSettles (browse sampleWorld url);
          Dom.issueId := Dom.issueId (browse sampleWorld url);
          Dom.checkerDuration := Dom.checkerDuration (browse sampleWorld url);
          Dom.settles := Dom.settles (browse sampleWorld url);
          Dom.timestamp := 0%nat;
          Dom.duration := 7%nat |};
     chromiumLaunchFails := false;
     newContextFails := false;
     contextCloseFails := false;
     browserCloseFails := false;
     reporterFails := fun _ => false;
     reporterSettles := fun _ => 0%nat;
     runTimestamp := 0%nat;
     runDuration := 42%nat |}.

(** What a page check needs of the page a URL serves: it loads, axe
    appears on it and the two waits after that are fulfilled, and the DOM
    scan of every enabled checker returns. *)
Definition checkable (w : World) (config : HealthCheckConfig) (url : string) : Prop :=
  Dom.gotoError (browse w url) = None /\ stabilizes (browse w url) = true /\
  forall type, type ∈ Checker.type <$> enabledCheckers config ->
    is_Some (Dom.evaluate (browse w url) type (scanArgument config type)).

(** What the check of a URL in a page of its own needs besides: the page
    opens, takes the init script, and closes. *)
Definition opensAndCloses (w : World) (url : string) : Prop :=
  Dom.newPageFails (browse w url) = false /\
  Dom.addInitScriptFails (browse w url) = false /\
  Dom.closeFails (browse w url) = false.

(** The directory [generateReports] makes: [outputDir || './reports']. *)
Definition reportDir (config : HealthCheckConfig) : string :=
  or_else (Config.outputDir (Config.output config)) "./reports".

(** The report object as the reporters of a configuration leave it. *)
Definition reportedAs (config : HealthCheckConfig) (report : HealthCheckReport)
    : HealthCheckReport :=
  if bool_decide (Format.console ∈ Config.format (Config.output config))
  then ConsoleReporter_generate report else report.

(** The page report as a run with this configuration returns it: with the
    issues in the order the console reporter has put them, when that
    reporter is configured. *)
Definition asReported (config : HealthCheckConfig) (page : PageHealthReport)
    : PageHealthReport :=
  if bool_decide (Format.console ∈ Config.format (Config.output config))
  then (renderPageReport page).1 else page.

(** A page on which the heading scan reports one finding of a severity the
    checker does not know and the alt-text scan one with an empty fix. *)
Definition oddFindingsPage : Dom.t :=
  {| Dom.newPageFails := false;
     Dom.addInitScriptFails := false;
     Dom.gotoError := None;
     Dom.axeLoads := true;
     Dom.networkIdle := true;
     Dom.timeoutElapses := true;
     Dom.closeFails := false;
     Dom.evaluate := fun type _ =>
       match type with
       | CheckType.HEADING_STRUCTURE =>
           Some [{| Raw.element := None;
                    Raw.severity := "notice";
                    Raw.message := "Page has no headings";
                    Raw.description := "Headings give a page its outline";
                    Raw.suggestedFix := Some "Add headings" |}]
       | CheckType.ALT_TEXT =>
           Some [{| Raw.element := None;
                    Raw.severity := "notice";
                    Raw.message := "Image missing alt attribute";
                    Raw.description := "All images must have an alt attribute";
                    Raw.suggestedFix := Some EmptyString |}]
       | _ => Some []
       end;
     Dom.evaluateSettles := fun _ => 1%nat;
     Dom.issueId := fun _ _ => "issue-1700000000000-abc123xyz";
     Dom.checkerDuration := fun _ => 3%nat;
     Dom.settles := 0%nat;
     Dom.timestamp := 0%nat;
     Dom.duration := 7%nat |}.

(** The default configuration with the target level AAA. *)
Definition targetAAA : HealthCheckConfig := configure_wcagLevel WcagLevel.AAA DEFAULT_CONFIG.

(** The issues of a list that have a given severity, in their order. *)
Definition ofSeverity (severity : Severity) (issues : list AccessibilityIssue)
    : list AccessibilityIssue :=
  filter (fun issue => Issue.severity issue = severity) issues.

(** The verdict [ConsoleReporter.generate] prints for the target level:
    [report.pages.every(page => page.wcagCompliance[report.configuration.wcagLevel])]. *)
Definition allCompliant (report : HealthCheckReport) : bool :=
  forallb (fun page =>
             Compliance.at_level (PageReport.wcagCompliance page)
                                 (Config.wcagLevel (Report.configuration report)))
          (Report.pages report).

(** ** The HTML reporter (class [HtmlReporter] of [reporters/]) *)

(** The values [HtmlReporter.generateWcagCompliance] builds its markup
    from: [isCompliant], [compliantPages] and [totalPages]. *)
Definition generateWcagCompliance (report : HealthCheckReport) : bool * nat * nat :=
  let targetLevel := Config.wcagLevel (Report.configuration report) in
  let compliantPages :=
    length (filter (fun page =>
                      Compliance.at_level (PageReport.wcagCompliance page) targetLevel = true)
                   (Report.pages report)) in
  let totalPages := length (Report.pages report) in
  let isCompliant := bool_decide (compliantPages = totalPages) in
  (isCompliant, compliantPages, totalPages).

(** The value of a member of the [Severity] enum ([types.ts]). *)
Definition severityValue (s : Severity) : string :=
  match s with
  | Severity.ERROR => "error"
  | Severity.WARNING => "warning"
  | Severity.INFO => "info"
  end.

(** [record[key] = (record[key] || 0) + 1] on an object used as a counter,
    whose entries [Object.entries] lists in the order the keys were first
    written. *)
Fixpoint increment (key : string) (record : list (string * nat)) : list (string * nat) :=
  match record with
  | [] => [(key, 1%nat)]
  | (k, count) :: rest =>
      if String.eqb k key then (k, S count) :: rest
      else (k, count) :: increment key rest
  end.

(** [ConsoleReporter.renderIssueBreakdown]: the entries it lists by
    severity and by type, each in the order it prints them,
    [Object.entries(record).sort(([, a], [, b]) => b - a)]. *)
Definition renderIssueBreakdown (report : HealthCheckReport)
    : list (string * nat) * list (string * nat) :=
  let records :=
    foldl (fun records page =>
             foldl (fun records issue =>
                      (increment (CheckType.value (Issue.type issue)) records.1,
                       increment (severityValue (Issue.severity issue)) records.2))
                   records (PageReport.issues page))
          ([], []) (Report.pages report) in
  let issuesByType := records.1 in
  let issuesBySeverity := records.2 in
  (Array_sort (fun a b => Z.of_nat b.2 - Z.of_nat a.2) issuesBySeverity,
   Array_sort (fun a b => Z.of_nat b.2 - Z.of_nat a.2) issuesByType).

(** The count a list of entries gives for a key, 0 when the key is not
    listed. *)
Definition listed (key : string) (entries : list (string * nat)) : nat :=
  sum_list (snd <$> filter (fun entry => entry.1 = key) entries).

(** ** URLs ([utils.ts]) *)

(** [normalizeUrl]; [String.prefix p s] is [s.startsWith(p)]. *)
Definition normalizeUrl (url : string) : string :=
  if negb (String.prefix "http://" url) && negb (String.prefix "https://" url)
  then "https://" +:+ url
  else url.

(** ** The command line ([runAccessibilityCheck]) *)

(** The [validUrls] of [runAccessibilityCheck]: the URLs mapped in order,
    a URL that [isValidUrl] rejects being normalized and tested again;
    [inl url] when the mapping throws [Invalid URL: url].  [isValidUrl]
    rests on the URL parser of the platform and is passed in. *)
Fixpoint validUrls (isValidUrl : string -> bool) (urls : list string)
    : string + list string :=
  match urls with
  | [] => inr []
  | url :: urls' =>
      let checked :=
        if negb (isValidUrl url) then
          let normalized := normalizeUrl url in
          if negb (isValidUrl normalized) then inl url else inr normalized
        else inr url in
      match checked with
      | inl invalid => inl invalid
      | inr valid =>
          match validUrls isValidUrl urls' with
          | inl invalid => inl invalid
          | inr rest => inr (valid :: rest)
          end
      end
  end.

(** How [runAccessibilityCheck] ends: it throws, and the action that
    called it exits with code 1, or it exits by itself with the code
    [report.summary.totalIssues > 0 ? 1 : 0]. *)
Inductive CliOutcome :=
| InvalidUrl (url : string)
| CheckFailed (reason : Error)
| Exit (code : Z) (report : HealthCheckReport).

(** [runAccessibilityCheck] for the configuration that
    [parseConfiguration] returns and the constructor of the checker merges
    over the defaults.  The report built for a single URL carries the
    configuration as parsed, which lacks the [checks] of the merged one
    when no checker option is given; here it carries the merged one. *)
Definition runAccessibilityCheck (fuel : nat) (w : World) (isValidUrl : string -> bool)
    (config : HealthCheckConfig) (urls : list string) (mgr : BrowserManager)
    : option (CliOutcome * BrowserManager * list Event) :=
  match validUrls isValidUrl urls with
  | inl url => Some (InvalidUrl url, mgr, [])
  | inr validUrls =>
      let checked :=
        if bool_decide (length validUrls = 1%nat) then
          match checkUrl w config (default EmptyString (validUrls !! 0%nat)) mgr with
          | (Ok pageReport, mgr', evs) =>
              Some (Ok {| Report.summary :=
                            {| Summary.totalPages := 1;
                               Summary.totalIssues := PageReport.totalIssues pageReport;
                               Summary.overallScore := PageReport.score pageReport;
                               Summary.timestamp := PageReport.timestamp pageReport;
                               Summary.duration := PageReport.duration pageReport |};
                          Report.pages := [pageReport];
                          Report.configuration := config |},
                    mgr', evs)
          | (Err reason, mgr', evs) => Some (Err reason, mgr', evs)
          end
        else checkUrls fuel w config validUrls mgr in
      match checked with
      | None => None
      | Some (Ok report, mgr', evs) =>
          Some (Exit (if bool_decide (0 < Summary.totalIssues (Report.summary report))%nat
                      then 1 else 0) report,
                mgr', evs)
      | Some (Err reason, mgr', evs) => Some (CheckFailed reason, mgr', evs)
      end
  end.

(** The exit code of the process. *)
Definition exitCode (outcome : CliOutcome) : Z :=
  match outcome with
  | InvalidUrl _ | CheckFailed _ => 1
  | Exit code _ => code
  end.

(** A parser that accepts what starts with [https://] and is longer. *)
Definition httpsOnly (url : string) : bool :=
  String.prefix "https://" url && (8 <? String.length url)%nat.

(** The default configuration with all three formats. *)
Definition allFormats : HealthCheckConfig :=
  {| Config.wcagLevel := WcagLevel.AA;
     Config.checks := Config.checks DEFAULT_CONFIG;
     Config.thresholds := Config.thresholds DEFAULT_CONFIG;
     Config.output :=
       {| Config.format := [Format.console; Format.json; Format.html];
          Config.outputDir := None;
          Config.verbose := false |};
     Config.browser := Config.browser DEFAULT_CONFIG;
     Config.timeout := 30000;
     Config.concurrent := 3 |}.

(** ** The checker options of the command line ([parseConfiguration]) *)

(** What the option parser leaves in [options.enableOnly] and
    [options.disable]: nothing, one string, or an array of strings. *)
Inductive OptionValue :=
| One (value : string)
| Many (values : list string).

(** [if (option)]: an array is truthy even when it is empty, a string
    unless it is empty. *)
Definition optionGiven (option : option OptionValue) : bool :=
  match option with
  | None => false
  | Some (One value) => truthy value
  | Some (Many _) => true
  end.

(** [Array.isArray(option) ? option : [option]] *)
Definition toArray (option : option OptionValue) : list string :=
  match option with
  | None => []
  | Some (One value) => [value]
  | Some (Many values) => values
  end.

(** The member of [CheckType] a string is the value of. *)
Definition checkTypeOf (name : string) : option CheckType :=
  head (filter (fun type => CheckType.value type = name) CheckType.values).

(** [for (const checker of checkers) if (!allCheckerTypes.includes(checker))
    throw ...]: the checker the loop throws for. *)
Definition firstInvalid (checkers : list string) : option string :=
  head (filter (fun checker => checker ∉ CheckType.value <$> CheckType.values) checkers).

(** The last part of [parseConfiguration]: [inl checker] when it throws
    [Invalid checker: checker], else the [checks] it puts in the
    configuration, if any.  The strings that passed the test are members of
    [CheckType]. *)
Definition parseCheckerOptions (enableOnly disable : option OptionValue)
    : string + option Config.Checks :=
  let allCheckerTypes := CheckType.values in
  if optionGiven enableOnly then
    let enabledCheckers := toArray enableOnly in
    match firstInvalid enabledCheckers with
    | Some checker => inl checker
    | None =>
        inr (Some {| Config.enabled := omap checkTypeOf enabledCheckers;
                     Config.disabled := [] |})
    end
  else if optionGiven disable then
    let disabledCheckers := toArray disable in
    match firstInvalid disabledCheckers with
    | Some checker => inl checker
    | None =>
        inr (Some {| Config.enabled :=
                       filter (fun type => CheckType.value type ∉ disabledCheckers)
                              allCheckerTypes;
                     Config.disabled := omap checkTypeOf disabledCheckers |})
    end
  else inr None.

(** [{ ...DEFAULT_CONFIG, ...config }] for the [checks] of [config]. *)
Definition withChecks (checks : option Config.Checks) (config : HealthCheckConfig)
    : HealthCheckConfig :=
  match checks with
  | Some checks =>
      {| Config.wcagLevel := Config.wcagLevel config;
         Config.checks := checks;
         Config.thresholds := Config.thresholds config;
         Config.output := Config.output config;
         Config.browser := Config.browser config;
         Config.timeout := Config.timeout config;
         Config.concurrent := Config.concurrent config |}
  | None => config
  end.

(** ** The DOM scan of the alt-text checker ([checkers/alt-text-checker.ts]) *)

(** The double quote, for the strings of the source that hold one. *)
Definition quote : string := String (Ascii.ascii_of_nat 34) EmptyString.

(** The string methods of the platform whose result depends on the
    Unicode tables, the last one being [text.match(/^[\d\s\-_\.]+$/)] as a
    test.  The other methods used are written out on strings as sequences
    of code units: [length], [startsWith], [includes], [charAt],
    [substring]. *)
Record StringMethods := {
  trim : string -> string;
  toLowerCase : string -> string;
  matchesNumbersAndSymbols : string -> bool;
}.

(** [s.includes(search)] *)
Fixpoint includes (s search : string) : bool :=
  String.prefix search s ||
  match s with
  | EmptyString => false
  | String _ s' => includes s' search
  end.

(** What the scan reads of an [img] element. *)
Module Img.
Record t := {
  id : string;
  src : string;
  alt : string;
  (** [img.hasAttribute('alt')] *)
  hasAltAttribute : bool;
  tagName : string;
  outerHTML : string;
}.
End Img.

(** The [element] every finding of the scan carries. *)
Definition imgElement (js : StringMethods) (img : Img.t) : Element.t :=
  {| Element.selector :=
       if truthy (Img.id img) then "#" +:+ Img.id img
       else "img[src=" +:+ quote +:+ Img.src img +:+ quote +:+ "]";
     Element.tagName := toLowerCase js (Img.tagName img);
     Element.attributes :=
       [("src", Img.src img); ("alt", or_else (Some (Img.alt img)) EmptyString)];
     Element.innerText := None;
     Element.outerHTML := Img.outerHTML img |}.

(** One turn of the loop over the images: what it pushes, if anything. *)
Definition altTextFinding (js : StringMethods) (img : Img.t) : option Raw.t :=
  let alt := Img.alt img in
  let hasAlt := truthy alt && (0 <? String.length (trim js alt))%nat in
  let isDecorative := String.eqb alt EmptyString in
  if negb (Img.hasAltAttribute img) then
    Some {| Raw.element := Some (imgElement js img);
            Raw.severity := "error";
            Raw.message := "Image missing alt attribute";
            Raw.description := "All images must have an alt attribute for screen readers";
            Raw.suggestedFix :=
              Some ("Add alt=" +:+ quote +:+ quote +:+ " for decorative images or alt=" +:+
                    quote +:+ "description" +:+ quote +:+ " for informative images") |}
  else if negb isDecorative && (negb hasAlt || (String.length alt <? 3)%nat) then
    Some {| Raw.element := Some (imgElement js img);
            Raw.severity := "error";
            Raw.message := "Image has insufficient alt text";
            Raw.description :=
              "Images should have descriptive alt text that conveys the meaning of the image";
            Raw.suggestedFix :=
              Some "Provide meaningful alt text that describes the image content or purpose" |}
  else if hasAlt &&
          (includes (toLowerCase js alt) "image" ||
           includes (toLowerCase js alt) "picture" ||
           includes (toLowerCase js alt) "photo" ||
           String.prefix "img_" (toLowerCase js alt)) then
    Some {| Raw.element := Some (imgElement js img);
            Raw.severity := "warning";
            Raw.message := "Alt text may be redundant or non-descriptive";
            Raw.description :=
              "Alt text should describe the content/purpose, not state that it's an image";
            Raw.suggestedFix :=
              Some "Replace with descriptive text about what the image shows or its purpose" |}
  else None.

(** The function [AltTextChecker.check] evaluates in the page, applied to
    the [img] elements of the document in document order. *)
Definition altTextScan (js : StringMethods) (images : list Img.t) : list Raw.t :=
  omap (altTextFinding js) images.

(** The string methods on strings of ASCII letters, digits, marks and
    blanks: [trim] removes the blanks at both ends, [toLowerCase] maps
    [A-Z] to [a-z], and the test is that of the expression. *)
Fixpoint trimStart (s : string) : string :=
  match s with
  | String c s' => if Ascii.eqb c (Ascii.ascii_of_nat 32) then trimStart s' else s
  | EmptyString => s
  end.

Fixpoint lowerCase (s : string) : string :=
  match s with
  | String c s' =>
      let n := Ascii.nat_of_ascii c in
      String (if (65 <=? n)%nat && (n <=? 90)%nat then Ascii.ascii_of_nat (n + 32) else c)
             (lowerCase s')
  | EmptyString => EmptyString
  end.

Fixpoint numbersAndSymbols (s : string) : bool :=
  match s with
  | String c s' =>
      let n := Ascii.nat_of_ascii c in
      ((48 <=? n)%nat && (n <=? 57)%nat || bool_decide (n ∈ [32; 45; 95; 46]%nat)) &&
      numbersAndSymbols s'
  | EmptyString => true
  end.

Definition asciiMethods : StringMethods :=
  {| trim := fun s => String.rev (trimStart (String.rev (trimStart s)));
     toLowerCase := lowerCase;
     matchesNumbersAndSymbols := fun s => truthy s && numbersAndSymbols s |}.

Definition logoWithoutAlt : Img.t :=
  {| Img.id := "logo"; Img.src := "https://a.example/logo.png"; Img.alt := EmptyString;
     Img.hasAltAttribute := false; Img.tagName := "IMG"; Img.outerHTML := "<img id=logo>" |}.

Definition decorativeRule : Img.t :=
  {| Img.id := EmptyString; Img.src := "https://a.example/rule.png"; Img.alt := EmptyString;
     Img.hasAltAttribute := true; Img.tagName := "IMG"; Img.outerHTML := "<img alt>" |}.

Definition teamPhoto : Img.t :=
  {| Img.id := EmptyString; Img.src := "https://a.example/team.png";
     Img.alt := "Photo of the team";
     Img.hasAltAttribute := true; Img.tagName := "IMG"; Img.outerHTML := "<img alt=...>" |}.

Definition campusMap : Img.t :=
  {| Img.id := EmptyString; Img.src := "https://a.example/map.png";
     Img.alt := "Map of the campus";
     Img.hasAltAttribute := true; Img.tagName := "IMG"; Img.outerHTML := "<img alt=...>" |}.

Definition sampleImages : list Img.t :=
  [logoWithoutAlt; decorativeRule; teamPhoto; campusMap].

(** ** The DOM scan of the heading checker ([checkers/heading-structure-checker.ts]) *)

(** What the scan reads of a heading element. *)
Module Heading.
Record t := {
  id : string;
  tagName : string;
  className : string;
  textContent : option string;
  outerHTML : string;
}.
End Heading.

(** [s.charAt(1)]: the second code unit, or the empty string. *)
Definition charAt1 (s : string) : string :=
  match s with
  | String _ (String c _) => String c EmptyString
  | _ => EmptyString
  end.

(** [parseInt] of a string of at most one code unit: a digit, or [NaN],
    which is [None]. *)
Definition parseIntOfChar (s : string) : option Z :=
  match s with
  | String c EmptyString =>
      let n := Ascii.nat_of_ascii c in
      if (48 <=? n)%nat && (n <=? 57)%nat then Some (Z.of_nat n - 48) else None
  | _ => None
  end.

(** [a > b + jump] on numbers; a comparison with [NaN] is false. *)
Definition exceeds (a b : option Z) (jump : Q) : bool :=
  match a, b with
  | Some a, Some b => negb (Qle_bool (inject_Z a) (inject_Z b + jump))
  | _, _ => false
  end.

(** [previousLevel > 0] *)
Definition isPositive (level : option Z) : bool :=
  match level with
  | Some level => 0 <? level
  | None => false
  end.

(** A number in a template string. *)
Definition shown (level : option Z) : string :=
  match level with
  | Some level => pretty.pretty level
  | None => "NaN"
  end.

Definition headingElement (js : StringMethods) (heading : Heading.t)
    (innerText : option string) : Element.t :=
  {| Element.selector :=
       if truthy (Heading.id heading) then "#" +:+ Heading.id heading
       else toLowerCase js (Heading.tagName heading);
     Element.tagName := toLowerCase js (Heading.tagName heading);
     Element.attributes :=
       [("class", or_else (Some (Heading.className heading)) EmptyString)];
     Element.innerText := innerText;
     Element.outerHTML := Heading.outerHTML heading |}.

(** [heading.textContent?.trim() || ''] *)
Definition headingText (js : StringMethods) (heading : Heading.t) : string :=
  or_else (trim js <$> Heading.textContent heading) EmptyString.

(** One turn of the loop over the headings, on [previousLevel] and
    [results]. *)
Definition headingTurn (js : StringMethods) (maxJump : Q)
    (state : option Z * list Raw.t) (heading : Heading.t) : option Z * list Raw.t :=
  let previousLevel := state.1 in
  let currentLevel := parseIntOfChar (charAt1 (Heading.tagName heading)) in
  let text := headingText js heading in
  let results := state.2 in
  let results :=
    if negb (truthy text) then
      results ++
      [{| Raw.element := Some (headingElement js heading None);
          Raw.severity := "error";
          Raw.message := "Empty heading found";
          Raw.description :=
            "Headings should contain meaningful text that describes the section";
          Raw.suggestedFix :=
            Some "Add descriptive text to the heading or remove if not needed" |}]
    else results in
  let results :=
    if isPositive previousLevel && exceeds currentLevel previousLevel maxJump then
      results ++
      [{| Raw.element :=
            Some (headingElement js heading (Some (String.substring 0 100 text)));
          Raw.severity := "warning";
          Raw.message :=
            "Heading level skipped: H" +:+ shown previousLevel +:+ " to H" +:+
            shown currentLevel;
          Raw.description :=
            "Heading levels should not skip levels for proper document structure";
          Raw.suggestedFix :=
            Some ("Use H" +:+ shown ((fun level => level + 1) <$> previousLevel) +:+
                  " instead of H" +:+ shown currentLevel +:+ " for proper hierarchy") |}]
    else results in
  let results :=
    if (120 <? String.length text)%nat then
      results ++
      [{| Raw.element :=
            Some (headingElement js heading (Some (String.substring 0 100 text)));
          Raw.severity := "info";
          Raw.message := "Heading text is very long";
          Raw.description :=
            "Long headings can be difficult to navigate with screen readers";
          Raw.suggestedFix :=
            Some "Consider shortening the heading while maintaining its descriptive value" |}]
    else results in
  let results :=
    if matchesNumbersAndSymbols js text then
      results ++
      [{| Raw.element := Some (headingElement js heading (Some text));
          Raw.severity := "warning";
          Raw.message := "Heading contains only numbers or symbols";
          Raw.description :=
            "Headings should be descriptive and meaningful for screen reader users";
          Raw.suggestedFix :=
            Some "Add descriptive text to explain what this heading represents" |}]
    else results in
  (currentLevel, results).

(** The function [HeadingStructureChecker.check] evaluates in the page,
    applied to the [h1] to [h6] elements of the document in document
    order. *)
Definition headingScan (js : StringMethods) (maxJump : Q) (headings : list Heading.t)
    : list Raw.t :=
  if bool_decide (length headings = 0%nat) then
    [{| Raw.element := None;
        Raw.severity := "warning";
        Raw.message := "No headings found on page";
        Raw.description :=
          "Pages should have a proper heading structure for navigation and screen readers";
        Raw.suggestedFix :=
          Some "Add at least one h1 heading to establish page hierarchy" |}]
  else
    let h1Count :=
      length (filter (fun h => toLowerCase js (Heading.tagName h) = "h1") headings) in
    let results :=
      if bool_decide (h1Count = 0%nat) then
        [{| Raw.element := None;
            Raw.severity := "error";
            Raw.message := "No H1 heading found";
            Raw.description :=
              "Every page should have exactly one H1 heading that describes the main content";
            Raw.suggestedFix :=
              Some "Add a single H1 heading that describes the main purpose of the page" |}]
      else if bool_decide (1 < h1Count)%nat then
        [{| Raw.element := None;
            Raw.severity := "warning";
            Raw.message := "Multiple H1 headings found (" +:+ pretty.pretty h1Count +:+ ")";
            Raw.description :=
              "Pages should typically have only one H1 heading for proper document structure";
            Raw.suggestedFix :=
              Some "Use only one H1 heading and use H2-H6 for subsections" |}]
      else [] in
    (foldl (headingTurn js maxJump) (Some 0, results) headings).2.

(** The level the loop reads off a heading. *)
Definition levelOf (heading : Heading.t) : option Z :=
  parseIntOfChar (charAt1 (Heading.tagName heading)).

(** What a turn of the loop adds to [results]. *)
Definition turnFindings (js : StringMethods) (maxJump : Q) (previousLevel : option Z)
    (heading : Heading.t) : list Raw.t :=
  (headingTurn js maxJump (previousLevel, []) heading).2.

(** No heading lies more than [maxJump] levels below the heading before
    it, the first one coming after [previousLevel]. *)
Fixpoint steady (maxJump : Q) (previousLevel : option Z) (headings : list Heading.t)
    : Prop :=
  match headings with
  | [] => True
  | heading :: headings' =>
      isPositive previousLevel && exceeds (levelOf heading) previousLevel maxJump = false /\
      steady maxJump (levelOf heading) headings'
  end.

(** The finding of a level that was skipped, by its description. *)
Definition aboutSkippedLevel (finding : Raw.t) : Prop :=
  Raw.description finding =
    "Heading levels should not skip levels for proper document structure".

Definition sampleHeading (tagName text : string) : Heading.t :=
  {| Heading.id := EmptyString; Heading.tagName := tagName;
     Heading.className := EmptyString; Heading.textContent := Some text;
     Heading.outerHTML := "<h>" |}.

(** ** The DOM scan of the colour contrast checker
    ([checkers/color-contrast-checker.ts]) *)

(** What the scan reads of a text element: besides its attributes, its
    text and the two colours of its computed style. *)
Module TextElement.
Record t := {
  id : string;
  tagName : string;
  className : string;
  textContent : option string;
  color : string;
  backgroundColor : string;
  outerHTML : string;
}.
End TextElement.

(** What the scan computes with the style engine and in floating point:
    [toHex], which reads a colour back from a probe element,
    [getContrastRatio] on two such colours, a number that may be [NaN],
    which is [None], and [ratio.toFixed(2)].  [toHex] is [None] when the
    probe throws, which the [try] of the loop catches. *)
Record ColourMethods := {
  toHex : string -> option string;
  getContrastRatio : string -> string -> option Q;
  toFixed2 : Q -> string;
}.

(** [ratio < bound] on numbers; a comparison with [NaN] is false. *)
Definition below (ratio : option Q) (bound : Q) : bool :=
  match ratio with
  | Some ratio => negb (Qle_bool bound ratio)
  | None => false
  end.

(** One turn of the loop over the text elements: what it pushes, if
    anything. *)
Definition contrastFinding (js : StringMethods) (colours : ColourMethods)
    (thresholdRatio : Q) (element : TextElement.t) : option Raw.t :=
  let textContent := trim js <$> TextElement.textContent element in
  match textContent with
  | None => None
  | Some textContent =>
      if negb (truthy textContent) || (String.length textContent =? 0)%nat then None
      else
        let color := TextElement.color element in
        let backgroundColor := TextElement.backgroundColor element in
        if String.eqb backgroundColor "rgba(0, 0, 0, 0)" ||
           String.eqb backgroundColor "transparent" then None
        else
          match toHex colours color, toHex colours backgroundColor with
          | Some colorHex, Some bgHex =>
              let ratio := getContrastRatio colours colorHex bgHex in
              if below ratio thresholdRatio then
                Some {| Raw.element :=
                          Some {| Element.selector :=
                                    if truthy (TextElement.id element)
                                    then "#" +:+ TextElement.id element
                                    else toLowerCase js (TextElement.tagName element);
                                  Element.tagName :=
                                    toLowerCase js (TextElement.tagName element);
                                  Element.attributes :=
                                    [("class",
                                      or_else (Some (TextElement.className element))
                                              EmptyString)];
                                  Element.innerText :=
                                    Some (String.substring 0 100 textContent);
                                  Element.outerHTML :=
                                    String.substring 0 500 (TextElement.outerHTML element) |};
                        Raw.severity := if below ratio 3 then "error" else "warning";
                        Raw.message :=
                          "Poor color contrast ratio: " +:+
                          from_option (toFixed2 colours) "NaN" ratio +:+ ":1";
                        Raw.description :=
                          "Text has insufficient contrast ratio. WCAG AA requires 4.5:1 for normal text, 3:1 for large text.";
                        Raw.suggestedFix :=
                          Some ("Increase contrast between text (" +:+ colorHex +:+
                                ") and background (" +:+ bgHex +:+ ") colors") |}
              else None
          | _, _ => None
          end
  end.

(** The function [ColorContrastChecker.check] evaluates in the page,
    applied to the text elements of the document in document order. *)
Definition contrastScan (js : StringMethods) (colours : ColourMethods)
    (thresholdRatio : Q) (elements : list TextElement.t) : list Raw.t :=
  omap (contrastFinding js colours thresholdRatio) elements.

(** The contrast ratio the scan computes for an element, when it gets as
    far as computing one that is a number. *)
Definition measured (js : StringMethods) (colours : ColourMethods)
    (element : TextElement.t) : option Q :=
  match trim js <$> TextElement.textContent element with
  | Some textContent =>
      if truthy textContent &&
         negb (String.eqb (TextElement.backgroundColor element) "rgba(0, 0, 0, 0)") &&
         negb (String.eqb (TextElement.backgroundColor element) "transparent")
      then
        match toHex colours (TextElement.color element),
              toHex colours (TextElement.backgroundColor element) with
        | Some colorHex, Some bgHex => getContrastRatio colours colorHex bgHex
        | _, _ => None
        end
      else None
  | None => None
  end.

(** Colours given as a grey level between 0 and 20, the ratio of two of
    them being that of the levels plus one. *)
Definition greyLevels : ColourMethods :=
  {| toHex := fun colour => Some colour;
     getContrastRatio := fun colour1 colour2 =>
       let level1 := Z.of_nat (String.length colour1) in
       let level2 := Z.of_nat (String.length colour2) in
       Some (inject_Z (Z.max level1 level2 + 1) / inject_Z (Z.min level1 level2 + 1))%Q;
     toFixed2 := fun _ => "?" |}.

Definition greyText (color backgroundColor : string) : TextElement.t :=
  {| TextElement.id := EmptyString; TextElement.tagName := "P";
     TextElement.className := EmptyString; TextElement.textContent := Some "Read me";
     TextElement.color := color; TextElement.backgroundColor := backgroundColor;
     TextElement.outerHTML := "<p>Read me</p>" |}.

(** ** The DOM scan of the form labels checker
    ([checkers/form-labels-checker.ts]) *)

(** What the first loop of the scan reads of a form control: its
    attributes ([getAttribute] gives [null], which is [None], for one that
    is not set) and what its three searches in the document give:
    [labelFor] is the text of the first [label] whose [for] is the id of
    the control, [closestLabel] the text of the nearest [label] around it,
    [labelledBy] the texts of the elements that the ids of
    [aria-labelledby] name, those that name none being left out. *)
Module Control.
Record t := {
  id : string;
  type : string;
  tagName : string;
  name : option string;
  labelFor : option (option string);
  closestLabel : option (option string);
  ariaLabel : option string;
  ariaLabelledby : option string;
  labelledBy : list (option string);
  title : option string;
  placeholder : option string;
  outerHTML : string;
}.
End Control.

(** What the second loop reads of a field that has [required]. *)
Module Field.
Record t := {
  id : string;
  tagName : string;
  ariaRequired : option string;
  closestLabel : option (option string);
  parentElement : option (option string);
  outerHTML : string;
}.
End Field.

(** [hasLabel], [labelText] and [labelMethod] of the first loop: [None]
    while [hasLabel] is false, the other two once it is true. *)
Definition Labelling : Type := option (string * string).

(** [if (!hasLabel) { ... }] *)
Definition unlessLabelled (labelling further : Labelling) : Labelling :=
  match labelling with
  | Some _ => labelling
  | None => further
  end.

(** [texts.join(' ')], a text that is [undefined] giving nothing. *)
Fixpoint joinTexts (texts : list (option string)) : string :=
  match texts with
  | [] => EmptyString
  | [text] => default EmptyString text
  | text :: texts => default EmptyString text +:+ " " +:+ joinTexts texts
  end.

(** [attribute && attribute.trim()] as a condition. *)
Definition notBlank (js : StringMethods) (attribute : option string) : bool :=
  match attribute with
  | Some attribute => truthy attribute && truthy (trim js attribute)
  | None => false
  end.

(** The five searches for a label, in the order of the loop. *)
Definition labelling (js : StringMethods) (control : Control.t) : Labelling :=
  let explicit :=
    if truthy (Control.id control) then
      match Control.labelFor control with
      | Some textContent =>
          Some (or_else (trim js <$> (textContent : option string)) EmptyString,
                "explicit label")
      | None => None
      end
    else None in
  let implicit :=
    unlessLabelled explicit
      match Control.closestLabel control with
      | Some textContent =>
          Some (or_else (trim js <$> (textContent : option string)) EmptyString,
                "implicit label")
      | None => None
      end in
  let ariaLabel :=
    unlessLabelled implicit
      (if notBlank js (Control.ariaLabel control)
       then Some (trim js (default EmptyString (Control.ariaLabel control)), "aria-label")
       else None) in
  let ariaLabelledby :=
    unlessLabelled ariaLabel
      match Control.ariaLabelledby control with
      | Some ids =>
          if truthy ids && (0 <? length (Control.labelledBy control))%nat
          then Some (joinTexts ((fun element : option string => trim js <$> element)
                              <$> Control.labelledBy control),
                     "aria-labelledby")
          else None
      | None => None
      end in
  unlessLabelled ariaLabelledby
    (if notBlank js (Control.title control)
     then Some (trim js (default EmptyString (Control.title control)), "title attribute")
     else None).

Definition controlType (js : StringMethods) (control : Control.t) : string :=
  or_else (Some (Control.type control)) (toLowerCase js (Control.tagName control)).

Definition controlSelector (js : StringMethods) (control : Control.t) : string :=
  if truthy (Control.id control) then "#" +:+ Control.id control
  else controlType js control.

(** One turn of the first loop: what it pushes, if anything. *)
Definition labelFinding (js : StringMethods) (control : Control.t) : option Raw.t :=
  let label := labelling js control in
  let hasLabel := bool_decide (is_Some label) in
  let labelText := default EmptyString (fst <$> label) in
  let labelMethod := default EmptyString (snd <$> label) in
  let placeholder := Control.placeholder control in
  let hasOnlyPlaceholder := negb hasLabel && notBlank js placeholder in
  if negb hasLabel && negb hasOnlyPlaceholder then
    Some {| Raw.element :=
              Some {| Element.selector := controlSelector js control;
                      Element.tagName := toLowerCase js (Control.tagName control);
                      Element.attributes :=
                        [("type", controlType js control);
                         ("name", or_else (Control.name control) EmptyString);
                         ("id", or_else (Some (Control.id control)) EmptyString)];
                      Element.innerText := None;
                      Element.outerHTML :=
                        String.substring 0 500 (Control.outerHTML control) |};
            Raw.severity := "error";
            Raw.message := "Form control missing label";
            Raw.description :=
              "All form controls must have associated labels for screen readers";
            Raw.suggestedFix :=
              Some "Add a <label> element, aria-label, or aria-labelledby attribute" |}
  else if hasOnlyPlaceholder then
    Some {| Raw.element :=
              Some {| Element.selector := controlSelector js control;
                      Element.tagName := toLowerCase js (Control.tagName control);
                      Element.attributes :=
                        [("type", controlType js control);
                         ("placeholder", default EmptyString placeholder)];
                      Element.innerText := None;
                      Element.outerHTML :=
                        String.substring 0 500 (Control.outerHTML control) |};
            Raw.severity := "warning";
            Raw.message := "Form control relies only on placeholder text";
            Raw.description :=
              "Placeholder text disappears when typing and is not reliable for labeling";
            Raw.suggestedFix :=
              Some "Add a proper label in addition to or instead of the placeholder" |}
  else if hasLabel && (String.length labelText =? 0)%nat then
    Some {| Raw.element :=
              Some {| Element.selector := controlSelector js control;
                      Element.tagName := toLowerCase js (Control.tagName control);
                      Element.attributes := [("type", controlType js control)];
                      Element.innerText := None;
                      Element.outerHTML :=
                        String.substring 0 500 (Control.outerHTML control) |};
            Raw.severity := "error";
            Raw.message := "Form control has empty label";
            Raw.description :=
              "Form control has " +:+ labelMethod +:+ " but the label text is empty";
            Raw.suggestedFix := Some "Provide meaningful text in the label" |}
  else if hasLabel && (String.length labelText <? 2)%nat then
    Some {| Raw.element :=
              Some {| Element.selector := controlSelector js control;
                      Element.tagName := toLowerCase js (Control.tagName control);
                      Element.attributes := [("type", controlType js control)];
                      Element.innerText := Some labelText;
                      Element.outerHTML :=
                        String.substring 0 500 (Control.outerHTML control) |};
            Raw.severity := "warning";
            Raw.message := "Form control has very short label";
            Raw.description :=
              "Label text " +:+ quote +:+ labelText +:+ quote +:+
              " may not be descriptive enough";
            Raw.suggestedFix := Some "Provide more descriptive label text" |}
  else None.

(** [text?.includes(search)] as a condition, on the text of an element
    that may be missing. *)
Definition mentions (element : option (option string)) (search : string) : bool :=
  match element with
  | Some (Some textContent) => includes textContent search
  | _ => false
  end.

Definition hasRequiredIndicator (field : Field.t) : bool :=
  bool_decide (Field.ariaRequired field = Some "true") ||
  mentions (Field.closestLabel field) "*" ||
  mentions (Field.parentElement field) "required" ||
  mentions (Field.parentElement field) "Required".

(** One turn of the second loop. *)
Definition requiredFinding (js : StringMethods) (field : Field.t) : option Raw.t :=
  if negb (hasRequiredIndicator field) then
    Some {| Raw.element :=
              Some {| Element.selector :=
                        if truthy (Field.id field) then "#" +:+ Field.id field
                        else toLowerCase js (Field.tagName field);
                      Element.tagName := toLowerCase js (Field.tagName field);
                      Element.attributes := [("required", "true")];
                      Element.innerText := None;
                      Element.outerHTML :=
                        String.substring 0 500 (Field.outerHTML field) |};
            Raw.severity := "warning";
            Raw.message := "Required field not properly indicated";
            Raw.description := "Required fields should be clearly marked for all users";
            Raw.suggestedFix :=
              Some ("Add aria-required=" +:+ quote +:+ "true" +:+ quote +:+
                    " or visual indicator (* or " +:+ quote +:+ "required" +:+ quote +:+
                    " text)") |}
  else None.

(** The function [FormLabelsChecker.check] evaluates in the page, applied
    to the form controls that need a label and to the fields that have
    [required], each list in document order. *)
Definition formLabelsScan (js : StringMethods)
    (formControls : list Control.t) (requiredFields : list Field.t) : list Raw.t :=
  omap (labelFinding js) formControls ++ omap (requiredFinding js) requiredFields.

(** A text input without any attribute, outside of a label. *)
Definition bareInput : Control.t :=
  {| Control.id := EmptyString; Control.type := "text"; Control.tagName := "INPUT";
     Control.name := None; Control.labelFor := None; Control.closestLabel := None;
     Control.ariaLabel := None; Control.ariaLabelledby := None; Control.labelledBy := [];
     Control.title := None; Control.placeholder := None;
     Control.outerHTML := "<input>" |}.

(** [<label for=email></label><input id=email aria-label=Email>] *)
Definition emailInput : Control.t :=
  {| Control.id := "email"; Control.type := "text"; Control.tagName := "INPUT";
     Control.name := None; Control.labelFor := Some (Some EmptyString);
     Control.closestLabel := None;
     Control.ariaLabel := Some "Email"; Control.ariaLabelledby := None;
     Control.labelledBy := [];
     Control.title := None; Control.placeholder := None;
     Control.outerHTML := "<input id=email aria-label=Email>" |}.

(** ** The DOM scan of the ARIA attributes checker
    ([checkers/aria-attributes-checker.ts]) *)

(** What the first query and the first loop of the scan read of an element
    of the document: [attributes] are all its attributes, name and value,
    in the order of [element.attributes]. *)
Module AriaElement.
Record t := {
  id : string;
  tagName : string;
  attributes : list (string * string);
  outerHTML : string;
}.
End AriaElement.

(** What the second loop reads of a button, a link or an input that is a
    button. *)
Module Interactive.
Record t := {
  id : string;
  tagName : string;
  textContent : option string;
  ariaLabel : option string;
  ariaLabelledby : option string;
  hasImage : bool;
  outerHTML : string;
}.
End Interactive.

Definition validAriaAttributes : list string :=
  ["aria-label"; "aria-labelledby"; "aria-describedby"; "aria-hidden";
   "aria-expanded"; "aria-pressed"; "aria-checked"; "aria-selected";
   "aria-current"; "aria-live"; "aria-atomic"; "aria-busy";
   "aria-controls"; "aria-owns"; "aria-flowto"; "aria-activedescendant";
   "aria-autocomplete"; "aria-disabled"; "aria-dropeffect"; "aria-grabbed";
   "aria-haspopup"; "aria-invalid"; "aria-level"; "aria-multiline";
   "aria-multiselectable"; "aria-orientation"; "aria-posinset";
   "aria-readonly"; "aria-relevant"; "aria-required"; "aria-setsize";
   "aria-sort"; "aria-valuemax"; "aria-valuemin"; "aria-valuenow";
   "aria-valuetext"; "role"].

Definition validRoles : list string :=
  ["alert"; "alertdialog"; "application"; "article"; "banner"; "button";
   "cell"; "checkbox"; "columnheader"; "combobox"; "complementary";
   "contentinfo"; "definition"; "dialog"; "directory"; "document";
   "feed"; "figure"; "form"; "grid"; "gridcell"; "group"; "heading";
   "img"; "link"; "list"; "listbox"; "listitem"; "log"; "main";
   "marquee"; "math"; "menu"; "menubar"; "menuitem"; "menuitemcheckbox";
   "menuitemradio"; "navigation"; "none"; "note"; "option"; "presentation";
   "progressbar"; "radio"; "radiogroup"; "region"; "row"; "rowgroup";
   "rowheader"; "scrollbar"; "search"; "searchbox"; "separator";
   "slider"; "spinbutton"; "status"; "switch"; "tab"; "table";
   "tablist"; "tabpanel"; "term"; "textbox"; "timer"; "toolbar";
   "tooltip"; "tree"; "treegrid"; "treeitem"].

(** The attributes that may be empty, and those that are boolean: the two
    array literals of the loop. *)
Definition mayBeEmpty : list string :=
  ["aria-hidden"; "aria-expanded"; "aria-pressed"; "aria-checked"; "aria-selected"].

Definition booleanAttributes : list string :=
  ["aria-hidden"; "aria-expanded"; "aria-pressed"; "aria-checked"; "aria-selected";
   "aria-disabled"; "aria-required"; "aria-readonly"; "aria-multiline";
   "aria-multiselectable"; "aria-atomic"; "aria-busy"].

(** [array.includes(x)] on an array of strings. *)
Definition Array_includes (array : list string) (x : string) : bool :=
  bool_decide (x ∈ array).

(** The [element] of the findings of the first loop. *)
Definition ariaElement (js : StringMethods) (element : AriaElement.t)
    (name value : string) : Element.t :=
  {| Element.selector :=
       if truthy (AriaElement.id element) then "#" +:+ AriaElement.id element
       else toLowerCase js (AriaElement.tagName element);
     Element.tagName := toLowerCase js (AriaElement.tagName element);
     Element.attributes := [(name, value)];
     Element.innerText := None;
     Element.outerHTML := String.substring 0 500 (AriaElement.outerHTML element) |}.

(** One turn of the loop over the attributes of an element: what it pushes,
    in order. *)
Definition attributeFindings (js : StringMethods) (element : AriaElement.t)
    (attr : string * string) : list Raw.t :=
  let name := attr.1 in
  let value := attr.2 in
  if String.prefix "aria-" name || String.eqb name "role" then
    (if negb (Array_includes validAriaAttributes name) then
       [{| Raw.element := Some (ariaElement js element name value);
           Raw.severity := "error";
           Raw.message := "Invalid ARIA attribute: " +:+ name;
           Raw.description := "Unknown ARIA attributes can cause accessibility issues";
           Raw.suggestedFix :=
             Some ("Remove " +:+ name +:+ " or use a valid ARIA attribute") |}]
     else []) ++
    (if negb (truthy value) && negb (Array_includes mayBeEmpty name) then
       [{| Raw.element := Some (ariaElement js element name value);
           Raw.severity := "error";
           Raw.message := "Empty value for ARIA attribute: " +:+ name;
           Raw.description := "ARIA attributes should have meaningful values";
           Raw.suggestedFix :=
             Some ("Provide a descriptive value for " +:+ name +:+
                   " or remove the attribute") |}]
     else []) ++
    (if String.eqb name "role" && truthy value && negb (Array_includes validRoles value) then
       [{| Raw.element := Some (ariaElement js element "role" value);
           Raw.severity := "error";
           Raw.message := "Invalid ARIA role: " +:+ value;
           Raw.description := "Unknown ARIA roles can cause accessibility issues";
           Raw.suggestedFix :=
             Some "Use a valid ARIA role or remove the role attribute" |}]
     else []) ++
    (if Array_includes booleanAttributes name then
       if truthy value && negb (Array_includes ["true"; "false"] (toLowerCase js value)) then
         [{| Raw.element := Some (ariaElement js element name value);
             Raw.severity := "error";
             Raw.message := "Invalid boolean value for " +:+ name +:+ ": " +:+ value;
             Raw.description :=
               "Boolean ARIA attributes should have values of " +:+ quote +:+ "true" +:+
               quote +:+ " or " +:+ quote +:+ "false" +:+ quote;
             Raw.suggestedFix :=
               Some ("Change " +:+ name +:+ " value to " +:+ quote +:+ "true" +:+ quote +:+
                     " or " +:+ quote +:+ "false" +:+ quote) |}]
       else []
     else [])
  else [].

(** One turn of the loop over the interactive elements. *)
Definition nameFinding (js : StringMethods) (element : Interactive.t) : option Raw.t :=
  let textContent := or_else (trim js <$> Interactive.textContent element) EmptyString in
  let ariaLabel := Interactive.ariaLabel element in
  let ariaLabelledby := Interactive.ariaLabelledby element in
  let hasImage := Interactive.hasImage element in
  if negb (truthy textContent) && negb (truthy (default EmptyString ariaLabel)) &&
     negb (truthy (default EmptyString ariaLabelledby)) && negb hasImage then
    Some {| Raw.element :=
              Some {| Element.selector :=
                        if truthy (Interactive.id element)
                        then "#" +:+ Interactive.id element
                        else toLowerCase js (Interactive.tagName element);
                      Element.tagName := toLowerCase js (Interactive.tagName element);
                      Element.attributes := [];
                      Element.innerText := None;
                      Element.outerHTML :=
                        String.substring 0 500 (Interactive.outerHTML element) |};
            Raw.severity := "error";
            Raw.message := "Interactive element missing accessible name";
            Raw.description :=
              "Interactive elements need accessible names for screen readers";
            Raw.suggestedFix :=
              Some "Add aria-label, visible text content, or aria-labelledby attribute" |}
  else None.

(** The two loops of the function [AriaAttributesChecker.check] evaluates
    in the page, applied to the elements the first query has selected and
    to the interactive elements, each list in document order. *)
Definition ariaScan (js : StringMethods)
    (elementsWithAria : list AriaElement.t) (interactiveElements : list Interactive.t)
    : list Raw.t :=
  (elementsWithAria ≫= fun element =>
     AriaElement.attributes element ≫= attributeFindings js element) ++
  omap (nameFinding js) interactiveElements.

(** The attribute names in the selector of the first query:
    ['[role], [aria-label], ..., [aria-valuetext]']. *)
Definition ariaSelector : list string :=
  ["role"; "aria-label"; "aria-labelledby"; "aria-describedby"; "aria-hidden";
   "aria-expanded"; "aria-pressed"; "aria-checked"; "aria-selected";
   "aria-current"; "aria-live"; "aria-atomic"; "aria-busy";
   "aria-controls"; "aria-owns"; "aria-flowto"; "aria-activedescendant";
   "aria-autocomplete"; "aria-disabled"; "aria-dropeffect"; "aria-grabbed";
   "aria-haspopup"; "aria-invalid"; "aria-level"; "aria-multiline";
   "aria-multiselectable"; "aria-orientation"; "aria-posinset";
   "aria-readonly"; "aria-relevant"; "aria-required"; "aria-setsize";
   "aria-sort"; "aria-valuemax"; "aria-valuemin"; "aria-valuenow";
   "aria-valuetext"].

(** [document.querySelectorAll(selector)] of the first loop, on the
    elements of the document in document order: it selects the elements
    that have one of the attributes the selector names. *)
Definition querySelectorAllAria (elements : list AriaElement.t) : list AriaElement.t :=
  filter (fun element =>
            Exists (fun attr : string * string => attr.1 ∈ ariaSelector)
                   (AriaElement.attributes element))
         elements.

(** The function [AriaAttributesChecker.check] evaluates in the page, on
    the elements of the document and its interactive elements. *)
Definition ariaScanDocument (js : StringMethods)
    (elements : list AriaElement.t) (interactiveElements : list Interactive.t)
    : list Raw.t :=
  ariaScan js (querySelectorAllAria elements) interactiveElements.

(** [<span class=badge aria-foo=bar>] *)
Definition fooSpan : AriaElement.t :=
  {| AriaElement.id := EmptyString; AriaElement.tagName := "SPAN";
     AriaElement.attributes := [("class", "badge"); ("aria-foo", "bar")];
     AriaElement.outerHTML := "<span class=badge aria-foo=bar>" |}.

(** [<div id=menu class=nav role=Menu aria-hidden aria-disabled aria-foo>] *)
Definition menuDiv : AriaElement.t :=
  {| AriaElement.id := "menu"; AriaElement.tagName := "DIV";
     AriaElement.attributes :=
       [("id", "menu"); ("class", "nav"); ("role", "Menu"); ("aria-hidden", EmptyString);
        ("aria-disabled", EmptyString); ("aria-foo", EmptyString)];
     AriaElement.outerHTML := "<div id=menu>" |}.

Definition attributeCount (elementsWithAria : list AriaElement.t) : nat :=
  sum_list_with (fun element => length (AriaElement.attributes element)) elementsWithAria.

(** ** The issues section of the HTML report
    ([HtmlReporter.generateIssuesSection]) *)

(** [if (!record[key]) record[key] = []; record[key].push(issue)] on an
    object used as a table of arrays, whose entries [Object.entries] lists
    in the order the keys were first written. *)
Fixpoint pushTo (key : string) (issue : AccessibilityIssue)
    (record : list (string * list AccessibilityIssue))
    : list (string * list AccessibilityIssue) :=
  match record with
  | [] => [(key, [issue])]
  | (k, issues) :: rest =>
      if String.eqb k key then (k, issues ++ [issue]) :: rest
      else (k, issues) :: pushTo key issue rest
  end.

(** What the section shows of one entry: the key and [issues.length] in
    the title, the cards of [issues.slice(0, 5)], and the number in
    [... and n more] when [issues.length > 5]. *)
Module Breakdown.
Record t := {
  key : string;
  count : nat;
  items : list AccessibilityIssue;
  more : option nat;
}.
End Breakdown.

Definition breakdownGroup (entry : string * list AccessibilityIssue) : Breakdown.t :=
  let issues := entry.2 in
  {| Breakdown.key := entry.1;
     Breakdown.count := length issues;
     Breakdown.items := slice issues 0 5;
     Breakdown.more :=
       if bool_decide (5 < length issues)%nat then Some (length issues - 5)%nat else None |}.

(** [generateIssuesSection]: [None] when it returns the section that says
    that no issues were found, else the groups of the severity tab and
    those of the type tab, each in the order they are shown,
    [Object.entries(record).sort(([, a], [, b]) => b.length - a.length)].
    The markup around them is not part of the model. *)
Definition generateIssuesSection (report : HealthCheckReport)
    : option (list Breakdown.t * list Breakdown.t) :=
  let allIssues := Report.pages report ≫= PageReport.issues in
  if bool_decide (length allIssues = 0%nat) then None
  else
    let records :=
      foldl (fun records issue =>
               (pushTo (CheckType.value (Issue.type issue)) issue records.1,
                pushTo (severityValue (Issue.severity issue)) issue records.2))
            ([], []) allIssues in
    let issuesByType := records.1 in
    let issuesBySeverity := records.2 in
    Some (breakdownGroup <$>
            Array_sort (fun a b => Z.of_nat (length b.2) - Z.of_nat (length a.2))
                       issuesBySeverity,
          breakdownGroup <$>
            Array_sort (fun a b => Z.of_nat (length b.2) - Z.of_nat (length a.2))
                       issuesByType).

(** A report of one page with seven issues of the alt-text checker, six
    of them errors. *)
Definition sevenIssues : HealthCheckReport :=
  {| Report.summary :=
       {| Summary.totalPages := 1; Summary.totalIssues := 7; Summary.overallScore := 0;
          Summary.timestamp := 0; Summary.duration := 7 |};
     Report.pages :=
       [{| PageReport.url := "https://a.example";
           PageReport.timestamp := 0;
           PageReport.duration := 7;
           PageReport.totalIssues := 7;
           PageReport.issuesBySeverity :=
             {| BySeverity.error := 6; BySeverity.warning := 1; BySeverity.info := 0 |};
           PageReport.issuesByType := ∅;
           PageReport.wcagCompliance :=
             {| Compliance.A := false; Compliance.AA := false; Compliance.AAA := false |};
           PageReport.issues :=
             sampleIssue Severity.WARNING WcagLevel.A ::
             replicate 6 (sampleIssue Severity.ERROR WcagLevel.A);
           PageReport.score := 0 |}];
     Report.configuration := DEFAULT_CONFIG |}.

(** What a group shows of the issues filed under its key: how many they
    are, the first five of them, and how many more there are. *)
Definition showsFirstFive (group : Breakdown.t) (issues : list AccessibilityIssue) : Prop :=
  Breakdown.count group = length issues /\
  Breakdown.items group = take 5 issues /\
  Breakdown.more group =
    (if decide (5 < length issues)%nat then Some (length issues - 5)%nat else None).

(** * Properties *)

(** ** The issue and score model *)

Lemma Math_round_integer (z : Z) : Math_round (inject_Z z) = z.
Proof.
  unfold Math_round, Qfloor, Qplus, inject_Z. cbn [Qnum Qden].
  change (Z.pos (1 * 2)) with 2.
  symmetry. apply Z.div_unique with (r := 1); lia.
Qed.

Lemma foldl_weights (issues : list AccessibilityIssue) (start : Z) :
  foldl (fun total issue => total + weights (Issue.severity issue)) start issues
  = start + penalty issues.
Proof.
  revert start. induction issues as [|i issues IH]; intros start; simpl.
  - lia.
  - rewrite IH. lia.
Qed.

Lemma penalty_severities (l1 l2 : list AccessibilityIssue) :
  Issue.severity <$> l1 ≡ₚ Issue.severity <$> l2 -> penalty l1 = penalty l2.
Proof.
  assert (Hsum : forall l, penalty l = foldr Z.add 0 (weights <$> (Issue.severity <$> l))).
  { induction l as [|i l IH]; csimpl; [reflexivity | by rewrite IH]. }
  intros Hp. rewrite !Hsum.
  assert (Hperm : forall s1 s2 : list Severity, s1 ≡ₚ s2 ->
            foldr Z.add 0 (weights <$> s1) = foldr Z.add 0 (weights <$> s2)).
  { induction 1; csimpl in *; lia. }
  by apply Hperm.
Qed.

Lemma penalty_nonneg (issues : list AccessibilityIssue) : 0 <= penalty issues.
Proof.
  induction issues as [|i issues IH]; simpl; [lia|].
  destruct (Issue.severity i); simpl; lia.
Qed.

Lemma calculateScore_spec (issues : list AccessibilityIssue) :
  calculateScore issues = Z.max 0 (100 - penalty issues).
Proof.
  unfold calculateScore. rewrite Math_round_integer.
  destruct (decide (length issues = 0%nat)) as [Hlen|_].
  - destruct issues; [reflexivity | discriminate].
  - rewrite foldl_weights. f_equal.
Qed.

(** C1. [calculateScore] returns [max(0, 100 - sum of weights)] with
    error = 10, warning = 5 and info = 1; the empty list scores 100; two
    lists with the same multiset of severities score the same, so the score
    of a list is the score of each of its permutations. *)
Theorem C1_calculateScore_clamped_sum :
  weights Severity.ERROR = 10 /\ weights Severity.WARNING = 5 /\
  weights Severity.INFO = 1 /\
  (forall issues, calculateScore issues = Z.max 0 (100 - penalty issues)) /\
  calculateScore [] = 100 /\
  (forall issues issues',
     Issue.severity <$> issues ≡ₚ Issue.severity <$> issues' ->
     calculateScore issues = calculateScore issues') /\
  (forall issues issues', issues ≡ₚ issues' ->
     calculateScore issues = calculateScore issues').
Proof.
  split_and!; try reflexivity.
  - apply calculateScore_spec.
  - intros issues issues' Hp. rewrite !calculateScore_spec.
    by rewrite (penalty_severities _ _ Hp).
  - intros issues issues' Hp. rewrite !calculateScore_spec.
    rewrite (penalty_severities issues issues'); [done|].
    by apply fmap_Permutation.
Qed.

(** C6. [createAccessibilityIssue] copies the clause the table registers
    for the pair of checker type and level into [wcagReference] and derives
    [helpUrl] from it; where the table holds [null], which is the case for
    colour contrast at level A only, [wcagReference] is "N/A" and there is
    no [helpUrl]. *)
Theorem C6_createIssue_reference_and_helpUrl :
  forall newId type severity level message description element location suggestedFix,
    let issue := createAccessibilityIssue newId type severity level message
                   description element location suggestedFix in
    match WCAG_REFERENCES type level with
    | Some clause =>
        Issue.wcagReference issue = clause /\
        Issue.helpUrl issue =
          Some ("https://www.w3.org/WAI/WCAG21/Understanding/" +:+ clause +:+ ".html")
    | None =>
        Issue.wcagReference issue = "N/A" /\ Issue.helpUrl issue = None
    end /\
    (WCAG_REFERENCES type level = None <->
     type = CheckType.COLOR_CONTRAST /\ level = WcagLevel.A).
Proof.
  intros newId type severity level message description element location
    suggestedFix issue.
  split.
  - destruct type, level; split; reflexivity.
  - split.
    + destruct type, level; simpl; intros H; try discriminate H; done.
    + intros [-> ->]. reflexivity.
Qed.

(** ** Promises *)

Section promise_all.
Context {A : Type}.
Implicit Types (order : list (nat * Task A)) (tasks : list (Task A)).
Implicit Types (values : list (option A)).

Lemma settleAll_fulfilled order values :
  Forall (fun x => is_Some (fulfilment x.2)) order ->
  settleAll order values = (Ok (stored values order), order ≫= (settled ∘ snd)).
Proof.
  revert values. induction order as [|[i t] order IH]; intros values Hok.
  - reflexivity.
  - apply Forall_cons in Hok as [[v Hv] Hok]. unfold fulfilment in Hv.
    cbn [snd] in Hv. cbn [settleAll].
    destruct (outcome t) as [value|reason] eqn:Ht; [|discriminate].
    rewrite (IH _ Hok). unfold stored. simpl. by rewrite Ht.
Qed.

Lemma settleAll_rejected order values reason evs :
  settleAll order values = (Err reason, evs) ->
  exists x, x ∈ order /\ outcome x.2 = Err reason.
Proof.
  revert values evs. induction order as [|[i t] order IH]; intros values evs H.
  - discriminate.
  - simpl in H. destruct (outcome t) as [value|reason'] eqn:Ht.
    + destruct (settleAll order _) as [r evs'] eqn:Hrest.
      injection H as -> <-.
      destruct (IH _ _ Hrest) as (x & Hx & Hr).
      exists x. split; [by right | done].
    + injection H as -> <-. exists (i, t). split; [by left | done].
Qed.

Lemma settleAll_rejects order values :
  Exists (fun x => fulfilment x.2 = None) order ->
  exists reason evs, settleAll order values = (Err reason, evs).
Proof.
  revert values. induction order as [|[i t] order IH]; intros values Hex.
  - by apply Exists_nil in Hex.
  - simpl. destruct (outcome t) as [value|reason] eqn:Ht.
    + apply Exists_cons in Hex as [Hex|Hex].
      { unfold fulfilment in Hex. simpl in Hex. by rewrite Ht in Hex. }
      destruct (IH (<[i:=Some value]> values) Hex) as (reason & evs & ->).
      by eexists _, _.
    + by eexists _, _.
Qed.

Lemma settleAll_events order values ev :
  ev ∈ (settleAll order values).2 ->
  exists x, x ∈ order /\ ev ∈ settled x.2.
Proof.
  revert values. induction order as [|[i t] order IH]; intros values H.
  - simpl in H. by apply elem_of_nil in H.
  - simpl in H. destruct (outcome t) as [value|reason].
    + destruct (settleAll order _) as [r evs'] eqn:Hrest. simpl in H.
      apply elem_of_app in H as [H|H].
      * exists (i, t). split; [by left | done].
      * specialize (IH (<[i:=Some value]> values)). rewrite Hrest in IH.
        destruct (IH H) as (x & Hx & Hev). exists x. split; [by right | done].
    + exists (i, t). split; [by left | done].
Qed.

Lemma length_stored values order : length (stored values order) = length values.
Proof.
  revert values. induction order as [|[i t] order IH]; intros values; [done|].
  unfold stored in *. simpl. rewrite IH.
  destruct (outcome t); [by rewrite length_insert | done].
Qed.

(** Each slot named in [order] holds the value of the task at that index;
    the other slots are untouched. *)
Lemma stored_lookup tasks order values (j : nat) :
  (forall x, x ∈ order -> tasks !! x.1 = Some x.2) ->
  Forall (fun x => is_Some (fulfilment x.2)) order ->
  stored values order !! j =
    if decide (j ∈ order.*1 /\ (j < length values)%nat)
    then fulfilment <$> tasks !! j
    else values !! j.
Proof.
  revert values. induction order as [|[i t] order IH]; intros values Hidx Hok.
  - cbn [stored foldl]. rewrite decide_False; [done|].
    intros [H _]. by apply elem_of_nil in H.
  - apply Forall_cons in Hok as [[v Hv] Hok].
    assert (Hi : tasks !! i = Some t) by (apply (Hidx (i, t)); by left).
    assert (Ht : outcome t = Ok v).
    { unfold fulfilment in Hv. simpl in Hv. by destruct (outcome t); simplify_eq. }
    change (stored values ((i, t) :: order))
      with (stored (match outcome (i, t).2 with
                    | Ok value => <[(i, t).1 := Some value]> values
                    | Err _ => values
                    end) order).
    simpl. rewrite Ht.
    rewrite IH; [|intros x Hx; apply Hidx; by right|done].
    rewrite length_insert. csimpl.
    destruct (decide (j ∈ order.*1 /\ (j < length values)%nat)) as [[Hj Hlt]|Hno].
    + rewrite decide_True; [done|]. split; [by right | done].
    + destruct (decide (j = i)) as [->|Hne].
      * destruct (decide (i < length values)%nat) as [Hlt|Hge].
        -- rewrite decide_True; [|split; [by left | done]].
           rewrite list_lookup_insert_eq by done.
           rewrite Hi. simpl. unfold fulfilment. by rewrite Ht.
        -- rewrite decide_False; [|intros [_ ?]; done].
           rewrite list_insert_ge by lia. done.
      * rewrite list_lookup_insert_ne by done.
        rewrite decide_False; [done|].
        intros [Hj Hlt]. apply Hno. split; [|done].
        apply elem_of_cons in Hj as [?|?]; [done|done].
Qed.

Lemma settleOrder_elem tasks x :
  x ∈ settleOrder tasks <-> tasks !! x.1 = Some x.2.
Proof.
  unfold settleOrder. rewrite merge_sort_Permutation.
  rewrite elem_of_lookup_imap. split.
  - intros (i & t & -> & Hi). done.
  - intros Hx. exists x.1, x.2. split; [by destruct x | done].
Qed.

Lemma settleOrder_indices tasks (j : nat) :
  j ∈ (settleOrder tasks).*1 <-> (j < length tasks)%nat.
Proof.
  rewrite list_elem_of_fmap. split.
  - intros (x & -> & Hx). apply settleOrder_elem in Hx.
    by apply lookup_lt_Some in Hx.
  - intros Hlt. apply lookup_lt_is_Some_2 in Hlt as [t Ht].
    exists (j, t). split; [done|]. by apply settleOrder_elem.
Qed.

(** When every task is fulfilled, every slot of the values array is
    filled with the value of the task at that position. *)
Lemma stored_all tasks :
  Forall (fun t => is_Some (fulfilment t)) tasks ->
  stored (replicate (length tasks) None) (settleOrder tasks) = fulfilment <$> tasks.
Proof.
  intros Hok. apply list_eq. intros j.
  rewrite (stored_lookup tasks).
  - rewrite length_replicate. case_decide as Hj.
    + by rewrite list_lookup_fmap.
    + assert (length tasks <= j)%nat as Hge.
      { destruct (decide (j < length tasks)%nat) as [Hlt|]; [|lia].
        exfalso. apply Hj. split; [by apply settleOrder_indices | done]. }
      transitivity (@None (option A)).
      * by apply lookup_replicate_None.
      * rewrite list_lookup_fmap. by rewrite lookup_ge_None_2.
  - intros x Hx. by apply settleOrder_elem.
  - apply Forall_forall. intros x Hx. apply settleOrder_elem in Hx.
    rewrite Forall_forall in Hok. apply Hok. by eapply list_elem_of_lookup_2.
Qed.

Lemma omap_fulfilment tasks (vs : list A) :
  Forall2 (fun t v => outcome t = Ok v) tasks vs ->
  omap id (fulfilment <$> tasks) = vs.
Proof.
  induction 1 as [|t v tasks vs Ht _ IH]; [done|].
  csimpl. unfold fulfilment at 1. rewrite Ht. simpl. by rewrite IH.
Qed.

(** [Promise.all] on tasks that are all fulfilled is fulfilled with their
    values in the order of the tasks, whatever the order they settle in. *)
Lemma Promise_all_fulfilled tasks (vs : list A) :
  Forall2 (fun t v => outcome t = Ok v) tasks vs ->
  Promise_all tasks =
    (Ok vs, (tasks ≫= started) ++ (settleOrder tasks ≫= (settled ∘ snd))).
Proof.
  intros Hall.
  assert (Hok : Forall (fun t => is_Some (fulfilment t)) tasks).
  { clear -Hall. induction Hall as [|t v ? ? Ht]; constructor; [|done].
    unfold fulfilment. rewrite Ht. by eexists. }
  unfold Promise_all. rewrite settleAll_fulfilled.
  - rewrite stored_all by done. by rewrite (omap_fulfilment tasks vs).
  - apply Forall_forall. intros x Hx. apply settleOrder_elem in Hx.
    rewrite Forall_forall in Hok. apply Hok. by eapply list_elem_of_lookup_2.
Qed.

(** A rejection of [Promise.all] is the rejection of one of its tasks. *)
Lemma Promise_all_rejected tasks reason :
  (Promise_all tasks).1 = Err reason ->
  exists t, t ∈ tasks /\ outcome t = Err reason.
Proof.
  unfold Promise_all.
  destruct (settleAll _ _) as [[values|reason'] evs] eqn:Hs; simpl; [done|].
  intros [= ->]. apply settleAll_rejected in Hs as (x & Hx & Hr).
  exists x.2. split; [|done]. apply settleOrder_elem in Hx.
  by eapply list_elem_of_lookup_2.
Qed.

(** [Promise.all] rejects as soon as one of its tasks does. *)
Lemma Promise_all_rejects tasks t reason :
  t ∈ tasks -> outcome t = Err reason ->
  exists reason', (Promise_all tasks).1 = Err reason'.
Proof.
  intros Ht Hr. unfold Promise_all.
  destruct (settleAll_rejects (settleOrder tasks)
              (replicate (length tasks) None)) as (reason' & evs & ->).
  - apply Exists_exists. apply list_elem_of_lookup_1 in Ht as [i Hi].
    exists (i, t). split; [by apply settleOrder_elem|].
    unfold fulfilment. simpl. by rewrite Hr.
  - by exists reason'.
Qed.

(** A fulfilment of [Promise.all] lists the values of its tasks in order. *)
Lemma Promise_all_Ok_inv tasks (vs : list A) :
  (Promise_all tasks).1 = Ok vs ->
  Forall2 (fun t v => outcome t = Ok v) tasks vs.
Proof.
  intros Hres.
  assert (Hall : exists vs', Forall2 (fun t v => outcome t = Ok v) tasks vs').
  { assert (Hno : forall t, t ∈ tasks -> exists v, outcome t = Ok v).
    { intros t Ht. destruct (outcome t) as [v|reason] eqn:Hr; [by exists v|].
      destruct (Promise_all_rejects tasks t reason Ht Hr) as [reason' Hrej].
      congruence. }
    clear Hres. induction tasks as [|t tasks IH].
    - exists []. constructor.
    - destruct (Hno t) as [v Hv]; [by left|].
      destruct IH as [vs' Hvs']; [intros t' Ht'; apply Hno; by right|].
      exists (v :: vs'). by constructor. }
  destruct Hall as [vs' Hall].
  rewrite (Promise_all_fulfilled _ _ Hall) in Hres. simpl in Hres.
  by injection Hres as <-.
Qed.

(** The calls [Promise.all] records are calls of its tasks. *)
Lemma Promise_all_events tasks ev :
  ev ∈ (Promise_all tasks).2 ->
  exists t, t ∈ tasks /\ (ev ∈ started t \/ ev ∈ settled t).
Proof.
  unfold Promise_all.
  destruct (settleAll _ _) as [r evs] eqn:Hs.
  assert (Hin : ev ∈ (tasks ≫= started) ++ evs ->
                exists t, t ∈ tasks /\ (ev ∈ started t \/ ev ∈ settled t)).
  { intros [H|H]%elem_of_app.
    - apply list_elem_of_bind in H as (t & Hev & Ht). exists t. auto.
    - pose proof (settleAll_events (settleOrder tasks)
                    (replicate (length tasks) None) ev) as He.
      rewrite Hs in He. destruct (He H) as (x & Hx & Hev).
      exists x.2. split; [|auto]. apply settleOrder_elem in Hx.
      by eapply list_elem_of_lookup_2. }
  by destruct r.
Qed.

End promise_all.

(** ** One page check *)

(** The tasks [checkPage] hands to [Promise.all]. *)
Lemma await_all_const {A B} (f : B -> Task A) (l : list B) (mgr : BrowserManager) :
  await_all (map (fun x _ => f x) l) mgr =
    ((Promise_all (map f l)).1, mgr, (Promise_all (map f l)).2).
Proof.
  unfold await_all. rewrite map_map. by destruct (Promise_all (map f l)).
Qed.

Ltac run_step :=
  cbv [bind emit ret throw get put external try_finally page_close
       waitForAccessibilityTree].

Lemma waitForAccessibilityTree_run page mgr :
  waitForAccessibilityTree page mgr =
    (if stabilizes page then Ok () else Err StabilizationError, mgr, waitEvents page).
Proof.
  unfold stabilizes, waitEvents. run_step.
  by destruct (Dom.axeLoads page), (Dom.networkIdle page), (Dom.timeoutElapses page).
Qed.

(** A page check, step by step. *)
Lemma checkPage_run w config p url mgr :
  checkPage w config p url mgr =
    match Dom.gotoError (browse w url) with
    | Some cause => (Err (NavigationError url cause), mgr, [EvGoto url])
    | None =>
        if stabilizes (browse w url)
        then
          match Promise_all (map (fun checker => Checker.check checker (browse w url) config)
                                 (enabledCheckers config)) with
          | (Ok results, evs) =>
              (Ok (pageReport (browse w url) url results), mgr,
               EvGoto url :: waitEvents (browse w url) ++ evs)
          | (Err reason, evs) =>
              (Err reason, mgr, EvGoto url :: waitEvents (browse w url) ++ evs)
          end
        else (Err StabilizationError, mgr, EvGoto url :: waitEvents (browse w url))
    end.
Proof.
  unfold checkPage.
  cbv [bind emit ret throw]. 
  destruct (Dom.gotoError (browse w url)) as [error|]; [done|].
  rewrite waitForAccessibilityTree_run.
  destruct (stabilizes (browse w url)); [|done].
  rewrite await_all_const.
  destruct (Promise_all _) as [[checkerResults|reason] evs']; cbn [fst snd];
    simpl; by rewrite ?app_nil_r.
Qed.

(** What a page check that returns has done and what it returns. *)
Lemma checkPage_Ok_inv w config p url mgr r mgr' evs :
  checkPage w config p url mgr = (Ok r, mgr', evs) ->
  exists checkerResults evs',
    Dom.gotoError (browse w url) = None /\
    stabilizes (browse w url) = true /\
    Promise_all (map (fun checker => Checker.check checker (browse w url) config)
                     (enabledCheckers config)) = (Ok checkerResults, evs') /\
    mgr' = mgr /\
    evs = EvGoto url :: waitEvents (browse w url) ++ evs' /\
    PageReport.url r = url /\
    PageReport.issues r = checkerResults ≫= CheckerResult.issues /\
    PageReport.totalIssues r = length (PageReport.issues r) /\
    PageReport.issuesBySeverity r =
      {| BySeverity.error :=
           length (filter (fun issue => Issue.severity issue = Severity.ERROR)
                          (PageReport.issues r));
         BySeverity.warning :=
           length (filter (fun issue => Issue.severity issue = Severity.WARNING)
                          (PageReport.issues r));
         BySeverity.info :=
           length (filter (fun issue => Issue.severity issue = Severity.INFO)
                          (PageReport.issues r)) |} /\
    PageReport.issuesByType r =
      foldl (fun acc type =>
               <[CheckType.value type :=
                   length (filter (fun issue => Issue.type issue = type)
                                  (PageReport.issues r))]> acc)
            (∅ : gmap string nat) CheckType.values /\
    PageReport.wcagCompliance r =
      {| Compliance.A := isWcagCompliant (PageReport.issues r) WcagLevel.A;
         Compliance.AA := isWcagCompliant (PageReport.issues r) WcagLevel.AA;
         Compliance.AAA := isWcagCompliant (PageReport.issues r) WcagLevel.AAA |} /\
    PageReport.score r = calculateScore (PageReport.issues r).
Proof.
  rewrite checkPage_run.
  destruct (Dom.gotoError (browse w url)) as [error|]; [discriminate|].
  destruct (stabilizes (browse w url)); [|discriminate].
  destruct (Promise_all _) as [[checkerResults|reason] evs'] eqn:Hall; [|discriminate].
  intros [= <- <- <-]. exists checkerResults, evs'.
  by split_and!.
Qed.

(** A page check rejects in one of three ways. *)
Lemma checkPage_Err_inv w config p url mgr reason mgr' evs :
  checkPage w config p url mgr = (Err reason, mgr', evs) ->
  mgr' = mgr /\
  ((exists cause, Dom.gotoError (browse w url) = Some cause /\
                  reason = NavigationError url cause /\ evs = [EvGoto url]) \/
   (Dom.gotoError (browse w url) = None /\ stabilizes (browse w url) = false /\
    reason = StabilizationError /\ evs = EvGoto url :: waitEvents (browse w url)) \/
   (Dom.gotoError (browse w url) = None /\ stabilizes (browse w url) = true /\
    exists evs',
      Promise_all (map (fun checker => Checker.check checker (browse w url) config)
                       (enabledCheckers config)) = (Err reason, evs') /\
      evs = EvGoto url :: waitEvents (browse w url) ++ evs')).
Proof.
  rewrite checkPage_run.
  destruct (Dom.gotoError (browse w url)) as [error|].
  { intros [= <- <- <-]. split; [done|]. left. by exists error. }
  destruct (stabilizes (browse w url)).
  2:{ intros [= <- <- <-]. split; [done|]. right. left. done. }
  destruct (Promise_all _) as [[checkerResults|reason'] evs'] eqn:Hall; [discriminate|].
  intros [= <- <- <-]. split; [done|]. right. right.
  split_and!; [done..|]. by exists evs'.
Qed.

(** A page check never touches the session manager. *)
Lemma checkPage_manager w config p url mgr :
  (checkPage w config p url mgr).1.2 = mgr.
Proof.
  destruct (checkPage w config p url mgr) as [[[r|reason] mgr'] evs] eqn:H.
  - by apply checkPage_Ok_inv in H as (? & ? & _ & _ & _ & -> & _).
  - by apply checkPage_Err_inv in H as [-> _].
Qed.

(** What the five registered checkers have in common. *)
Lemma check_calls checker page config :
  checker ∈ ALL_CHECKERS ->
  started (Checker.check checker page config) = [EvEvaluate (Checker.type checker)] /\
  settled (Checker.check checker page config) = [EvEvaluated (Checker.type checker)].
Proof.
  unfold ALL_CHECKERS. rewrite !elem_of_cons, elem_of_nil.
  intros [->|[->|[->|[->|[->|[]]]]]]; split; reflexivity.
Qed.

Lemma check_rejection checker page config reason :
  checker ∈ ALL_CHECKERS ->
  outcome (Checker.check checker page config) = Err reason ->
  reason = CheckerError (Checker.type checker).
Proof.
  unfold ALL_CHECKERS. rewrite !elem_of_cons, elem_of_nil.
  intros [->|[->|[->|[->|[->|[]]]]]]; cbn;
    destruct (Dom.evaluate page _ _); congruence.
Qed.

Lemma enabledCheckers_elem config checker :
  checker ∈ enabledCheckers config <->
  checker ∈ ALL_CHECKERS /\
  Checker.type checker ∈ Config.enabled (Config.checks config) /\
  Checker.type checker ∉ Config.disabled (Config.checks config).
Proof. unfold enabledCheckers. rewrite list_elem_of_filter. tauto. Qed.

Lemma checkPage_events w config p url mgr :
  (checkPage w config p url mgr).2 =
    match Dom.gotoError (browse w url) with
    | Some _ => [EvGoto url]
    | None =>
        if stabilizes (browse w url)
        then EvGoto url :: waitEvents (browse w url) ++
             (Promise_all (map (fun checker => Checker.check checker (browse w url) config)
                               (enabledCheckers config))).2
        else EvGoto url :: waitEvents (browse w url)
    end.
Proof.
  rewrite checkPage_run.
  destruct (Dom.gotoError (browse w url)) as [error|]; [done|].
  destruct (stabilizes (browse w url)); [|done].
  by destruct (Promise_all _) as [[checkerResults|reason] evs'].
Qed.

Lemma evaluations_waitEvents page evs :
  evaluations (waitEvents page ++ evs) = evaluations evs.
Proof.
  unfold waitEvents. by destruct (Dom.axeLoads page), (Dom.networkIdle page).
Qed.

Lemma evaluations_started (checkers : list AccessibilityChecker) page config :
  Forall (fun checker => checker ∈ ALL_CHECKERS) checkers ->
  evaluations (map (fun checker => Checker.check checker page config) checkers ≫= started)
  = Checker.type <$> checkers.
Proof.
  induction 1 as [|checker checkers Hin _ IH]; [done|].
  csimpl. destruct (check_calls checker page config Hin) as [-> _].
  unfold evaluations in *. rewrite omap_app, IH. done.
Qed.

Lemma evaluations_settled (checkers : list AccessibilityChecker) page config evs :
  Forall (fun checker => checker ∈ ALL_CHECKERS) checkers ->
  (forall ev, ev ∈ evs ->
     exists t, t ∈ map (fun checker => Checker.check checker page config) checkers /\
               ev ∈ settled t) ->
  evaluations evs = [].
Proof.
  intros Hreg Hevs. induction evs as [|ev evs IH]; [done|].
  unfold evaluations in *. csimpl. rewrite IH.
  - destruct (Hevs ev) as (t & Ht & Hev); [by left|].
    apply list_elem_of_fmap in Ht as (checker & -> & Hc).
    rewrite Forall_forall in Hreg.
    destruct (check_calls checker page config (Hreg _ Hc)) as [_ Hs].
    rewrite Hs in Hev. apply list_elem_of_singleton in Hev as ->. done.
  - intros ev' Hev'. apply Hevs. by right.
Qed.

Lemma Promise_all_settled_events {A} (tasks : list (Task A)) :
  exists evs, (Promise_all tasks).2 = (tasks ≫= started) ++ evs /\
    forall ev, ev ∈ evs -> exists t, t ∈ tasks /\ ev ∈ settled t.
Proof.
  unfold Promise_all.
  pose proof (settleAll_events (settleOrder tasks) (replicate (length tasks) None)) as He.
  destruct (settleAll _ _) as [r evs]. exists evs. split; [by destruct r|].
  intros ev Hev. destruct (He ev Hev) as (x & Hx & Hin).
  exists x.2. split; [|done]. apply settleOrder_elem in Hx.
  by eapply list_elem_of_lookup_2.
Qed.

Lemma checkPage_evaluations w config p url mgr :
  evaluations (checkPage w config p url mgr).2 =
    match Dom.gotoError (browse w url) with
    | Some _ => []
    | None => if stabilizes (browse w url)
              then Checker.type <$> enabledCheckers config
              else []
    end.
Proof.
  rewrite checkPage_events.
  destruct (Dom.gotoError (browse w url)) as [error|]; [done|].
  destruct (stabilizes (browse w url)).
  2:{ change (evaluations (EvGoto url :: waitEvents (browse w url)))
        with (evaluations (waitEvents (browse w url))).
      by rewrite <- (app_nil_r (waitEvents _)), evaluations_waitEvents. }
  change (evaluations (EvGoto url :: ?l)) with (evaluations l).
  rewrite evaluations_waitEvents.
  assert (Hreg : Forall (fun checker => checker ∈ ALL_CHECKERS) (enabledCheckers config)).
  { apply Forall_forall. intros checker Hc. by apply enabledCheckers_elem in Hc as [? _]. }
  destruct (Promise_all_settled_events
              (map (fun checker => Checker.check checker (browse w url) config)
                   (enabledCheckers config))) as (evs & -> & Hevs).
  unfold evaluations. rewrite !omap_app. fold (evaluations evs).
  rewrite (evaluations_settled _ _ _ _ Hreg Hevs), app_nil_r.
  by apply evaluations_started.
Qed.

(** C5. The checkers a page check runs are exactly the registry entries
    whose type is in [enabled] and not in [disabled]: a type listed in
    [disabled] is never evaluated, whether or not [enabled] lists it too.
    The page check runs them once the page has loaded and the three waits
    are fulfilled, and runs none when one of these fails. *)
Theorem C5_disabled_wins :
  (forall config checker,
     checker ∈ enabledCheckers config <->
     checker ∈ ALL_CHECKERS /\
     Checker.type checker ∈ Config.enabled (Config.checks config) /\
     Checker.type checker ∉ Config.disabled (Config.checks config)) /\
  (forall w config p url mgr type,
     type ∈ Config.disabled (Config.checks config) ->
     type ∉ evaluations (checkPage w config p url mgr).2) /\
  (forall w config p url mgr,
     Dom.gotoError (browse w url) = None ->
     Dom.axeLoads (browse w url) = true ->
     Dom.networkIdle (browse w url) = true ->
     Dom.timeoutElapses (browse w url) = true ->
     evaluations (checkPage w config p url mgr).2 =
       Checker.type <$> enabledCheckers config) /\
  (forall w config p url mgr,
     Dom.gotoError (browse w url) <> None \/ Dom.axeLoads (browse w url) = false \/
     Dom.networkIdle (browse w url) = false \/
     Dom.timeoutElapses (browse w url) = false ->
     evaluations (checkPage w config p url mgr).2 = []).
Proof.
  split_and!.
  - apply enabledCheckers_elem.
  - intros w config p url mgr type Hdis Hin.
    rewrite checkPage_evaluations in Hin.
    destruct (Dom.gotoError (browse w url)); [by apply elem_of_nil in Hin|].
    destruct (stabilizes (browse w url)); [|by apply elem_of_nil in Hin].
    apply list_elem_of_fmap in Hin as (checker & -> & Hc).
    apply enabledCheckers_elem in Hc as (_ & _ & Hno). done.
  - intros w config p url mgr Hgoto Haxe Hidle Htimeout.
    rewrite checkPage_evaluations, Hgoto. unfold stabilizes.
    by rewrite Haxe, Hidle, Htimeout.
  - intros w config p url mgr Hfails. rewrite checkPage_evaluations.
    destruct (Dom.gotoError (browse w url)); [done|]. unfold stabilizes.
    destruct Hfails as [? | [-> | [-> | ->]]]; [done|done| |];
      by rewrite ?andb_false_r.
Qed.

(** ** Compliance and statistics of a page report *)

Lemma isWcagCompliant_true issues level :
  isWcagCompliant issues level = true <->
  ~ exists issue, issue ∈ issues /\
      Issue.severity issue = Severity.ERROR /\ Issue.wcagLevel issue = level.
Proof.
  unfold isWcagCompliant. rewrite negb_true_iff, <- not_true_iff_false.
  rewrite existsb_exists. split; intros Hno Hex; apply Hno.
  - destruct Hex as (issue & Hin & Hsev & Hlev). exists issue.
    rewrite <- list_elem_of_In, andb_true_iff, !bool_decide_eq_true. done.
  - destruct Hex as (issue & Hin & Hb). exists issue.
    rewrite <- list_elem_of_In, andb_true_iff, !bool_decide_eq_true in *. tauto.
Qed.

Lemma isWcagCompliant_skip issues1 issue issues2 level :
  Issue.wcagLevel issue <> level \/ Issue.severity issue <> Severity.ERROR ->
  isWcagCompliant (issues1 ++ issue :: issues2) level =
  isWcagCompliant (issues1 ++ issues2) level.
Proof.
  intros Hskip. unfold isWcagCompliant. rewrite !existsb_app. cbn [existsb].
  replace (bool_decide (Issue.wcagLevel issue = level) &&
           bool_decide (Issue.severity issue = Severity.ERROR)) with false; [done|].
  symmetry. apply andb_false_iff.
  destruct Hskip as [H|H]; [left|right]; by apply bool_decide_eq_false.
Qed.

(** C3. The compliance entry of a level is [true] exactly when no issue
    is an error raised at that level; an issue of another level, or a
    warning or an info at the level, leaves the entry as it is; and the
    three entries of a page report are computed this way from its issues. *)
Theorem C3_compliance_iff_no_error_at_level :
  (forall issues level,
     isWcagCompliant issues level = true <->
     ~ exists issue, issue ∈ issues /\
         Issue.severity issue = Severity.ERROR /\ Issue.wcagLevel issue = level) /\
  (forall issues1 issue issues2 level,
     Issue.severity issue = Severity.ERROR -> Issue.wcagLevel issue <> level ->
     isWcagCompliant (issues1 ++ issue :: issues2) level =
     isWcagCompliant (issues1 ++ issues2) level) /\
  (forall issues1 issue issues2 level,
     Issue.severity issue <> Severity.ERROR -> Issue.wcagLevel issue = level ->
     isWcagCompliant (issues1 ++ issue :: issues2) level =
     isWcagCompliant (issues1 ++ issues2) level) /\
  (forall w config p url mgr r mgr' evs level,
     checkPage w config p url mgr = (Ok r, mgr', evs) ->
     Compliance.at_level (PageReport.wcagCompliance r) level =
     isWcagCompliant (PageReport.issues r) level).
Proof.
  split_and!.
  - apply isWcagCompliant_true.
  - intros. apply isWcagCompliant_skip. by left.
  - intros. apply isWcagCompliant_skip. by right.
  - intros w config p url mgr r mgr' evs level H.
    apply checkPage_Ok_inv in H
      as (? & ? & _ & _ & _ & _ & _ & _ & _ & _ & _ & _ & Hc & _).
    rewrite Hc. by destruct level.
Qed.

Lemma severity_counts (issues : list AccessibilityIssue) :
  (length (filter (fun issue => Issue.severity issue = Severity.ERROR) issues) +
   length (filter (fun issue => Issue.severity issue = Severity.WARNING) issues) +
   length (filter (fun issue => Issue.severity issue = Severity.INFO) issues)
   = length issues)%nat.
Proof.
  induction issues as [|issue issues IH]; [done|].
  rewrite !filter_cons. destruct (Issue.severity issue);
    repeat case_decide; try congruence; simpl; lia.
Qed.

Lemma type_counts (issues : list AccessibilityIssue) :
  foldr (fun type acc =>
           (length (filter (fun issue => Issue.type issue = type) issues) + acc)%nat)
        0%nat CheckType.values
  = length issues.
Proof.
  cbn [foldr CheckType.values].
  induction issues as [|issue issues IH]; [done|].
  rewrite !filter_cons. destruct (Issue.type issue);
    repeat case_decide; try congruence; simpl; lia.
Qed.

Lemma bucketTotal_insert key count (m : gmap string nat) :
  m !! key = None -> bucketTotal (<[key:=count]> m) = (count + bucketTotal m)%nat.
Proof.
  intros Hfresh. unfold bucketTotal.
  rewrite map_fold_insert_L; [done| |done]. intros. lia.
Qed.

Section by_type.
Variable count : CheckType -> nat.

Lemma byType_lookup type :
  byType count !! CheckType.value type = Some (count type).
Proof. unfold byType. destruct type; by simplify_map_eq. Qed.

Lemma byType_size : size (byType count) = 8%nat.
Proof.
  unfold byType. cbn [foldl CheckType.values CheckType.value].
  rewrite !map_size_insert_None by (by simplify_map_eq).
  by rewrite map_size_empty.
Qed.

Lemma byType_total :
  bucketTotal (byType count) =
  foldr (fun type acc => (count type + acc)%nat) 0%nat CheckType.values.
Proof.
  unfold byType. cbn [foldl foldr CheckType.values CheckType.value].
  rewrite !bucketTotal_insert by (by simplify_map_eq).
  unfold bucketTotal. rewrite map_fold_empty. lia.
Qed.
End by_type.

(** C7. In the report of a page check, [totalIssues] is the length of the
    issue sequence, [issuesByType] has exactly eight entries, one per
    checker type, each holding the number of issues of that type (zero
    included), the eight counts add up to [totalIssues], and so do the
    three counts of [issuesBySeverity]. *)
Theorem C7_report_buckets :
  forall w config p url mgr r mgr' evs,
    checkPage w config p url mgr = (Ok r, mgr', evs) ->
    PageReport.totalIssues r = length (PageReport.issues r) /\
    (forall type,
       PageReport.issuesByType r !! CheckType.value type =
         Some (length (filter (fun issue => Issue.type issue = type)
                              (PageReport.issues r)))) /\
    size (PageReport.issuesByType r) = 8%nat /\
    bucketTotal (PageReport.issuesByType r) = PageReport.totalIssues r /\
    (BySeverity.error (PageReport.issuesBySeverity r) +
     BySeverity.warning (PageReport.issuesBySeverity r) +
     BySeverity.info (PageReport.issuesBySeverity r))%nat = PageReport.totalIssues r.
Proof.
  intros w config p url mgr r mgr' evs H.
  apply checkPage_Ok_inv in H
    as (? & ? & _ & _ & _ & _ & _ & _ & _ & Htotal & Hsev & Htype & _).
  rewrite Htotal, Hsev, Htype. split_and!.
  - done.
  - intros type.
    apply (byType_lookup (fun type =>
             length (filter (fun issue => Issue.type issue = type) (PageReport.issues r)))).
  - apply (byType_size (fun type =>
             length (filter (fun issue => Issue.type issue = type) (PageReport.issues r)))).
  - etransitivity; [|apply type_counts].
    apply (byType_total (fun type =>
             length (filter (fun issue => Issue.type issue = type) (PageReport.issues r)))).
  - apply severity_counts.
Qed.

(** ** The level of an issue *)

Lemma check_issue_level checker page config result issue :
  checker ∈ ALL_CHECKERS ->
  outcome (Checker.check checker page config) = Ok result ->
  issue ∈ CheckerResult.issues result ->
  Issue.type issue = Checker.type checker /\
  Issue.wcagLevel issue =
    if decide (Checker.type checker = CheckType.COLOR_CONTRAST)
    then Config.wcagLevel config else WcagLevel.A.
Proof.
  unfold ALL_CHECKERS. rewrite !elem_of_cons, elem_of_nil.
  intros [->|[->|[->|[->|[->|[]]]]]]; cbn;
    (destruct (Dom.evaluate page _ _) as [raws|]; [|discriminate]);
    intros [= <-]; cbn;
    intros (n & raw & -> & _)%elem_of_lookup_imap; done.
Qed.

Lemma check_level_independent checker page config level :
  checker ∈ ALL_CHECKERS ->
  Checker.type checker <> CheckType.COLOR_CONTRAST ->
  Checker.check checker page (configure_wcagLevel level config) =
  Checker.check checker page config.
Proof.
  unfold ALL_CHECKERS. rewrite !elem_of_cons, elem_of_nil.
  intros [->|[->|[->|[->|[->|[]]]]]]; cbn; done.
Qed.

Lemma checkPage_issue_origin w config p url mgr r mgr' evs issue :
  checkPage w config p url mgr = (Ok r, mgr', evs) ->
  issue ∈ PageReport.issues r ->
  exists checker result,
    checker ∈ enabledCheckers config /\
    outcome (Checker.check checker (browse w url) config) = Ok result /\
    issue ∈ CheckerResult.issues result.
Proof.
  intros H Hin.
  apply checkPage_Ok_inv in H
    as (results & evs' & _ & _ & Hall & _ & _ & _ & Hissues & _).
  rewrite Hissues in Hin.
  apply list_elem_of_bind in Hin as (result & Hin & Hres).
  assert (Hok : (Promise_all (map (fun checker =>
              Checker.check checker (browse w url) config)
              (enabledCheckers config))).1 = Ok results) by (by rewrite Hall).
  apply Promise_all_Ok_inv in Hok.
  apply list_elem_of_lookup_1 in Hres as [i Hi].
  destruct (Forall2_lookup_r _ _ _ _ _ Hok Hi) as (t & Ht & Hout).
  rewrite list_lookup_fmap in Ht.
  destruct (enabledCheckers config !! i) as [checker|] eqn:Hc; [|discriminate].
  injection Ht as <-. exists checker, result.
  split_and!; [by eapply list_elem_of_lookup_2 | done | done].
Qed.

(** C9. An issue raised by a registered checker other than the colour
    contrast checker is at level A whatever the configuration says, and such
    a checker returns the same result when only the configured level
    changes; an issue raised by the colour contrast checker is at the
    configured level.  The same holds of every issue of a page report. *)
Theorem C9_issue_level_fixed_by_checker :
  (forall checker page config result issue,
     checker ∈ ALL_CHECKERS ->
     outcome (Checker.check checker page config) = Ok result ->
     issue ∈ CheckerResult.issues result ->
     Issue.type issue = Checker.type checker /\
     Issue.wcagLevel issue =
       if decide (Checker.type checker = CheckType.COLOR_CONTRAST)
       then Config.wcagLevel config else WcagLevel.A) /\
  (forall checker page config level,
     checker ∈ ALL_CHECKERS ->
     Checker.type checker <> CheckType.COLOR_CONTRAST ->
     Checker.check checker page (configure_wcagLevel level config) =
     Checker.check checker page config) /\
  (forall w config p url mgr r mgr' evs issue,
     checkPage w config p url mgr = (Ok r, mgr', evs) ->
     issue ∈ PageReport.issues r ->
     Issue.wcagLevel issue =
       if decide (Issue.type issue = CheckType.COLOR_CONTRAST)
       then Config.wcagLevel config else WcagLevel.A).
Proof.
  split_and!.
  - apply check_issue_level.
  - apply check_level_independent.
  - intros w config p url mgr r mgr' evs issue H Hin.
    destruct (checkPage_issue_origin _ _ _ _ _ _ _ _ _ H Hin)
      as (checker & result & Hc & Hout & Hiss).
    apply enabledCheckers_elem in Hc as [Hreg _].
    destruct (check_issue_level _ _ _ _ _ Hreg Hout Hiss) as [-> ->]. done.
Qed.

(** ** A checker that throws *)

(** C2, amended. When exactly one enabled checker throws, the page check
    is rejected with the error of that checker and returns no report; a page
    check that returns has had every enabled checker return, and its issues
    are theirs in registry order. *)
Theorem C2_checker_failure_fails_page :
  (forall w config p url mgr checker,
     Dom.gotoError (browse w url) = None ->
     Dom.axeLoads (browse w url) = true ->
     Dom.networkIdle (browse w url) = true ->
     Dom.timeoutElapses (browse w url) = true ->
     checker ∈ enabledCheckers config ->
     fulfilment (Checker.check checker (browse w url) config) = None ->
     (forall other, other ∈ enabledCheckers config ->
        Checker.type other <> Checker.type checker ->
        is_Some (fulfilment (Checker.check other (browse w url) config))) ->
     exists evs,
       checkPage w config p url mgr =
         (Err (CheckerError (Checker.type checker)), mgr, evs)) /\
  (forall w config p url mgr r mgr' evs,
     checkPage w config p url mgr = (Ok r, mgr', evs) ->
     exists results,
       Forall2 (fun checker result =>
                  outcome (Checker.check checker (browse w url) config) = Ok result)
               (enabledCheckers config) results /\
       PageReport.issues r = results ≫= CheckerResult.issues).
Proof.
  split.
  - intros w config p url mgr checker Hgoto Haxe Hidle Htimeout Hc Hthrows Hothers.
    assert (Hstab : stabilizes (browse w url) = true)
      by (unfold stabilizes; by rewrite Haxe, Hidle, Htimeout).
    set (tasks := map (fun checker => Checker.check checker (browse w url) config)
                      (enabledCheckers config)).
    assert (Hrej : exists reason, (Promise_all tasks).1 = Err reason).
    { unfold fulfilment in Hthrows.
      destruct (outcome (Checker.check checker (browse w url) config))
        as [v|reason] eqn:Hout; [discriminate|].
      apply (Promise_all_rejects tasks
               (Checker.check checker (browse w url) config) reason); [|done].
      apply list_elem_of_fmap. by exists checker. }
    destruct Hrej as [reason Hrej].
    assert (reason = CheckerError (Checker.type checker)) as ->.
    { destruct (Promise_all_rejected tasks reason Hrej) as (t & Ht & Hout).
      apply list_elem_of_fmap in Ht as (other & -> & Hother).
      destruct (decide (Checker.type other = Checker.type checker)) as [Heq|Hne].
      - rewrite <- Heq. eapply check_rejection; [|done].
        by apply enabledCheckers_elem in Hother as [? _].
      - destruct (Hothers other Hother Hne) as [v Hv].
        unfold fulfilment in Hv. by rewrite Hout in Hv. }
    destruct (checkPage w config p url mgr) as [[[r|reason] mgr'] evs] eqn:H.
    + apply checkPage_Ok_inv in H as (results & evs' & _ & _ & Hall & _).
      fold tasks in Hall. rewrite Hall in Hrej. discriminate.
    + apply checkPage_Err_inv in H as [-> [H|[H|H]]].
      * destruct H as (cause & Hg & _). congruence.
      * destruct H as (_ & Ha & _). congruence.
      * destruct H as (_ & _ & evs' & Hall & ->).
        fold tasks in Hall. rewrite Hall in Hrej. injection Hrej as ->.
        by eexists.
  - intros w config p url mgr r mgr' evs H.
    apply checkPage_Ok_inv in H
      as (results & evs' & _ & _ & Hall & _ & _ & _ & Hissues & _).
    exists results. split; [|done].
    assert (Hok : (Promise_all (map (fun checker =>
                Checker.check checker (browse w url) config)
                (enabledCheckers config))).1 = Ok results) by (by rewrite Hall).
    apply Promise_all_Ok_inv, Forall2_fmap_l in Hok. exact Hok.
Qed.

(** ** Chunking *)

Section chunkArray.
Context {T : Type}.
Variable array : list T.
Variable chunkSize : Z.

Lemma slice_chunk (i : Z) :
  0 <= i < Z.of_nat (length array) -> 1 <= chunkSize ->
  slice array i (i + chunkSize) =
    take (Z.to_nat chunkSize) (drop (Z.to_nat i) array).
Proof.
  intros Hi Hc. unfold slice, relativeIndex.
  destruct (Z.ltb_spec i 0) as [?|_]; [lia|].
  destruct (Z.ltb_spec (i + chunkSize) 0) as [?|_]; [lia|].
  rewrite (Z.min_l i) by lia.
  destruct (Z.le_ge_cases (i + chunkSize) (Z.of_nat (length array))) as [Hle|Hge].
  - rewrite Z.min_l by lia. f_equal. lia.
  - rewrite Z.min_r by lia.
    rewrite !take_ge; [done| |]; rewrite length_drop; lia.
Qed.

Abbreviation chunking := (chunking_invariant array chunkSize).

Lemma chunking_start : chunking (0, []).
Proof.
  unfold chunking_invariant, wellChunked. cbn [fst snd length]. split_and!.
  - lia.
  - done.
  - intros k chunk Hk. by rewrite lookup_nil in Hk.
  - intros chunk Hin. by apply elem_of_nil in Hin.
  - constructor.
Qed.

Lemma chunking_step st :
  1 <= chunkSize -> chunking st -> loopCondition array st = true ->
  chunking (loopBody array chunkSize st).
Proof.
  destruct st as [i chunks]. unfold chunking_invariant, loopCondition, loopBody.
  cbn [fst snd]. intros Hc (Hi & Hcat & [Hfull Hsize] & Hall) Hlt.
  apply Z.ltb_lt in Hlt.
  assert (0 <= i) by (rewrite Hi; lia).
  rewrite slice_chunk by lia.
  set (chunk := take (Z.to_nat chunkSize) (drop (Z.to_nat i) array)).
  assert (Hlen : length chunk =
                 Nat.min (Z.to_nat chunkSize) (length array - Z.to_nat i)).
  { subst chunk. by rewrite length_take, length_drop. }
  specialize (Hall ltac:(lia)).
  split_and!.
  - rewrite length_app. cbn [length]. lia.
  - rewrite concat_app, Hcat. cbn [concat]. rewrite app_nil_r.
    subst chunk. rewrite take_take_drop. f_equal. lia.
  - split.
    + intros k chunk' Hk Hlast. rewrite length_app in Hlast. cbn [length] in Hlast.
      rewrite lookup_app_l in Hk by lia.
      rewrite Forall_forall in Hall. apply Hall.
      by eapply list_elem_of_lookup_2.
    + intros chunk' [Hin|Hin]%elem_of_app.
      * by apply Hsize.
      * apply list_elem_of_singleton in Hin as ->. lia.
  - intros Hle. apply Forall_app. split; [done|].
    constructor; [lia | constructor].
Qed.

(** With a chunk size of at least one the loop ends, within one test of
    its condition more than the array has elements from [i] on. *)
Lemma forLoop_terminates fuel st :
  1 <= chunkSize -> chunking st ->
  (Z.to_nat (Z.of_nat (length array) - st.1) < fuel)%nat ->
  exists chunks, forLoop fuel array chunkSize st = Some chunks /\
                 concat chunks = array /\ wellChunked chunkSize chunks.
Proof.
  intros Hc. revert st. induction fuel as [|fuel IH]; intros st Hst Hfuel; [lia|].
  cbn [forLoop]. destruct (loopCondition array st) eqn:Hcond.
  - apply IH; [by apply chunking_step|].
    unfold loopCondition in Hcond. apply Z.ltb_lt in Hcond.
    unfold loopBody. cbn [fst]. lia.
  - exists st.2. destruct Hst as (_ & Hcat & Hwell & _).
    unfold loopCondition in Hcond. apply Z.ltb_ge in Hcond.
    split_and!; [done| |done]. rewrite Hcat. apply take_ge. lia.
Qed.

(** Two runs of the loop that end, end with the same chunks. *)
Lemma forLoop_deterministic fuel fuel' st chunks chunks' :
  forLoop fuel array chunkSize st = Some chunks ->
  forLoop fuel' array chunkSize st = Some chunks' ->
  chunks' = chunks.
Proof.
  revert fuel' st. induction fuel as [|fuel IH]; intros fuel' st H H'; [discriminate|].
  destruct fuel' as [|fuel']; [discriminate|].
  cbn [forLoop] in *. destruct (loopCondition array st).
  - by eapply IH.
  - congruence.
Qed.

Lemma chunkArray_terminates :
  1 <= chunkSize ->
  exists chunks,
    (forall fuel, (length array < fuel)%nat ->
       chunkArray fuel array chunkSize = Some chunks) /\
    concat chunks = array /\ wellChunked chunkSize chunks.
Proof.
  intros Hc.
  destruct (forLoop_terminates (S (length array)) (0, []) Hc chunking_start)
    as (chunks & Hrun & Hcat & Hwell); [cbn [fst]; lia|].
  exists chunks. split_and!; [|done..].
  intros fuel Hfuel.
  destruct (forLoop_terminates fuel (0, []) Hc chunking_start)
    as (chunks' & Hrun' & Hcat' & Hwell'); [cbn [fst]; lia|].
  unfold chunkArray. rewrite Hrun'. f_equal.
  by eapply forLoop_deterministic.
Qed.

(** The index after [n] rounds of the loop. *)
Lemma loop_index (n : nat) :
  (Nat.iter n (loopBody array chunkSize) (0, [])).1 = Z.of_nat n * chunkSize.
Proof.
  induction n as [|n IH]; [done|].
  rewrite Nat.iter_succ. unfold loopBody at 1. cbn [fst]. rewrite IH. lia.
Qed.

(** With a chunk size of zero or less the loop on a non-empty array never
    ends: from an index that is not positive it runs out of any fuel. *)
Lemma forLoop_diverges fuel st :
  chunkSize <= 0 -> array <> [] -> st.1 <= 0 ->
  forLoop fuel array chunkSize st = None.
Proof.
  intros Hc Hne. revert st. induction fuel as [|fuel IH]; intros st Hst; [done|].
  cbn [forLoop]. unfold loopCondition.
  destruct (Z.ltb_spec st.1 (Z.of_nat (length array))) as [_|Hge].
  - apply IH. unfold loopBody. cbn [fst]. lia.
  - destruct array; [done|]. cbn [length] in Hge. lia.
Qed.

End chunkArray.

(** ** The run over several URLs *)

Lemma bind_assoc {A B C} (m : Run A) (f : A -> Run B) (g : B -> Run C) mgr :
  bind (bind m f) g mgr = bind m (fun x => bind (f x) g) mgr.
Proof.
  unfold bind. destruct (m mgr) as [[[a|e] mgr1] evs1]; [|done].
  destruct (f a mgr1) as [[[b|e] mgr2] evs2]; [|done].
  destruct (g b mgr2) as [[r mgr3] evs3]. by rewrite app_assoc.
Qed.

(** A task makes the calls and has the outcome of the function it runs. *)
Lemma spawn_bind {X A} (call : Run X) (rest : X -> Run A) instant mgr :
  outcome (spawn call rest instant mgr) = (bind call rest mgr).1.1 /\
  started (spawn call rest instant mgr) ++ settled (spawn call rest instant mgr)
    = (bind call rest mgr).2.
Proof.
  unfold spawn, bind.
  destruct (call mgr) as [[[x|e] mgr1] evs1]; [|cbn; by rewrite app_nil_r].
  by destruct (rest x mgr1) as [[r mgr2] evs2].
Qed.

Lemma openPage_run page mgr :
  openPage page mgr =
    match BrowserManager.context mgr with
    | Some _ =>
        (if Dom.newPageFails page then Err NewPageError else Ok PageHandle, mgr, [EvNewPage])
    | None => (Err SessionError, mgr, [])
    end.
Proof.
  unfold openPage. run_step.
  destruct (BrowserManager.context mgr); [|done]. by destruct (Dom.newPageFails page).
Qed.

Lemma createPage_run page mgr :
  createPage page mgr =
    match BrowserManager.context mgr with
    | Some _ =>
        if Dom.newPageFails page then (Err NewPageError, mgr, [EvNewPage])
        else if Dom.addInitScriptFails page
        then (Err InitScriptError, mgr, [EvNewPage; EvAddInitScript])
        else (Ok PageHandle, mgr, [EvNewPage; EvAddInitScript])
    | None => (Err SessionError, mgr, [])
    end.
Proof.
  unfold createPage, bind. rewrite openPage_run.
  destruct (BrowserManager.context mgr); [|done].
  destruct (Dom.newPageFails page); [done|].
  unfold injectAxe. run_step. by destruct (Dom.addInitScriptFails page).
Qed.

Lemma page_close_run page mgr :
  page_close page mgr =
    (if Dom.closeFails page then Err PageCloseError else Ok (), mgr, [EvPageClose]).
Proof. unfold page_close. run_step. by destruct (Dom.closeFails page). Qed.

(** The check of a URL in a page of its own, step by step: the error of
    [page.close()] replaces the outcome of the page check. *)
Lemma checkInPage_run w config url mgr :
  checkInPage w config url mgr =
    match BrowserManager.context mgr with
    | Some _ =>
        if Dom.newPageFails (browse w url) then (Err NewPageError, mgr, [EvNewPage])
        else if Dom.addInitScriptFails (browse w url)
        then (Err InitScriptError, mgr, [EvNewPage; EvAddInitScript])
        else (if Dom.closeFails (browse w url) then Err PageCloseError
              else (checkPage w config PageHandle url mgr).1.1,
              mgr,
              [EvNewPage; EvAddInitScript] ++
              (checkPage w config PageHandle url mgr).2 ++ [EvPageClose])
    | None => (Err SessionError, mgr, [])
    end.
Proof.
  unfold checkInPage, bind. rewrite createPage_run.
  destruct (BrowserManager.context mgr); [|done].
  destruct (Dom.newPageFails (browse w url)); [done|].
  destruct (Dom.addInitScriptFails (browse w url)); [done|].
  unfold try_finally.
  pose proof (checkPage_manager w config PageHandle url mgr) as Hm.
  destruct (checkPage w config PageHandle url mgr) as [[r mgr1] evs1].
  cbn [fst snd] in *. subst mgr1. rewrite page_close_run.
  by destruct (Dom.closeFails (browse w url)).
Qed.

Lemma checkInPage_manager w config url mgr : (checkInPage w config url mgr).1.2 = mgr.
Proof.
  rewrite checkInPage_run.
  destruct (BrowserManager.context mgr); [|done].
  by destruct (Dom.newPageFails (browse w url)), (Dom.addInitScriptFails (browse w url)).
Qed.

(** [checkUrl] is the check of the URL in a page of its own, after the
    launch when the session is not launched. *)
Lemma checkUrl_run w config url mgr :
  checkUrl w config url mgr =
    match ensureLaunched w config mgr with
    | (Ok _, mgr1, evs1) =>
        ((checkInPage w config url mgr1).1.1, mgr1,
         evs1 ++ (checkInPage w config url mgr1).2)
    | (Err reason, mgr1, evs1) => (Err reason, mgr1, evs1)
    end.
Proof.
  change (checkUrl w config url mgr)
    with (bind (ensureLaunched w config) (fun _ => checkInPage w config url) mgr).
  unfold bind.
  destruct (ensureLaunched w config mgr) as [[[u|reason] mgr1] evs1]; [|done].
  pose proof (checkInPage_manager w config url mgr1) as Hm.
  destruct (checkInPage w config url mgr1) as [[r mgr2] evs2].
  cbn [fst snd] in *. by subst mgr2.
Qed.

(** The task started for a URL of a chunk settles the way the check of the
    URL in a page of its own ends, and makes the same calls. *)
Lemma checkInNewPage_task w config url mgr :
  outcome (checkInNewPage w config url mgr) = (checkInPage w config url mgr).1.1 /\
  started (checkInNewPage w config url mgr) ++ settled (checkInNewPage w config url mgr)
    = (checkInPage w config url mgr).2.
Proof.
  unfold checkInNewPage, checkInPage, createPage. rewrite bind_assoc.
  apply spawn_bind.
Qed.

(** Checking a URL in a page of its own settles the way [checkPage] does,
    provided there is a context to open the page in, the page opens and
    takes the init script, and it closes. *)
Lemma checkInNewPage_outcome w config url mgr :
  outcome (checkInNewPage w config url mgr) =
    match BrowserManager.context mgr with
    | Some _ =>
        if Dom.newPageFails (browse w url) then Err NewPageError
        else if Dom.addInitScriptFails (browse w url) then Err InitScriptError
        else if Dom.closeFails (browse w url) then Err PageCloseError
        else (checkPage w config PageHandle url mgr).1.1
    | None => Err SessionError
    end.
Proof.
  rewrite (proj1 (checkInNewPage_task w config url mgr)), checkInPage_run.
  destruct (BrowserManager.context mgr); [|done].
  by destruct (Dom.newPageFails (browse w url)), (Dom.addInitScriptFails (browse w url)).
Qed.

(** A check in a page of its own that returns is a page check that
    returned, on a page that opened, took the init script and closed. *)
Lemma checkInNewPage_Ok w config url mgr page :
  outcome (checkInNewPage w config url mgr) = Ok page <->
  BrowserManager.context mgr <> None /\
  Dom.newPageFails (browse w url) = false /\
  Dom.addInitScriptFails (browse w url) = false /\
  Dom.closeFails (browse w url) = false /\
  (checkPage w config PageHandle url mgr).1.1 = Ok page.
Proof.
  rewrite checkInNewPage_outcome.
  destruct (BrowserManager.context mgr); [|by split; [|intros [? _]]].
  destruct (Dom.newPageFails (browse w url)); [by split; [|intros (_ & ? & _)]|].
  destruct (Dom.addInitScriptFails (browse w url)); [by split; [|intros (_ & _ & ? & _)]|].
  destruct (Dom.closeFails (browse w url)); [by split; [|intros (_ & _ & _ & ? & _)]|].
  split; [by intros ->|by intros (_ & _ & _ & _ & ->)].
Qed.

Lemma checkInNewPage_url w config url mgr page :
  outcome (checkInNewPage w config url mgr) = Ok page -> PageReport.url page = url.
Proof.
  intros (_ & _ & _ & _ & H)%checkInNewPage_Ok.
  destruct (checkPage w config PageHandle url mgr) as [[r mgr1] evs1] eqn:Hc.
  cbn [fst] in H. subst r.
  by apply checkPage_Ok_inv in Hc as (? & ? & _ & _ & _ & _ & _ & Hurl & _).
Qed.

Lemma checkChunk_run w config chunk mgr :
  checkChunk w config chunk mgr =
    ((Promise_all (map (fun url => checkInNewPage w config url mgr) chunk)).1,
     mgr,
     (Promise_all (map (fun url => checkInNewPage w config url mgr) chunk)).2).
Proof.
  unfold checkChunk, await_all. rewrite map_map.
  by destruct (Promise_all _).
Qed.

(** The reports of a chunk are those of its URLs, in the order of the URLs. *)
Lemma checkChunk_Ok w config chunk mgr reports :
  (checkChunk w config chunk mgr).1.1 = Ok reports ->
  Forall2 (fun url page => outcome (checkInNewPage w config url mgr) = Ok page)
          chunk reports.
Proof.
  rewrite checkChunk_run. cbn [fst]. intros H.
  apply Promise_all_Ok_inv, Forall2_fmap_l in H. exact H.
Qed.

Lemma forChunks_manager w config chunks pageReports mgr :
  (forChunks w config chunks pageReports mgr).1.2 = mgr.
Proof.
  revert pageReports. induction chunks as [|chunk chunks IH]; intros pageReports; [done|].
  cbn [forChunks]. unfold bind. rewrite checkChunk_run.
  destruct (Promise_all _) as [[reports|reason] evs1]; cbn [fst snd]; [|done].
  specialize (IH (pageReports ++ reports)).
  by destruct (forChunks w config chunks (pageReports ++ reports) mgr) as [[r mgr2] evs2].
Qed.

(** A loop over the chunks that completes has checked the chunks one after
    the other: its reports are those of the chunks in order after the reports
    it started with, and its calls are those of the chunks in order. *)
Lemma forChunks_Ok_inv w config chunks pageReports mgr reports mgr' evs :
  forChunks w config chunks pageReports mgr = (Ok reports, mgr', evs) ->
  exists results,
    Forall2 (fun chunk chunkResults =>
               (checkChunk w config chunk mgr).1.1 = Ok chunkResults)
            chunks results /\
    reports = pageReports ++ concat results /\
    evs = chunks ≫= (fun chunk => (checkChunk w config chunk mgr).2).
Proof.
  revert pageReports evs.
  induction chunks as [|chunk chunks IH]; intros pageReports evs.
  - intros [= <- <- <-]. exists []. split_and!; [constructor | | done].
    by rewrite app_nil_r.
  - cbn [forChunks]. unfold bind.
    destruct (checkChunk w config chunk mgr) as [[[chunkResults|reason] mgr1] evs1] eqn:Hc;
      [|discriminate].
    assert (mgr1 = mgr) as ->.
    { rewrite checkChunk_run in Hc. by injection Hc as _ <- _. }
    destruct (forChunks w config chunks (pageReports ++ chunkResults) mgr)
      as [[r mgr2] evs2] eqn:Hrest.
    intros [= -> <- <-].
    destruct (IH _ _ Hrest) as (results & Hall & -> & ->).
    exists (chunkResults :: results). split_and!.
    + constructor; [by rewrite Hc | done].
    + cbn [concat]. by rewrite app_assoc.
    + csimpl. by rewrite Hc.
Qed.

Lemma generate_events w report mgr formats :
  (Promise_all (map (fun format => generate w format report mgr) formats)).2
  = EvGenerate <$> formats.
Proof.
  destruct (Promise_all_settled_events
              (map (fun format => generate w format report mgr) formats))
    as (evs & -> & Hevs).
  assert (evs = []) as ->.
  { destruct evs as [|ev evs]; [done|].
    destruct (Hevs ev) as (t & Ht & Hev); [by left|].
    apply list_elem_of_fmap in Ht as (format & -> & _). by apply elem_of_nil in Hev. }
  rewrite app_nil_r. clear Hevs. induction formats as [|format formats IH]; [done|].
  cbn [map]. rewrite bind_cons, fmap_cons. cbn [started generate app]. f_equal. exact IH.
Qed.

Lemma generate_fulfilled w report mgr formats :
  (exists vs, (Promise_all (map (fun format => generate w format report mgr) formats)).1
              = Ok vs) <->
  forall format, format ∈ formats -> reporterFails w format = false.
Proof.
  split.
  - intros [vs Hvs] format Hin.
    apply Promise_all_Ok_inv in Hvs.
    apply list_elem_of_lookup in Hin as [i Hi].
    destruct (Forall2_lookup_l _ _ _ i (generate w format report mgr) Hvs)
      as (v & _ & Hv).
    { by rewrite list_lookup_fmap, Hi. }
    cbn in Hv. by destruct (reporterFails w format).
  - intros Hall. exists (replicate (length formats) ()).
    rewrite (Promise_all_fulfilled _ (replicate (length formats) ())); [done|].
    induction formats as [|format formats IH]; [constructor|].
    cbn. constructor.
    + cbn. rewrite Hall; [done|by left].
    + apply IH. intros f Hf. apply Hall. by right.
Qed.

Lemma generate_rejected w report mgr formats reason :
  (Promise_all (map (fun format => generate w format report mgr) formats)).1
    = Err reason ->
  exists format,
    format ∈ formats /\ reporterFails w format = true /\ reason = ReporterError format.
Proof.
  intros (t & Ht & Hout)%Promise_all_rejected.
  apply list_elem_of_fmap in Ht as (format & -> & Hin).
  exists format. split; [done|]. cbn in Hout.
  destruct (reporterFails w format); [|done]. split; congruence.
Qed.

(** [generateReports], step by step. *)
Lemma generateReports_run w config report mgr :
  generateReports w config report mgr =
    (match (Promise_all (map (fun format => generate w format report mgr)
                             (configuredFormats config))).1 with
     | Ok _ => Ok (reportedAs config report)
     | Err reason => Err reason
     end,
     mgr,
     EvMkdir (reportDir config) ::
     (Promise_all (map (fun format => generate w format report mgr)
                       (configuredFormats config))).2).
Proof.
  unfold generateReports, configuredFormats, reportedAs, reportDir, bind, await_all,
    ret, emit, generate.
  rewrite !filter_cons, filter_nil.
  repeat case_bool_decide; repeat case_decide; try done; cbn [app map];
    match goal with
    | |- context [Promise_all ?tasks] => by destruct (Promise_all tasks) as [[vs|reason] evs];
                                         cbn; rewrite ?app_nil_r
    end.
Qed.

Lemma generateReports_manager w config report mgr :
  (generateReports w config report mgr).1.2 = mgr.
Proof. by rewrite generateReports_run. Qed.

(** The calls of [generateReports] do not depend on the report. *)
Lemma generateReports_events w config report mgr :
  (generateReports w config report mgr).2 =
    EvMkdir (reportDir config) :: (EvGenerate <$> configuredFormats config).
Proof. by rewrite generateReports_run, generate_events. Qed.

Lemma generateReports_Ok w config report mgr report' :
  (generateReports w config report mgr).1.1 = Ok report' ->
  report' = reportedAs config report.
Proof.
  rewrite generateReports_run. cbn [fst].
  destruct (Promise_all _).1; [|discriminate]. by intros [= <-].
Qed.

Lemma Array_sort_insert_Permutation {T} (compareFn : T -> T -> Z) x (sorted : list T) :
  Array_sort_insert compareFn x sorted ≡ₚ x :: sorted.
Proof.
  induction sorted as [|y sorted IH]; [done|].
  cbn. destruct (0 <? compareFn x y); [|done].
  rewrite IH. apply Permutation_swap.
Qed.

Lemma Array_sort_Permutation_any {T} (compareFn : T -> T -> Z) (array : list T) :
  Array_sort compareFn array ≡ₚ array.
Proof.
  induction array as [|x array IH]; [done|].
  cbn [Array_sort foldr]. fold (Array_sort compareFn array).
  by rewrite Array_sort_insert_Permutation, IH.
Qed.

(** What the console reporter leaves of a page report: everything but
    the order of its issues. *)
Lemma isWcagCompliant_Permutation l1 l2 level :
  l1 ≡ₚ l2 -> isWcagCompliant l1 level = isWcagCompliant l2 level.
Proof.
  intros Hp.
  pose proof (isWcagCompliant_true l1 level) as H1.
  pose proof (isWcagCompliant_true l2 level) as H2.
  assert (Hiff : isWcagCompliant l1 level = true <-> isWcagCompliant l2 level = true).
  { rewrite H1, H2. by setoid_rewrite Hp. }
  destruct (isWcagCompliant l1 level), (isWcagCompliant l2 level); try done.
  - symmetry. by apply Hiff.
  - by apply Hiff.
Qed.

Lemma asReported_fields config page :
  PageReport.url (asReported config page) = PageReport.url page /\
  PageReport.timestamp (asReported config page) = PageReport.timestamp page /\
  PageReport.duration (asReported config page) = PageReport.duration page /\
  PageReport.totalIssues (asReported config page) = PageReport.totalIssues page /\
  PageReport.issuesBySeverity (asReported config page) = PageReport.issuesBySeverity page /\
  PageReport.issuesByType (asReported config page) = PageReport.issuesByType page /\
  PageReport.wcagCompliance (asReported config page) = PageReport.wcagCompliance page /\
  PageReport.score (asReported config page) = PageReport.score page /\
  PageReport.issues (asReported config page) ≡ₚ PageReport.issues page.
Proof.
  unfold asReported, renderPageReport.
  case_bool_decide; [|done]. case_bool_decide; [|done].
  cbn. split_and!; try done. apply Array_sort_Permutation_any.
Qed.

Lemma reportedAs_pages config report :
  Report.pages (reportedAs config report) = asReported config <$> Report.pages report.
Proof.
  unfold reportedAs, asReported. case_bool_decide; cbn.
  - done.
  - by rewrite list_fmap_id.
Qed.

Lemma reportedAs_summary config report :
  Report.summary (reportedAs config report) = Report.summary report /\
  Report.configuration (reportedAs config report) = Report.configuration report.
Proof. unfold reportedAs. by case_bool_decide. Qed.

(** The page report of a page check that returned, as a run returns it:
    its issues are those of the page check up to their order, and its
    other fields describe them as they did. *)
Lemma asReported_Ok_inv w config p url mgr checked mgr' evs :
  checkPage w config p url mgr = (Ok checked, mgr', evs) ->
  PageReport.issues (asReported config checked) ≡ₚ PageReport.issues checked /\
  PageReport.url (asReported config checked) = url /\
  PageReport.totalIssues (asReported config checked)
    = length (PageReport.issues (asReported config checked)) /\
  PageReport.issuesBySeverity (asReported config checked) =
    {| BySeverity.error :=
         length (filter (fun issue => Issue.severity issue = Severity.ERROR)
                        (PageReport.issues (asReported config checked)));
       BySeverity.warning :=
         length (filter (fun issue => Issue.severity issue = Severity.WARNING)
                        (PageReport.issues (asReported config checked)));
       BySeverity.info :=
         length (filter (fun issue => Issue.severity issue = Severity.INFO)
                        (PageReport.issues (asReported config checked))) |} /\
  PageReport.issuesByType (asReported config checked) =
    foldl (fun acc type =>
             <[CheckType.value type :=
                 length (filter (fun issue => Issue.type issue = type)
                                (PageReport.issues (asReported config checked)))]> acc)
          (∅ : gmap string nat) CheckType.values /\
  PageReport.wcagCompliance (asReported config checked) =
    {| Compliance.A :=
         isWcagCompliant (PageReport.issues (asReported config checked)) WcagLevel.A;
       Compliance.AA :=
         isWcagCompliant (PageReport.issues (asReported config checked)) WcagLevel.AA;
       Compliance.AAA :=
         isWcagCompliant (PageReport.issues (asReported config checked)) WcagLevel.AAA |} /\
  PageReport.score (asReported config checked)
    = calculateScore (PageReport.issues (asReported config checked)).
Proof.
  intros H.
  apply checkPage_Ok_inv in H
    as (? & ? & _ & _ & _ & _ & _ & Hurl & _ & Htotal & Hsev & Htype & Hcomp & Hscore).
  destruct (asReported_fields config checked)
    as (-> & _ & _ & -> & -> & -> & -> & -> & Hperm).
  assert (Hfilter : forall P : AccessibilityIssue -> Prop,
            forall (dec : forall issue, Decision (P issue)),
              length (filter P (PageReport.issues (asReported config checked)))
              = length (filter P (PageReport.issues checked))).
  { intros P dec. by rewrite Hperm. }
  split_and!; [done|done| | | | |].
  - by rewrite Hperm.
  - by rewrite !Hfilter.
  - rewrite Htype. unfold CheckType.values. cbn [foldl]. by rewrite !Hfilter.
  - rewrite Hcomp. f_equal; by apply isWcagCompliant_Permutation.
  - rewrite Hscore, !calculateScore_spec. f_equal. f_equal.
    apply penalty_severities. by rewrite Hperm.
Qed.

Lemma checkChunks_manager w config chunks mgr :
  (checkChunks w config chunks mgr).1.2 = mgr.
Proof.
  unfold checkChunks, bind.
  pose proof (forChunks_manager w config chunks [] mgr) as Hm.
  destruct (forChunks w config chunks [] mgr) as [[[pageReports|reason] mgr1] evs1];
    cbn [fst snd] in *; [|done].
  subst mgr1.
  match goal with |- context [generateReports w config ?r mgr] =>
    pose proof (generateReports_manager w config r mgr) as Hg;
    destruct (generateReports w config r mgr) as [[[u|reason] mgr2] evs2]
  end; cbn [fst snd] in *; done.
Qed.

Lemma checkChunks_Ok_inv w config chunks mgr report mgr' evs :
  checkChunks w config chunks mgr = (Ok report, mgr', evs) ->
  exists results,
    Forall2 (fun chunk chunkResults =>
               (checkChunk w config chunk mgr).1.1 = Ok chunkResults)
            chunks results /\
    Report.pages report = asReported config <$> concat results /\
    evs = (chunks ≫= (fun chunk => (checkChunk w config chunk mgr).2)) ++
          (generateReports w config report mgr).2.
Proof.
  unfold checkChunks, bind.
  pose proof (forChunks_manager w config chunks [] mgr) as Hm.
  destruct (forChunks w config chunks [] mgr)
    as [[[pageReports|reason] mgr1] evs1] eqn:Hloop; cbn [fst snd] in *; [|discriminate].
  subst mgr1.
  match goal with |- context [generateReports w config ?r mgr] =>
    pose proof (generateReports_Ok w config r mgr) as Hok;
    pose proof (generateReports_events w config r mgr) as Hev;
    destruct (generateReports w config r mgr) as [[[u|reason] mgr2] evs2] eqn:Hg
  end; cbn [fst snd] in *; [|discriminate].
  unfold ret. intros [= <- <- <-].
  apply forChunks_Ok_inv in Hloop as (results & Hall & -> & ->).
  exists results. rewrite (Hok u eq_refl), reportedAs_pages. split_and!; [done | done |].
  rewrite generateReports_events, Hev. by rewrite app_nil_r.
Qed.

(** ** The session *)

Lemma launch_run w config mgr :
  launch w config mgr =
    if chromiumLaunchFails w then (Err LaunchError, mgr, [EvLaunch])
    else if newContextFails w
    then (Err LaunchError,
          {| BrowserManager.browser := Some BrowserHandle;
             BrowserManager.context := BrowserManager.context mgr |},
          [EvLaunch; EvNewContext])
    else (Ok (),
          {| BrowserManager.browser := Some BrowserHandle;
             BrowserManager.context := Some ContextHandle |},
          [EvLaunch; EvNewContext]).
Proof.
  unfold launch. run_step.
  destruct (chromiumLaunchFails w); [done|].
  by destruct (newContextFails w).
Qed.

Lemma ensureLaunched_Ok w config mgr u mgr1 evs1 :
  ensureLaunched w config mgr = (Ok u, mgr1, evs1) -> isLaunched mgr1 = true.
Proof.
  unfold ensureLaunched, bind, get.
  destruct (isLaunched mgr) eqn:Hl.
  - unfold ret. by intros [= _ <- _].
  - rewrite launch_run.
    destruct (chromiumLaunchFails w); [discriminate|].
    destruct (newContextFails w); [discriminate|].
    by intros [= _ <- _].
Qed.

Lemma close_run w mgr :
  close w mgr =
    match BrowserManager.context mgr, BrowserManager.browser mgr with
    | Some _, _ =>
        if contextCloseFails w then (Err TeardownError, mgr, [EvContextClose])
        else match BrowserManager.browser mgr with
             | Some _ =>
                 if browserCloseFails w
                 then (Err TeardownError,
                       {| BrowserManager.browser := BrowserManager.browser mgr;
                          BrowserManager.context := None |},
                       [EvContextClose; EvBrowserClose])
                 else (Ok (), unlaunched, [EvContextClose; EvBrowserClose])
             | None => (Ok (), unlaunched, [EvContextClose])
             end
    | None, Some _ =>
        if browserCloseFails w then (Err TeardownError, mgr, [EvBrowserClose])
        else (Ok (), unlaunched, [EvBrowserClose])
    | None, None => (Ok (), mgr, [])
    end.
Proof.
  unfold close, unlaunched. run_step. destruct mgr as [[b|] [c|]]; cbn.
  - destruct (contextCloseFails w); [done|]. by destruct (browserCloseFails w).
  - by destruct (browserCloseFails w).
  - by destruct (contextCloseFails w).
  - done.
Qed.

(** A teardown that returns leaves neither a context nor a browser, and on
    a launched session it has closed both. *)
Lemma close_Ok w mgr u mgr' evs :
  close w mgr = (Ok u, mgr', evs) ->
  mgr' = unlaunched /\
  (isLaunched mgr = true -> evs = [EvContextClose; EvBrowserClose]).
Proof.
  rewrite close_run. destruct mgr as [[b|] [c|]]; cbn;
    repeat (match goal with |- context [if ?b then _ else _] => destruct b end);
    intros [= <- <- <-]; done.
Qed.

Lemma close_Err w mgr reason mgr' evs :
  close w mgr = (Err reason, mgr', evs) -> reason = TeardownError.
Proof.
  rewrite close_run. destruct mgr as [[b|] [c|]]; cbn;
    repeat (match goal with |- context [if ?b then _ else _] => destruct b end);
    intros [= <- <- <-]; done.
Qed.

(** How a call of [checkUrls] that terminates has gone: either the launch
    failed, or the chunks were checked and the session was torn down. *)
Lemma checkUrls_inv fuel w config urls mgr r mgr' evs :
  checkUrls fuel w config urls mgr = Some (r, mgr', evs) ->
  (exists reason, ensureLaunched w config mgr = (Err reason, mgr', evs) /\
                  r = Err reason) \/
  (exists mgr1 evs1 chunks body evs2 torn evs3,
     ensureLaunched w config mgr = (Ok (), mgr1, evs1) /\
     isLaunched mgr1 = true /\
     chunkArray fuel urls (Config.concurrent config) = Some chunks /\
     checkChunks w config chunks mgr1 = (body, mgr1, evs2) /\
     close w mgr1 = (torn, mgr', evs3) /\
     r = match torn with Ok _ => body | Err reason => Err reason end /\
     evs = evs1 ++ evs2 ++ evs3).
Proof.
  unfold checkUrls.
  destruct (ensureLaunched w config mgr) as [[[[]|reason] mgr1] evs1] eqn:Hl.
  2:{ intros [= <- <- <-]. left. by exists reason. }
  destruct (chunkArray fuel urls (Config.concurrent config)) as [chunks|] eqn:Hc;
    [|discriminate].
  unfold try_finally.
  pose proof (checkChunks_manager w config chunks mgr1) as Hm.
  destruct (checkChunks w config chunks mgr1) as [[body mgr2] evs2] eqn:Hb.
  cbn [fst snd] in Hm. subst mgr2.
  destruct (close w mgr1) as [[torn mgr3] evs3] eqn:Ht.
  intros H. right. exists mgr1, evs1, chunks, body, evs2, torn, evs3.
  split_and!; try done.
  - by eapply ensureLaunched_Ok.
  - destruct torn; by injection H as <- <- <-.
  - destruct torn; by injection H as <- <- <-.
  - destruct torn; by injection H as <- <- <-.
Qed.

Lemma Forall2_concat_chunks {X Y} (P : X -> Y -> Prop)
    (chunks : list (list X)) (results : list (list Y)) :
  Forall2 (Forall2 P) chunks results -> Forall2 P (concat chunks) (concat results).
Proof.
  induction 1 as [|chunk res chunks results H _ IH]; [constructor|].
  cbn [concat]. by apply Forall2_app.
Qed.

(** With a limit of at least one a call of [checkUrls] terminates: the
    chunking is the only loop in it that could go on for ever. *)
Lemma checkUrls_terminates fuel w config urls mgr :
  1 <= Config.concurrent config -> (length urls < fuel)%nat ->
  is_Some (checkUrls fuel w config urls mgr).
Proof.
  intros Hc Hfuel. unfold checkUrls.
  destruct (ensureLaunched w config mgr) as [[[[]|reason] mgr1] evs1]; [|by eexists].
  destruct (chunkArray_terminates urls (Config.concurrent config) Hc)
    as (chunks & Hrun & _).
  rewrite (Hrun fuel Hfuel).
  destruct (try_finally _ _ mgr1) as [[r mgr2] evs2]. by eexists.
Qed.

(** ** Completion order *)

(** Whether [Promise.all] is fulfilled, and with what, depends on the
    outcomes of its tasks only. *)
Lemma Promise_all_Ok_transfer {A} (tasks tasks' : list (Task A)) (vs : list A) :
  Forall2 (fun t t' => outcome t = outcome t') tasks tasks' ->
  (Promise_all tasks).1 = Ok vs -> (Promise_all tasks').1 = Ok vs.
Proof.
  intros Hsame Hok. apply Promise_all_Ok_inv in Hok.
  rewrite (Promise_all_fulfilled tasks' vs); [done|].
  clear -Hsame Hok. revert vs Hok.
  induction Hsame as [|t t' tasks tasks' Ht _ IH]; intros vs Hok.
  - inversion Hok. constructor.
  - inversion Hok as [|? v ? vs' Hv Hvs]; subst. constructor; [congruence | by apply IH].
Qed.

Section reschedule.
Variables (pageAt : string -> nat) (scanAt : string -> CheckType -> nat).
Variables (reportAt : Format.t -> nat) (w : World) (config : HealthCheckConfig).

Abbreviation w' := (reschedule pageAt scanAt reportAt w).

Lemma check_rescheduled checker url :
  checker ∈ ALL_CHECKERS ->
  outcome (Checker.check checker (browse w url) config) =
  outcome (Checker.check checker (browse w' url) config).
Proof.
  unfold ALL_CHECKERS. rewrite !elem_of_cons, elem_of_nil.
  intros [->|[->|[->|[->|[->|[]]]]]]; reflexivity.
Qed.

Lemma checkPage_rescheduled p url mgr r :
  (checkPage w config p url mgr).1.1 = Ok r ->
  (checkPage w' config p url mgr).1.1 = Ok r.
Proof.
  rewrite !checkPage_run.
  change (Dom.gotoError (browse w' url)) with (Dom.gotoError (browse w url)).
  change (stabilizes (browse w' url)) with (stabilizes (browse w url)).
  destruct (Dom.gotoError (browse w url)); [done|].
  destruct (stabilizes (browse w url)); [|done].
  destruct (Promise_all (map _ _)) as [[results|reason] evs] eqn:Hall;
    cbn [fst]; [|done].
  intros [= <-].
  assert (Hok : (Promise_all (map (fun checker =>
              Checker.check checker (browse w' url) config)
              (enabledCheckers config))).1 = Ok results).
  { eapply Promise_all_Ok_transfer; [|by rewrite Hall].
    apply Forall2_fmap, Forall_Forall2_diag, Forall_forall.
    intros checker Hc. apply check_rescheduled.
    by apply enabledCheckers_elem in Hc as [? _]. }
  destruct (Promise_all (map (fun checker =>
              Checker.check checker (browse w' url) config) _))
    as [[results'|reason] evs']; cbn [fst] in *; [|discriminate].
  by injection Hok as ->.
Qed.

Lemma checkInNewPage_rescheduled url mgr page :
  outcome (checkInNewPage w config url mgr) = Ok page ->
  outcome (checkInNewPage w' config url mgr) = Ok page.
Proof.
  rewrite !checkInNewPage_outcome.
  destruct (BrowserManager.context mgr); [|done].
  change (Dom.newPageFails (browse w' url)) with (Dom.newPageFails (browse w url)).
  change (Dom.addInitScriptFails (browse w' url))
    with (Dom.addInitScriptFails (browse w url)).
  change (Dom.closeFails (browse w' url)) with (Dom.closeFails (browse w url)).
  destruct (Dom.newPageFails (browse w url)); [done|].
  destruct (Dom.addInitScriptFails (browse w url)); [done|].
  destruct (Dom.closeFails (browse w url)); [done|].
  apply checkPage_rescheduled.
Qed.

Lemma checkChunk_rescheduled chunk mgr reports :
  (checkChunk w config chunk mgr).1.1 = Ok reports ->
  (checkChunk w' config chunk mgr).1.1 = Ok reports.
Proof.
  intros Hok. apply checkChunk_Ok in Hok.
  rewrite checkChunk_run. cbn [fst].
  rewrite (Promise_all_fulfilled _ reports); [done|].
  apply Forall2_fmap_l. eapply Forall2_impl; [exact Hok|].
  intros url page. apply checkInNewPage_rescheduled.
Qed.

Lemma forChunks_rescheduled chunks pageReports mgr reports :
  (forChunks w config chunks pageReports mgr).1.1 = Ok reports ->
  (forChunks w' config chunks pageReports mgr).1.1 = Ok reports.
Proof.
  revert pageReports. induction chunks as [|chunk chunks IH]; intros pageReports; [done|].
  cbn [forChunks]. unfold bind.
  pose proof (checkChunk_rescheduled chunk mgr) as Hc.
  rewrite !checkChunk_run in *. cbn [fst] in Hc.
  destruct (Promise_all (map (fun url => checkInNewPage w config url mgr) chunk))
    as [[chunkResults|reason] evs1]; cbn [fst snd] in *; [|done].
  rewrite (surjective_pairing (Promise_all
             (map (fun url => checkInNewPage w' config url mgr) chunk))).
  rewrite (Hc chunkResults eq_refl). cbn [fst snd].
  specialize (IH (pageReports ++ chunkResults)).
  destruct (forChunks w config chunks (pageReports ++ chunkResults) mgr)
    as [[r mgr2] evs2].
  destruct (forChunks w' config chunks (pageReports ++ chunkResults) mgr)
    as [[r' mgr2'] evs2'].
  cbn [fst] in *. done.
Qed.

Lemma generateReports_rescheduled report mgr u :
  (generateReports w config report mgr).1.1 = Ok u ->
  (generateReports w' config report mgr).1.1 = Ok u.
Proof.
  rewrite !generateReports_run. cbn [fst].
  destruct (Promise_all (map (fun format => generate w format report mgr)
                             (configuredFormats config))).1 as [units|reason] eqn:Hw;
    [|discriminate].
  intros [= <-].
  assert (Hall : forall format, format ∈ configuredFormats config ->
                   reporterFails w format = false).
  { apply (generate_fulfilled w report mgr). by exists units. }
  destruct (proj2 (generate_fulfilled w' report mgr (configuredFormats config)) Hall)
    as [units' ->]. done.
Qed.

Lemma checkChunks_rescheduled chunks mgr report :
  (checkChunks w config chunks mgr).1.1 = Ok report ->
  (checkChunks w' config chunks mgr).1.1 = Ok report.
Proof.
  unfold checkChunks, bind.
  pose proof (forChunks_rescheduled chunks [] mgr) as Hloop.
  pose proof (forChunks_manager w config chunks [] mgr) as Hm.
  pose proof (forChunks_manager w' config chunks [] mgr) as Hm'.
  destruct (forChunks w config chunks [] mgr) as [[[pageReports|reason] mgr1] evs1];
    cbn [fst snd] in *; [|done].
  destruct (forChunks w' config chunks [] mgr) as [[r' mgr1'] evs1'].
  cbn [fst snd] in *. rewrite (Hloop pageReports eq_refl). subst mgr1 mgr1'.
  change (runDuration w') with (runDuration w).
  change (runTimestamp w') with (runTimestamp w).
  match goal with |- context [generateReports w config ?r mgr] =>
    pose proof (generateReports_rescheduled r mgr) as Hg;
    destruct (generateReports w config r mgr) as [[[u|reason] mgr2] evs2];
    destruct (generateReports w' config r mgr) as [[g' mgr2'] evs2']
  end; cbn [fst snd] in *; [|done].
  by rewrite (Hg u eq_refl).
Qed.

Lemma ensureLaunched_rescheduled mgr :
  ensureLaunched w' config mgr = ensureLaunched w config mgr.
Proof.
  unfold ensureLaunched, bind, get. destruct (isLaunched mgr); [done|].
  by rewrite !launch_run.
Qed.

Lemma close_rescheduled mgr : close w' mgr = close w mgr.
Proof. by rewrite !close_run. Qed.

(** A run that returns a report returns the same report, and leaves the
    same session, at whatever instants the page checks, scans and
    reporters settle. *)
Lemma checkUrls_rescheduled fuel urls mgr r mgr' evs :
  checkUrls fuel w config urls mgr = Some (Ok r, mgr', evs) ->
  exists evs', checkUrls fuel w' config urls mgr = Some (Ok r, mgr', evs').
Proof.
  unfold checkUrls. rewrite ensureLaunched_rescheduled.
  destruct (ensureLaunched w config mgr) as [[[[]|reason] mgr1] evs1]; [|discriminate].
  destruct (chunkArray fuel urls (Config.concurrent config)) as [chunks|];
    [|discriminate].
  unfold try_finally.
  pose proof (checkChunks_rescheduled chunks mgr1) as Hb.
  pose proof (checkChunks_manager w config chunks mgr1) as Hm.
  pose proof (checkChunks_manager w' config chunks mgr1) as Hm'.
  destruct (checkChunks w config chunks mgr1) as [[body mgr2] evs2].
  destruct (checkChunks w' config chunks mgr1) as [[body' mgr2'] evs2'].
  cbn [fst snd] in *. subst mgr2 mgr2'. rewrite close_rescheduled.
  destruct (close w mgr1) as [[[u|reason] mgr3] evs3]; [|discriminate].
  intros [= -> <- <-]. rewrite (Hb r eq_refl). by eexists.
Qed.

End reschedule.

Lemma bind_app_Permutation {X Y} (f g : X -> list Y) (l : list X) :
  (l ≫= f) ++ (l ≫= g) ≡ₚ l ≫= (fun x => f x ++ g x).
Proof.
  induction l as [|x l IH]; [done|].
  rewrite !bind_cons, <- IH, <- !app_assoc. f_equiv.
  rewrite !app_assoc. f_equiv. apply Permutation_app_comm.
Qed.

Lemma imap_pair_bind {X Y} (f : X -> list Y) (l : list X) :
  imap pair l ≫= (f ∘ snd) = l ≫= f.
Proof.
  assert (H : forall n, imap (fun i x => (n + i, x)%nat) l ≫= (f ∘ snd) = l ≫= f).
  { induction l as [|x l IH]; intros n; [done|].
    cbn [imap]. rewrite !bind_cons. cbn [compose snd]. f_equal.
    rewrite <- (IH (S n)). f_equal. apply imap_ext. intros i y _. cbn. f_equal. lia. }
  apply (H 0%nat).
Qed.

(** The calls of tasks that are awaited together and all fulfilled: first
    what the tasks do when they are started, in the order in which they
    are started; and, all in all, the calls of every task, in an order
    that is up to the instants at which the tasks settle. *)
Lemma Promise_all_fulfilled_events {A} (tasks : list (Task A)) vs :
  (Promise_all tasks).1 = Ok vs ->
  (Promise_all tasks).2 ≡ₚ tasks ≫= (fun t => started t ++ settled t) /\
  take (length (tasks ≫= started)) (Promise_all tasks).2 = tasks ≫= started.
Proof.
  intros H%Promise_all_Ok_inv. rewrite (Promise_all_fulfilled tasks vs H). cbn [snd].
  split; [|by rewrite take_app_length].
  rewrite <- bind_app_Permutation. f_equiv.
  unfold settleOrder. rewrite merge_sort_Permutation. by rewrite imap_pair_bind.
Qed.

Lemma checkInNewPage_started w config url mgr page :
  outcome (checkInNewPage w config url mgr) = Ok page ->
  started (checkInNewPage w config url mgr) = [EvNewPage].
Proof.
  intros (Hc & Hn & _)%checkInNewPage_Ok.
  unfold checkInNewPage, spawn. rewrite openPage_run.
  destruct (BrowserManager.context mgr); [|done]. rewrite Hn.
  by destruct (bind _ _ _) as [[? ?] ?].
Qed.

(** A chunk whose checks all return: one page is opened for every URL of
    the chunk before anything else is done, and the calls made are those
    of the checks of its URLs. *)
Lemma checkChunk_Ok_events w config chunk mgr reports :
  (checkChunk w config chunk mgr).1.1 = Ok reports ->
  take (length chunk) (checkChunk w config chunk mgr).2
    = replicate (length chunk) EvNewPage /\
  (checkChunk w config chunk mgr).2
    ≡ₚ chunk ≫= (fun url => (checkInPage w config url mgr).2).
Proof.
  intros H. pose proof (checkChunk_Ok _ _ _ _ _ H) as Hall.
  rewrite checkChunk_run in *. cbn [fst snd] in *.
  destruct (Promise_all_fulfilled_events _ _ H) as [Hperm Htake].
  assert (Hstarted : map (fun url => checkInNewPage w config url mgr) chunk ≫= started
                     = replicate (length chunk) EvNewPage).
  { clear -Hall. induction Hall as [|url page chunk reports Hp _ IH]; [done|].
    cbn [map]. rewrite bind_cons, IH, (checkInNewPage_started _ _ _ _ _ Hp). done. }
  rewrite Hstarted, length_replicate in Htake. split; [done|].
  rewrite Hperm. clear. induction chunk as [|url chunk IH]; [done|].
  cbn [map]. rewrite !bind_cons, IH.
  by rewrite (proj2 (checkInNewPage_task w config url mgr)).
Qed.

(** C4. With a concurrency limit of at least one, [checkUrls] cuts the URL
    list into consecutive chunks that concatenate to the list, all of the
    size of the limit except possibly the last.  A run that returns a
    report has gone through the chunks one after the other, the calls of a
    chunk all coming before the calls of the next: for each chunk in turn
    it has opened one page per URL of the chunk and then made the calls of
    the checks of these URLs, in an order among them that is left to how
    the checks interleave.  The pages of the report are the reports of the
    URLs in the order of the URLs; every run terminates.  Within a page report the issues are in the order the
    console reporter has put them when that reporter is configured, and in
    the order of the page check when it is not.  The completion order has
    no part in it: at whatever other instants the page checks, the scans
    and the reporters settle, the run returns the same report. *)
Theorem C4_checkUrls_batches_in_order :
  forall w config urls mgr,
    1 <= Config.concurrent config ->
    exists chunks,
      (forall fuel, (length urls < fuel)%nat ->
         chunkArray fuel urls (Config.concurrent config) = Some chunks) /\
      concat chunks = urls /\
      (forall k chunk, chunks !! k = Some chunk -> (S k < length chunks)%nat ->
         Z.of_nat (length chunk) = Config.concurrent config) /\
      (forall chunk, chunk ∈ chunks ->
         (0 < length chunk)%nat /\ Z.of_nat (length chunk) <= Config.concurrent config) /\
      (forall fuel, (length urls < fuel)%nat ->
         is_Some (checkUrls fuel w config urls mgr)) /\
      (forall fuel r mgr' evs,
         checkUrls fuel w config urls mgr = Some (Ok r, mgr', evs) ->
         let mgr1 := (ensureLaunched w config mgr).1.2 in
         PageReport.url <$> Report.pages r = urls /\
         Forall2 (fun url page =>
                    exists checked,
                      outcome (checkInNewPage w config url mgr1) = Ok checked /\
                      page = asReported config checked /\
                      PageReport.issues page ≡ₚ PageReport.issues checked)
                 urls (Report.pages r) /\
         (Format.console ∉ Config.format (Config.output config) ->
          Forall2 (fun url page => outcome (checkInNewPage w config url mgr1) = Ok page)
                  urls (Report.pages r)) /\
         exists batches,
           evs = (ensureLaunched w config mgr).2 ++ concat batches ++
                 (generateReports w config r mgr1).2 ++ (close w mgr1).2 /\
           Forall2 (fun chunk batch =>
                      take (length chunk) batch = replicate (length chunk) EvNewPage /\
                      batch ≡ₚ chunk ≫= (fun url => (checkInPage w config url mgr1).2))
                   chunks batches) /\
      (forall pageAt scanAt reportAt fuel r mgr' evs,
         checkUrls fuel w config urls mgr = Some (Ok r, mgr', evs) ->
         exists evs',
           checkUrls fuel (reschedule pageAt scanAt reportAt w) config urls mgr
           = Some (Ok r, mgr', evs')).
Proof.
  intros w config urls mgr Hc.
  destruct (chunkArray_terminates urls (Config.concurrent config) Hc)
    as (chunks & Hrun & Hcat & Hfull & Hsize).
  exists chunks. split_and!; [done..| | |].
  { intros fuel Hfuel. by apply checkUrls_terminates. }
  2:{ intros pageAt scanAt reportAt fuel r mgr' evs H.
      by eapply checkUrls_rescheduled. }
  intros fuel r mgr' evs H mgr1.
  apply checkUrls_inv in H as [(reason & _ & ?)|H]; [discriminate|].
  destruct H as (mgr1' & evs1 & chunks' & body & evs2 & torn & evs3 &
                 Hl & _ & Hch & Hb & Ht & Hr & ->).
  assert (chunks' = chunks) as ->.
  { specialize (Hrun (S (length urls)) ltac:(lia)).
    unfold chunkArray in *. by eapply forLoop_deterministic. }
  subst mgr1. rewrite Hl. cbn [fst snd].
  destruct torn as [[]|reason]; [|discriminate]. subst body.
  apply checkChunks_Ok_inv in Hb as (results & Hall & Hpages & ->).
  assert (Hchecked : Forall2 (fun url page =>
            outcome (checkInNewPage w config url mgr1') = Ok page)
            urls (concat results)).
  { rewrite <- Hcat. apply Forall2_concat_chunks.
    eapply Forall2_impl; [exact Hall|].
    intros chunk chunkResults Hok. by apply checkChunk_Ok. }
  assert (Hreports : Forall2 (fun url page =>
            exists checked,
              outcome (checkInNewPage w config url mgr1') = Ok checked /\
              page = asReported config checked /\
              PageReport.issues page ≡ₚ PageReport.issues checked)
            urls (Report.pages r)).
  { rewrite Hpages. apply Forall2_fmap_r. eapply Forall2_impl; [exact Hchecked|].
    intros url page Hp. exists page. split_and!; [done|done|].
    apply asReported_fields. }
  split_and!.
  - clear -Hreports. induction Hreports as [|url page urls pages Hp _ IH]; [done|].
    csimpl. rewrite IH. f_equal. destruct Hp as (checked & Hp & -> & _).
    rewrite (proj1 (asReported_fields config checked)). by eapply checkInNewPage_url.
  - done.
  - intros Hno. rewrite Hpages. unfold asReported.
    rewrite bool_decide_eq_false_2 by done. by rewrite list_fmap_id.
  - exists ((fun chunk => (checkChunk w config chunk mgr1').2) <$> chunks). split.
    + rewrite Ht. cbn [snd]. rewrite <- app_assoc. do 2 f_equal.
      clear. induction chunks as [|chunk chunks IH]; [done|].
      by rewrite bind_cons, fmap_cons, IH.
    + apply Forall2_fmap_r, Forall_Forall2_diag, Forall_forall. intros chunk Hin.
      apply list_elem_of_lookup in Hin as [i Hi].
      destruct (Forall2_lookup_l _ _ _ _ _ Hall Hi) as (chunkResults & _ & Hok).
      by eapply checkChunk_Ok_events.
Qed.

(** C8. A call of [checkUrls] that returns a report, or rethrows the error
    of a page check or of a reporter, has torn the session down by the time
    it ends: closing the context and the browser are its last two calls, and
    [isLaunched()] is false afterwards.  In a world in which launching and
    closing do not fail this holds of every call that terminates.  A call
    of [checkUrl] that returns a report leaves the session launched. *)
Theorem C8_checkUrls_tears_down :
  (forall fuel w config urls mgr r mgr' evs,
     checkUrls fuel w config urls mgr = Some (r, mgr', evs) ->
     match r with Ok _ => True | Err reason => fromPageCheckOrReporter reason end ->
     isLaunched mgr' = false /\
     exists evs', evs = evs' ++ [EvContextClose; EvBrowserClose]) /\
  (forall fuel w config urls mgr r mgr' evs,
     chromiumLaunchFails w = false -> newContextFails w = false ->
     contextCloseFails w = false -> browserCloseFails w = false ->
     checkUrls fuel w config urls mgr = Some (r, mgr', evs) ->
     isLaunched mgr' = false) /\
  (forall w config url mgr r mgr' evs,
     checkUrl w config url mgr = (Ok r, mgr', evs) ->
     isLaunched mgr' = true).
Proof.
  split_and!.
  - intros fuel w config urls mgr r mgr' evs H Hr.
    apply checkUrls_inv in H as [(reason & Hl & ->)|H].
    { exfalso. unfold ensureLaunched, bind, get in Hl.
      destruct (isLaunched mgr); [discriminate|].
      rewrite launch_run in Hl.
      destruct (chromiumLaunchFails w); [by injection Hl as <- _ _|].
      destruct (newContextFails w); [by injection Hl as <- _ _|discriminate]. }
    destruct H as (mgr1 & evs1 & chunks & body & evs2 & torn & evs3 &
                   _ & Hlaunched & _ & _ & Ht & -> & ->).
    destruct torn as [u|reason].
    + apply close_Ok in Ht as [-> Hevs]. split; [done|].
      exists (evs1 ++ evs2). by rewrite (Hevs Hlaunched), app_assoc.
    + apply close_Err in Ht as ->. done.
  - intros fuel w config urls mgr r mgr' evs Hlf Hnf Hcf Hbf H.
    apply checkUrls_inv in H as [(reason & Hl & ->)|H].
    { exfalso. unfold ensureLaunched, bind, get in Hl.
      destruct (isLaunched mgr); [discriminate|].
      rewrite launch_run, Hlf, Hnf in Hl. discriminate. }
    destruct H as (mgr1 & evs1 & chunks & body & evs2 & torn & evs3 &
                   _ & _ & _ & _ & Ht & _ & _).
    rewrite close_run, Hcf, Hbf in Ht.
    destruct mgr1 as [[b|] [c|]]; cbn in Ht; by injection Ht as _ <- _.
  - intros w config url mgr r mgr' evs. rewrite checkUrl_run.
    destruct (ensureLaunched w config mgr) as [[[[]|reason] mgr1] evs1] eqn:Hl;
      [|discriminate].
    apply ensureLaunched_Ok in Hl. by intros [= _ <- _].
Qed.

(** C10. [chunkArray] terminates on every list when the chunk size is at
    least one.  When the chunk size is zero or negative and the list is not
    empty, the index never gets past zero (it stays at zero or moves away
    from the length), the loop condition holds at every round, and the loop
    never ends; a call of [checkUrls] that gets to the chunking then never
    ends either, whereas with a limit of at least one it terminates. *)
Theorem C10_chunkArray_termination :
  (forall (T : Type) (array : list T) chunkSize,
     1 <= chunkSize ->
     exists chunks, forall fuel, (length array < fuel)%nat ->
       chunkArray fuel array chunkSize = Some chunks) /\
  (forall (T : Type) (array : list T) chunkSize,
     chunkSize <= 0 -> array <> [] ->
     (forall n, let st := Nat.iter n (loopBody array chunkSize) (0, []) in
        st.1 = Z.of_nat n * chunkSize /\ st.1 <= 0 /\
        loopCondition array st = true) /\
     (forall fuel, chunkArray fuel array chunkSize = None)) /\
  (forall w config urls mgr,
     Config.concurrent config <= 0 -> urls <> [] ->
     (ensureLaunched w config mgr).1.1 = Ok () ->
     forall fuel, checkUrls fuel w config urls mgr = None) /\
  (forall w config urls mgr,
     1 <= Config.concurrent config ->
     forall fuel, (length urls < fuel)%nat ->
       is_Some (checkUrls fuel w config urls mgr)).
Proof.
  split_and!.
  - intros T array chunkSize Hc.
    destruct (chunkArray_terminates array chunkSize Hc) as (chunks & Hrun & _).
    by exists chunks.
  - intros T array chunkSize Hc Hne. split.
    + intros n st. subst st. rewrite loop_index. split_and!; [done|nia|].
      unfold loopCondition. rewrite loop_index. apply Z.ltb_lt.
      destruct array; [done|]. cbn [length]. nia.
    + intros fuel. by apply forLoop_diverges.
  - intros w config urls mgr Hc Hne Hl fuel. unfold checkUrls.
    destruct (ensureLaunched w config mgr) as [[[[]|reason] mgr1] evs1];
      [|discriminate].
    unfold chunkArray. by rewrite forLoop_diverges.
  - intros w config urls mgr Hc fuel Hfuel. by apply checkUrls_terminates.
Qed.

(** * Worked examples *)

Example score_of_one_of_each :
  calculateScore [sampleIssue Severity.ERROR WcagLevel.A;
                  sampleIssue Severity.WARNING WcagLevel.A;
                  sampleIssue Severity.INFO WcagLevel.A] = 84.
Proof. reflexivity. Qed.

Example score_of_twenty_errors :
  calculateScore (replicate 20 (sampleIssue Severity.ERROR WcagLevel.A)) = 0.
Proof. reflexivity. Qed.

Example five_urls_two_at_a_time :
  chunkArray 4 sampleUrls 2 =
    Some [["https://a.example"; "https://bb.example"];
          ["https://ccc.example"; "https://dddd.example"];
          ["https://eeeee.example"]].
Proof. reflexivity. Qed.

Example slice_counts_from_the_end :
  slice ["a"; "b"; "c"] 0 (-1) = ["a"; "b"] /\ slice ["a"; "b"; "c"] (-1) (-2) = [].
Proof. split; reflexivity. Qed.

(** Tasks that settle at the same instant settle in the order of their
    calls, and [Promise.all] rejects with the reason of the first one that
    rejects. *)
Example same_instant_settles_in_call_order :
  (settleOrder [ {| started := []; settles := 3; outcome := Ok 1; settled := [] |};
                 {| started := []; settles := 3; outcome := Ok 2; settled := [] |};
                 {| started := []; settles := 1; outcome := Ok 3; settled := [] |} ]).*1
  = [2; 0; 1]%nat /\
  (Promise_all [ {| started := []; settles := 3; outcome := Err NewPageError;
                    settled := [] |};
                 {| started := []; settles := 3; outcome := Err PageCloseError;
                    settled := [] |};
                 {| started := []; settles := 4; outcome := Ok 3; settled := [] |} ]).1
  = Err NewPageError.
Proof. split; reflexivity. Qed.

(** On the sample world the second page of a chunk is done before the first
    one, and the pages of the report are in the order of the URLs all the
    same; the pages of a chunk are opened in the order of its URLs, and
    navigated to before any page of the next chunk is opened; the session
    ends unlaunched. *)
Example sample_run :
  match checkUrls 6 sampleWorld twoAtATime sampleUrls unlaunched with
  | Some (Ok report, mgr, evs) =>
      PageReport.url <$> Report.pages report = sampleUrls /\
      take 4 evs = [EvLaunch; EvNewContext; EvNewPage; EvNewPage] /\
      take 2 (navigations evs) ≡ₚ take 2 sampleUrls /\
      take 2 (drop 2 (navigations evs)) ≡ₚ take 2 (drop 2 sampleUrls) /\
      drop 4 (navigations evs) = drop 4 sampleUrls /\
      PageReport.score <$> Report.pages report = [85; 85; 85; 85; 85] /\
      Summary.overallScore (Report.summary report) = 85 /\
      Summary.totalIssues (Report.summary report) = 10%nat /\
      isLaunched mgr = false
  | _ => False
  end.
Proof. vm_compute. split_and!; try done; apply Permutation_swap. Qed.

(** A single check on the same world leaves the session launched, and the
    page that lacks an [alt] is an error at level A only. *)
Example sample_single_check :
  match checkUrl sampleWorld DEFAULT_CONFIG "https://a.example" unlaunched with
  | (Ok report, mgr, evs) =>
      PageReport.wcagCompliance report =
        {| Compliance.A := false; Compliance.AA := true; Compliance.AAA := true |} /\
      PageReport.issuesBySeverity report =
        {| BySeverity.error := 1; BySeverity.warning := 1; BySeverity.info := 0 |} /\
      PageReport.issuesByType report !! "alt-text" = Some 1%nat /\
      PageReport.issuesByType report !! "landmark-regions" = Some 0%nat /\
      isLaunched mgr = true
  | _ => False
  end.
Proof. vm_compute. repeat split. Qed.

(** When closing the context fails, the run ends with that error and the
    session is still launched: teardown is only as good as [close()]. *)
Example failed_teardown :
  let w := {| browse := browse sampleWorld;
              chromiumLaunchFails := false;
              newContextFails := false;
              contextCloseFails := true;
              browserCloseFails := false;
              reporterFails := reporterFails sampleWorld;
              reporterSettles := reporterSettles sampleWorld;
              runTimestamp := 0%nat;
              runDuration := 42%nat |} in
  match checkUrls 6 w twoAtATime sampleUrls unlaunched with
  | Some (r, mgr, _) => r = Err TeardownError /\ isLaunched mgr = true
  | None => False
  end.
Proof. vm_compute. repeat split. Qed.

(** * Instances on the sample worlds *)

Lemma C1_witness :
  [sampleIssue Severity.ERROR WcagLevel.A; sampleIssue Severity.WARNING WcagLevel.A;
   sampleIssue Severity.INFO WcagLevel.A]
  ≡ₚ [sampleIssue Severity.INFO WcagLevel.A; sampleIssue Severity.ERROR WcagLevel.A;
      sampleIssue Severity.WARNING WcagLevel.A] /\
  calculateScore [sampleIssue Severity.ERROR WcagLevel.A;
                  sampleIssue Severity.WARNING WcagLevel.A;
                  sampleIssue Severity.INFO WcagLevel.A] =
  calculateScore [sampleIssue Severity.INFO WcagLevel.A;
                  sampleIssue Severity.ERROR WcagLevel.A;
                  sampleIssue Severity.WARNING WcagLevel.A] /\
  calculateScore [sampleIssue Severity.ERROR WcagLevel.A;
                  sampleIssue Severity.WARNING WcagLevel.AA;
                  sampleIssue Severity.INFO WcagLevel.AAA] =
  calculateScore [sampleIssue Severity.INFO WcagLevel.A;
                  sampleIssue Severity.ERROR WcagLevel.A;
                  sampleIssue Severity.WARNING WcagLevel.A].
Proof.
  assert (Hp : forall x y z : AccessibilityIssue, [x; y; z] ≡ₚ [z; x; y]).
  { intros x y z. change ([x; y] ++ [z] ≡ₚ [z] ++ [x; y]). apply Permutation_app_comm. }
  assert (Hs : forall x y z : Severity, [x; y; z] ≡ₚ [z; x; y]).
  { intros x y z. change ([x; y] ++ [z] ≡ₚ [z] ++ [x; y]). apply Permutation_app_comm. }
  destruct C1_calculateScore_clamped_sum as (_ & _ & _ & _ & _ & Hsev & Hperm).
  split_and!.
  - apply Hp.
  - apply Hperm, Hp.
  - apply Hsev. apply Hs.
Defined.

Lemma C6_witness :
  WCAG_REFERENCES CheckType.COLOR_CONTRAST WcagLevel.A = None /\
  Issue.wcagReference (sampleIssue Severity.ERROR WcagLevel.A) = "1.1.1" /\
  Issue.helpUrl (sampleIssue Severity.ERROR WcagLevel.A) =
    Some "https://www.w3.org/WAI/WCAG21/Understanding/1.1.1.html".
Proof.
  pose proof (C6_createIssue_reference_and_helpUrl
                "issue-1700000000000-abc123xyz" CheckType.ALT_TEXT Severity.ERROR
                WcagLevel.A "Image missing alt attribute"
                "All images must have an alt attribute for screen readers"
                None None None) as [Href _].
  pose proof (C6_createIssue_reference_and_helpUrl
                "issue-1700000000000-abc123xyz" CheckType.COLOR_CONTRAST Severity.ERROR
                WcagLevel.A "Image missing alt attribute"
                "All images must have an alt attribute for screen readers"
                None None None) as [_ Hnull].
  split; [apply Hnull; by split | exact Href].
Defined.

Lemma sample_enabled checker :
  checker ∈ ALL_CHECKERS -> checker ∈ enabledCheckers DEFAULT_CONFIG.
Proof.
  intros Hreg. apply enabledCheckers_elem. split_and!; [done| |].
  - revert Hreg. unfold ALL_CHECKERS. rewrite !elem_of_cons, elem_of_nil.
    intros [->|[->|[->|[->|[->|[]]]]]]; cbn; unfold CheckType.values;
      rewrite !elem_of_cons; tauto.
  - cbn. apply not_elem_of_nil.
Qed.

Lemma C2_witness :
  exists evs,
    checkPage sampleWorld DEFAULT_CONFIG PageHandle "https://broken.example" unlaunched
    = (Err (CheckerError CheckType.ALT_TEXT), unlaunched, evs).
Proof.
  apply (proj1 C2_checker_failure_fails_page sampleWorld DEFAULT_CONFIG PageHandle
           "https://broken.example" unlaunched AltTextChecker).
  - reflexivity.
  - reflexivity.
  - reflexivity.
  - reflexivity.
  - apply sample_enabled. by left.
  - reflexivity.
  - intros other Hother Hne. apply enabledCheckers_elem in Hother as [Hreg _].
    revert Hreg Hne. unfold ALL_CHECKERS. rewrite !elem_of_cons, elem_of_nil.
    intros [->|[->|[->|[->|[->|[]]]]]] Hne; cbn in *; by eauto.
Defined.

(** C2 as the specification words it fails: on the sample page whose
    alt-text scan throws, the four other checkers return and the page check
    is rejected. *)
Lemma C2_counterexample :
  (checkPage sampleWorld DEFAULT_CONFIG PageHandle "https://broken.example"
             unlaunched).1.1 = Err (CheckerError CheckType.ALT_TEXT) /\
  ~ soft_failure_isolated.
Proof.
  split; [by vm_compute|].
  intros Hiso.
  destruct (Hiso sampleWorld DEFAULT_CONFIG PageHandle "https://broken.example"
              unlaunched AltTextChecker) as (r & mgr' & evs & Hrun & _).
  - reflexivity.
  - reflexivity.
  - reflexivity.
  - reflexivity.
  - apply sample_enabled. by left.
  - reflexivity.
  - intros other Hother Hne. apply enabledCheckers_elem in Hother as [Hreg _].
    revert Hreg Hne. unfold ALL_CHECKERS. rewrite !elem_of_cons, elem_of_nil.
    intros [->|[->|[->|[->|[->|[]]]]]] Hne; cbn in *; by eauto.
  - vm_compute in Hrun. discriminate.
Qed.

Lemma C3_witness :
  exists r,
    (checkPage sampleWorld DEFAULT_CONFIG PageHandle "https://a.example"
               unlaunched).1.1 = Ok r /\
    Compliance.at_level (PageReport.wcagCompliance r) WcagLevel.A =
      isWcagCompliant (PageReport.issues r) WcagLevel.A /\
    isWcagCompliant [sampleIssue Severity.ERROR WcagLevel.AA] WcagLevel.A =
      isWcagCompliant [] WcagLevel.A /\
    isWcagCompliant [sampleIssue Severity.WARNING WcagLevel.A] WcagLevel.A =
      isWcagCompliant [] WcagLevel.A.
Proof.
  destruct C3_compliance_iff_no_error_at_level as (_ & Hlevel & Hsev & Hreport).
  destruct (checkPage sampleWorld DEFAULT_CONFIG PageHandle "https://a.example"
              unlaunched) as [[[r|reason] mgr'] evs] eqn:Hrun.
  - exists r. split_and!.
    + reflexivity.
    + exact (Hreport _ _ _ _ _ _ _ _ WcagLevel.A Hrun).
    + apply (Hlevel [] (sampleIssue Severity.ERROR WcagLevel.AA) [] WcagLevel.A);
        [reflexivity | discriminate].
    + apply (Hsev [] (sampleIssue Severity.WARNING WcagLevel.A) [] WcagLevel.A);
        [discriminate | reflexivity].
  - vm_compute in Hrun. discriminate.
Defined.

Lemma C4_witness :
  1 <= Config.concurrent twoAtATime /\
  exists r mgr' evs,
    checkUrls 6 sampleWorld twoAtATime sampleUrls unlaunched = Some (Ok r, mgr', evs) /\
    PageReport.url <$> Report.pages r = sampleUrls /\
    exists evs',
      checkUrls 6 (reschedule String.length (fun _ _ => 0%nat) (fun _ => 0%nat) sampleWorld)
                twoAtATime sampleUrls unlaunched = Some (Ok r, mgr', evs').
Proof.
  split; [cbn; lia|].
  destruct (C4_checkUrls_batches_in_order sampleWorld twoAtATime sampleUrls unlaunched)
    as (chunks & _ & _ & _ & _ & _ & Hrun & Hany); [cbn; lia|].
  destruct (checkUrls 6 sampleWorld twoAtATime sampleUrls unlaunched)
    as [[[[r|reason] mgr'] evs]|] eqn:H.
  - exists r, mgr', evs. split_and!; [reflexivity| |].
    + exact (proj1 (Hrun 6%nat r mgr' evs H)).
    + exact (Hany String.length (fun _ _ => 0%nat) (fun _ => 0%nat) 6%nat r mgr' evs H).
  - vm_compute in H. discriminate.
  - vm_compute in H. discriminate.
Defined.

Lemma C5_witness :
  CheckType.ALT_TEXT ∈ Config.enabled (Config.checks altTextBothWays) /\
  CheckType.ALT_TEXT ∈ Config.disabled (Config.checks altTextBothWays) /\
  (CheckType.ALT_TEXT ∉
     evaluations (checkPage sampleWorld altTextBothWays PageHandle "https://a.example"
                            unlaunched).2) /\
  evaluations (checkPage sampleWorld altTextBothWays PageHandle "https://a.example"
                         unlaunched).2 =
    Checker.type <$> enabledCheckers altTextBothWays.
Proof.
  destruct C5_disabled_wins as (_ & Hnever & Hexactly & _).
  split_and!.
  - by left.
  - by left.
  - apply Hnever. by left.
  - apply Hexactly; reflexivity.
Defined.

Lemma C7_witness :
  exists r,
    (checkPage sampleWorld DEFAULT_CONFIG PageHandle "https://a.example"
               unlaunched).1.1 = Ok r /\
    bucketTotal (PageReport.issuesByType r) = PageReport.totalIssues r /\
    size (PageReport.issuesByType r) = 8%nat.
Proof.
  destruct (checkPage sampleWorld DEFAULT_CONFIG PageHandle "https://a.example"
              unlaunched) as [[[r|reason] mgr'] evs] eqn:Hrun.
  - exists r.
    destruct (C7_report_buckets _ _ _ _ _ _ _ _ Hrun) as (_ & _ & Hsize & Htotal & _).
    split_and!; [reflexivity | exact Htotal | exact Hsize].
  - vm_compute in Hrun. discriminate.
Defined.

Lemma C8_witness :
  (exists r mgr' evs,
     checkUrls 6 sampleWorld twoAtATime sampleUrls unlaunched = Some (Ok r, mgr', evs) /\
     isLaunched mgr' = false) /\
  (exists r mgr' evs,
     checkUrl sampleWorld DEFAULT_CONFIG "https://a.example" unlaunched = (Ok r, mgr', evs) /\
     isLaunched mgr' = true).
Proof.
  destruct C8_checkUrls_tears_down as (Hurls & _ & Hurl).
  split.
  - destruct (checkUrls 6 sampleWorld twoAtATime sampleUrls unlaunched)
      as [[[[r|reason] mgr'] evs]|] eqn:H.
    + exists r, mgr', evs. split; [reflexivity|].
      exact (proj1 (Hurls _ _ _ _ _ _ _ _ H I)).
    + vm_compute in H. discriminate.
    + vm_compute in H. discriminate.
  - destruct (checkUrl sampleWorld DEFAULT_CONFIG "https://a.example" unlaunched)
      as [[[r|reason] mgr'] evs] eqn:H.
    + exists r, mgr', evs. split; [reflexivity|].
      exact (Hurl _ _ _ _ _ _ _ H).
    + vm_compute in H. discriminate.
Defined.

Lemma C9_witness :
  (exists result,
     outcome (Checker.check AltTextChecker (samplePage 0) DEFAULT_CONFIG) = Ok result /\
     forall issue, issue ∈ CheckerResult.issues result ->
       Issue.wcagLevel issue = WcagLevel.A) /\
  (Checker.check AltTextChecker (samplePage 0)
     (configure_wcagLevel WcagLevel.AAA DEFAULT_CONFIG) =
   Checker.check AltTextChecker (samplePage 0) DEFAULT_CONFIG).
Proof.
  destruct C9_issue_level_fixed_by_checker as (Hlevel & Hsame & _).
  split.
  - destruct (outcome (Checker.check AltTextChecker (samplePage 0) DEFAULT_CONFIG))
      as [result|reason] eqn:Hout.
    + exists result. split; [reflexivity|]. intros issue Hin.
      exact (proj2 (Hlevel AltTextChecker (samplePage 0) DEFAULT_CONFIG result issue
                      ltac:(by left) Hout Hin)).
    + vm_compute in Hout. discriminate.
  - apply Hsame; [by left | discriminate].
Defined.

Lemma C10_witness :
  (exists chunks, chunkArray 6 sampleUrls 2 = Some chunks) /\
  (forall fuel, chunkArray fuel sampleUrls 0 = None) /\
  (forall fuel, chunkArray fuel sampleUrls (-1) = None) /\
  (forall fuel, checkUrls fuel sampleWorld noneAtATime sampleUrls unlaunched = None) /\
  is_Some (checkUrls 6 sampleWorld twoAtATime sampleUrls unlaunched).
Proof.
  destruct C10_chunkArray_termination as (Hends & Hloops & Hnever & Hrun).
  split_and!.
  - destruct (Hends string sampleUrls 2 ltac:(lia)) as [chunks Hchunks].
    exists chunks. apply Hchunks. cbn. lia.
  - apply (Hloops string sampleUrls 0); [lia | discriminate].
  - apply (Hloops string sampleUrls (-1)); [lia | discriminate].
  - apply Hnever; [cbn; lia | discriminate | reflexivity].
  - apply Hrun; cbn; lia.
Defined.

(** * Further properties of the code *)

(** ** The session manager as a state machine *)

Lemma launch_consistent w config mgr :
  sessionConsistent mgr -> sessionConsistent (launch w config mgr).1.2.
Proof.
  intros Hc. rewrite launch_run.
  destruct (chromiumLaunchFails w); [done|].
  destruct (newContextFails w); unfold sessionConsistent; cbn; done.
Qed.

Lemma ensureLaunched_consistent w config mgr :
  sessionConsistent mgr -> sessionConsistent (ensureLaunched w config mgr).1.2.
Proof.
  intros Hc. unfold ensureLaunched, bind, get.
  destruct (isLaunched mgr); [done|].
  pose proof (launch_consistent w config mgr Hc) as Hl.
  destruct (launch w config mgr) as [[[u|reason] mgr1] evs1]; cbn in *;
    by rewrite ?app_nil_r.
Qed.

Lemma close_consistent w mgr :
  sessionConsistent mgr -> sessionConsistent (close w mgr).1.2.
Proof.
  intros Hc. rewrite close_run. unfold sessionConsistent in *.
  destruct mgr as [[b|] [c|]]; cbn in *;
    repeat (match goal with |- context [if ?b then _ else _] => destruct b end);
    cbn; try done.
Qed.

Lemma checkUrl_manager w config url mgr :
  (checkUrl w config url mgr).1.2 = (ensureLaunched w config mgr).1.2.
Proof.
  rewrite checkUrl_run.
  by destruct (ensureLaunched w config mgr) as [[[[]|reason] mgr1] evs1].
Qed.

(** X1. A manager never holds a context without a browser: the fresh
    manager does not, and [launch], [createPage], [close], [checkUrl] and
    [checkUrls] keep it so whichever of their calls fail.  On such a manager
    a launch that fails leaves the context the manager holds, if any, and
    the answer of [isLaunched()] as they were: the manager is not launched
    afterwards when it was not before, and it still is when it was. *)
Theorem X1_session_stays_consistent :
  sessionConsistent unlaunched /\
  (forall w config mgr,
     sessionConsistent mgr -> sessionConsistent (launch w config mgr).1.2) /\
  (forall page mgr, (createPage page mgr).1.2 = mgr) /\
  (forall w mgr, sessionConsistent mgr -> sessionConsistent (close w mgr).1.2) /\
  (forall w config url mgr,
     sessionConsistent mgr -> sessionConsistent (checkUrl w config url mgr).1.2) /\
  (forall fuel w config urls mgr r mgr' evs,
     sessionConsistent mgr ->
     checkUrls fuel w config urls mgr = Some (r, mgr', evs) ->
     sessionConsistent mgr') /\
  (forall w config mgr reason mgr' evs,
     sessionConsistent mgr ->
     launch w config mgr = (Err reason, mgr', evs) ->
     isLaunched mgr' = isLaunched mgr /\
     BrowserManager.context mgr' = BrowserManager.context mgr).
Proof.
  split_and!.
  - unfold sessionConsistent. cbn. done.
  - apply launch_consistent.
  - intros page mgr. rewrite createPage_run. destruct (BrowserManager.context mgr); [|done].
    by destruct (Dom.newPageFails page), (Dom.addInitScriptFails page).
  - apply close_consistent.
  - intros w config url mgr Hc. rewrite checkUrl_manager.
    by apply ensureLaunched_consistent.
  - intros fuel w config urls mgr r mgr' evs Hc H.
    pose proof (ensureLaunched_consistent w config mgr Hc) as Hl.
    apply checkUrls_inv in H as [(reason & Hrun & _)|H].
    + by rewrite Hrun in Hl.
    + destruct H as (mgr1 & evs1 & chunks & body & evs2 & torn & evs3 &
                     Hrun & _ & _ & _ & Ht & _ & _).
      rewrite Hrun in Hl. cbn in Hl.
      pose proof (close_consistent w mgr1 Hl) as Hcl. by rewrite Ht in Hcl.
  - intros w config mgr reason mgr' evs Hc. rewrite launch_run.
    destruct (chromiumLaunchFails w); [by intros [= _ <- _]|].
    destruct (newContextFails w); [|discriminate].
    intros [= _ <- _]. unfold isLaunched, sessionConsistent in *. cbn.
    destruct mgr as [[[]|] [c|]]; cbn in *; try done.
    exfalso. by apply Hc.
Qed.

Lemma X1_witness :
  sessionConsistent unlaunched /\
  sessionConsistent (launch sampleWorld DEFAULT_CONFIG unlaunched).1.2 /\
  sessionConsistent
    (close sampleWorld (launch sampleWorld DEFAULT_CONFIG unlaunched).1.2).1.2 /\
  isLaunched (launch noContext DEFAULT_CONFIG
                (launch sampleWorld DEFAULT_CONFIG unlaunched).1.2).1.2 = true.
Proof.
  destruct X1_session_stays_consistent as (Hfresh & Hlaunch & _ & Hclose & _ & _ & Hfails).
  split_and!; [done | by apply Hlaunch | by apply Hclose, Hlaunch |].
  destruct (launch noContext DEFAULT_CONFIG
              (launch sampleWorld DEFAULT_CONFIG unlaunched).1.2)
    as [[[u|reason] mgr'] evs] eqn:H.
  - vm_compute in H. discriminate.
  - destruct (Hfails _ _ _ _ _ _ (Hlaunch sampleWorld DEFAULT_CONFIG unlaunched Hfresh) H)
      as (Heq & _). cbn [fst snd]. rewrite Heq. reflexivity.
Defined.

(** X2. From a manager that holds no context without a browser, a call of
    [checkUrls] that ends in any way but with the error of the teardown,
    the failure of the launch included, leaves [isLaunched()] false. *)
Theorem X2_checkUrls_ends_unlaunched :
  forall fuel w config urls mgr r mgr' evs,
    sessionConsistent mgr ->
    checkUrls fuel w config urls mgr = Some (r, mgr', evs) ->
    r <> Err TeardownError ->
    isLaunched mgr' = false.
Proof.
  intros fuel w config urls mgr r mgr' evs Hc H Hr.
  apply checkUrls_inv in H as [(reason & Hl & ->)|H].
  - unfold ensureLaunched, bind, get in Hl.
    destruct (isLaunched mgr) eqn:Hlaunched; [discriminate|].
    rewrite launch_run in Hl.
    destruct (chromiumLaunchFails w); [by injection Hl as _ <- _|].
    destruct (newContextFails w); [|discriminate].
    injection Hl as _ <- _. unfold isLaunched, sessionConsistent in *. cbn.
    destruct mgr as [b [c|]]; cbn in *; [|done].
    destruct b; [done|]. exfalso. by apply Hc.
  - destruct H as (mgr1 & evs1 & chunks & body & evs2 & torn & evs3 &
                   _ & _ & _ & _ & Ht & -> & _).
    destruct torn as [u|reason].
    + by apply close_Ok in Ht as [-> _].
    + apply close_Err in Ht as ->. done.
Qed.

Lemma X2_witness :
  match checkUrls 6 sampleWorld twoAtATime ["https://broken.example"] unlaunched with
  | Some (r, mgr', _) => r = Err (CheckerError CheckType.ALT_TEXT) /\ isLaunched mgr' = false
  | None => False
  end.
Proof.
  destruct (checkUrls 6 sampleWorld twoAtATime ["https://broken.example"] unlaunched)
    as [[[r mgr'] evs]|] eqn:H.
  - assert (Hr : r = Err (CheckerError CheckType.ALT_TEXT)).
    { vm_compute in H. by injection H as <- _ _. }
    split; [done|].
    assert (Hfresh : sessionConsistent unlaunched) by (unfold sessionConsistent; cbn; done).
    apply (X2_checkUrls_ends_unlaunched _ _ _ _ _ _ _ _ Hfresh H).
    rewrite Hr. discriminate.
  - vm_compute in H. discriminate.
Defined.

(** X3. [close()] on a manager that holds neither browser nor context makes
    no call and returns; once [close()] has returned, a second [close()]
    changes nothing; a successful [launch] followed by a successful [close]
    is back at the fresh manager; and [createPage] throws the session error
    exactly on the managers without a context, so before any launch and
    after any successful close, where it makes no call, and never after a
    successful launch: there it opens a page and adds the init script to
    it, and fails only when one of these two calls does, with the error of
    that call and without closing the page it may have opened. *)
Theorem X3_session_state_machine :
  (forall w, close w unlaunched = (Ok (), unlaunched, [])) /\
  (forall w mgr u mgr' evs,
     close w mgr = (Ok u, mgr', evs) -> close w mgr' = (Ok (), mgr', [])) /\
  (forall w config mgr u mgr1 evs1 u' mgr2 evs2,
     launch w config mgr = (Ok u, mgr1, evs1) ->
     close w mgr1 = (Ok u', mgr2, evs2) ->
     isLaunched mgr1 = true /\ mgr2 = unlaunched /\
     evs1 = [EvLaunch; EvNewContext] /\ evs2 = [EvContextClose; EvBrowserClose]) /\
  (forall page mgr,
     (createPage page mgr).1.1 = Err SessionError <-> BrowserManager.context mgr = None) /\
  (forall w page mgr u mgr' evs,
     close w mgr = (Ok u, mgr', evs) ->
     createPage page mgr' = (Err SessionError, mgr', [])) /\
  (forall w config page mgr u mgr' evs,
     launch w config mgr = (Ok u, mgr', evs) ->
     createPage page mgr' =
       if Dom.newPageFails page then (Err NewPageError, mgr', [EvNewPage])
       else if Dom.addInitScriptFails page
       then (Err InitScriptError, mgr', [EvNewPage; EvAddInitScript])
       else (Ok PageHandle, mgr', [EvNewPage; EvAddInitScript])).
Proof.
  split_and!.
  - intros w. by rewrite close_run.
  - intros w mgr u mgr' evs H. apply close_Ok in H as [-> _]. by rewrite close_run.
  - intros w config mgr u mgr1 evs1 u' mgr2 evs2. rewrite launch_run.
    destruct (chromiumLaunchFails w); [discriminate|].
    destruct (newContextFails w); [discriminate|].
    intros [= _ <- <-] Hc. apply close_Ok in Hc as [-> Hevs].
    split_and!; [done | done | done | by apply Hevs].
  - intros page mgr. rewrite createPage_run.
    destruct (BrowserManager.context mgr); [|done].
    by destruct (Dom.newPageFails page), (Dom.addInitScriptFails page).
  - intros w page mgr u mgr' evs H. apply close_Ok in H as [-> _].
    by rewrite createPage_run.
  - intros w config page mgr u mgr' evs. rewrite launch_run.
    destruct (chromiumLaunchFails w); [discriminate|].
    destruct (newContextFails w); [discriminate|].
    intros [= _ <- _]. by rewrite createPage_run.
Qed.

Lemma X3_witness :
  close sampleWorld (close sampleWorld
    (launch sampleWorld DEFAULT_CONFIG unlaunched).1.2).1.2
  = (Ok (), unlaunched, []) /\
  createPage (samplePage 0) (close sampleWorld
     (launch sampleWorld DEFAULT_CONFIG unlaunched).1.2).1.2
  = (Err SessionError, unlaunched, []) /\
  (createPage noInitPage (launch sampleWorld DEFAULT_CONFIG unlaunched).1.2).1.1
  = Err InitScriptError.
Proof.
  destruct X3_session_state_machine as (_ & Hidem & _ & _ & Hafter & Hlaunched).
  split_and!.
  - apply (Hidem sampleWorld (launch sampleWorld DEFAULT_CONFIG unlaunched).1.2 ()
             unlaunched [EvContextClose; EvBrowserClose]). reflexivity.
  - apply (Hafter sampleWorld (samplePage 0)
             (launch sampleWorld DEFAULT_CONFIG unlaunched).1.2 ()
             unlaunched [EvContextClose; EvBrowserClose]). reflexivity.
  - rewrite (Hlaunched sampleWorld DEFAULT_CONFIG noInitPage unlaunched ()
               (launch sampleWorld DEFAULT_CONFIG unlaunched).1.2
               [EvLaunch; EvNewContext]); reflexivity.
Defined.

(** ** A single check *)

Lemma isLaunched_context mgr :
  isLaunched mgr = true -> BrowserManager.context mgr <> None.
Proof.
  unfold isLaunched. intros [_ H]%andb_true_iff. by apply bool_decide_eq_true in H.
Qed.

Lemma filter_none {X} (P : X -> Prop) `{!forall x, Decision (P x)} (l : list X) :
  (forall x, x ∈ l -> ~ P x) -> filter P l = [].
Proof.
  induction l as [|x l IH]; intros Hno; [done|].
  rewrite filter_cons_False by (apply Hno; by left).
  apply IH. intros y Hy. apply Hno. by right.
Qed.

(** The calls of a page check are calls on the page. *)
Lemma checkPage_event_kinds w config p url mgr ev :
  ev ∈ (checkPage w config p url mgr).2 -> pageCall url ev.
Proof.
  rewrite checkPage_events. unfold pageCall.
  assert (Hhead : ev ∈ EvGoto url :: waitEvents (browse w url) ->
                  ev ∈ [EvNewPage; EvAddInitScript; EvGoto url; EvWaitAxe;
                        EvWaitLoadState; EvWaitTimeout; EvPageClose]).
  { unfold waitEvents.
    destruct (Dom.axeLoads (browse w url)), (Dom.networkIdle (browse w url));
      rewrite !elem_of_cons, !elem_of_nil; tauto. }
  destruct (Dom.gotoError (browse w url)).
  { intros ->%list_elem_of_singleton. left. rewrite !elem_of_cons. tauto. }
  destruct (stabilizes (browse w url)); [|by left; apply Hhead].
  rewrite app_comm_cons. intros [H|H]%elem_of_app; [by left; apply Hhead|].
  right.
  apply Promise_all_events in H as (t & Ht & Hev).
  apply list_elem_of_fmap in Ht as (checker & -> & Hc).
  apply enabledCheckers_elem in Hc as [Hreg _].
  destruct (check_calls checker (browse w url) config Hreg) as [Hs Hd].
  rewrite Hs, Hd in Hev. exists (Checker.type checker).
  destruct Hev as [->%list_elem_of_singleton | ->%list_elem_of_singleton]; auto.
Qed.

(** So are the calls of the check of a URL in a page of its own. *)
Lemma checkInPage_event_kinds w config url mgr ev :
  ev ∈ (checkInPage w config url mgr).2 -> pageCall url ev.
Proof.
  rewrite checkInPage_run.
  assert (Hown : ev ∈ [EvNewPage; EvAddInitScript; EvPageClose] -> pageCall url ev).
  { unfold pageCall. rewrite !elem_of_cons, !elem_of_nil. tauto. }
  destruct (BrowserManager.context mgr); [|by intros ?%elem_of_nil].
  destruct (Dom.newPageFails (browse w url)).
  { cbn [snd]. intros H. apply Hown. revert H. rewrite !elem_of_cons, !elem_of_nil. tauto. }
  destruct (Dom.addInitScriptFails (browse w url)).
  { cbn [snd]. intros H. apply Hown. revert H. rewrite !elem_of_cons, !elem_of_nil. tauto. }
  cbn [snd]. rewrite !elem_of_app.
  intros [H|[H|H]]; [|by eapply checkPage_event_kinds|].
  - apply Hown. revert H. rewrite !elem_of_cons, !elem_of_nil. tauto.
  - apply Hown. revert H. rewrite !elem_of_cons, !elem_of_nil. tauto.
Qed.

(** A call on a page is none of the calls on the session, the reporters or
    the file system, and a navigation among them is to the page's URL. *)
Lemma pageCall_inv url ev :
  pageCall url ev ->
  ev <> EvLaunch /\ ev <> EvNewContext /\ ev <> EvContextClose /\ ev <> EvBrowserClose /\
  (forall format, ev <> EvGenerate format) /\ (forall dir, ev <> EvMkdir dir) /\
  (forall url', ev = EvGoto url' -> url' = url).
Proof.
  intros [H|[type [-> | ->]]]; [|by split_and!..].
  rewrite !elem_of_cons, elem_of_nil in H.
  destruct H as [->|[->|[->|[->|[->|[->|[->|[]]]]]]]]; split_and!; try done.
  by intros url' [= ->].
Qed.

Lemma ensureLaunched_run w config mgr :
  ensureLaunched w config mgr =
    if isLaunched mgr then (Ok (), mgr, []) else launch w config mgr.
Proof.
  unfold ensureLaunched, bind, get. destruct (isLaunched mgr); [done|].
  by destruct (launch w config mgr) as [[[u|reason] mgr1] evs1].
Qed.

Lemma ensureLaunched_events w config mgr ev :
  ev ∈ (ensureLaunched w config mgr).2 -> ev = EvLaunch \/ ev = EvNewContext.
Proof.
  rewrite ensureLaunched_run. destruct (isLaunched mgr); [by intros ?%elem_of_nil|].
  rewrite launch_run.
  destruct (chromiumLaunchFails w); [|destruct (newContextFails w)]; cbn;
    rewrite !elem_of_cons, elem_of_nil; tauto.
Qed.

(** The calls of a single check: those of the launch, then calls on the
    page. *)
Lemma checkUrl_event_kinds w config url mgr ev :
  ev ∈ (checkUrl w config url mgr).2 ->
  ev = EvLaunch \/ ev = EvNewContext \/ pageCall url ev.
Proof.
  rewrite checkUrl_run.
  pose proof (ensureLaunched_events w config mgr ev) as Hl.
  destruct (ensureLaunched w config mgr) as [[[[]|reason] mgr1] evs1];
    cbn [fst snd] in *; [|intros H%Hl; tauto].
  intros [H%Hl | H%checkInPage_event_kinds]%elem_of_app; tauto.
Qed.

(** On a launched session a single check is the check of the URL in a page
    of its own. *)
Lemma checkUrl_launched w config url mgr :
  isLaunched mgr = true ->
  checkUrl w config url mgr = checkInPage w config url mgr.
Proof.
  intros Hl. rewrite checkUrl_run, ensureLaunched_run, Hl. cbn [app].
  pose proof (checkInPage_manager w config url mgr) as Hm.
  destruct (checkInPage w config url mgr) as [[r mgr1] evs1].
  cbn [fst snd] in *. by subst mgr1.
Qed.

Lemma checkUrl_Ok_launched w config url mgr r mgr' evs :
  checkUrl w config url mgr = (Ok r, mgr', evs) -> isLaunched mgr' = true.
Proof.
  rewrite checkUrl_run.
  destruct (ensureLaunched w config mgr) as [[[[]|reason] mgr1] evs1] eqn:Hl;
    [|discriminate].
  intros [= _ <- _]. by apply ensureLaunched_Ok in Hl.
Qed.

(** X4. [checkUrl] launches the session only when it is not launched: on
    a launched manager it makes no launch call, leaves the manager as it
    is, and is the check of the URL in a page of its own: it opens a page,
    adds the init script to it and then, in this order, runs the page
    check and closes the page, these calls being all it makes.  So after a
    check that returned, any further check, of any URL and under any
    configuration, reuses the session.  The page is closed exactly when
    it was opened and took the init script, and closing it is then the
    last call, whether the page check returned or threw: a page that was
    opened and on which adding the init script failed is left open.  When
    closing the page fails, the check throws the error of the closing in
    place of the outcome of the page check. *)
Theorem X4_checkUrl_reuses_session_and_closes_page :
  (forall w config url mgr,
     isLaunched mgr = true ->
     checkUrl w config url mgr =
       if Dom.newPageFails (browse w url) then (Err NewPageError, mgr, [EvNewPage])
       else if Dom.addInitScriptFails (browse w url)
       then (Err InitScriptError, mgr, [EvNewPage; EvAddInitScript])
       else (if Dom.closeFails (browse w url) then Err PageCloseError
             else (checkPage w config PageHandle url mgr).1.1,
             mgr,
             [EvNewPage; EvAddInitScript] ++
             (checkPage w config PageHandle url mgr).2 ++ [EvPageClose])) /\
  (forall w config url mgr r mgr' evs,
     checkUrl w config url mgr = (Ok r, mgr', evs) ->
     forall w2 config2 url2,
       launches (checkUrl w2 config2 url2 mgr').2 = [] /\
       (checkUrl w2 config2 url2 mgr').1.2 = mgr') /\
  (forall w config url mgr,
     EvPageClose ∈ (checkUrl w config url mgr).2 <->
     (EvAddInitScript ∈ (checkUrl w config url mgr).2 /\
      Dom.addInitScriptFails (browse w url) = false)) /\
  (forall w config url mgr,
     EvPageClose ∈ (checkUrl w config url mgr).2 ->
     last (checkUrl w config url mgr).2 = Some EvPageClose /\
     (Dom.closeFails (browse w url) = true ->
      (checkUrl w config url mgr).1.1 = Err PageCloseError)) /\
  (forall w config url mgr,
     EvNewPage ∈ (checkUrl w config url mgr).2 ->
     Dom.newPageFails (browse w url) = true \/
     Dom.addInitScriptFails (browse w url) = true ->
     (EvPageClose ∉ (checkUrl w config url mgr).2) /\
     exists reason, (checkUrl w config url mgr).1.1 = Err reason /\
                    (reason = NewPageError \/ reason = InitScriptError)).
Proof.
  assert (Hpage : forall w config url mgr,
            (checkUrl w config url mgr).2 = (ensureLaunched w config mgr).2 ++
              match (ensureLaunched w config mgr).1.1 with
              | Ok _ => (checkInPage w config url (ensureLaunched w config mgr).1.2).2
              | Err _ => []
              end /\
            (checkUrl w config url mgr).1.1 =
              match (ensureLaunched w config mgr).1.1 with
              | Ok _ => (checkInPage w config url (ensureLaunched w config mgr).1.2).1.1
              | Err reason => Err reason
              end /\
            ((ensureLaunched w config mgr).1.1 = Ok () ->
             BrowserManager.context (ensureLaunched w config mgr).1.2 <> None)).
  { intros w config url mgr. rewrite checkUrl_run.
    destruct (ensureLaunched w config mgr) as [[[[]|reason] mgr1] evs1] eqn:He;
      cbn [fst snd].
    - split_and!; [done|done|]. intros _.
      by apply isLaunched_context, (ensureLaunched_Ok _ _ _ _ _ _ He).
    - by rewrite app_nil_r. }
  assert (Hsession : forall w config mgr ev,
            ev ∈ (ensureLaunched w config mgr).2 ->
            ev <> EvNewPage /\ ev <> EvAddInitScript /\ ev <> EvPageClose).
  { intros w config mgr ev [-> | ->]%ensureLaunched_events; by split_and!. }
  split_and!.
  - intros w config url mgr Hl. rewrite (checkUrl_launched _ _ _ _ Hl), checkInPage_run.
    pose proof (isLaunched_context mgr Hl). by destruct (BrowserManager.context mgr).
  - intros w config url mgr r mgr' evs H w2 config2 url2.
    apply checkUrl_Ok_launched in H.
    rewrite (checkUrl_launched w2 config2 url2 mgr' H).
    split; [|apply checkInPage_manager]. apply filter_none.
    intros ev Hev%checkInPage_event_kinds%pageCall_inv. tauto.
  - intros w config url mgr.
    destruct (Hpage w config url mgr) as (-> & _ & Hctx).
    pose proof (Hsession w config mgr) as Hs.
    rewrite !elem_of_app.
    destruct (ensureLaunched w config mgr) as [[[[]|reason] mgr1] evs1];
      cbn [fst snd] in *.
    + specialize (Hctx eq_refl). rewrite checkInPage_run.
      destruct (BrowserManager.context mgr1); [|done].
      destruct (Dom.newPageFails (browse w url)), (Dom.addInitScriptFails (browse w url));
        cbn [snd]; rewrite ?elem_of_app, !elem_of_cons, !elem_of_nil;
        (split; [intros [H%Hs|H] | intros [[H%Hs|H] ?]]);
        try tauto; try discriminate; intuition (try discriminate; auto).
    + rewrite !elem_of_nil. split; [intros [H%Hs|[]]; tauto|intros [[H%Hs|[]] _]; tauto].
  - intros w config url mgr.
    destruct (Hpage w config url mgr) as (-> & -> & Hctx).
    pose proof (Hsession w config mgr) as Hs.
    destruct (ensureLaunched w config mgr) as [[[[]|reason] mgr1] evs1];
      cbn [fst snd] in *.
    + specialize (Hctx eq_refl). rewrite checkInPage_run.
      destruct (BrowserManager.context mgr1); [|done].
      destruct (Dom.newPageFails (browse w url)).
      { cbn [fst snd]. rewrite elem_of_app, !elem_of_cons, elem_of_nil.
        intros [H%Hs|[H|[]]]; [tauto|discriminate]. }
      destruct (Dom.addInitScriptFails (browse w url)).
      { cbn [fst snd]. rewrite elem_of_app, !elem_of_cons, elem_of_nil.
        intros [H%Hs|[H|[H|[]]]]; [tauto|discriminate|discriminate]. }
      intros _. cbn [fst snd]. split.
      * rewrite !app_assoc. apply last_snoc.
      * by intros ->.
    + rewrite app_nil_r. intros H%Hs. tauto.
  - intros w config url mgr.
    destruct (Hpage w config url mgr) as (-> & -> & Hctx).
    pose proof (Hsession w config mgr) as Hs.
    destruct (ensureLaunched w config mgr) as [[[[]|reason] mgr1] evs1];
      cbn [fst snd] in *.
    + specialize (Hctx eq_refl). rewrite checkInPage_run.
      destruct (BrowserManager.context mgr1); [|done].
      destruct (Dom.newPageFails (browse w url)).
      { intros _ _. cbn [fst snd]. split; [|by exists NewPageError; split; [|left]].
        rewrite elem_of_app, !elem_of_cons, elem_of_nil.
        intros [H%Hs|[H|[]]]; [tauto|discriminate]. }
      destruct (Dom.addInitScriptFails (browse w url)); [|by intros _ [|]].
      intros _ _. cbn [fst snd]. split; [|by exists InitScriptError; split; [|right]].
      rewrite elem_of_app, !elem_of_cons, elem_of_nil.
      intros [H%Hs|[H|[H|[]]]]; [tauto|discriminate|discriminate].
    + rewrite app_nil_r. intros H%Hs. tauto.
Qed.

Lemma X4_witness :
  launches (checkUrl sampleWorld DEFAULT_CONFIG "https://a.example" unlaunched).2
    = [EvLaunch; EvNewContext] /\
  launches (checkUrl sampleWorld altTextBothWays "https://bb.example"
              (checkUrl sampleWorld DEFAULT_CONFIG "https://a.example" unlaunched).1.2).2
    = [] /\
  last (checkUrl sampleWorld DEFAULT_CONFIG "https://broken.example" unlaunched).2
    = Some EvPageClose /\
  (checkUrl (serving noClosePage) DEFAULT_CONFIG "https://a.example" unlaunched).1.1
    = Err PageCloseError /\
  EvPageClose ∉ (checkUrl (serving noInitPage) DEFAULT_CONFIG "https://a.example"
                   unlaunched).2.
Proof.
  destruct X4_checkUrl_reuses_session_and_closes_page
    as (_ & Hreuse & _ & Hclosed & Hopen).
  split_and!.
  - by vm_compute.
  - destruct (checkUrl sampleWorld DEFAULT_CONFIG "https://a.example" unlaunched)
      as [[[r|reason] mgr'] evs] eqn:H.
    + exact (proj1 (Hreuse _ _ _ _ _ _ _ H sampleWorld altTextBothWays
                      "https://bb.example")).
    + vm_compute in H. discriminate.
  - apply Hclosed. apply (bool_decide_unpack _). by vm_compute.
  - apply Hclosed; [|reflexivity]. apply (bool_decide_unpack _). by vm_compute.
  - apply Hopen; [|by right]. apply (bool_decide_unpack _). by vm_compute.
Defined.

(** ** The reporters *)

Lemma configuredFormats_elem config format :
  format ∈ configuredFormats config <->
  format ∈ Config.format (Config.output config).
Proof.
  unfold configuredFormats. rewrite list_elem_of_filter.
  split; [tauto|]. intros H. split; [exact H|].
  destruct format; rewrite !elem_of_cons; tauto.
Qed.

(** X5. [generateReports] first makes the directory of the reports,
    [outputDir] or [./reports] when that is absent or empty, whatever
    formats are configured, and goes on whether or not making it fails.
    Then it starts the configured reporters in the fixed order console,
    JSON, HTML, each at most once, however the formats are ordered or
    repeated in the configuration, and it starts all of them even when one
    fails.  It makes no other call.  It succeeds exactly when no
    configured reporter fails, and leaves the report as it was given but
    for the order of the issues of a page when the console reporter is
    configured; otherwise it throws the error of a configured reporter
    that failed.  With no format configured, making the directory is all
    it does. *)
Theorem X5_generateReports_fixed_order :
  (forall w config report mgr,
     (generateReports w config report mgr).2
     = EvMkdir (or_else (Config.outputDir (Config.output config)) "./reports")
       :: (EvGenerate <$> configuredFormats config) /\
     (generateReports w config report mgr).1.2 = mgr) /\
  (forall config,
     NoDup (configuredFormats config) /\
     (forall format, format ∈ configuredFormats config <->
                     format ∈ Config.format (Config.output config)) /\
     sublist (configuredFormats config) [Format.console; Format.json; Format.html]) /\
  (forall w config report mgr,
     (exists report', (generateReports w config report mgr).1.1 = Ok report') <->
     forall format, format ∈ Config.format (Config.output config) ->
                    reporterFails w format = false) /\
  (forall w config report mgr report',
     (generateReports w config report mgr).1.1 = Ok report' ->
     Report.summary report' = Report.summary report /\
     Report.configuration report' = Report.configuration report /\
     Forall2 (fun page page' =>
                page' = asReported config page /\
                PageReport.issues page' ≡ₚ PageReport.issues page)
             (Report.pages report) (Report.pages report') /\
     (Format.console ∉ Config.format (Config.output config) -> report' = report)) /\
  (forall w config report mgr reason,
     (generateReports w config report mgr).1.1 = Err reason ->
     exists format,
       format ∈ Config.format (Config.output config) /\
       reporterFails w format = true /\ reason = ReporterError format) /\
  (forall w config report mgr,
     Config.format (Config.output config) = [] ->
     generateReports w config report mgr
     = (Ok report, mgr,
        [EvMkdir (or_else (Config.outputDir (Config.output config)) "./reports")])).
Proof.
  split_and!.
  - intros. split; [apply generateReports_events|apply generateReports_manager].
  - intros config. split_and!.
    + unfold configuredFormats. apply NoDup_filter.
      repeat (constructor; [rewrite ?elem_of_cons, elem_of_nil; intuition discriminate|]).
      constructor.
    + apply configuredFormats_elem.
    + apply sublist_filter.
  - intros. rewrite generateReports_run. cbn [fst snd].
    setoid_rewrite <- configuredFormats_elem.
    rewrite <- (generate_fulfilled w report mgr).
    destruct (Promise_all _).1 as [vs|reason]; split; intros [? H];
      try discriminate; eauto.
  - intros w config report mgr report' ->%generateReports_Ok.
    destruct (reportedAs_summary config report) as [Hs Hc].
    split_and!; [done|done| |].
    + rewrite reportedAs_pages.
      apply Forall2_fmap_r, Forall_Forall2_diag, Forall_forall.
      intros page _. split; [done|]. apply asReported_fields.
    + intros Hno. unfold reportedAs. by rewrite bool_decide_false.
  - intros w config report mgr reason. rewrite generateReports_run. cbn [fst snd].
    destruct (Promise_all _).1 as [vs|reason'] eqn:H; [done|].
    intros [= ->]. apply generate_rejected in H as (format & Hin & Hf & ->).
    exists format. by rewrite <- configuredFormats_elem.
  - intros w config report mgr Hnone. rewrite generateReports_run.
    unfold configuredFormats, reportedAs, reportDir. rewrite Hnone.
    rewrite bool_decide_false by apply not_elem_of_nil.
    rewrite filter_none; [done|]. intros ? _. apply not_elem_of_nil.
Qed.

Lemma X5_witness :
  exists report',
    (generateReports jsonFails htmlTwiceThenConsole
       {| Report.summary := {| Summary.totalPages := 0; Summary.totalIssues := 0;
                               Summary.overallScore := 100; Summary.timestamp := 0;
                               Summary.duration := 0 |};
          Report.pages := [];
          Report.configuration := htmlTwiceThenConsole |} unlaunched).1.1 = Ok report'.
Proof.
  destruct X5_generateReports_fixed_order as (_ & _ & Hok & _).
  apply Hok. intros format Hin.
  destruct format; [|reflexivity|reflexivity].
  exfalso. revert Hin. cbn [htmlTwiceThenConsole Config.format Config.output].
  rewrite !elem_of_cons, elem_of_nil. intuition discriminate.
Defined.

(** ** A page that fails *)

Lemma navigations_elem evs url : url ∈ navigations evs <-> EvGoto url ∈ evs.
Proof.
  unfold navigations. rewrite list_elem_of_omap. split.
  - intros (ev & Hin & Hev). destruct ev; try done. by injection Hev as ->.
  - intros Hin. by exists (EvGoto url).
Qed.

Lemma generations_elem evs format : format ∈ generations evs <-> EvGenerate format ∈ evs.
Proof.
  unfold generations. rewrite list_elem_of_omap. split.
  - intros (ev & Hin & Hev). destruct ev; try done. by injection Hev as ->.
  - intros Hin. by exists (EvGenerate format).
Qed.

Lemma generations_none evs :
  (forall format, EvGenerate format ∉ evs) -> generations evs = [].
Proof.
  intros Hno. destruct (generations evs) as [|format l] eqn:H; [done|].
  destruct (Hno format). apply generations_elem. rewrite H. by left.
Qed.

Lemma generations_app evs1 evs2 :
  generations (evs1 ++ evs2) = generations evs1 ++ generations evs2.
Proof. apply omap_app. Qed.

(** The calls of the task that checks one URL of a chunk. *)
Lemma checkInNewPage_event_kinds w config url mgr ev :
  ev ∈ started (checkInNewPage w config url mgr) \/
  ev ∈ settled (checkInNewPage w config url mgr) ->
  pageCall url ev.
Proof.
  rewrite <- elem_of_app, (proj2 (checkInNewPage_task w config url mgr)).
  apply checkInPage_event_kinds.
Qed.

Lemma checkChunk_event_kinds w config chunk mgr ev :
  ev ∈ (checkChunk w config chunk mgr).2 ->
  (forall format, ev <> EvGenerate format) /\
  (forall dir, ev <> EvMkdir dir) /\
  (forall url, ev = EvGoto url -> url ∈ chunk).
Proof.
  rewrite checkChunk_run. cbn [snd].
  intros (t & Ht & Hev)%Promise_all_events.
  apply list_elem_of_fmap in Ht as (url & -> & Hin).
  apply checkInNewPage_event_kinds, pageCall_inv in Hev
    as (_ & _ & _ & _ & Hg & Hm & Hu).
  split_and!; [done|done|]. by intros url' ->%Hu.
Qed.

(** A loop over the chunks that throws has checked some chunks in full,
    then one whose [Promise.all] rejected, and has not reached the rest. *)
Lemma forChunks_Err_inv w config chunks pageReports mgr reason mgr' evs :
  forChunks w config chunks pageReports mgr = (Err reason, mgr', evs) ->
  exists checked chunk rest,
    chunks = checked ++ chunk :: rest /\
    Forall (fun chunk' => exists chunkResults,
              (checkChunk w config chunk' mgr).1.1 = Ok chunkResults) checked /\
    (checkChunk w config chunk mgr).1.1 = Err reason /\
    evs = (checked ++ [chunk]) ≫= (fun chunk' => (checkChunk w config chunk' mgr).2).
Proof.
  revert pageReports evs.
  induction chunks as [|chunk chunks IH]; intros pageReports evs; [done|].
  cbn [forChunks]. unfold bind. rewrite checkChunk_run.
  destruct (Promise_all _) as [[chunkResults|reason'] evs1] eqn:Hp; cbn [fst snd].
  - destruct (forChunks w config chunks (pageReports ++ chunkResults) mgr)
      as [[[reports|reason''] mgr2] evs2] eqn:Hrest; [done|].
    intros [= -> -> <-].
    destruct (IH _ _ Hrest) as (checked & chunk' & rest & -> & Hall & Herr & ->).
    exists (chunk :: checked), chunk', rest. split_and!; [done| |done|].
    + constructor; [|done]. exists chunkResults. by rewrite checkChunk_run, Hp.
    + cbn [app]. rewrite bind_cons. by rewrite checkChunk_run, Hp.
  - intros [= -> -> <-]. exists [], chunk, chunks. split_and!; [done|constructor| |].
    + by rewrite checkChunk_run, Hp.
    + cbn [app]. rewrite bind_cons, checkChunk_run, Hp. cbn. by rewrite app_nil_r.
Qed.

Lemma forChunks_Err_page w config chunks pageReports mgr reason :
  (forChunks w config chunks pageReports mgr).1.1 = Err reason ->
  exists chunk url,
    chunk ∈ chunks /\ url ∈ chunk /\
    outcome (checkInNewPage w config url mgr) = Err reason.
Proof.
  destruct (forChunks w config chunks pageReports mgr) as [[r mgr'] evs] eqn:H.
  cbn. intros ->.
  apply forChunks_Err_inv in H as (checked & chunk & rest & -> & _ & Herr & _).
  rewrite checkChunk_run in Herr. cbn in Herr.
  apply Promise_all_rejected in Herr as (t & Ht & Hout).
  apply list_elem_of_fmap in Ht as (url & -> & Hin).
  exists chunk, url. split_and!; [|done|done].
  apply elem_of_app. right. by left.
Qed.

(** The errors of the check of one URL are those of a page check. *)
Lemma checkInNewPage_rejection w config url mgr reason :
  outcome (checkInNewPage w config url mgr) = Err reason -> fromPageCheck reason.
Proof.
  rewrite checkInNewPage_outcome.
  destruct (BrowserManager.context mgr); [|by intros [= <-]].
  destruct (Dom.newPageFails (browse w url)); [by intros [= <-]|].
  destruct (Dom.addInitScriptFails (browse w url)); [by intros [= <-]|].
  destruct (Dom.closeFails (browse w url)); [by intros [= <-]|].
  destruct (checkPage w config PageHandle url mgr) as [[r mgr'] evs] eqn:H.
  cbn. intros ->. apply checkPage_Err_inv in H as [_ Hcases].
  destruct Hcases as [(cause & _ & -> & _) | [(_ & _ & -> & _) | (_ & _ & evs' & Hp & _)]];
    [done|done|].
  assert (Hp' : (Promise_all (map (fun checker => Checker.check checker (browse w url) config)
                                  (enabledCheckers config))).1 = Err reason)
    by (by rewrite Hp).
  apply Promise_all_rejected in Hp' as (t & Ht & Hout).
  apply list_elem_of_fmap in Ht as (checker & -> & Hc).
  apply enabledCheckers_elem in Hc as [Hreg _].
  by rewrite (check_rejection _ _ _ _ Hreg Hout).
Qed.

Lemma close_no_generate w mgr format : EvGenerate format ∉ (close w mgr).2.
Proof.
  rewrite close_run.
  destruct mgr as [[b|] [c|]]; cbn;
    repeat (match goal with |- context [if ?b then _ else _] => destruct b end);
    cbn; rewrite ?elem_of_cons, elem_of_nil; intuition discriminate.
Qed.

Lemma close_no_goto w mgr url : EvGoto url ∉ (close w mgr).2.
Proof.
  rewrite close_run.
  destruct mgr as [[b|] [c|]]; cbn;
    repeat (match goal with |- context [if ?b then _ else _] => destruct b end);
    cbn; rewrite ?elem_of_cons, elem_of_nil; intuition discriminate.
Qed.

(** What [checkChunks] does when it throws: either the loop over the chunks
    threw and no reporter was started, or every chunk was checked and a
    reporter failed. *)
Lemma checkChunks_Err_inv w config chunks mgr reason mgr' evs :
  checkChunks w config chunks mgr = (Err reason, mgr', evs) ->
  forChunks w config chunks [] mgr = (Err reason, mgr', evs) \/
  exists format, reason = ReporterError format.
Proof.
  unfold checkChunks, bind.
  pose proof (forChunks_manager w config chunks [] mgr) as Hm.
  destruct (forChunks w config chunks [] mgr) as [[[reports|reason'] mgr1] evs1];
    cbn [fst snd] in Hm; subst mgr1; [|intros [= -> -> ->]; by left].
  rewrite generateReports_run.
  match goal with
  | |- context [Promise_all ?tasks] =>
      destruct (Promise_all tasks) as [[vs|reason'] evs2] eqn:Hp
  end; cbn [fst snd]; [done|].
  intros [= -> <- <-]. right.
  apply (f_equal fst) in Hp. cbn [fst] in Hp.
  apply generate_rejected in Hp as (format & _ & _ & ->). by exists format.
Qed.

Lemma ensureLaunched_Err w config mgr reason mgr1 evs1 :
  ensureLaunched w config mgr = (Err reason, mgr1, evs1) -> reason = LaunchError.
Proof.
  rewrite ensureLaunched_run. destruct (isLaunched mgr); [done|].
  rewrite launch_run.
  destruct (chromiumLaunchFails w); [congruence|].
  destruct (newContextFails w); congruence.
Qed.

(** Whatever the chunk size, the chunks [chunkArray] returns are the array
    cut into pieces. *)
Lemma chunkArray_concat {T} fuel (array : list T) chunkSize chunks :
  chunkArray fuel array chunkSize = Some chunks -> concat chunks = array.
Proof.
  intros H. destruct (decide (1 <= chunkSize)) as [Hsize|Hsize].
  - destruct (chunkArray_terminates array chunkSize Hsize) as (chunks0 & Hrun & Hcat & _).
    specialize (Hrun (S (length array)) ltac:(lia)).
    unfold chunkArray in *.
    by rewrite (forLoop_deterministic _ _ _ _ _ _ _ Hrun H).
  - destruct array as [|x array].
    + destruct fuel as [|fuel]; [done|]. cbn in H. by injection H as <-.
    + unfold chunkArray in H.
      rewrite forLoop_diverges in H; [done|lia|done|cbn; lia].
Qed.

Lemma elem_of_concat {X} (x : X) (ls : list (list X)) :
  x ∈ concat ls <-> exists l, x ∈ l /\ l ∈ ls.
Proof.
  induction ls as [|l0 ls IH]; cbn [concat].
  - split; [by intros ?%elem_of_nil|]. by intros (l & _ & ?%elem_of_nil).
  - rewrite elem_of_app, IH. split.
    + intros [H | (l & Hx & Hl)]; [exists l0; split; [done|by left]|].
      exists l. split; [done|by right].
    + intros (l & Hx & [-> | Hl]%elem_of_cons); [by left|right; eauto].
Qed.

(** X6. When [checkUrls] ends with the error of a page check, it has
    started no reporter, so no report of the run is written, not even for
    the pages that were checked.  The URLs are cut into the chunks checked
    in full, every URL of which has a page report, the chunk in which a URL
    failed with that error, and the chunks after it, and no URL outside the
    first two was navigated to. *)
Theorem X6_checkUrls_failed_page_aborts :
  forall fuel w config urls mgr reason mgr' evs,
    checkUrls fuel w config urls mgr = Some (Err reason, mgr', evs) ->
    fromPageCheck reason ->
    generations evs = [] /\
    exists checked chunk rest,
      chunkArray fuel urls (Config.concurrent config) = Some (checked ++ chunk :: rest) /\
      urls = concat checked ++ chunk ++ concat rest /\
      Forall (fun url => exists page,
                outcome (checkInNewPage w config url (ensureLaunched w config mgr).1.2)
                = Ok page)
             (concat checked) /\
      (exists url,
         url ∈ chunk /\
         outcome (checkInNewPage w config url (ensureLaunched w config mgr).1.2)
         = Err reason) /\
      (forall url, url ∈ navigations evs -> url ∈ concat checked ++ chunk).
Proof.
  intros fuel w config urls mgr reason mgr' evs H Hreason.
  apply checkUrls_inv in H
    as [(reason' & Hl & [= <-]) |
        (mgr1 & evs1 & chunks & body & evs2 & torn & evs3 &
         Hl & Hlaunched & Hchunks & Hbody & Hclose & Hr & ->)].
  { apply ensureLaunched_Err in Hl as ->. done. }
  destruct torn as [[]|reason'].
  2:{ injection Hr as <-. apply close_Err in Hclose as ->. done. }
  subst body.
  apply checkChunks_Err_inv in Hbody as [Hloop | [format ->]]; [|done].
  apply forChunks_Err_inv in Hloop
    as (checked & chunk & rest & -> & Hchecked & Hfailed & ->).
  rewrite Hl. cbn [fst snd].
  assert (Hevs : forall ev,
            ev ∈ evs1 ++ ((checked ++ [chunk]) ≫=
                            (fun chunk' => (checkChunk w config chunk' mgr1).2)) ++ evs3 ->
            (forall format, ev <> EvGenerate format) /\
            (forall url, ev = EvGoto url -> url ∈ concat checked ++ chunk)).
  { intros ev [Hev | [Hev | Hev]%elem_of_app]%elem_of_app.
    - pose proof (ensureLaunched_events w config mgr ev) as Hk.
      rewrite Hl in Hk. destruct (Hk Hev) as [-> | ->]; split; intros; done.
    - apply list_elem_of_bind in Hev as (chunk' & Hev & Hin).
      apply checkChunk_event_kinds in Hev as (Hgen & _ & Hnav). split; [done|].
      intros url Hurl%Hnav.
      apply elem_of_app in Hin as [Hin | ->%list_elem_of_singleton];
        apply elem_of_app; [left|by right].
      apply elem_of_concat. eauto.
    - split.
      + intros format ->. eapply close_no_generate. by rewrite Hclose.
      + intros url ->. edestruct close_no_goto. by rewrite Hclose. }
  split; [|exists checked, chunk, rest; split_and!].
  - apply generations_none. intros format Hin. apply Hevs in Hin as [Hgen _]. by eapply Hgen.
  - done.
  - apply chunkArray_concat in Hchunks. by rewrite concat_app in Hchunks; cbn in Hchunks.
  - apply Forall_forall. intros url (chunk' & Hurl & Hin)%elem_of_concat.
    rewrite Forall_forall in Hchecked.
    destruct (Hchecked _ Hin) as [chunkResults Hok].
    apply checkChunk_Ok in Hok.
    apply list_elem_of_lookup in Hurl as [i Hi].
    destruct (Forall2_lookup_l _ _ _ _ _ Hok Hi) as (page & _ & Hpage). eauto.
  - rewrite checkChunk_run in Hfailed. cbn in Hfailed.
    apply Promise_all_rejected in Hfailed as (t & Ht & Hout).
    apply list_elem_of_fmap in Ht as (url & -> & Hin). eauto.
  - intros url Hin%navigations_elem. apply Hevs in Hin as [_ Hnav]. by apply Hnav.
Qed.

Lemma X6_witness :
  match checkUrls 6 sampleWorld twoAtATime brokenSecond unlaunched with
  | Some (r, _, evs) =>
      r = Err (CheckerError CheckType.ALT_TEXT) /\
      generations evs = [] /\ "https://ccc.example" ∉ navigations evs
  | None => False
  end.
Proof.
  destruct (checkUrls 6 sampleWorld twoAtATime brokenSecond unlaunched)
    as [[[r mgr'] evs]|] eqn:H.
  - assert (Hr : r = Err (CheckerError CheckType.ALT_TEXT)).
    { vm_compute in H. by injection H as <- _ _. }
    subst r. split; [done|].
    destruct (X6_checkUrls_failed_page_aborts _ _ _ _ _ _ _ _ H I)
      as (Hgen & checked & chunk & rest & Hchunks & _ & Hall & _ & Hnav).
    split; [done|]. intros Hin%Hnav.
    assert (Hcut : checked ++ chunk :: rest =
                   [["https://a.example"; "https://broken.example"];
                    ["https://ccc.example"]]).
    { assert (Hc : chunkArray 6 brokenSecond (Config.concurrent twoAtATime) =
                   Some [["https://a.example"; "https://broken.example"];
                         ["https://ccc.example"]]) by (by vm_compute).
      congruence. }
    clear Hchunks H Hgen Hnav.
    destruct checked as [|c1 checked]; cbn in Hcut; simplify_eq.
    + revert Hin. cbn. rewrite !elem_of_cons, elem_of_nil. intuition discriminate.
    + cbn [concat] in Hall. apply Forall_app in Hall as [Hall _].
      apply Forall_cons in Hall as [_ Hall]. apply Forall_cons in Hall as [[page Hp] _].
      vm_compute in Hp. discriminate.
  - vm_compute in H. discriminate.
Defined.

(** ** When a check succeeds *)

Lemma Forall_exists_Forall2 {X Y} (P : X -> Y -> Prop) (l : list X) :
  Forall (fun x => exists y, P x y) l -> exists k, Forall2 P l k.
Proof.
  induction 1 as [|x l [y Hy] _ [k Hk]]; [by exists []|].
  exists (y :: k). by constructor.
Qed.

Lemma Forall2_exists_Forall {X Y} (P : X -> Y -> Prop) (l : list X) (k : list Y) :
  Forall2 P l k -> Forall (fun x => exists y, P x y) l.
Proof. induction 1; constructor; eauto. Qed.

(** How the call of a registered checker settles is decided by its DOM
    scan alone. *)
Lemma check_outcome checker page config :
  checker ∈ ALL_CHECKERS ->
  match Dom.evaluate page (Checker.type checker)
                     (scanArgument config (Checker.type checker)) with
  | Some raws =>
      exists result,
        outcome (Checker.check checker page config) = Ok result /\
        length (CheckerResult.issues result) = length raws
  | None =>
      outcome (Checker.check checker page config) = Err (CheckerError (Checker.type checker))
  end.
Proof.
  unfold ALL_CHECKERS. rewrite !elem_of_cons, elem_of_nil.
  intros [-> | [-> | [-> | [-> | [-> | []]]]]]; cbn;
    match goal with |- context [Dom.evaluate ?p ?t ?a] => destruct (Dom.evaluate p t a) end;
    try done; eexists; (split; [done|]); cbn; by rewrite length_imap.
Qed.

Lemma check_fulfilled checker page config :
  checker ∈ ALL_CHECKERS ->
  (exists result, outcome (Checker.check checker page config) = Ok result) <->
  is_Some (Dom.evaluate page (Checker.type checker)
                        (scanArgument config (Checker.type checker))).
Proof.
  intros Hreg. pose proof (check_outcome checker page config Hreg) as H.
  destruct (Dom.evaluate _ _ _) as [raws|].
  - destruct H as (result & Hr & _). split; eauto.
  - rewrite H. split; [by intros [? ?]|by intros [? ?]].
Qed.

Lemma checkers_fulfilled page config :
  (exists results,
     (Promise_all (map (fun checker => Checker.check checker page config)
                       (enabledCheckers config))).1 = Ok results) <->
  forall type, type ∈ Checker.type <$> enabledCheckers config ->
    is_Some (Dom.evaluate page type (scanArgument config type)).
Proof.
  split.
  - intros [results Hp%Promise_all_Ok_inv] type (checker & -> & Hin)%list_elem_of_fmap.
    apply check_fulfilled; [by apply enabledCheckers_elem in Hin as [? _]|].
    apply Forall2_fmap_l, Forall2_exists_Forall in Hp.
    rewrite Forall_forall in Hp. by apply Hp.
  - intros Hall.
    destruct (Forall_exists_Forall2
                (fun checker result => outcome (Checker.check checker page config) = Ok result)
                (enabledCheckers config)) as [results Hres].
    { apply Forall_forall. intros checker Hin.
      apply check_fulfilled; [by apply enabledCheckers_elem in Hin as [? _]|].
      apply Hall, list_elem_of_fmap. eauto. }
    exists results. rewrite (Promise_all_fulfilled _ results); [done|].
    by apply Forall2_fmap_l.
Qed.

Lemma checkPage_succeeds w config p url mgr :
  (exists r, (checkPage w config p url mgr).1.1 = Ok r) <-> checkable w config url.
Proof.
  unfold checkable. rewrite checkPage_run.
  pose proof (checkers_fulfilled (browse w url) config) as Hiff.
  destruct (Dom.gotoError (browse w url)) as [cause|].
  { split; [by intros [? ?] | by intros [? _]]. }
  destruct (stabilizes (browse w url)).
  2:{ split; [by intros [? ?] | by intros (_ & ? & _)]. }
  destruct (Promise_all _) as [[results|reason] evs] eqn:Hp; cbn [fst snd] in *.
  - split; [|by eauto]. intros _. split_and!; [done|done|].
    apply Hiff. eauto.
  - split; [by intros [? ?]|]. intros (_ & _ & Hall).
    apply Hiff in Hall as [? ?]. done.
Qed.

Lemma stabilizes_true page :
  stabilizes page = true <->
  Dom.axeLoads page = true /\ Dom.networkIdle page = true /\
  Dom.timeoutElapses page = true.
Proof. unfold stabilizes. rewrite !andb_true_iff. tauto. Qed.

(** X7. A page check throws the navigation error, which names the URL and
    the cause, when [page.goto] rejects, and then it has neither waited for
    axe nor run a scan.  When the page loads, it waits for [window.axe],
    then for the network to be idle, then for the timeout, and throws at
    the first of these three waits that fails, before the waits after it
    and before any scan is run.  It returns a report exactly when the page
    loads, the three waits are fulfilled and the DOM scan of every enabled
    checker returns; and a checker error it throws is that of an enabled
    checker whose scan rejected. *)
Theorem X7_checkPage_outcomes :
  forall w config p url mgr,
    (forall cause, Dom.gotoError (browse w url) = Some cause ->
       checkPage w config p url mgr = (Err (NavigationError url cause), mgr, [EvGoto url])) /\
    (Dom.gotoError (browse w url) = None -> Dom.axeLoads (browse w url) = false ->
       checkPage w config p url mgr =
         (Err StabilizationError, mgr, [EvGoto url; EvWaitAxe])) /\
    (Dom.gotoError (browse w url) = None -> Dom.axeLoads (browse w url) = true ->
     Dom.networkIdle (browse w url) = false ->
       checkPage w config p url mgr =
         (Err StabilizationError, mgr, [EvGoto url; EvWaitAxe; EvWaitLoadState])) /\
    (Dom.gotoError (browse w url) = None -> Dom.axeLoads (browse w url) = true ->
     Dom.networkIdle (browse w url) = true -> Dom.timeoutElapses (browse w url) = false ->
       checkPage w config p url mgr =
         (Err StabilizationError, mgr,
          [EvGoto url; EvWaitAxe; EvWaitLoadState; EvWaitTimeout])) /\
    ((exists r, (checkPage w config p url mgr).1.1 = Ok r) <->
     Dom.gotoError (browse w url) = None /\ Dom.axeLoads (browse w url) = true /\
     Dom.networkIdle (browse w url) = true /\ Dom.timeoutElapses (browse w url) = true /\
     forall type, type ∈ Checker.type <$> enabledCheckers config ->
       is_Some (Dom.evaluate (browse w url) type (scanArgument config type))) /\
    (forall r, (checkPage w config p url mgr).1.1 = Ok r ->
       exists evs,
         (checkPage w config p url mgr).2
         = [EvGoto url; EvWaitAxe; EvWaitLoadState; EvWaitTimeout] ++ evs /\
         forall ev, ev ∈ evs -> exists type, ev = EvEvaluate type \/ ev = EvEvaluated type) /\
    (forall type, (checkPage w config p url mgr).1.1 = Err (CheckerError type) ->
       type ∈ Checker.type <$> enabledCheckers config /\
       Dom.evaluate (browse w url) type (scanArgument config type) = None).
Proof.
  intros w config p url mgr.
  split_and!.
  - rewrite checkPage_run. by intros cause ->.
  - rewrite checkPage_run. unfold stabilizes, waitEvents. by intros -> ->.
  - rewrite checkPage_run. unfold stabilizes, waitEvents. by intros -> -> ->.
  - rewrite checkPage_run. unfold stabilizes, waitEvents. by intros -> -> -> ->.
  - rewrite checkPage_succeeds. unfold checkable. rewrite stabilizes_true. tauto.
  - intros r Hr.
    assert (Hc : checkable w config url) by (apply (checkPage_succeeds w config p url mgr); eauto).
    destruct Hc as (Hgoto & Hstab & _).
    rewrite checkPage_events, Hgoto, Hstab.
    apply stabilizes_true in Hstab as (Haxe & Hidle & Htime).
    unfold waitEvents. rewrite Haxe, Hidle. eexists. split; [done|].
    intros ev (t & Ht & Hev)%Promise_all_events.
    apply list_elem_of_fmap in Ht as (checker & -> & Hc).
    apply enabledCheckers_elem in Hc as [Hreg _].
    destruct (check_calls checker (browse w url) config Hreg) as [Hs Hd].
    rewrite Hs, Hd in Hev. exists (Checker.type checker).
    destruct Hev as [->%list_elem_of_singleton | ->%list_elem_of_singleton]; auto.
  - rewrite checkPage_run.
    destruct (Dom.gotoError (browse w url)) as [cause|]; [done|].
    destruct (stabilizes (browse w url)); [|done].
    destruct (Promise_all _) as [[results|reason] evs] eqn:Hp; cbn [fst snd] in *; [done|].
    intros type [= ->].
    apply (f_equal fst) in Hp. cbn in Hp.
    apply Promise_all_rejected in Hp as (t & Ht & Hout).
    apply list_elem_of_fmap in Ht as (checker & -> & Hin).
    assert (Hreg : checker ∈ ALL_CHECKERS) by (by apply enabledCheckers_elem in Hin as [? _]).
    pose proof (check_outcome checker (browse w url) config Hreg) as Ho.
    pose proof (check_rejection _ _ _ _ Hreg Hout) as [= ->].
    split; [apply list_elem_of_fmap; eauto|].
    destruct (Dom.evaluate _ _ _); [|done].
    destruct Ho as (result & Hr & _). congruence.
Qed.

Lemma X7_witness :
  checkPage withoutAxe DEFAULT_CONFIG PageHandle "https://a.example" unlaunched =
    (Err StabilizationError, unlaunched, [EvGoto "https://a.example"; EvWaitAxe]) /\
  checkPage (serving neverIdlePage) DEFAULT_CONFIG PageHandle "https://a.example" unlaunched =
    (Err StabilizationError, unlaunched,
     [EvGoto "https://a.example"; EvWaitAxe; EvWaitLoadState]).
Proof.
  split.
  - by apply (X7_checkPage_outcomes withoutAxe DEFAULT_CONFIG PageHandle
                "https://a.example" unlaunched).
  - by apply (X7_checkPage_outcomes (serving neverIdlePage) DEFAULT_CONFIG PageHandle
                "https://a.example" unlaunched).
Defined.

(** ** When a run succeeds *)

Lemma Forall_concat_chunks {X} (P : X -> Prop) (chunks : list (list X)) :
  Forall P (concat chunks) <-> Forall (Forall P) chunks.
Proof.
  rewrite !Forall_forall. setoid_rewrite Forall_forall.
  setoid_rewrite elem_of_concat. split; [eauto|].
  intros H x (l & Hx & Hl). eauto.
Qed.

Lemma checkChunk_fulfilled w config chunk mgr reports :
  Forall2 (fun url page => outcome (checkInNewPage w config url mgr) = Ok page)
          chunk reports ->
  (checkChunk w config chunk mgr).1.1 = Ok reports.
Proof.
  intros H. rewrite checkChunk_run. cbn [fst].
  rewrite (Promise_all_fulfilled _ reports); [done|]. by apply Forall2_fmap_l.
Qed.

Lemma forChunks_fulfilled w config chunks results pageReports mgr :
  Forall2 (fun chunk chunkResults =>
             (checkChunk w config chunk mgr).1.1 = Ok chunkResults) chunks results ->
  (forChunks w config chunks pageReports mgr).1.1 = Ok (pageReports ++ concat results).
Proof.
  intros H. revert pageReports.
  induction H as [|chunk chunkResults chunks results Hc _ IH]; intros pageReports.
  { cbn. by rewrite app_nil_r. }
  cbn [forChunks concat]. unfold bind.
  pose proof (checkChunk_run w config chunk mgr) as Hrun.
  destruct (checkChunk w config chunk mgr) as [[r mgr1] evs1].
  cbn [fst] in Hc. subst r. injection Hrun as _ -> _.
  specialize (IH (pageReports ++ chunkResults)).
  destruct (forChunks w config chunks (pageReports ++ chunkResults) mgr)
    as [[r2 mgr2] evs2].
  cbn [fst] in *. by rewrite IH, app_assoc.
Qed.

Lemma checkChunks_fulfilled w config chunks pageReports mgr :
  (forChunks w config chunks [] mgr).1.1 = Ok pageReports ->
  (forall format, format ∈ Config.format (Config.output config) ->
                  reporterFails w format = false) ->
  exists report,
    (checkChunks w config chunks mgr).1.1 = Ok report /\
    Report.pages report = asReported config <$> pageReports.
Proof.
  intros Hloop Hrep. unfold checkChunks, bind.
  pose proof (forChunks_manager w config chunks [] mgr) as Hm.
  destruct (forChunks w config chunks [] mgr) as [[r mgr1] evs1].
  cbn [fst snd] in *. subst r mgr1.
  rewrite generateReports_run.
  match goal with
  | |- context [Promise_all (map (fun format => generate w format ?r mgr) ?fs)] =>
      destruct (proj2 (generate_fulfilled w r mgr fs)) as [vs Hvs];
      [intros format Hin; by apply Hrep, configuredFormats_elem|];
      destruct (Promise_all (map (fun format => generate w format r mgr) fs))
        as [res evs2]
  end.
  cbn [fst snd] in *. subst res. cbn. eexists. split; [done|].
  by rewrite reportedAs_pages.
Qed.

Lemma checkChunks_Ok_reporters w config chunks mgr report :
  (checkChunks w config chunks mgr).1.1 = Ok report ->
  forall format, format ∈ Config.format (Config.output config) ->
                 reporterFails w format = false.
Proof.
  unfold checkChunks, bind.
  destruct (forChunks w config chunks [] mgr) as [[[pageReports|reason] mgr1] evs1];
    [|done].
  rewrite generateReports_run.
  match goal with
  | |- context [Promise_all (map (fun format => generate w format ?r mgr1) ?fs)] =>
      pose proof (proj1 (generate_fulfilled w r mgr1 fs)) as Hf;
      destruct (Promise_all (map (fun format => generate w format r mgr1) fs))
        as [[vs|reason] evs2]
  end; cbn [fst snd] in *; [|done].
  intros _ format Hin. apply Hf; [eauto|]. by apply configuredFormats_elem.
Qed.

Lemma ensureLaunched_succeeds w config mgr :
  (ensureLaunched w config mgr).1.1 = Ok () <->
  isLaunched mgr = true \/ (chromiumLaunchFails w = false /\ newContextFails w = false).
Proof.
  rewrite ensureLaunched_run. destruct (isLaunched mgr); [by split; auto|].
  rewrite launch_run.
  destruct (chromiumLaunchFails w), (newContextFails w); cbn;
    split; try done; intuition discriminate.
Qed.

Lemma close_succeeds w mgr :
  isLaunched mgr = true ->
  (close w mgr).1.1 = Ok () <->
  contextCloseFails w = false /\ browserCloseFails w = false.
Proof.
  intros Hl. rewrite close_run.
  unfold isLaunched in Hl. apply andb_true_iff in Hl as [Hb Hc].
  apply bool_decide_eq_true in Hb, Hc.
  destruct (BrowserManager.browser mgr); [|done].
  destruct (BrowserManager.context mgr); [|done].
  destruct (contextCloseFails w), (browserCloseFails w); cbn;
    split; try done; intuition discriminate.
Qed.

Lemma checkInNewPage_succeeds w config url mgr :
  isLaunched mgr = true ->
  (exists page, outcome (checkInNewPage w config url mgr) = Ok page) <->
  opensAndCloses w url /\ checkable w config url.
Proof.
  intros Hc%isLaunched_context.
  rewrite <- (checkPage_succeeds w config PageHandle url mgr).
  setoid_rewrite checkInNewPage_Ok. unfold opensAndCloses.
  split; [intros (page & _ & ? & ? & ? & ?)|intros ((? & ? & ?) & page & ?)]; eauto 10.
Qed.

(** X8. With a concurrency limit of at least one, [checkUrls] returns a
    report exactly when none of the calls it awaits fails: the session is
    already launched or the browser and its context start; for every URL a
    page opens in the context and takes the init script, the page loads,
    axe appears on it, its network gets idle and the timeout after that
    elapses, the scan of every enabled checker returns, and the page
    closes; no configured reporter fails; and the context and the browser
    close.  Making the directory of the reports plays no part, as its
    failure is dropped, and neither do the instants at which pages, scans
    and reporters settle. *)
Theorem X8_checkUrls_succeeds_iff :
  forall fuel w config urls mgr,
    1 <= Config.concurrent config -> (length urls < fuel)%nat ->
    (exists r mgr' evs, checkUrls fuel w config urls mgr = Some (Ok r, mgr', evs)) <->
    (isLaunched mgr = true \/
     (chromiumLaunchFails w = false /\ newContextFails w = false)) /\
    Forall (fun url =>
              (Dom.newPageFails (browse w url) = false /\
               Dom.addInitScriptFails (browse w url) = false /\
               Dom.closeFails (browse w url) = false) /\
              Dom.gotoError (browse w url) = None /\
              (Dom.axeLoads (browse w url) = true /\
               Dom.networkIdle (browse w url) = true /\
               Dom.timeoutElapses (browse w url) = true) /\
              forall type, type ∈ Checker.type <$> enabledCheckers config ->
                is_Some (Dom.evaluate (browse w url) type (scanArgument config type)))
           urls /\
    (forall format, format ∈ Config.format (Config.output config) ->
                    reporterFails w format = false) /\
    contextCloseFails w = false /\ browserCloseFails w = false.
Proof.
  assert (Hpage : forall w config url,
            opensAndCloses w url /\ checkable w config url <->
            (Dom.newPageFails (browse w url) = false /\
             Dom.addInitScriptFails (browse w url) = false /\
             Dom.closeFails (browse w url) = false) /\
            Dom.gotoError (browse w url) = None /\
            (Dom.axeLoads (browse w url) = true /\
             Dom.networkIdle (browse w url) = true /\
             Dom.timeoutElapses (browse w url) = true) /\
            forall type, type ∈ Checker.type <$> enabledCheckers config ->
              is_Some (Dom.evaluate (browse w url) type (scanArgument config type))).
  { intros. unfold opensAndCloses, checkable. by rewrite stabilizes_true. }
  intros fuel w config urls mgr Hsize Hfuel. split.
  - intros (r & mgr' & evs & H).
    apply checkUrls_inv in H
      as [(reason' & Hl & [=]) |
          (mgr1 & evs1 & chunks & body & evs2 & torn & evs3 &
           Hl & Hlaunched & Hchunks & Hbody & Hclose & Hr & ->)].
    destruct torn as [[]|reason']; [|done]. subst body.
    split_and!.
    + apply (ensureLaunched_succeeds w config). by rewrite Hl.
    + apply chunkArray_concat in Hchunks as <-.
      apply checkChunks_Ok_inv in Hbody as (results & Hall & _ & _).
      apply Forall_concat_chunks, Forall_forall. intros chunk Hin.
      apply list_elem_of_lookup in Hin as [i Hi].
      destruct (Forall2_lookup_l _ _ _ _ _ Hall Hi) as (chunkResults & _ & Hok).
      apply checkChunk_Ok, Forall2_exists_Forall in Hok.
      eapply Forall_impl; [exact Hok|]. intros url Hurl.
      by apply Hpage, (checkInNewPage_succeeds w config url mgr1).
    + apply (checkChunks_Ok_reporters w config chunks mgr1 r). by rewrite Hbody.
    + apply (close_succeeds w mgr1 Hlaunched). by rewrite Hclose.
    + apply (close_succeeds w mgr1 Hlaunched). by rewrite Hclose.
  - intros (Hlaunch & Hpages & Hrep & Hcc & Hbc).
    apply (ensureLaunched_succeeds w config mgr) in Hlaunch.
    unfold checkUrls.
    destruct (ensureLaunched w config mgr) as [[[[]|reason] mgr1] evs1] eqn:Hl;
      [|done].
    pose proof (ensureLaunched_Ok _ _ _ _ _ _ Hl) as Hlaunched.
    destruct (chunkArray_terminates urls (Config.concurrent config) Hsize)
      as (chunks & Hrun & Hcat & _).
    rewrite (Hrun fuel Hfuel). subst urls.
    assert (Hchunks : exists results,
              Forall2 (fun chunk chunkResults =>
                         (checkChunk w config chunk mgr1).1.1 = Ok chunkResults)
                      chunks results).
    { apply Forall_exists_Forall2, Forall_forall. intros chunk Hin.
      apply Forall_concat_chunks in Hpages. rewrite Forall_forall in Hpages.
      specialize (Hpages chunk Hin).
      destruct (Forall_exists_Forall2
                  (fun url page => outcome (checkInNewPage w config url mgr1) = Ok page)
                  chunk) as [reports Hreports].
      { eapply Forall_impl; [exact Hpages|]. intros url Hurl.
        by apply checkInNewPage_succeeds, Hpage. }
      exists reports. by apply checkChunk_fulfilled. }
    destruct Hchunks as [results Hresults].
    destruct (checkChunks_fulfilled w config chunks (concat results) mgr1)
      as (report & Hreport & _); [|done|].
    { by rewrite (forChunks_fulfilled _ _ _ results). }
    unfold try_finally.
    pose proof (checkChunks_manager w config chunks mgr1) as Hm.
    destruct (checkChunks w config chunks mgr1) as [[body mgr2] evs2].
    cbn [fst snd] in Hreport, Hm. subst body mgr2.
    pose proof (proj2 (close_succeeds w mgr1 Hlaunched) (conj Hcc Hbc)) as Hclose.
    destruct (close w mgr1) as [[torn mgr3] evs3].
    cbn [fst] in Hclose. subst torn. eauto.
Qed.

Lemma X8_witness :
  exists r mgr' evs,
    checkUrls 6 sampleWorld twoAtATime ["https://a.example"; "https://bb.example";
                                        "https://ccc.example"] unlaunched
    = Some (Ok r, mgr', evs).
Proof.
  apply X8_checkUrls_succeeds_iff; [done | cbn; lia |].
  split_and!; try done; [by right|].
  repeat (constructor; [split_and!; try done; intros type _;
                        cbn; by destruct type|]).
  constructor.
Defined.

(** ** The summary of a run *)

(** [Math.round] of a quotient of integers, in integer arithmetic. *)
Lemma Math_round_quotient (a n : Z) :
  0 < n -> Math_round (inject_Z a / inject_Z n)%Q = (2 * a + n) / (2 * n).
Proof.
  intros Hn. destruct n as [|p|p]; try lia.
  unfold Math_round, Qfloor, Qplus, Qdiv, Qmult, Qinv, inject_Z. cbn.
  f_equal; lia.
Qed.

Lemma Math_round_mean_bounds (total n lo hi : Z) :
  0 < n -> n * lo <= total <= n * hi ->
  lo <= Math_round (inject_Z total / inject_Z n)%Q <= hi.
Proof.
  intros Hn [Hlo Hhi]. rewrite Math_round_quotient by done. split.
  - apply Z.div_le_lower_bound; lia.
  - assert ((2 * total + n) / (2 * n) < hi + 1); [|lia].
    apply Z.div_lt_upper_bound; nia.
Qed.

Lemma foldl_asReported config (pages : list PageHealthReport) (issues : nat) (score : Z) :
  foldl (fun sum page => (sum + PageReport.totalIssues page)%nat) issues
        (asReported config <$> pages)
  = foldl (fun sum page => (sum + PageReport.totalIssues page)%nat) issues pages /\
  foldl (fun sum page => sum + PageReport.score page) score (asReported config <$> pages)
  = foldl (fun sum page => sum + PageReport.score page) score pages.
Proof.
  revert issues score. induction pages as [|page pages IH]; intros issues score; [done|].
  cbn [fmap list_fmap foldl].
  destruct (asReported_fields config page) as (_ & _ & _ & -> & _ & _ & _ & -> & _).
  apply IH.
Qed.

Lemma checkChunks_Ok_summary w config chunks mgr report mgr' evs :
  checkChunks w config chunks mgr = (Ok report, mgr', evs) ->
  Report.configuration report = config /\
  Report.summary report =
    {| Summary.totalPages := length (Report.pages report);
       Summary.totalIssues :=
         foldl (fun sum page => (sum + PageReport.totalIssues page)%nat) 0%nat
               (Report.pages report);
       Summary.overallScore :=
         if bool_decide (0 < length (Report.pages report))%nat
         then Math_round
                (inject_Z (foldl (fun sum page => (sum + PageReport.score page)%Z) 0%Z
                                 (Report.pages report)) /
                 inject_Z (Z.of_nat (length (Report.pages report))))%Q
         else 100;
       Summary.timestamp := runTimestamp w;
       Summary.duration := runDuration w |}.
Proof.
  unfold checkChunks, bind.
  destruct (forChunks w config chunks [] mgr)
    as [[[pageReports|reason] mgr1] evs1]; [|discriminate].
  match goal with |- context [generateReports w config ?r mgr1] =>
    pose proof (generateReports_Ok w config r mgr1) as Hok;
    destruct (generateReports w config r mgr1) as [[[u|reason] mgr2] evs2]
  end; [|discriminate].
  unfold ret. intros [= <- <- <-]. rewrite (Hok u eq_refl). clear Hok.
  match goal with |- context [reportedAs config ?r] =>
    destruct (reportedAs_summary config r) as [-> ->];
    rewrite (reportedAs_pages config r)
  end.
  cbn [Report.summary Report.pages Report.configuration]. split; [done|].
  destruct (foldl_asReported config pageReports 0%nat 0) as [-> ->].
  by rewrite length_fmap.
Qed.

(** The pages of a report are the reports of the page checks of the URLs,
    in the order of the URLs. *)
Lemma checkUrls_Ok_pages fuel w config urls mgr r mgr' evs :
  checkUrls fuel w config urls mgr = Some (Ok r, mgr', evs) ->
  Forall2 (fun url page =>
             exists checked mgr1 mgr2 evs',
               checkPage w config PageHandle url mgr1 = (Ok checked, mgr2, evs') /\
               page = asReported config checked)
          urls (Report.pages r).
Proof.
  intros H.
  apply checkUrls_inv in H
    as [(reason' & Hl & [=]) |
        (mgr1 & evs1 & chunks & body & evs2 & torn & evs3 &
         Hl & Hlaunched & Hchunks & Hbody & Hclose & Hr & ->)].
  destruct torn as [[]|reason']; [|done]. subst body.
  apply chunkArray_concat in Hchunks as <-.
  apply checkChunks_Ok_inv in Hbody as (results & Hall & -> & _).
  apply Forall2_fmap_r, Forall2_concat_chunks.
  eapply Forall2_impl; [exact Hall|]. intros chunk chunkResults Hok.
  apply checkChunk_Ok in Hok.
  eapply Forall2_impl; [exact Hok|]. intros url page Hpage. cbn beta in Hpage.
  apply checkInNewPage_Ok in Hpage as (_ & _ & _ & _ & Hpage).
  destruct (checkPage w config PageHandle url mgr1) as [[res mgr2] evs'] eqn:Hc.
  cbn in Hpage. subst res. eauto 10.
Qed.

Lemma checkUrls_Ok_summary fuel w config urls mgr r mgr' evs :
  checkUrls fuel w config urls mgr = Some (Ok r, mgr', evs) ->
  Report.configuration r = config /\
  Report.summary r =
    {| Summary.totalPages := length (Report.pages r);
       Summary.totalIssues :=
         foldl (fun sum page => (sum + PageReport.totalIssues page)%nat) 0%nat
               (Report.pages r);
       Summary.overallScore :=
         if bool_decide (0 < length (Report.pages r))%nat
         then Math_round
                (inject_Z (foldl (fun sum page => (sum + PageReport.score page)%Z) 0%Z
                                 (Report.pages r)) /
                 inject_Z (Z.of_nat (length (Report.pages r))))%Q
         else 100;
       Summary.timestamp := runTimestamp w;
       Summary.duration := runDuration w |}.
Proof.
  intros H.
  apply checkUrls_inv in H
    as [(reason' & Hl & [=]) |
        (mgr1 & evs1 & chunks & body & evs2 & torn & evs3 &
         Hl & Hlaunched & Hchunks & Hbody & Hclose & Hr & ->)].
  destruct torn as [[]|reason']; [|done]. subst body.
  exact (checkChunks_Ok_summary _ _ _ _ _ _ _ Hbody).
Qed.

Lemma foldl_totalIssues (pages : list PageHealthReport) (start : nat) :
  Forall (fun page => PageReport.totalIssues page = length (PageReport.issues page)) pages ->
  foldl (fun sum page => (sum + PageReport.totalIssues page)%nat) start pages
  = (start + length (pages ≫= PageReport.issues))%nat.
Proof.
  intros H. revert start.
  induction H as [|page pages Hp _ IH]; intros start; [cbn; lia|].
  cbn [foldl]. rewrite IH, bind_cons, length_app, Hp. lia.
Qed.

Lemma foldl_score_bounds (pages : list PageHealthReport) (start lo hi : Z) :
  Forall (fun page => lo <= PageReport.score page <= hi) pages ->
  start + Z.of_nat (length pages) * lo
  <= foldl (fun sum page => sum + PageReport.score page) start pages
  <= start + Z.of_nat (length pages) * hi.
Proof.
  intros H. revert start.
  induction H as [|page pages Hp _ IH]; intros start; [cbn; lia|].
  cbn [foldl length]. specialize (IH (start + PageReport.score page)). lia.
Qed.

Lemma calculateScore_bounds issues : 0 <= calculateScore issues <= 100.
Proof. rewrite calculateScore_spec. pose proof (penalty_nonneg issues). lia. Qed.

(** X9. In the report [checkUrls] returns, whatever the concurrency limit:
    there is one page per URL; the total of the summary is the number of
    issues on all pages; the overall score lies between the lowest and the
    highest page score, hence between 0 and 100, and is the score of the
    pages when they all have the same; for no URL at all it is 100; and the
    report carries the configuration of the run. *)
Theorem X9_summary_of_a_run :
  forall fuel w config urls mgr r mgr' evs,
    checkUrls fuel w config urls mgr = Some (Ok r, mgr', evs) ->
    length (Report.pages r) = length urls /\
    Summary.totalPages (Report.summary r) = length urls /\
    Summary.totalIssues (Report.summary r)
      = length (Report.pages r ≫= PageReport.issues) /\
    0 <= Summary.overallScore (Report.summary r) <= 100 /\
    (forall lo hi,
       urls <> [] ->
       Forall (fun page => lo <= PageReport.score page <= hi) (Report.pages r) ->
       lo <= Summary.overallScore (Report.summary r) <= hi) /\
    (urls = [] -> Summary.overallScore (Report.summary r) = 100) /\
    (Summary.totalIssues (Report.summary r) = 0%nat ->
     Summary.overallScore (Report.summary r) = 100) /\
    Report.configuration r = config.
Proof.
  intros fuel w config urls mgr r mgr' evs H.
  pose proof (checkUrls_Ok_pages _ _ _ _ _ _ _ _ H) as Hpages.
  assert (Hlen : length (Report.pages r) = length urls)
    by (symmetry; by eapply Forall2_length).
  destruct (checkUrls_Ok_summary _ _ _ _ _ _ _ _ H) as [Hconfig Hsum].
  assert (Hpage : Forall (fun page =>
                    PageReport.totalIssues page = length (PageReport.issues page) /\
                    PageReport.score page = calculateScore (PageReport.issues page))
                  (Report.pages r)).
  { apply Forall_forall. intros page Hin.
    apply list_elem_of_lookup in Hin as [i Hi].
    destruct (Forall2_lookup_r _ _ _ _ _ Hpages Hi)
      as (url & _ & checked & mgr1 & mgr2 & evs' & Hc & ->).
    by apply (asReported_Ok_inv _ config) in Hc as (_ & _ & Ht & _ & _ & _ & Hs). }
  assert (Hmean : forall lo hi,
            Report.pages r <> [] ->
            Forall (fun page => lo <= PageReport.score page <= hi) (Report.pages r) ->
            lo <= Summary.overallScore (Report.summary r) <= hi).
  { intros lo hi Hne Hall. rewrite Hsum. cbn [Summary.overallScore].
    destruct (Report.pages r) as [|page pages] eqn:Hp; [done|].
    rewrite bool_decide_true by (cbn; lia).
    apply Math_round_mean_bounds; [cbn; lia|].
    pose proof (foldl_score_bounds (page :: pages) 0 lo hi Hall). lia. }
  assert (Hscores : Forall (fun page => 0 <= PageReport.score page <= 100)
                           (Report.pages r)).
  { eapply Forall_impl; [exact Hpage|]. intros page [_ ->].
    apply calculateScore_bounds. }
  assert (Hnone : Report.pages r = [] ->
                  Summary.overallScore (Report.summary r) = 100).
  { intros Hp. rewrite Hsum, Hp. done. }
  assert (Htotal : Summary.totalIssues (Report.summary r)
                   = length (Report.pages r ≫= PageReport.issues)).
  { rewrite Hsum. cbn [Summary.totalIssues].
    rewrite foldl_totalIssues; [done|].
    eapply Forall_impl; [exact Hpage|]. by intros page [? _]. }
  refine (conj Hlen (conj _ (conj Htotal (conj _ (conj _ (conj _ (conj _ Hconfig))))))).
  - rewrite Hsum. cbn. done.
  - destruct (decide (Report.pages r = [])) as [Hp|Hp];
      [rewrite Hnone by done; lia | by apply Hmean].
  - intros lo hi Hne. apply Hmean. intros Hp. rewrite Hp in Hlen.
    destruct urls; done.
  - intros ->. apply Hnone. by destruct (Report.pages r).
  - rewrite Htotal. intros Hzero.
    destruct (decide (Report.pages r = [])) as [Hp|Hp]; [by apply Hnone|].
    assert (100 <= Summary.overallScore (Report.summary r) <= 100); [|lia].
    apply Hmean; [done|].
    apply Forall_forall. intros page' Hin.
    rewrite Forall_forall in Hpage. destruct (Hpage _ Hin) as [_ ->].
    assert (PageReport.issues page' = []) as ->; [|done].
    apply length_zero_iff_nil. apply nil_length_inv in Hzero.
    assert (Hsub : PageReport.issues page' ⊆ Report.pages r ≫= PageReport.issues).
    { intros issue Hissue. apply list_elem_of_bind. eauto. }
    rewrite Hzero in Hsub. destruct (PageReport.issues page') as [|issue ?]; [done|].
    destruct (not_elem_of_nil issue). apply Hsub. by left.
Qed.

Lemma X9_witness :
  match checkUrls 6 sampleWorld twoAtATime
                  ["https://a.example"; "https://bb.example"] unlaunched with
  | Some (Ok r, _, _) =>
      Summary.totalPages (Report.summary r) = 2%nat /\
      0 <= Summary.overallScore (Report.summary r) <= 100
  | _ => False
  end.
Proof.
  destruct (checkUrls 6 sampleWorld twoAtATime
                      ["https://a.example"; "https://bb.example"] unlaunched)
    as [[[[r|reason] mgr'] evs]|] eqn:H.
  - destruct (X9_summary_of_a_run _ _ _ _ _ _ _ _ H) as (_ & Hpages & _ & Hscore & _).
    by split.
  - apply (f_equal (fun run => match run with Some (Ok _, _, _) => true | _ => false end))
      in H.
    vm_compute in H. discriminate.
  - apply (f_equal (fun run => match run with Some (Ok _, _, _) => true | _ => false end))
      in H.
    vm_compute in H. discriminate.
Defined.

(** ** The issues of a checker *)

Lemma truthy_true s : truthy s = true <-> s <> EmptyString.
Proof.
  unfold truthy. rewrite negb_true_iff. apply String.eqb_neq.
Qed.

(** X10. A registered checker that returns has turned the findings of its
    DOM scan into issues one for one and in order: the n-th issue has the
    n-th identifier, the type of the checker, and the message, description
    and element of the n-th finding; its location is never filled in; its
    suggested fix is that of the finding unless that is missing or empty;
    it is an error exactly when the finding says so; and it is an info only
    from the heading checker, for a finding that is neither an error nor a
    warning, which the other checkers turn into a warning. *)
Theorem X10_issues_mirror_findings :
  forall checker page config result,
    checker ∈ ALL_CHECKERS ->
    outcome (Checker.check checker page config) = Ok result ->
    exists raws,
      Dom.evaluate page (Checker.type checker)
                   (scanArgument config (Checker.type checker)) = Some raws /\
      CheckerResult.type result = Checker.type checker /\
      length (CheckerResult.issues result) = length raws /\
      forall n raw, raws !! n = Some raw ->
        exists issue,
          CheckerResult.issues result !! n = Some issue /\
          Issue.id issue = Dom.issueId page (Checker.type checker) n /\
          Issue.type issue = Checker.type checker /\
          Issue.message issue = Raw.message raw /\
          Issue.description issue = Raw.description raw /\
          Issue.element issue = Raw.element raw /\
          Issue.location issue =
            {| Location.line := None; Location.column := None;
               Location.xpath := EmptyString |} /\
          Issue.suggestedFix issue =
            (if decide (Raw.suggestedFix raw = Some EmptyString) then None
             else Raw.suggestedFix raw) /\
          (Issue.severity issue = Severity.ERROR <-> Raw.severity raw = "error") /\
          (Issue.severity issue = Severity.INFO <->
           Checker.type checker = CheckType.HEADING_STRUCTURE /\
           Raw.severity raw <> "error" /\ Raw.severity raw <> "warning").
Proof.
  intros checker page config result.
  unfold ALL_CHECKERS. rewrite !elem_of_cons, elem_of_nil.
  intros [->|[->|[->|[->|[->|[]]]]]]; cbn;
    (destruct (Dom.evaluate page _ _) as [raws|]; [|discriminate]);
    intros [= <-]; exists raws; cbn;
    (split_and!; [done | done | by rewrite length_imap |]);
    intros n raw Hn; eexists; rewrite list_lookup_imap, Hn;
    (split; [done|]); cbn;
    (split_and!; try done;
     [ destruct (Raw.suggestedFix raw) as [[|c s]|]; cbn; by repeat case_decide
     | unfold errorOrWarning;
       destruct (String.eqb_spec (Raw.severity raw) "error");
       try destruct (String.eqb_spec (Raw.severity raw) "warning"); by split
     | unfold errorOrWarning;
       destruct (String.eqb_spec (Raw.severity raw) "error");
       try destruct (String.eqb_spec (Raw.severity raw) "warning");
       split; try done; try (by intros (? & ? & ?)); congruence ]).
Qed.

Lemma X10_witness :
  exists issue,
    CheckerResult.issues
      (match outcome (Checker.check HeadingStructureChecker oddFindingsPage DEFAULT_CONFIG)
       with Ok result => result
          | Err _ => {| CheckerResult.type := CheckType.HEADING_STRUCTURE;
                        CheckerResult.issues := []; CheckerResult.duration := 0 |}
       end) !! 0%nat = Some issue /\
    Issue.severity issue = Severity.INFO /\
    Issue.message issue = "Page has no headings".
Proof.
  destruct (outcome (Checker.check HeadingStructureChecker oddFindingsPage DEFAULT_CONFIG))
    as [result|reason] eqn:H; [|vm_compute in H; discriminate].
  destruct (X10_issues_mirror_findings HeadingStructureChecker oddFindingsPage
              DEFAULT_CONFIG result) as (raws & Hraws & _ & _ & Hissues).
  { unfold ALL_CHECKERS. rewrite !elem_of_cons. tauto. }
  { done. }
  cbn in Hraws. injection Hraws as <-.
  destruct (Hissues 0%nat _ eq_refl)
    as (issue & Hissue & _ & _ & Hmsg & _ & _ & _ & _ & _ & Hinfo).
  exists issue. split_and!; [done| |done].
  apply Hinfo. by split_and!.
Defined.

(** ** What a page report can hold *)

Lemma checkPage_issue_type w config p url mgr r mgr' evs issue :
  checkPage w config p url mgr = (Ok r, mgr', evs) ->
  issue ∈ PageReport.issues r ->
  Issue.type issue ∈ Checker.type <$> enabledCheckers config /\
  Issue.wcagLevel issue =
    if decide (Issue.type issue = CheckType.COLOR_CONTRAST)
    then Config.wcagLevel config else WcagLevel.A.
Proof.
  intros H Hin.
  destruct (checkPage_issue_origin _ _ _ _ _ _ _ _ _ H Hin)
    as (checker & result & Hc & Hout & Hissue).
  assert (Hreg : checker ∈ ALL_CHECKERS) by (by apply enabledCheckers_elem in Hc as [? _]).
  destruct (check_issue_level _ _ _ _ _ Hreg Hout Hissue) as [-> ->].
  split; [|done]. apply list_elem_of_fmap. eauto.
Qed.

Lemma registered_types checker :
  checker ∈ ALL_CHECKERS ->
  Checker.type checker ∈ [CheckType.ALT_TEXT; CheckType.COLOR_CONTRAST;
                          CheckType.HEADING_STRUCTURE; CheckType.ARIA_ATTRIBUTES;
                          CheckType.FORM_LABELS].
Proof.
  unfold ALL_CHECKERS. rewrite !elem_of_cons, !elem_of_nil.
  intros [->|[->|[->|[->|[->|[]]]]]]; cbn; tauto.
Qed.

Lemma length_filter_none {X} (P : X -> Prop) `{!forall x, Decision (P x)} (l : list X) :
  (forall x, x ∈ l -> ~ P x) -> length (filter P l) = 0%nat.
Proof. intros Hno. by rewrite filter_none. Qed.

(** X11. In a page report the count of a checker type is zero unless a
    registered checker of that type is enabled: so it is zero for a type
    that is disabled or not enabled, and, whatever the configuration, for
    keyboard navigation, focus indicators and landmark regions, for which
    no checker is registered.  No issue of a report has such a type. *)
Theorem X11_counts_of_unchecked_types :
  forall w config p url mgr r mgr' evs,
    checkPage w config p url mgr = (Ok r, mgr', evs) ->
    (forall issue, issue ∈ PageReport.issues r ->
       Issue.type issue ∈ Checker.type <$> enabledCheckers config) /\
    (forall type,
       type ∉ Checker.type <$> enabledCheckers config ->
       PageReport.issuesByType r !! CheckType.value type = Some 0%nat) /\
    (forall type,
       type ∈ Config.disabled (Config.checks config) \/
       type ∉ Config.enabled (Config.checks config) \/
       type ∈ [CheckType.KEYBOARD_NAVIGATION; CheckType.FOCUS_INDICATORS;
               CheckType.LANDMARK_REGIONS] ->
       PageReport.issuesByType r !! CheckType.value type = Some 0%nat).
Proof.
  intros w config p url mgr r mgr' evs H.
  assert (Htypes : forall issue, issue ∈ PageReport.issues r ->
            Issue.type issue ∈ Checker.type <$> enabledCheckers config).
  { intros issue Hin. by destruct (checkPage_issue_type _ _ _ _ _ _ _ _ _ H Hin). }
  assert (Hzero : forall type,
            type ∉ Checker.type <$> enabledCheckers config ->
            PageReport.issuesByType r !! CheckType.value type = Some 0%nat).
  { intros type Hno.
    pose proof (checkPage_Ok_inv _ _ _ _ _ _ _ _ H)
      as (? & ? & _ & _ & _ & _ & _ & _ & _ & _ & _ & Hby & _).
    rewrite Hby.
    change (foldl _ ∅ CheckType.values) with
      (byType (fun type => length (filter (fun issue => Issue.type issue = type)
                                          (PageReport.issues r)))).
    rewrite byType_lookup. f_equal. apply length_filter_none.
    intros issue Hin Ht. cbn beta in Ht. apply Hno. rewrite <- Ht. by apply Htypes. }
  split_and!; [done|done|].
  intros type Hcases. apply Hzero.
  intros (checker & -> & Hc)%list_elem_of_fmap.
  apply enabledCheckers_elem in Hc as (Hreg & Hen & Hdis).
  destruct Hcases as [Hd | [Hne | Hnone]]; [done|done|].
  apply registered_types in Hreg. revert Hreg Hnone.
  rewrite !elem_of_cons, !elem_of_nil.
  intros [->|[->|[->|[->|[->|[]]]]]]; intuition discriminate.
Qed.

Lemma X11_witness :
  match checkPage sampleWorld altTextBothWays PageHandle "https://a.example" unlaunched with
  | (Ok r, _, _) =>
      PageReport.issuesByType r !! "alt-text" = Some 0%nat /\
      PageReport.issuesByType r !! "keyboard-navigation" = Some 0%nat
  | _ => False
  end.
Proof.
  destruct (checkPage sampleWorld altTextBothWays PageHandle "https://a.example" unlaunched)
    as [[[r|reason] mgr'] evs] eqn:H.
  2:{ apply (f_equal (fun run => match run with (Ok _, _, _) => true | _ => false end)) in H.
      vm_compute in H. discriminate. }
  destruct (X11_counts_of_unchecked_types _ _ _ _ _ _ _ _ H) as (_ & _ & Hzero).
  split.
  - apply (Hzero CheckType.ALT_TEXT). left. cbn. by left.
  - apply (Hzero CheckType.KEYBOARD_NAVIGATION). right. right. by left.
Defined.

(** ** Score and compliance *)

Lemma penalty_app l1 l2 : penalty (l1 ++ l2) = penalty l1 + penalty l2.
Proof.
  unfold penalty. induction l1 as [|issue l1 IH]; cbn [app foldr]; [lia|].
  rewrite IH. lia.
Qed.

Lemma weights_bounds severity : 1 <= weights severity <= 10.
Proof. destruct severity; cbn; lia. Qed.

Lemma penalty_length issues : Z.of_nat (length issues) <= penalty issues <= 10 * Z.of_nat (length issues).
Proof.
  unfold penalty. induction issues as [|issue issues IH]; cbn [foldr length]; [lia|].
  pose proof (weights_bounds (Issue.severity issue)). lia.
Qed.

(** X12. The score lies between 0 and 100, and it is 100 only for no issue
    at all.  Every further issue lowers it by its weight until it reaches
    0, so more issues never raise it; it is 0 exactly when the weights add
    up to 100 or more, which a hundred issues of any kind always do and
    nine issues never do. *)
Theorem X12_score_bounds_and_monotonicity :
  (forall issues, 0 <= calculateScore issues <= 100) /\
  (forall issues, calculateScore issues = 100 <-> issues = []) /\
  (forall issue issues,
     calculateScore (issue :: issues) =
     Z.max 0 (calculateScore issues - weights (Issue.severity issue))) /\
  (forall issues more, calculateScore (issues ++ more) <= calculateScore issues) /\
  (forall issues, calculateScore issues = 0 <-> 100 <= penalty issues) /\
  (forall issues, (100 <= length issues)%nat -> calculateScore issues = 0) /\
  (forall issues, (length issues <= 9)%nat -> 10 <= calculateScore issues).
Proof.
  split_and!.
  - apply calculateScore_bounds.
  - intros issues. rewrite calculateScore_spec. split; [|by intros ->].
    destruct issues as [|issue issues]; [done|].
    pose proof (penalty_length (issue :: issues)). cbn [length] in *. lia.
  - intros issue issues. rewrite !calculateScore_spec.
    change (penalty (issue :: issues))
      with (weights (Issue.severity issue) + penalty issues).
    pose proof (weights_bounds (Issue.severity issue)). lia.
  - intros issues more. rewrite !calculateScore_spec, penalty_app.
    pose proof (penalty_nonneg more). lia.
  - intros issues. rewrite calculateScore_spec. lia.
  - intros issues Hlen. rewrite calculateScore_spec.
    pose proof (penalty_length issues). lia.
  - intros issues Hlen. rewrite calculateScore_spec.
    pose proof (penalty_length issues). lia.
Qed.

Lemma X12_witness :
  calculateScore (replicate 100 (sampleIssue Severity.INFO WcagLevel.A)) = 0.
Proof.
  destruct X12_score_bounds_and_monotonicity as (_ & _ & _ & _ & _ & Hfloor & _).
  apply Hfloor. by rewrite length_replicate.
Defined.

Lemma isWcagCompliant_app l1 l2 level :
  isWcagCompliant (l1 ++ l2) level = isWcagCompliant l1 level && isWcagCompliant l2 level.
Proof. unfold isWcagCompliant. by rewrite existsb_app, negb_orb. Qed.

Lemma isWcagCompliant_false issues level :
  isWcagCompliant issues level = false <->
  exists issue, issue ∈ issues /\
    Issue.severity issue = Severity.ERROR /\ Issue.wcagLevel issue = level.
Proof.
  unfold isWcagCompliant. rewrite negb_false_iff, existsb_exists. split.
  - intros (issue & Hin & [Hl Hs]%andb_true_iff).
    apply bool_decide_eq_true in Hl, Hs. exists issue. by rewrite list_elem_of_In.
  - intros (issue & Hin & Hs & Hl). exists issue. rewrite <- list_elem_of_In.
    split; [done|]. apply andb_true_iff. split; by apply bool_decide_eq_true.
Qed.

Lemma penalty_elem issue issues :
  issue ∈ issues -> weights (Issue.severity issue) <= penalty issues.
Proof.
  intros (l1 & l2 & ->)%list_elem_of_split.
  rewrite penalty_app. change (penalty (issue :: l2))
    with (weights (Issue.severity issue) + penalty l2).
  pose proof (penalty_nonneg l1). pose proof (penalty_nonneg l2). lia.
Qed.

(** X13. The compliance flags of a page report.  Since every checker but
    the colour contrast one files its issues under level A and that one
    under the target level, the flag of a level that is neither A nor the
    target level is always true, whatever the page: with the default
    target AA the report always shows AAA as compliant.  A flag that is
    false comes with at least one error and a score of at most 90, and a
    report without errors has all three flags true. *)
Theorem X13_compliance_flags_of_a_report :
  forall w config p url mgr r mgr' evs,
    checkPage w config p url mgr = (Ok r, mgr', evs) ->
    (forall level,
       level <> WcagLevel.A -> level <> Config.wcagLevel config ->
       Compliance.at_level (PageReport.wcagCompliance r) level = true) /\
    (forall level,
       Compliance.at_level (PageReport.wcagCompliance r) level = false ->
       (1 <= BySeverity.error (PageReport.issuesBySeverity r))%nat /\
       PageReport.score r <= 90) /\
    (BySeverity.error (PageReport.issuesBySeverity r) = 0%nat ->
     forall level, Compliance.at_level (PageReport.wcagCompliance r) level = true) /\
    (Config.wcagLevel config <> WcagLevel.A ->
     Compliance.at_level (PageReport.wcagCompliance r) (Config.wcagLevel config) = false <->
     exists issue, issue ∈ PageReport.issues r /\
       Issue.type issue = CheckType.COLOR_CONTRAST /\
       Issue.severity issue = Severity.ERROR).
Proof.
  intros w config p url mgr r mgr' evs H.
  pose proof (checkPage_Ok_inv _ _ _ _ _ _ _ _ H)
    as (? & ? & _ & _ & _ & _ & _ & _ & _ & _ & Hsev & _ & Hcomp & Hscore).
  assert (Hat : forall level,
            Compliance.at_level (PageReport.wcagCompliance r) level =
            isWcagCompliant (PageReport.issues r) level).
  { intros level. rewrite Hcomp. by destruct level. }
  assert (Hlevel : forall issue, issue ∈ PageReport.issues r ->
            Issue.wcagLevel issue =
              if decide (Issue.type issue = CheckType.COLOR_CONTRAST)
              then Config.wcagLevel config else WcagLevel.A).
  { intros issue Hin. by destruct (checkPage_issue_type _ _ _ _ _ _ _ _ _ H Hin). }
  assert (Herrors : forall issue, issue ∈ PageReport.issues r ->
            Issue.severity issue = Severity.ERROR ->
            (1 <= BySeverity.error (PageReport.issuesBySeverity r))%nat /\
            PageReport.score r <= 90).
  { intros issue Hin Hs. split.
    - rewrite Hsev. cbn [BySeverity.error].
      assert (Hf : issue ∈ filter (fun issue => Issue.severity issue = Severity.ERROR)
                                  (PageReport.issues r))
        by (by apply list_elem_of_filter).
      destruct (filter _ (PageReport.issues r)); [by apply elem_of_nil in Hf|cbn; lia].
    - rewrite Hscore, calculateScore_spec.
      pose proof (penalty_elem _ _ Hin) as Hp. rewrite Hs in Hp. cbn in Hp. lia. }
  split_and!.
  - intros level HA Htarget. rewrite Hat. apply isWcagCompliant_true.
    intros (issue & Hin & _ & Hl). rewrite (Hlevel _ Hin) in Hl.
    by case_decide.
  - intros level. rewrite Hat.
    intros (issue & Hin & Hs & _)%isWcagCompliant_false. by eapply Herrors.
  - intros Hnone level.
    destruct (Compliance.at_level (PageReport.wcagCompliance r) level) eqn:E; [done|].
    rewrite Hat in E. apply isWcagCompliant_false in E as (issue & Hin & Hs & _).
    destruct (Herrors _ Hin Hs). lia.
  - intros Htarget. rewrite Hat, isWcagCompliant_false. split.
    + intros (issue & Hin & Hs & Hl). exists issue. split_and!; [done| |done].
      rewrite (Hlevel _ Hin) in Hl. by case_decide.
    + intros (issue & Hin & Ht & Hs). exists issue. split_and!; [done|done|].
      rewrite (Hlevel _ Hin). by rewrite decide_True.
Qed.

Lemma X13_witness :
  match checkPage sampleWorld DEFAULT_CONFIG PageHandle "https://a.example" unlaunched with
  | (Ok r, _, _) => Compliance.at_level (PageReport.wcagCompliance r) WcagLevel.AAA = true
  | _ => False
  end.
Proof.
  destruct (checkPage sampleWorld DEFAULT_CONFIG PageHandle "https://a.example" unlaunched)
    as [[[r|reason] mgr'] evs] eqn:H.
  2:{ apply (f_equal (fun run => match run with (Ok _, _, _) => true | _ => false end)) in H.
      vm_compute in H. discriminate. }
  destruct (X13_compliance_flags_of_a_report _ _ _ _ _ _ _ _ H) as (Hvac & _).
  by apply Hvac.
Defined.

(** ** The console reporter sorts the issues of a page *)

Lemma Array_sort_insert_behind {T} (compareFn : T -> T -> Z) x (front back : list T) :
  Forall (fun y => 0 < compareFn x y) front ->
  match back with [] => True | y :: _ => compareFn x y <= 0 end ->
  Array_sort_insert compareFn x (front ++ back) = front ++ x :: back.
Proof.
  intros Hfront Hback. induction Hfront as [|y front Hy _ IH]; cbn.
  - destruct back as [|y back]; [done|].
    cbn. apply Z.ltb_ge in Hback. by rewrite Hback.
  - apply Z.ltb_lt in Hy. by rewrite Hy, IH.
Qed.

Lemma ofSeverity_cons severity issue issues :
  ofSeverity severity (issue :: issues) =
    if decide (Issue.severity issue = severity)
    then issue :: ofSeverity severity issues
    else ofSeverity severity issues.
Proof. unfold ofSeverity. by rewrite filter_cons. Qed.

Lemma ofSeverity_all severity issues :
  Forall (fun issue => Issue.severity issue = severity) (ofSeverity severity issues).
Proof.
  apply Forall_forall. intros issue Hin. unfold ofSeverity in Hin.
  by apply list_elem_of_filter in Hin as [? _].
Qed.

Lemma Array_sort_bySeverity issues :
  Array_sort bySeverity issues =
    ofSeverity Severity.ERROR issues ++ ofSeverity Severity.WARNING issues ++
    ofSeverity Severity.INFO issues.
Proof.
  induction issues as [|issue issues IH]; [done|].
  cbn [Array_sort foldr]. fold (Array_sort bySeverity issues). rewrite IH.
  rewrite !ofSeverity_cons.
  pose proof (ofSeverity_all Severity.ERROR issues) as HE.
  pose proof (ofSeverity_all Severity.WARNING issues) as HW.
  pose proof (ofSeverity_all Severity.INFO issues) as HI.
  destruct (Issue.severity issue) eqn:Hs; repeat case_decide; try done.
  - apply (Array_sort_insert_behind _ _ []); [constructor|].
    destruct (ofSeverity Severity.ERROR issues) as [|y ?]; cbn.
    + destruct (ofSeverity Severity.WARNING issues) as [|y ?]; cbn.
      * destruct (ofSeverity Severity.INFO issues) as [|y ?]; [done|].
        apply Forall_cons in HI as [Hy _]. unfold bySeverity. rewrite Hs, Hy. done.
      * apply Forall_cons in HW as [Hy _]. unfold bySeverity. rewrite Hs, Hy. done.
    + apply Forall_cons in HE as [Hy _]. unfold bySeverity. rewrite Hs, Hy. done.
  - rewrite (Array_sort_insert_behind _ _ (ofSeverity Severity.ERROR issues)); [done| |].
    + eapply Forall_impl; [exact HE|]. intros y Hy. unfold bySeverity. by rewrite Hs, Hy.
    + destruct (ofSeverity Severity.WARNING issues) as [|y ?]; cbn.
      * destruct (ofSeverity Severity.INFO issues) as [|y ?]; [done|].
        apply Forall_cons in HI as [Hy _]. unfold bySeverity. rewrite Hs, Hy. done.
      * apply Forall_cons in HW as [Hy _]. unfold bySeverity. rewrite Hs, Hy. done.
  - rewrite app_assoc.
    rewrite (Array_sort_insert_behind _ _ (ofSeverity Severity.ERROR issues ++
                                            ofSeverity Severity.WARNING issues)).
    + by rewrite <- app_assoc.
    + apply Forall_app. split.
      * eapply Forall_impl; [exact HE|]. intros y Hy. unfold bySeverity. by rewrite Hs, Hy.
      * eapply Forall_impl; [exact HW|]. intros y Hy. unfold bySeverity. by rewrite Hs, Hy.
    + destruct (ofSeverity Severity.INFO issues) as [|y ?]; [done|].
      apply Forall_cons in HI as [Hy _]. unfold bySeverity. rewrite Hs, Hy. done.
Qed.

Lemma bySeverity_Permutation issues :
  ofSeverity Severity.ERROR issues ++ ofSeverity Severity.WARNING issues ++
  ofSeverity Severity.INFO issues ≡ₚ issues.
Proof.
  induction issues as [|issue issues IH]; [done|].
  rewrite !ofSeverity_cons.
  destruct (Issue.severity issue); repeat case_decide; try done.
  - cbn. by rewrite IH.
  - cbn [app]. rewrite <- Permutation_middle. by rewrite IH.
  - rewrite app_assoc, <- Permutation_middle, <- app_assoc. by rewrite IH.
Qed.

Lemma ofSeverity_ofSeverity severity severity' issues :
  ofSeverity severity (ofSeverity severity' issues) =
    if decide (severity = severity') then ofSeverity severity issues else [].
Proof.
  induction issues as [|issue issues IH]; [by case_decide|].
  rewrite !ofSeverity_cons.
  repeat case_decide; rewrite ?ofSeverity_cons; repeat case_decide; try congruence.
Qed.

Lemma ofSeverity_app severity l1 l2 :
  ofSeverity severity (l1 ++ l2) = ofSeverity severity l1 ++ ofSeverity severity l2.
Proof. apply filter_app. Qed.

Lemma ofSeverity_sorted severity issues :
  ofSeverity severity (Array_sort bySeverity issues) = ofSeverity severity issues.
Proof.
  rewrite Array_sort_bySeverity, !ofSeverity_app, !ofSeverity_ofSeverity.
  destruct severity; repeat case_decide; try done; by rewrite ?app_nil_r.
Qed.

Lemma Array_sort_idempotent issues :
  Array_sort bySeverity (Array_sort bySeverity issues) = Array_sort bySeverity issues.
Proof.
  rewrite (Array_sort_bySeverity (Array_sort bySeverity issues)).
  rewrite !ofSeverity_sorted. by rewrite Array_sort_bySeverity.
Qed.

Lemma Array_sort_Permutation issues : Array_sort bySeverity issues ≡ₚ issues.
Proof. rewrite Array_sort_bySeverity. apply bySeverity_Permutation. Qed.

Lemma Array_sort_sorted issues :
  StronglySorted (fun a b => severityWeight (Issue.severity b)
                             <= severityWeight (Issue.severity a))
                 (Array_sort bySeverity issues).
Proof.
  rewrite Array_sort_bySeverity.
  assert (Hsame : forall severity,
            StronglySorted (fun a b => severityWeight (Issue.severity b)
                                       <= severityWeight (Issue.severity a))
                           (ofSeverity severity issues)).
  { intros severity. pose proof (ofSeverity_all severity issues) as Hall.
    induction Hall as [|y l Hy Hall IH]; constructor; [done|].
    eapply Forall_impl; [exact Hall|]. intros z Hz. cbn. rewrite Hy, Hz. lia. }
  pose proof (ofSeverity_all Severity.ERROR issues) as HE.
  pose proof (ofSeverity_all Severity.WARNING issues) as HW.
  pose proof (ofSeverity_all Severity.INFO issues) as HI.
  rewrite Forall_forall in HE, HW, HI.
  apply StronglySorted_app_2; [|done|apply StronglySorted_app_2; [|done|done]].
  - intros a b Ha [Hb|Hb]%elem_of_app; rewrite (HE _ Ha);
      [rewrite (HW _ Hb)|rewrite (HI _ Hb)]; cbn; lia.
  - intros a b Ha Hb. rewrite (HW _ Ha), (HI _ Hb). cbn. lia.
Qed.

Lemma slice_from_start {T} (array : list T) (final : Z) :
  0 <= final -> slice array 0 final = take (Z.to_nat final) array.
Proof.
  intros Hf. unfold slice, relativeIndex.
  replace (0 <? 0) with false by done.
  replace (final <? 0) with false by (symmetry; apply Z.ltb_ge; lia).
  replace (0 `min` Z.of_nat (length array)) with 0 by lia.
  change (Z.to_nat 0) with 0%nat. rewrite drop_0, Z.sub_0_r.
  destruct (decide (final <= Z.of_nat (length array))) as [Hle|Hgt].
  - by rewrite Z.min_l by lia.
  - rewrite Z.min_r, Nat2Z.id by lia.
    rewrite (take_ge array (length array)) by lia.
    by rewrite (take_ge array (Z.to_nat final)) by lia.
Qed.

(** X14. Rendering a page with at least one issue on the console sorts the
    issues of the page report in place: afterwards the report holds first
    its errors, then its warnings, then its infos, each group in the order
    it had, and nothing else of the report has changed.  So the issues are
    the same up to their order, the statistics, the score and the
    compliance flags computed from them are what they were, the three
    issues listed are the first three of that order, and rendering the page
    again changes nothing.  A page that counts no issue is left alone. *)
Theorem X14_console_reporter_sorts_in_place :
  forall page,
    ((0 < PageReport.totalIssues page)%nat ->
     PageReport.issues (renderPageReport page).1 =
       ofSeverity Severity.ERROR (PageReport.issues page) ++
       ofSeverity Severity.WARNING (PageReport.issues page) ++
       ofSeverity Severity.INFO (PageReport.issues page) /\
     StronglySorted (fun a b => severityWeight (Issue.severity b)
                                <= severityWeight (Issue.severity a))
                    (PageReport.issues (renderPageReport page).1) /\
     (renderPageReport page).2 = take 3 (PageReport.issues (renderPageReport page).1)) /\
    (PageReport.totalIssues page = 0%nat -> renderPageReport page = (page, [])) /\
    PageReport.issues (renderPageReport page).1 ≡ₚ PageReport.issues page /\
    (forall severity,
       ofSeverity severity (PageReport.issues (renderPageReport page).1) =
       ofSeverity severity (PageReport.issues page)) /\
    (forall type,
       length (filter (fun issue => Issue.type issue = type)
                      (PageReport.issues (renderPageReport page).1)) =
       length (filter (fun issue => Issue.type issue = type) (PageReport.issues page))) /\
    calculateScore (PageReport.issues (renderPageReport page).1) =
      calculateScore (PageReport.issues page) /\
    (forall level,
       isWcagCompliant (PageReport.issues (renderPageReport page).1) level =
       isWcagCompliant (PageReport.issues page) level) /\
    (PageReport.url (renderPageReport page).1,
     PageReport.timestamp (renderPageReport page).1,
     PageReport.duration (renderPageReport page).1,
     PageReport.totalIssues (renderPageReport page).1,
     PageReport.issuesBySeverity (renderPageReport page).1,
     PageReport.issuesByType (renderPageReport page).1,
     PageReport.wcagCompliance (renderPageReport page).1,
     PageReport.score (renderPageReport page).1) =
    (PageReport.url page, PageReport.timestamp page, PageReport.duration page,
     PageReport.totalIssues page, PageReport.issuesBySeverity page,
     PageReport.issuesByType page, PageReport.wcagCompliance page,
     PageReport.score page) /\
    (renderPageReport (renderPageReport page).1).1 = (renderPageReport page).1.
Proof.
  intros page. unfold renderPageReport.
  case_bool_decide as Hcount; cbn [fst snd PageReport.issues PageReport.totalIssues].
  - assert (Hperm := Array_sort_Permutation (PageReport.issues page)).
    split_and!.
    + intros _. split_and!.
      * apply Array_sort_bySeverity.
      * apply Array_sort_sorted.
      * by apply slice_from_start.
    + lia.
    + done.
    + intros severity. apply ofSeverity_sorted.
    + intros type. by rewrite Hperm.
    + rewrite !calculateScore_spec. f_equal. f_equal.
      apply penalty_severities. by rewrite Hperm.
    + intros level. by apply isWcagCompliant_Permutation.
    + done.
    + rewrite bool_decide_true by done. cbn. by rewrite Array_sort_idempotent.
  - split_and!; try done; try (intros; lia).
    by rewrite bool_decide_false.
Qed.

Lemma X14_witness :
  PageReport.issues
    (renderPageReport
       {| PageReport.url := "https://a.example";
          PageReport.timestamp := 0;
          PageReport.duration := 7;
          PageReport.totalIssues := 3;
          PageReport.issuesBySeverity :=
            {| BySeverity.error := 1; BySeverity.warning := 1; BySeverity.info := 1 |};
          PageReport.issuesByType := ∅;
          PageReport.wcagCompliance :=
            {| Compliance.A := false; Compliance.AA := true; Compliance.AAA := true |};
          PageReport.issues :=
            [sampleIssue Severity.INFO WcagLevel.A;
             sampleIssue Severity.WARNING WcagLevel.A;
             sampleIssue Severity.ERROR WcagLevel.A];
          PageReport.score := 84 |}).1
  = [sampleIssue Severity.ERROR WcagLevel.A;
     sampleIssue Severity.WARNING WcagLevel.A;
     sampleIssue Severity.INFO WcagLevel.A].
Proof.
  match goal with
  | |- PageReport.issues (renderPageReport ?page).1 = _ =>
      destruct (X14_console_reporter_sorts_in_place page) as [Hsorted _];
      destruct Hsorted as (-> & _ & _); [cbn; lia|]
  end.
  reflexivity.
Defined.

(** ** The verdict of the reporters *)

Lemma length_filter_all {X} (P : X -> Prop) `{!forall x, Decision (P x)} (l : list X) :
  length (filter P l) = length l <-> Forall P l.
Proof.
  induction l as [|x l IH]; [by split; [constructor|]|].
  rewrite filter_cons. pose proof (length_filter P l) as Hle.
  destruct (decide (P x)) as [Hx|Hx]; cbn [length].
  - rewrite Forall_cons. split.
    + intros [= Hl]. split; [done|]. by apply IH.
    + intros [_ Hl]. f_equal. by apply IH.
  - split; [lia|]. by intros [? _]%Forall_cons.
Qed.

Lemma run_page_flag fuel w config urls mgr r mgr' evs page level :
  checkUrls fuel w config urls mgr = Some (Ok r, mgr', evs) ->
  page ∈ Report.pages r ->
  Compliance.at_level (PageReport.wcagCompliance page) level = false <->
  exists issue,
    issue ∈ PageReport.issues page /\ Issue.severity issue = Severity.ERROR /\
    level = if decide (Issue.type issue = CheckType.COLOR_CONTRAST)
            then Config.wcagLevel config else WcagLevel.A.
Proof.
  intros H Hin.
  pose proof (checkUrls_Ok_pages _ _ _ _ _ _ _ _ H) as Hpages.
  apply list_elem_of_lookup in Hin as [i Hi].
  destruct (Forall2_lookup_r _ _ _ _ _ Hpages Hi)
    as (url & _ & checked & mgr1 & mgr2 & evs' & Hc & ->).
  pose proof (asReported_Ok_inv _ config _ _ _ _ _ _ Hc)
    as (Hperm & _ & _ & _ & _ & Hcomp & _).
  assert (Hat : Compliance.at_level (PageReport.wcagCompliance (asReported config checked))
                                    level =
                isWcagCompliant (PageReport.issues (asReported config checked)) level).
  { rewrite Hcomp. by destruct level. }
  rewrite Hat, isWcagCompliant_false. split.
  - intros (issue & Hissue & Hs & <-). exists issue. split_and!; [done|done|].
    rewrite Hperm in Hissue.
    by destruct (checkPage_issue_type _ _ _ _ _ _ _ _ _ Hc Hissue).
  - intros (issue & Hissue & Hs & ->). exists issue. split_and!; [done|done|].
    rewrite Hperm in Hissue.
    by destruct (checkPage_issue_type _ _ _ _ _ _ _ _ _ Hc Hissue).
Qed.

(** X15. The console reporter and the HTML reporter give the same verdict
    on the target level of a report, and for a report without pages the
    verdict is compliant.  For the report of a run the verdict is
    compliant exactly when no page has an error that counts for the target
    level: with the target level A, any error; with another target level,
    an error of the colour contrast checker, so that errors of all other
    checkers leave the verdict compliant. *)
Theorem X15_reporters_agree_on_the_verdict :
  (forall report,
     (generateWcagCompliance report).1.1 = allCompliant report /\
     (generateWcagCompliance report).2 = length (Report.pages report) /\
     ((generateWcagCompliance report).1.2 <= length (Report.pages report))%nat /\
     (Report.pages report = [] -> allCompliant report = true)) /\
  (forall fuel w config urls mgr r mgr' evs,
     checkUrls fuel w config urls mgr = Some (Ok r, mgr', evs) ->
     allCompliant r = true <->
     forall page issue,
       page ∈ Report.pages r -> issue ∈ PageReport.issues page ->
       Issue.severity issue = Severity.ERROR ->
       Config.wcagLevel config <> WcagLevel.A /\
       Issue.type issue <> CheckType.COLOR_CONTRAST).
Proof.
  split.
  - intros report. unfold generateWcagCompliance, allCompliant. cbn [fst snd].
    split_and!; [|done|apply length_filter|by intros ->].
    destruct (forallb _ (Report.pages report)) eqn:E.
    + apply bool_decide_eq_true, length_filter_all, Forall_forall.
      rewrite forallb_forall in E. intros page Hin. apply E. by apply list_elem_of_In.
    + apply bool_decide_eq_false. intros Hall%length_filter_all.
      rewrite Forall_forall in Hall.
      assert (E' : forallb (fun page =>
                     Compliance.at_level (PageReport.wcagCompliance page)
                       (Config.wcagLevel (Report.configuration report)))
                   (Report.pages report) = true); [|congruence].
      apply forallb_forall. intros page Hin. apply Hall. by apply list_elem_of_In.
  - intros fuel w config urls mgr r mgr' evs H.
    destruct (checkUrls_Ok_summary _ _ _ _ _ _ _ _ H) as [Hconfig _].
    unfold allCompliant. rewrite forallb_forall, Hconfig.
    setoid_rewrite <- list_elem_of_In. split.
    + intros Hall page issue Hpage Hissue Hs.
      specialize (Hall page Hpage).
      assert (Hno : ~ Compliance.at_level (PageReport.wcagCompliance page)
                        (Config.wcagLevel config) = false) by (by rewrite Hall).
      rewrite (run_page_flag _ _ _ _ _ _ _ _ _ _ H Hpage) in Hno.
      split.
      * intros HA. apply Hno. exists issue. split_and!; [done|done|].
        by case_decide.
      * intros Ht. apply Hno. exists issue. split_and!; [done|done|].
        by rewrite decide_True.
    + intros Hnone page Hpage.
      destruct (Compliance.at_level _ _) eqn:E; [done|].
      apply (run_page_flag _ _ _ _ _ _ _ _ _ _ H Hpage) in E
        as (issue & Hissue & Hs & Hl).
      destruct (Hnone page issue Hpage Hissue Hs) as [HA Ht].
      by rewrite decide_False in Hl.
Qed.

Lemma X15_witness :
  match checkUrls 6 sampleWorld twoAtATime ["https://a.example"] unlaunched with
  | Some (Ok r, _, _) => allCompliant r = true
  | _ => False
  end.
Proof.
  destruct (checkUrls 6 sampleWorld twoAtATime ["https://a.example"] unlaunched)
    as [[[[r|reason] mgr'] evs]|] eqn:H.
  - apply (proj2 X15_reporters_agree_on_the_verdict _ _ _ _ _ _ _ _ H).
    intros page issue Hpage Hissue Hs. split; [done|].
    assert (Hin : issue ∈ Report.pages r ≫= PageReport.issues)
      by (apply list_elem_of_bind; eauto).
    apply (f_equal (fun run => match run with
                               | Some (Ok r, _, _) => Report.pages r ≫= PageReport.issues
                               | _ => []
                               end)) in H.
    cbv beta iota in H.
    remember (Report.pages r ≫= PageReport.issues) as all eqn:Hall.
    vm_compute in H. rewrite <- H in Hin. revert Hin.
    rewrite !elem_of_cons, elem_of_nil.
    intros [-> | [-> | []]]; [done|]. discriminate Hs.
  - apply (f_equal (fun run => match run with Some (Ok _, _, _) => true | _ => false end))
      in H.
    vm_compute in H. discriminate.
  - apply (f_equal (fun run => match run with Some (Ok _, _, _) => true | _ => false end))
      in H.
    vm_compute in H. discriminate.
Defined.

(** ** The breakdown of the console reporter *)

(** Sorting with [(a, b) => key(b) - key(a)] puts the larger keys first. *)
Lemma Array_sort_insert_by_key {T} (key : T -> Z) x (sorted : list T) :
  StronglySorted (fun a b => key b <= key a) sorted ->
  StronglySorted (fun a b => key b <= key a)
                 (Array_sort_insert (fun a b => key b - key a) x sorted).
Proof.
  induction 1 as [|y sorted Hsorted IH Hy]; cbn.
  - repeat constructor.
  - destruct (0 <? key y - key x) eqn:E.
    + apply Z.ltb_lt in E. constructor; [done|].
      rewrite Array_sort_insert_Permutation. constructor; [lia|done].
    + apply Z.ltb_ge in E. constructor; [by constructor|].
      constructor; [lia|]. eapply Forall_impl; [exact Hy|]. cbn. intros z Hz. lia.
Qed.

Lemma Array_sort_by_key {T} (key : T -> Z) (array : list T) :
  StronglySorted (fun a b => key b <= key a)
                 (Array_sort (fun a b => key b - key a) array).
Proof.
  induction array as [|x array IH]; [constructor|].
  cbn [Array_sort foldr]. by apply Array_sort_insert_by_key.
Qed.

Lemma listed_cons key k count entries :
  listed key ((k, count) :: entries) =
    if decide (k = key) then (count + listed key entries)%nat else listed key entries.
Proof. unfold listed. rewrite filter_cons. cbn. by case_decide. Qed.

Lemma listed_increment key key' record :
  listed key' (increment key record) =
    if decide (key = key') then S (listed key' record) else listed key' record.
Proof.
  induction record as [|[k count] record IH]; cbn [increment].
  - rewrite listed_cons. unfold listed. cbn. case_decide; [lia|done].
  - destruct (String.eqb_spec k key) as [->|Hne]; rewrite !listed_cons.
    + by repeat case_decide.
    + rewrite IH. repeat case_decide; try done; try lia; congruence.
Qed.

Lemma increment_keys key record :
  (increment key record).*1 =
    if decide (key ∈ record.*1) then record.*1 else record.*1 ++ [key].
Proof.
  induction record as [|[k count] record IH]; cbn [increment]; [done|].
  destruct (String.eqb_spec k key) as [->|Hne]; cbn [fmap list_fmap fst].
  - rewrite decide_True by (by left). done.
  - change (list_fmap _ _ fst ?l) with (l.*1). rewrite IH.
    destruct (decide (key ∈ record.*1)) as [Hin|Hin].
    + by rewrite decide_True by (by right).
    + rewrite decide_False; [done|]. by intros [?|?]%elem_of_cons.
Qed.

Lemma increment_NoDup key record :
  NoDup record.*1 -> NoDup (increment key record).*1.
Proof.
  intros Hnd. rewrite increment_keys. case_decide; [done|].
  apply NoDup_app. split_and!; [done| |apply NoDup_singleton].
  intros x Hx ->%list_elem_of_singleton. done.
Qed.

Lemma increment_total key record :
  sum_list (increment key record).*2 = S (sum_list record.*2).
Proof.
  induction record as [|[k count] record IH]; cbn [increment]; [done|].
  destruct (String.eqb k key); cbn; [done|].
  change (list_fmap _ _ snd ?l) with (l.*2). rewrite IH. lia.
Qed.

Lemma increment_positive key record :
  Forall (fun entry => (0 < entry.2)%nat) record ->
  Forall (fun entry => (0 < entry.2)%nat) (increment key record).
Proof.
  induction 1 as [|[k count] record Hk Hrest IH]; cbn [increment].
  - repeat constructor.
  - destruct (String.eqb k key); constructor; cbn in *; try done; lia.
Qed.

(** What the loops of [renderIssueBreakdown] leave in the two counters. *)
Lemma breakdown_counters (issues : list AccessibilityIssue) start :
  let records :=
    foldl (fun records issue =>
             (increment (CheckType.value (Issue.type issue)) records.1,
              increment (severityValue (Issue.severity issue)) records.2))
          start issues in
  (NoDup start.1.*1 -> NoDup records.1.*1) /\
  (NoDup start.2.*1 -> NoDup records.2.*1) /\
  (forall key, listed key records.1 =
     (listed key start.1 +
      length (filter (fun issue => CheckType.value (Issue.type issue) = key) issues))%nat) /\
  (forall key, listed key records.2 =
     (listed key start.2 +
      length (filter (fun issue => severityValue (Issue.severity issue) = key) issues))%nat) /\
  sum_list records.1.*2 = (sum_list start.1.*2 + length issues)%nat /\
  sum_list records.2.*2 = (sum_list start.2.*2 + length issues)%nat /\
  (Forall (fun entry => (0 < entry.2)%nat) start.1 ->
   Forall (fun entry => (0 < entry.2)%nat) records.1) /\
  (Forall (fun entry => (0 < entry.2)%nat) start.2 ->
   Forall (fun entry => (0 < entry.2)%nat) records.2).
Proof.
  revert start. induction issues as [|issue issues IH]; intros start; cbn zeta.
  { cbn. split_and!; try done; intros; lia. }
  cbn [foldl].
  specialize (IH (increment (CheckType.value (Issue.type issue)) start.1,
                  increment (severityValue (Issue.severity issue)) start.2)).
  cbn zeta in IH. cbn [fst snd] in IH.
  destruct IH as (H1 & H2 & H3 & H4 & H5 & H6 & H7 & H8).
  split_and!.
  - intros Hnd. by apply H1, increment_NoDup.
  - intros Hnd. by apply H2, increment_NoDup.
  - intros key. rewrite H3, listed_increment, filter_cons.
    repeat case_decide; cbn [length]; try done; lia.
  - intros key. rewrite H4, listed_increment, filter_cons.
    repeat case_decide; cbn [length]; try done; lia.
  - rewrite H5, increment_total. cbn [length]. lia.
  - rewrite H6, increment_total. cbn [length]. lia.
  - intros Hpos. by apply H7, increment_positive.
  - intros Hpos. by apply H8, increment_positive.
Qed.

Lemma breakdown_pages (pages : list PageHealthReport) start :
  foldl (fun records page =>
           foldl (fun records issue =>
                    (increment (CheckType.value (Issue.type issue)) records.1,
                     increment (severityValue (Issue.severity issue)) records.2))
                 records (PageReport.issues page))
        start pages
  = foldl (fun records issue =>
             (increment (CheckType.value (Issue.type issue)) records.1,
              increment (severityValue (Issue.severity issue)) records.2))
          start (pages ≫= PageReport.issues).
Proof.
  revert start. induction pages as [|page pages IH]; intros start; [done|].
  cbn [foldl]. rewrite bind_cons, foldl_app. apply IH.
Qed.

Lemma sum_list_Permutation (l1 l2 : list nat) : l1 ≡ₚ l2 -> sum_list l1 = sum_list l2.
Proof. induction 1; cbn; lia. Qed.

Lemma listed_Permutation key entries1 entries2 :
  entries1 ≡ₚ entries2 -> listed key entries1 = listed key entries2.
Proof. intros Hp. unfold listed. apply sum_list_Permutation. by rewrite Hp. Qed.

Lemma listed_positive key entries :
  Forall (fun entry => (0 < entry.2)%nat) entries ->
  key ∈ entries.*1 <-> (0 < listed key entries)%nat.
Proof.
  induction 1 as [|[k count] entries Hk _ IH]; [cbn; split; [by intros ?%elem_of_nil|lia]|].
  rewrite listed_cons, fmap_cons, elem_of_cons. cbn [fst snd] in *.
  case_decide as Hkey.
  - split; [lia|by left].
  - rewrite <- IH. split; [by intros [?|?]|by right].
Qed.

Lemma CheckType_value_inj type1 type2 :
  CheckType.value type1 = CheckType.value type2 -> type1 = type2.
Proof. destruct type1, type2; cbn; intros H; done || discriminate H. Qed.

Lemma severityValue_inj severity1 severity2 :
  severityValue severity1 = severityValue severity2 -> severity1 = severity2.
Proof. destruct severity1, severity2; cbn; intros H; done || discriminate H. Qed.

Lemma length_filter_ext {X} (P Q : X -> Prop) `{!forall x, Decision (P x)}
    `{!forall x, Decision (Q x)} (l : list X) :
  (forall x, P x <-> Q x) -> length (filter P l) = length (filter Q l).
Proof.
  intros Hiff. induction l as [|x l IH]; [done|].
  rewrite !filter_cons. specialize (Hiff x).
  repeat case_decide; cbn [length]; try tauto; lia.
Qed.

Lemma length_filter_positive {X} (P : X -> Prop) `{!forall x, Decision (P x)} (l : list X) :
  (0 < length (filter P l))%nat <-> exists x, x ∈ l /\ P x.
Proof.
  split.
  - destruct (filter P l) as [|x k] eqn:E; [cbn; lia|]. intros _.
    assert (Hx : x ∈ filter P l) by (rewrite E; by left).
    apply list_elem_of_filter in Hx as [? ?]. eauto.
  - intros (x & Hin & Hx).
    assert (Hf : x ∈ filter P l) by (by apply list_elem_of_filter).
    destruct (filter P l); [by apply elem_of_nil in Hf|cbn; lia].
Qed.

Lemma StronglySorted_weaken {X} (R R' : X -> X -> Prop) (l : list X) :
  (forall a b, R a b -> R' a b) -> StronglySorted R l -> StronglySorted R' l.
Proof.
  intros Himpl. induction 1 as [|x l _ IH Hx]; constructor; [done|].
  eapply Forall_impl; [exact Hx|]. cbn. auto.
Qed.

Lemma run_totalIssues fuel w config urls mgr r mgr' evs :
  checkUrls fuel w config urls mgr = Some (Ok r, mgr', evs) ->
  Summary.totalIssues (Report.summary r) = length (Report.pages r ≫= PageReport.issues).
Proof.
  intros H.
  pose proof (checkUrls_Ok_pages _ _ _ _ _ _ _ _ H) as Hpages.
  destruct (checkUrls_Ok_summary _ _ _ _ _ _ _ _ H) as [_ ->].
  cbn [Summary.totalIssues]. rewrite foldl_totalIssues; [done|].
  apply Forall_forall. intros page Hin.
  apply list_elem_of_lookup in Hin as [i Hi].
  destruct (Forall2_lookup_r _ _ _ _ _ Hpages Hi)
    as (url & _ & checked & mgr1 & mgr2 & evs' & Hc & ->).
  by apply (asReported_Ok_inv _ config) in Hc as (_ & _ & Ht & _).
Qed.

(** X16. The breakdown the console reporter prints lists, by type and by
    severity, exactly the types and severities that occur among the issues
    of all pages, each once, with the number of issues that have it, the
    larger numbers first.  Either list adds up to the number of issues of
    all pages, which for the report of a run is the total of its summary.
    Unlike the count table of a page report, it has no entry for a type
    without issues. *)
Theorem X16_breakdown_counts :
  forall report,
    (forall type,
       listed (CheckType.value type) (renderIssueBreakdown report).2 =
       length (filter (fun issue => Issue.type issue = type)
                      (Report.pages report ≫= PageReport.issues))) /\
    (forall severity,
       listed (severityValue severity) (renderIssueBreakdown report).1 =
       length (ofSeverity severity (Report.pages report ≫= PageReport.issues))) /\
    (forall key,
       key ∈ (renderIssueBreakdown report).2.*1 <->
       exists issue, issue ∈ Report.pages report ≫= PageReport.issues /\
                     CheckType.value (Issue.type issue) = key) /\
    (forall key,
       key ∈ (renderIssueBreakdown report).1.*1 <->
       exists issue, issue ∈ Report.pages report ≫= PageReport.issues /\
                     severityValue (Issue.severity issue) = key) /\
    NoDup (renderIssueBreakdown report).2.*1 /\
    NoDup (renderIssueBreakdown report).1.*1 /\
    sum_list (renderIssueBreakdown report).2.*2
      = length (Report.pages report ≫= PageReport.issues) /\
    sum_list (renderIssueBreakdown report).1.*2
      = length (Report.pages report ≫= PageReport.issues) /\
    StronglySorted (fun a b => (b.2 <= a.2)%nat) (renderIssueBreakdown report).2 /\
    StronglySorted (fun a b => (b.2 <= a.2)%nat) (renderIssueBreakdown report).1 /\
    (forall fuel w config urls mgr mgr' evs,
       checkUrls fuel w config urls mgr = Some (Ok report, mgr', evs) ->
       sum_list (renderIssueBreakdown report).2.*2
         = Summary.totalIssues (Report.summary report)).
Proof.
  intros report. unfold renderIssueBreakdown. cbn zeta. cbn [fst snd].
  rewrite breakdown_pages.
  destruct (breakdown_counters (Report.pages report ≫= PageReport.issues) ([], []))
    as (H1 & H2 & H3 & H4 & H5 & H6 & H7 & H8).
  cbn zeta in *. cbn [fst snd] in *.
  set (records := foldl _ _ (Report.pages report ≫= PageReport.issues)) in *.
  specialize (H1 (NoDup_nil_2)). specialize (H2 (NoDup_nil_2)).
  specialize (H7 (Forall_nil_2 _)). specialize (H8 (Forall_nil_2 _)).
  pose proof (Array_sort_Permutation_any
                (fun a b : string * nat => Z.of_nat b.2 - Z.of_nat a.2) records.1) as Hp1.
  pose proof (Array_sort_Permutation_any
                (fun a b : string * nat => Z.of_nat b.2 - Z.of_nat a.2) records.2) as Hp2.
  assert (Hsorted : forall entries : list (string * nat),
            StronglySorted (fun a b => (b.2 <= a.2)%nat)
              (Array_sort (fun a b => Z.of_nat b.2 - Z.of_nat a.2) entries)).
  { intros entries.
    pose proof (Array_sort_by_key (fun entry : string * nat => Z.of_nat entry.2) entries)
      as Hs.
    eapply StronglySorted_weaken; [|exact Hs]. cbn. intros. lia. }
  assert (Htotal : sum_list (Array_sort (fun a b => Z.of_nat b.2 - Z.of_nat a.2)
                                        records.1).*2
                   = length (Report.pages report ≫= PageReport.issues)).
  { rewrite (sum_list_Permutation _ (records.1.*2)) by (by rewrite Hp1).
    rewrite H5. done. }
  split_and!.
  - intros type. rewrite (listed_Permutation _ _ _ Hp1), H3. cbn.
    apply length_filter_ext. intros issue. split; [apply CheckType_value_inj|by intros ->].
  - intros severity. rewrite (listed_Permutation _ _ _ Hp2), H4. cbn.
    apply length_filter_ext. intros issue. split; [apply severityValue_inj|by intros ->].
  - intros key. rewrite Hp1, (listed_positive key _ H7), H3. cbn.
    apply length_filter_positive.
  - intros key. rewrite Hp2, (listed_positive key _ H8), H4. cbn.
    apply length_filter_positive.
  - by rewrite Hp1.
  - by rewrite Hp2.
  - done.
  - rewrite (sum_list_Permutation _ (records.2.*2)) by (by rewrite Hp2).
    rewrite H6. done.
  - apply Hsorted.
  - apply Hsorted.
  - intros fuel w config urls mgr mgr' evs H.
    by rewrite Htotal, (run_totalIssues _ _ _ _ _ _ _ _ H).
Qed.

Lemma X16_witness :
  match checkUrls 6 sampleWorld twoAtATime ["https://a.example"] unlaunched with
  | Some (Ok r, _, _) =>
      sum_list (renderIssueBreakdown r).2.*2 = Summary.totalIssues (Report.summary r)
  | _ => False
  end.
Proof.
  destruct (checkUrls 6 sampleWorld twoAtATime ["https://a.example"] unlaunched)
    as [[[[r|reason] mgr'] evs]|] eqn:H.
  - destruct (X16_breakdown_counts r) as (_ & _ & _ & _ & _ & _ & _ & _ & _ & _ & Hrun).
    exact (Hrun _ _ _ _ _ _ _ H).
  - apply (f_equal (fun run => match run with Some (Ok _, _, _) => true | _ => false end))
      in H.
    vm_compute in H. discriminate.
  - apply (f_equal (fun run => match run with Some (Ok _, _, _) => true | _ => false end))
      in H.
    vm_compute in H. discriminate.
Defined.

(** ** URLs *)

Lemma prefix_app p s : String.prefix p (p +:+ s) = true.
Proof.
  induction p as [|a p IH]; [by destruct s|].
  simpl. destruct (Ascii.ascii_dec a a); [exact IH|congruence].
Qed.

Lemma length_append s1 s2 :
  String.length (s1 +:+ s2) = (String.length s1 + String.length s2)%nat.
Proof. induction s1 as [|a s1 IH]; [done|]. simpl. by rewrite IH. Qed.

(** X17. [normalizeUrl] returns a string that starts with [http://] or
    [https://]; it returns its argument when that already does, and
    otherwise puts [https://] in front of it, whatever the argument is, so
    also in front of another scheme or of nothing.  Normalizing twice is
    normalizing once. *)
Theorem X17_normalizeUrl_idempotent :
  (forall url,
     String.prefix "http://" (normalizeUrl url) = true \/
     String.prefix "https://" (normalizeUrl url) = true) /\
  (forall url,
     normalizeUrl url = url <->
     String.prefix "http://" url = true \/ String.prefix "https://" url = true) /\
  (forall url,
     normalizeUrl url <> url -> normalizeUrl url = "https://" +:+ url) /\
  (forall url, normalizeUrl (normalizeUrl url) = normalizeUrl url) /\
  (forall url,
     String.length (normalizeUrl url) = String.length url \/
     String.length (normalizeUrl url) = (8 + String.length url)%nat).
Proof.
  assert (Hfix : forall url,
            String.prefix "http://" url = true \/ String.prefix "https://" url = true ->
            normalizeUrl url = url).
  { intros url [H|H]; unfold normalizeUrl; rewrite H; cbn; by rewrite ?andb_false_r. }
  assert (Hstart : forall url,
            String.prefix "http://" (normalizeUrl url) = true \/
            String.prefix "https://" (normalizeUrl url) = true).
  { intros url. unfold normalizeUrl.
    destruct (String.prefix "http://" url) eqn:E1; [by left|].
    destruct (String.prefix "https://" url) eqn:E2; [by right|].
    right. apply prefix_app. }
  split_and!.
  - done.
  - intros url. split; [|apply Hfix]. intros <-. apply Hstart.
  - intros url. unfold normalizeUrl. by destruct (_ && _).
  - intros url. apply Hfix, Hstart.
  - intros url. unfold normalizeUrl. destruct (_ && _); [right|by left].
    by rewrite length_append.
Qed.

Lemma X17_witness :
  normalizeUrl "ftp://files.example" = "https://ftp://files.example".
Proof.
  destruct X17_normalizeUrl_idempotent as (_ & _ & Hput & _).
  apply Hput. vm_compute. discriminate.
Defined.

(** ** The command line *)

Lemma checkUrl_Ok_inv w config url mgr r mgr' evs :
  checkUrl w config url mgr = (Ok r, mgr', evs) ->
  exists mgr1 mgr2 evs',
    checkPage w config PageHandle url mgr1 = (Ok r, mgr2, evs').
Proof.
  rewrite checkUrl_run.
  destruct (ensureLaunched w config mgr) as [[[[]|reason] mgr1] evs1]; [|done].
  rewrite checkInPage_run.
  destruct (BrowserManager.context mgr1); [|done].
  destruct (Dom.newPageFails (browse w url)); [done|].
  destruct (Dom.addInitScriptFails (browse w url)); [done|].
  destruct (Dom.closeFails (browse w url)); [done|].
  destruct (checkPage w config PageHandle url mgr1) as [[r1 mgr2] evs2] eqn:Hc.
  cbn. intros [= -> _ _]. by exists mgr1, mgr2, evs2.
Qed.

Lemma validUrls_inr isValidUrl urls valid :
  validUrls isValidUrl urls = inr valid ->
  Forall2 (fun url accepted =>
             isValidUrl accepted = true /\
             (accepted = url \/
              (isValidUrl url = false /\ accepted = normalizeUrl url)))
          urls valid.
Proof.
  revert valid. induction urls as [|url urls IH]; intros valid; cbn [validUrls].
  { intros [= <-]. constructor. }
  destruct (isValidUrl url) eqn:E; cbn [negb].
  - destruct (validUrls isValidUrl urls) as [|rest]; [done|].
    intros [= <-]. constructor; [|by apply IH]. auto.
  - destruct (isValidUrl (normalizeUrl url)) eqn:E'; cbn [negb]; [|done].
    destruct (validUrls isValidUrl urls) as [|rest]; [done|].
    intros [= <-]. constructor; [|by apply IH]. auto.
Qed.

Lemma validUrls_inl isValidUrl urls url :
  validUrls isValidUrl urls = inl url ->
  url ∈ urls /\ isValidUrl url = false /\ isValidUrl (normalizeUrl url) = false.
Proof.
  induction urls as [|url' urls IH]; cbn [validUrls]; [done|].
  destruct (isValidUrl url') eqn:E; cbn [negb].
  - destruct (validUrls isValidUrl urls) as [invalid|rest]; [|done].
    intros [= ->]. destruct (IH eq_refl) as (? & ? & ?). split_and!; [by right|done|done].
  - destruct (isValidUrl (normalizeUrl url')) eqn:E'; cbn [negb].
    + destruct (validUrls isValidUrl urls) as [invalid|rest]; [|done].
      intros [= ->]. destruct (IH eq_refl) as (? & ? & ?).
      split_and!; [by right|done|done].
    + intros [= <-]. split_and!; [by left|done|done].
Qed.

(** X18. The command line checks nothing when one of its URL arguments is
    rejected both as it is and normalized: it throws before the browser is
    launched.  Given exactly one URL it calls [checkUrl], so it starts no
    reporter whatever formats are configured and closes neither the
    context nor the browser, and the report it builds has that one page
    with its issue count and its score as the summary.  In every case the
    process exits with code 0 exactly when the check ended with a report
    in which no page has an issue. *)
Theorem X18_command_line_single_url :
  (forall fuel w isValidUrl config urls mgr url,
     validUrls isValidUrl urls = inl url ->
     runAccessibilityCheck fuel w isValidUrl config urls mgr
       = Some (InvalidUrl url, mgr, []) /\
     url ∈ urls /\ isValidUrl url = false /\ isValidUrl (normalizeUrl url) = false) /\
  (forall isValidUrl urls valid,
     validUrls isValidUrl urls = inr valid ->
     Forall2 (fun url accepted =>
                isValidUrl accepted = true /\
                (accepted = url \/
                 (isValidUrl url = false /\ accepted = normalizeUrl url)))
             urls valid) /\
  (forall fuel w isValidUrl config urls url mgr outcome mgr' evs,
     validUrls isValidUrl urls = inr [url] ->
     runAccessibilityCheck fuel w isValidUrl config urls mgr = Some (outcome, mgr', evs) ->
     generations evs = [] /\ (EvContextClose ∉ evs) /\ (EvBrowserClose ∉ evs) /\
     forall code report,
       outcome = Exit code report ->
       isLaunched mgr' = true /\
       exists page,
         Report.pages report = [page] /\ PageReport.url page = url /\
         Summary.totalPages (Report.summary report) = 1%nat /\
         Summary.totalIssues (Report.summary report) = length (PageReport.issues page) /\
         Summary.overallScore (Report.summary report) = PageReport.score page) /\
  (forall fuel w isValidUrl config urls mgr outcome mgr' evs,
     runAccessibilityCheck fuel w isValidUrl config urls mgr = Some (outcome, mgr', evs) ->
     (exitCode outcome = 0 \/ exitCode outcome = 1) /\
     (exitCode outcome = 0 <->
      exists report,
        outcome = Exit 0 report /\ Report.pages report ≫= PageReport.issues = [])).
Proof.
  split_and!.
  - intros fuel w isValidUrl config urls mgr url H.
    unfold runAccessibilityCheck. rewrite H. split; [done|]. by apply validUrls_inl.
  - apply validUrls_inr.
  - intros fuel w isValidUrl config urls url mgr outcome mgr' evs Hvalid.
    unfold runAccessibilityCheck. rewrite Hvalid.
    rewrite bool_decide_true by done.
    change (default EmptyString ([url] !! 0%nat)) with url.
    assert (Hk : forall ev, ev ∈ (checkUrl w config url mgr).2 ->
                   (forall format, ev <> EvGenerate format) /\
                   ev <> EvContextClose /\ ev <> EvBrowserClose).
    { intros ev [-> | [-> | Hp%pageCall_inv]]%checkUrl_event_kinds;
        [by split_and!..|]. tauto. }
    destruct (checkUrl w config url mgr) as [[[pageReport|reason] mgr1] evs1] eqn:Hc;
      cbn [fst snd] in Hk; cbv beta iota zeta; intros [= <- <- <-].
    + split_and!.
      * apply generations_none. intros format (Hg & _)%Hk. by eapply Hg.
      * by intros (_ & ? & _)%Hk.
      * by intros (_ & _ & ?)%Hk.
      * intros code report [= <- <-]. split; [by eapply checkUrl_Ok_launched|].
        exists pageReport. cbn.
        apply checkUrl_Ok_inv in Hc as (mgr2 & mgr3 & evs' & Hc).
        apply checkPage_Ok_inv in Hc
          as (? & ? & _ & _ & _ & _ & _ & Hurl & _ & Ht & _).
        by split_and!.
    + split_and!; [| | |done].
      * apply generations_none. intros format (Hg & _)%Hk. by eapply Hg.
      * by intros (_ & ? & _)%Hk.
      * by intros (_ & _ & ?)%Hk.
  - intros fuel w isValidUrl config urls mgr outcome mgr' evs.
    unfold runAccessibilityCheck.
    destruct (validUrls isValidUrl urls) as [url|valid].
    { intros [= <- <- <-]. cbn. split; [by right|].
      split; [done|]. by intros (? & ? & _). }
    cbn zeta.
    assert (Hreport : forall checked report mgr1 evs1,
              checked = Some (Ok report, mgr1, evs1) ->
              (if bool_decide (length valid = 1%nat) then
                 match checkUrl w config (default EmptyString (valid !! 0%nat)) mgr with
                 | (Ok pageReport, mgr', evs) =>
                     Some (Ok {| Report.summary :=
                                   {| Summary.totalPages := 1;
                                      Summary.totalIssues := PageReport.totalIssues pageReport;
                                      Summary.overallScore := PageReport.score pageReport;
                                      Summary.timestamp := PageReport.timestamp pageReport;
                                      Summary.duration := PageReport.duration pageReport |};
                                 Report.pages := [pageReport];
                                 Report.configuration := config |},
                           mgr', evs)
                 | (Err reason, mgr', evs) => Some (Err reason, mgr', evs)
                 end
               else checkUrls fuel w config valid mgr) = checked ->
              Summary.totalIssues (Report.summary report)
              = length (Report.pages report ≫= PageReport.issues)).
    { intros checked report mgr1 evs1 -> Hchecked.
      case_bool_decide.
      - destruct (checkUrl w config _ mgr) as [[[pageReport|reason] mgr2] evs2] eqn:Hc;
          [|done].
        injection Hchecked as <- _ _. cbn. rewrite app_nil_r.
        apply checkUrl_Ok_inv in Hc as (mgr3 & mgr4 & evs' & Hc).
        by apply checkPage_Ok_inv in Hc as (? & ? & _ & _ & _ & _ & _ & _ & _ & Ht & _).
      - by eapply run_totalIssues. }
    match goal with
    | |- context [match ?c with Some _ => _ | None => _ end] =>
        specialize (Hreport c); destruct c as [[[[report|reason] mgr1] evs1]|]
    end; [| |done].
    + specialize (Hreport report mgr1 evs1 eq_refl eq_refl).
      intros [= <- <- <-]. cbn [exitCode].
      case_bool_decide as Hpos.
      * split; [by right|]. split; [done|].
        by intros (report' & [=] & _).
      * split; [by left|]. split; [|done]. intros _. exists report. split; [done|].
        apply length_zero_iff_nil. lia.
    + intros [= <- <- <-]. cbn. split; [by right|].
      split; [done|]. by intros (? & ? & _).
Qed.

Lemma X18_witness :
  match runAccessibilityCheck 6 sampleWorld httpsOnly allFormats ["a.example"] unlaunched with
  | Some (outcome, mgr', evs) =>
      exitCode outcome = 1 /\ generations evs = [] /\ (EvBrowserClose ∉ evs)
  | None => False
  end.
Proof.
  destruct (runAccessibilityCheck 6 sampleWorld httpsOnly allFormats ["a.example"] unlaunched)
    as [[[outcome mgr'] evs]|] eqn:H.
  - destruct X18_command_line_single_url as (_ & _ & Hone & Hcode).
    destruct (Hone 6%nat sampleWorld httpsOnly allFormats ["a.example"]
                   "https://a.example" unlaunched outcome mgr' evs eq_refl H)
      as (Hgen & _ & Hclose & _).
    split_and!; [|done|done].
    destruct (Hcode _ _ _ _ _ _ _ _ _ H) as [[Hzero|Hcode1] Hiff]; [|done].
    apply Hiff in Hzero as (report & -> & Hnone).
    apply (f_equal (fun run => match run with
                               | Some (Exit _ report, _, _) =>
                                   length (Report.pages report ≫= PageReport.issues)
                               | _ => 0%nat
                               end)) in H.
    cbv beta iota in H. rewrite Hnone in H. vm_compute in H. discriminate.
  - apply (f_equal (fun run => match run with Some _ => true | None => false end)) in H.
    vm_compute in H. discriminate.
Defined.

(** ** The checker options of the command line *)

Lemma CheckType_values_all type : type ∈ CheckType.values.
Proof. unfold CheckType.values. rewrite !elem_of_cons. destruct type; tauto. Qed.

Lemma checkTypeOf_value type : checkTypeOf (CheckType.value type) = Some type.
Proof. by destruct type. Qed.

Lemma checkTypeOf_Some name type :
  checkTypeOf name = Some type <-> CheckType.value type = name.
Proof.
  split; [|intros <-; apply checkTypeOf_value].
  unfold checkTypeOf. intros H.
  apply head_Some_elem_of, list_elem_of_filter in H. tauto.
Qed.

Lemma firstInvalid_None checkers :
  firstInvalid checkers = None <->
  forall checker, checker ∈ checkers -> exists type, CheckType.value type = checker.
Proof.
  unfold firstInvalid. rewrite head_None. split.
  - intros Hnone checker Hin.
    destruct (decide (checker ∈ CheckType.value <$> CheckType.values)) as [Hv|Hv].
    + apply list_elem_of_fmap in Hv as (type & -> & _). eauto.
    + assert (Hf : checker ∈ filter (fun checker => checker ∉ CheckType.value <$> CheckType.values)
                                    checkers) by (by apply list_elem_of_filter).
      rewrite Hnone in Hf. by apply elem_of_nil in Hf.
  - intros Hall. apply filter_none. intros checker Hin Hno.
    destruct (Hall _ Hin) as [type <-]. apply Hno, list_elem_of_fmap.
    exists type. split; [done|apply CheckType_values_all].
Qed.

Lemma firstInvalid_Some checkers checker :
  firstInvalid checkers = Some checker ->
  checker ∈ checkers /\ forall type, CheckType.value type <> checker.
Proof.
  unfold firstInvalid. intros H.
  apply head_Some_elem_of, list_elem_of_filter in H as [Hno Hin].
  split; [done|]. intros type <-. apply Hno, list_elem_of_fmap.
  exists type. split; [done|apply CheckType_values_all].
Qed.

Lemma elem_of_omap_checkTypeOf type (names : list string) :
  type ∈ omap checkTypeOf names <-> CheckType.value type ∈ names.
Proof.
  rewrite list_elem_of_omap. split.
  - intros (name & Hin & Hname). by apply checkTypeOf_Some in Hname as <-.
  - intros Hin. exists (CheckType.value type). split; [done|apply checkTypeOf_value].
Qed.

(** The checker the loop over the names throws for is the first name that
    is no checker type. *)
Lemma firstInvalid_first checkers checker :
  firstInvalid checkers = Some checker <->
  exists before after,
    checkers = before ++ checker :: after /\
    Forall (fun name => exists type, CheckType.value type = name) before /\
    forall type, CheckType.value type <> checker.
Proof.
  assert (Hvalid : forall name,
            name ∈ CheckType.value <$> CheckType.values <->
            exists type, CheckType.value type = name).
  { intros name. rewrite list_elem_of_fmap. split.
    - intros (type & -> & _). eauto.
    - intros [type <-]. exists type. split; [done|apply CheckType_values_all]. }
  unfold firstInvalid. induction checkers as [|name checkers IH].
  { split; [done|]. intros (before & after & H & _). by destruct before. }
  rewrite filter_cons. destruct (decide _) as [Hno|Hyes].
  - cbn [head]. split.
    + intros [= ->]. exists [], checkers. split_and!; [done|constructor|].
      intros type Ht. apply Hno, Hvalid. eauto.
    + intros (before & after & H & Hall & Hc). destruct before as [|name' before].
      * by injection H as -> _.
      * injection H as -> _. apply Forall_cons in Hall as [Hn _].
        destruct Hno. by apply Hvalid.
  - rewrite IH. apply dec_stable in Hyes. apply Hvalid in Hyes. split.
    + intros (before & after & -> & Hall & Hc).
      exists (name :: before), after. split_and!; [done|by constructor|done].
    + intros (before & after & H & Hall & Hc). destruct before as [|name' before].
      * injection H as -> _. destruct Hyes as [type Ht]. by destruct (Hc type).
      * injection H as -> ->. apply Forall_cons in Hall as [_ Hall].
        by exists before, after.
Qed.

(** X19. The checker options of the command line, which [parseConfiguration]
    turns to once it has accepted the options before them.  When
    [--enable-only] is given, [--disable] is not read at all, not even to
    reject a name in it.  In the option that is read, a name that is no
    checker type makes the parser throw, and it throws for the first such
    name; it throws for no other reason.  The checks it returns never list
    a type both as enabled and as disabled; with [--disable] alone every
    type is enabled but the named ones.  So the checkers that run are the
    registered ones whose type is enabled, and naming with [--enable-only]
    only types for which no checker is registered leaves nothing to run:
    on every page that loads and on which the three waits are fulfilled,
    the page check runs no scan and returns a report without issues and
    with score 100. *)
Theorem X19_checker_options :
  (forall enableOnly disable disable',
     optionGiven enableOnly = true ->
     parseCheckerOptions enableOnly disable = parseCheckerOptions enableOnly disable') /\
  (forall enableOnly disable checker,
     parseCheckerOptions enableOnly disable = inl checker <->
     optionGiven (if optionGiven enableOnly then enableOnly else disable) = true /\
     exists before after,
       toArray (if optionGiven enableOnly then enableOnly else disable)
       = before ++ checker :: after /\
       Forall (fun name => exists type, CheckType.value type = name) before /\
       forall type, CheckType.value type <> checker) /\
  (forall enableOnly disable checks,
     parseCheckerOptions enableOnly disable = inr (Some checks) ->
     (forall type, type ∈ Config.enabled checks -> type ∉ Config.disabled checks) /\
     (optionGiven enableOnly = true ->
      Config.disabled checks = [] /\
      forall type, type ∈ Config.enabled checks <->
                   CheckType.value type ∈ toArray enableOnly) /\
     (optionGiven enableOnly = false ->
      (forall type, type ∈ Config.disabled checks <->
                    CheckType.value type ∈ toArray disable) /\
      (forall type, type ∈ Config.enabled checks <->
                    CheckType.value type ∉ toArray disable)) /\
     forall config checker,
       checker ∈ enabledCheckers (withChecks (Some checks) config) <->
       checker ∈ ALL_CHECKERS /\ Checker.type checker ∈ Config.enabled checks) /\
  (forall enableOnly disable,
     parseCheckerOptions enableOnly disable = inr None <->
     optionGiven enableOnly = false /\ optionGiven disable = false) /\
  (forall enableOnly disable checks w config p url mgr,
     parseCheckerOptions enableOnly disable = inr (Some checks) ->
     Forall (fun type => type ∈ [CheckType.KEYBOARD_NAVIGATION; CheckType.FOCUS_INDICATORS;
                                 CheckType.LANDMARK_REGIONS])
            (Config.enabled checks) ->
     Dom.gotoError (browse w url) = None ->
     Dom.axeLoads (browse w url) = true ->
     Dom.networkIdle (browse w url) = true ->
     Dom.timeoutElapses (browse w url) = true ->
     exists r,
       checkPage w (withChecks (Some checks) config) p url mgr
       = (Ok r, mgr, [EvGoto url; EvWaitAxe; EvWaitLoadState; EvWaitTimeout]) /\
       PageReport.issues r = [] /\ PageReport.totalIssues r = 0%nat /\
       PageReport.score r = 100).
Proof.
  assert (Hdisjoint : forall enableOnly disable checks,
            parseCheckerOptions enableOnly disable = inr (Some checks) ->
            forall type, type ∈ Config.enabled checks -> type ∉ Config.disabled checks).
  { intros enableOnly disable checks. unfold parseCheckerOptions.
    destruct (optionGiven enableOnly).
    - destruct (firstInvalid _); [done|]. intros [= <-] type _. apply not_elem_of_nil.
    - destruct (optionGiven disable); [|done].
      destruct (firstInvalid _); [done|]. intros [= <-] type.
      cbn [Config.enabled Config.disabled].
      rewrite list_elem_of_filter, elem_of_omap_checkTypeOf. tauto. }
  assert (Hrun : forall checks config checker,
            (forall type, type ∈ Config.enabled checks -> type ∉ Config.disabled checks) ->
            checker ∈ enabledCheckers (withChecks (Some checks) config) <->
            checker ∈ ALL_CHECKERS /\ Checker.type checker ∈ Config.enabled checks).
  { intros checks config checker Hd. rewrite enabledCheckers_elem.
    cbn [withChecks Config.checks].
    split; [tauto|]. intros [? ?]. split_and!; [done|done|by apply Hd]. }
  split_and!.
  - intros enableOnly disable disable' Hgiven. unfold parseCheckerOptions.
    by rewrite Hgiven.
  - intros enableOnly disable checker. rewrite <- firstInvalid_first.
    unfold parseCheckerOptions.
    destruct (optionGiven enableOnly) eqn:He.
    + rewrite He. destruct (firstInvalid _) as [invalid|].
      * split; [by intros [= ->]|by intros [_ [= ->]]].
      * split; [done|by intros [_ ?]].
    + destruct (optionGiven disable).
      * destruct (firstInvalid _) as [invalid|].
        -- split; [by intros [= ->]|by intros [_ [= ->]]].
        -- split; [done|by intros [_ ?]].
      * split; [done|by intros [? _]].
  - intros enableOnly disable checks H.
    split_and!; [by eapply Hdisjoint| | |intros; apply Hrun; by eapply Hdisjoint].
    + intros Hgiven. revert H. unfold parseCheckerOptions. rewrite Hgiven.
      destruct (firstInvalid _); [done|]. intros [= <-].
      cbn [Config.enabled Config.disabled].
      split; [done|]. intros type. apply elem_of_omap_checkTypeOf.
    + intros Hgiven. revert H. unfold parseCheckerOptions. rewrite Hgiven.
      destruct (optionGiven disable); [|done].
      destruct (firstInvalid _); [done|]. intros [= <-].
      cbn [Config.enabled Config.disabled].
      split; intros type; [apply elem_of_omap_checkTypeOf|].
      rewrite list_elem_of_filter. split; [tauto|]. intros Hno. split; [done|].
      apply CheckType_values_all.
  - intros enableOnly disable. unfold parseCheckerOptions.
    destruct (optionGiven enableOnly); [destruct (firstInvalid _); split; try done; by intros [? _]|].
    destruct (optionGiven disable); [destruct (firstInvalid _); split; try done; by intros [_ ?]|].
    done.
  - intros enableOnly disable checks w config p url mgr Hparse Hnone Hgoto Haxe Hidle Htime.
    assert (Hempty : enabledCheckers (withChecks (Some checks) config) = []).
    { destruct (enabledCheckers _) as [|checker l] eqn:E; [done|].
      assert (Hin : checker ∈ enabledCheckers (withChecks (Some checks) config))
        by (rewrite E; by left).
      apply Hrun in Hin as [Hreg Hen]; [|by eapply Hdisjoint].
      rewrite Forall_forall in Hnone. specialize (Hnone _ Hen).
      apply registered_types in Hreg. revert Hreg Hnone.
      rewrite !elem_of_cons, !elem_of_nil.
      intros [->|[->|[->|[->|[->|[]]]]]]; intuition discriminate. }
    rewrite checkPage_run, Hgoto, Hempty.
    unfold stabilizes, waitEvents. rewrite Haxe, Hidle, Htime. cbn [andb map].
    rewrite (Promise_all_fulfilled [] []) by constructor.
    eexists. split; [reflexivity|]. by split_and!.
Qed.

Lemma X19_witness :
  parseCheckerOptions (Some (Many ["alt-text"])) (Some (Many ["alt-text"; "no-such-checker"]))
  = inr (Some {| Config.enabled := [CheckType.ALT_TEXT]; Config.disabled := [] |}) /\
  parseCheckerOptions None (Some (Many ["alt-text"; "no-such-checker"; "nor-this"]))
  = inl "no-such-checker".
Proof.
  destruct X19_checker_options as (Hignored & Hthrows & _).
  split.
  - rewrite (Hignored _ _ None); [|done]. reflexivity.
  - apply Hthrows. split; [done|].
    exists ["alt-text"], ["nor-this"]. split_and!; [done| |by intros []].
    constructor; [by exists CheckType.ALT_TEXT|constructor].
Defined.

(** ** The number of chunks *)

Lemma chunkArray_wellChunked {T} fuel (array : list T) chunkSize chunks :
  1 <= chunkSize -> chunkArray fuel array chunkSize = Some chunks ->
  concat chunks = array /\ wellChunked chunkSize chunks.
Proof.
  intros Hsize H.
  destruct (chunkArray_terminates array chunkSize Hsize) as (chunks0 & Hrun & Hcat & Hwell).
  specialize (Hrun (S (length array)) ltac:(lia)).
  unfold chunkArray in *.
  by rewrite (forLoop_deterministic _ _ _ _ _ _ _ Hrun H).
Qed.

Lemma wellChunked_tail {T} chunkSize (chunk : list T) chunks :
  wellChunked chunkSize (chunk :: chunks) -> wellChunked chunkSize chunks.
Proof.
  intros [Hfull Hsome]. split.
  - intros k c Hk Hlast. apply (Hfull (S k) c); [done|cbn; lia].
  - intros c Hin. apply Hsome. by right.
Qed.

Lemma wellChunked_count {T} chunkSize (chunks : list (list T)) :
  1 <= chunkSize -> wellChunked chunkSize chunks ->
  Z.of_nat (length chunks)
  = (Z.of_nat (length (concat chunks)) + chunkSize - 1) / chunkSize.
Proof.
  intros Hsize. induction chunks as [|chunk chunks IH]; intros Hwell.
  { cbn. symmetry. apply Z.div_small. lia. }
  pose proof (wellChunked_tail _ _ _ Hwell) as Htail.
  specialize (IH Htail). destruct Hwell as [Hfull Hsome].
  cbn [concat length]. rewrite length_app.
  destruct chunks as [|chunk' chunks].
  - destruct (Hsome chunk) as [Hpos Hle]; [by left|].
    cbn [concat length].
    apply Z.div_unique with (r := Z.of_nat (length chunk) - 1); lia.
  - assert (Hc : Z.of_nat (length chunk) = chunkSize)
      by (apply (Hfull 0%nat); [done|cbn; lia]).
    rewrite Nat2Z.inj_succ, IH, Nat2Z.inj_add, Hc.
    replace (chunkSize + Z.of_nat (length (concat (chunk' :: chunks))) + chunkSize - 1)
      with (1 * chunkSize + (Z.of_nat (length (concat (chunk' :: chunks))) + chunkSize - 1))
      by lia.
    rewrite Z.div_add_l by lia. lia.
Qed.

Lemma wellChunked_lookup {T} chunkSize (chunks : list (list T)) k :
  1 <= chunkSize -> wellChunked chunkSize chunks -> (k < length chunks)%nat ->
  chunks !! k =
    Some (take (Z.to_nat chunkSize) (drop (k * Z.to_nat chunkSize) (concat chunks))).
Proof.
  intros Hsize. revert k. induction chunks as [|chunk chunks IH]; intros k Hwell Hk.
  { cbn in Hk. lia. }
  pose proof (wellChunked_tail _ _ _ Hwell) as Htail.
  destruct Hwell as [Hfull Hsome]. cbn [concat].
  destruct chunks as [|chunk' chunks].
  - destruct k as [|k]; [|cbn in Hk; lia].
    destruct (Hsome chunk) as [Hpos Hle]; [by left|].
    cbn [lookup list_lookup concat Nat.mul]. rewrite app_nil_r, drop_0.
    by rewrite take_ge by lia.
  - assert (Hc : Z.of_nat (length chunk) = chunkSize)
      by (apply (Hfull 0%nat); [done|cbn; lia]).
    destruct k as [|k].
    + change ((chunk :: chunk' :: chunks) !! 0%nat) with (Some chunk).
      cbn [Nat.mul]. rewrite drop_0.
      by rewrite take_app_length' by lia.
    + change ((chunk :: chunk' :: chunks) !! S k) with ((chunk' :: chunks) !! k).
      rewrite (IH k Htail) by (cbn in *; lia).
      f_equal. f_equal.
      replace (S k * Z.to_nat chunkSize)%nat
        with (length chunk + k * Z.to_nat chunkSize)%nat by lia.
      by rewrite drop_app_add.
Qed.

(** X20. With a chunk size of at least one [chunkArray] cuts an array of n
    elements into the ceiling of n over the size many chunks, the k-th of
    which is the size many elements from position k times the size on, as
    many as there are.  So a size that is not below the length of a
    non-empty array gives that array as the only chunk.  The empty array
    gives no chunk whatever the size, also for a size of zero or below. *)
Theorem X20_number_of_chunks :
  (forall T fuel (array : list T) chunkSize chunks,
     1 <= chunkSize -> chunkArray fuel array chunkSize = Some chunks ->
     Z.of_nat (length chunks) = (Z.of_nat (length array) + chunkSize - 1) / chunkSize /\
     (forall k, (k < length chunks)%nat ->
        chunks !! k =
          Some (take (Z.to_nat chunkSize) (drop (k * Z.to_nat chunkSize) array))) /\
     (array <> [] -> Z.of_nat (length array) <= chunkSize -> chunks = [array])) /\
  (forall T fuel chunkSize, chunkArray (S fuel) (@nil T) chunkSize = Some []).
Proof.
  split; [|done].
  intros T fuel array chunkSize chunks Hsize H.
  destruct (chunkArray_wellChunked _ _ _ _ Hsize H) as [Hcat Hwell].
  pose proof (wellChunked_count _ _ Hsize Hwell) as Hcount.
  rewrite Hcat in Hcount.
  split_and!; [done| |].
  - intros k Hk. rewrite <- Hcat. by apply wellChunked_lookup.
  - intros Hne Hle.
    assert (Hone : length chunks = 1%nat).
    { apply Nat2Z.inj. rewrite Hcount.
      destruct array as [|x array]; [done|]. cbn [length] in *.
      symmetry. apply Z.div_unique with (r := Z.of_nat (S (length array)) - 1); lia. }
    destruct chunks as [|chunk [|? ?]]; try done.
    cbn in Hcat. rewrite app_nil_r in Hcat. by subst.
Qed.

Lemma X20_witness :
  match chunkArray 8 sampleUrls 2 with
  | Some chunks => length chunks = 3%nat
  | None => False
  end.
Proof.
  destruct (chunkArray 8 sampleUrls 2) as [chunks|] eqn:H; [|vm_compute in H; discriminate].
  destruct (proj1 X20_number_of_chunks string 8%nat sampleUrls 2 chunks) as (Hcount & _);
    [lia|done|].
  apply Nat2Z.inj. rewrite Hcount. reflexivity.
Defined.

(** ** The DOM scan of the alt-text checker *)

Lemma length_omap_le {X Y} (f : X -> option Y) (l : list X) :
  (length (omap f l) <= length l)%nat.
Proof.
  induction l as [|x l IH]; [done|]. cbn. destruct (f x); cbn; lia.
Qed.

(** X21. The scan of the alt-text checker reports at most one finding per
    image, in document order.  An image without [alt] attribute is an
    error whatever else it has; an image whose [alt] is the empty string
    is never reported; an image whose [alt] is not empty but blank when
    trimmed, or shorter than three characters, is an error; and a warning
    is only given for an [alt] of three characters or more which, in lower
    case, contains image, picture or photo or starts with img_.  No other
    severity occurs, and every finding names its image. *)
Theorem X21_alt_text_scan :
  forall js,
    (forall images1 images2,
       altTextScan js (images1 ++ images2) = altTextScan js images1 ++ altTextScan js images2) /\
    (forall images, (length (altTextScan js images) <= length images)%nat) /\
    (forall img,
       Img.hasAltAttribute img = false ->
       exists finding,
         altTextScan js [img] = [finding] /\
         Raw.severity finding = "error" /\
         Raw.message finding = "Image missing alt attribute") /\
    (forall img,
       Img.hasAltAttribute img = true -> Img.alt img = EmptyString ->
       altTextScan js [img] = []) /\
    (forall img,
       Img.hasAltAttribute img = true -> Img.alt img <> EmptyString ->
       trim js (Img.alt img) = EmptyString \/ (String.length (Img.alt img) < 3)%nat ->
       exists finding,
         altTextScan js [img] = [finding] /\
         Raw.severity finding = "error" /\
         Raw.message finding = "Image has insufficient alt text") /\
    (forall img finding,
       finding ∈ altTextScan js [img] -> Raw.severity finding = "warning" ->
       Img.hasAltAttribute img = true /\
       (3 <= String.length (Img.alt img))%nat /\
       trim js (Img.alt img) <> EmptyString /\
       (includes (toLowerCase js (Img.alt img)) "image" = true \/
        includes (toLowerCase js (Img.alt img)) "picture" = true \/
        includes (toLowerCase js (Img.alt img)) "photo" = true \/
        String.prefix "img_" (toLowerCase js (Img.alt img)) = true)) /\
    (forall images finding,
       finding ∈ altTextScan js images ->
       (Raw.severity finding = "error" \/ Raw.severity finding = "warning") /\
       exists img, img ∈ images /\ Raw.element finding = Some (imgElement js img)) /\
    (forall page config images,
       Dom.evaluate page CheckType.ALT_TEXT None = Some (altTextScan js images) ->
       exists result,
         outcome (Checker.check AltTextChecker page config) = Ok result /\
         (length (CheckerResult.issues result) <= length images)%nat /\
         forall issue, issue ∈ CheckerResult.issues result ->
           exists finding img,
             finding ∈ altTextScan js images /\ img ∈ images /\
             Issue.element issue = Some (imgElement js img) /\
             Issue.message issue = Raw.message finding /\
             Issue.severity issue =
               (if String.eqb (Raw.severity finding) "error"
                then Severity.ERROR else Severity.WARNING)).
Proof.
  intros js.
  assert (Hlen : forall s, (0 <? String.length s)%nat = false <-> s = EmptyString).
  { intros s. rewrite Nat.ltb_ge. destruct s; cbn; split; try done; lia. }
  assert (Hfinding : forall images finding,
            finding ∈ altTextScan js images ->
            (Raw.severity finding = "error" \/ Raw.severity finding = "warning") /\
            exists img, img ∈ images /\ Raw.element finding = Some (imgElement js img)).
  { intros images finding (img & Hin & Hf)%list_elem_of_omap.
    split; [|exists img; split; [done|]];
      unfold altTextFinding in Hf;
      repeat (match type of Hf with
              | (if ?b then _ else _) = _ => destruct b
              end); by simplify_eq; auto. }
  split_and!.
  - intros images1 images2. apply omap_app.
  - intros images. unfold altTextScan. apply length_omap_le.
  - intros img Hno. unfold altTextScan, altTextFinding. cbn [omap list_omap].
    rewrite Hno. cbn [negb]. eexists. by split_and!.
  - intros img Hattr Halt. unfold altTextScan, altTextFinding. cbn [omap list_omap].
    rewrite Hattr, Halt. cbn. done.
  - intros img Hattr Halt Hshort. unfold altTextScan, altTextFinding. cbn [omap list_omap].
    rewrite Hattr. cbn [negb].
    assert (String.eqb (Img.alt img) EmptyString = false) as -> by (by apply String.eqb_neq).
    assert (negb (truthy (Img.alt img) && (0 <? String.length (trim js (Img.alt img)))%nat)
            || (String.length (Img.alt img) <? 3)%nat = true) as ->.
    { destruct Hshort as [Hblank|Hshort].
      - rewrite Hblank. cbn. by rewrite andb_false_r.
      - apply Nat.ltb_lt in Hshort. rewrite Hshort. apply orb_true_r. }
    cbn. eexists. by split_and!.
  - intros img finding. unfold altTextScan, altTextFinding. cbn [omap list_omap].
    destruct (Img.hasAltAttribute img); cbn [negb].
    2:{ intros ->%list_elem_of_singleton. done. }
    destruct (negb (String.eqb _ _) && _) eqn:E1.
    { intros ->%list_elem_of_singleton. done. }
    destruct (_ && (_ || _ || _ || _)) eqn:E2.
    2:{ by intros ?%elem_of_nil. }
    intros _ _.
    apply andb_true_iff in E2 as [[Htruthy Htrim]%andb_true_iff Hwords].
    rewrite Htruthy, Htrim in E1.
    apply truthy_true in Htruthy.
    assert (String.eqb (Img.alt img) EmptyString = false) as Hne by (by apply String.eqb_neq).
    rewrite Hne in E1. cbn [negb andb orb] in E1. apply Nat.ltb_ge in E1.
    split_and!; [done|done| |].
    + intros Hblank. rewrite Hblank in Htrim. done.
    + rewrite !orb_true_iff in Hwords. tauto.
  - apply Hfinding.
  - intros page config images Hscan. cbn. rewrite Hscan.
    eexists. split; [done|]. cbn [CheckerResult.issues]. split.
    + rewrite length_imap. apply length_omap_le.
    + intros issue (n & finding & -> & Hn)%elem_of_lookup_imap.
      assert (Hin : finding ∈ altTextScan js images) by (by eapply list_elem_of_lookup_2).
      destruct (Hfinding images finding Hin) as (_ & img & Himg & Hel).
      exists finding, img. by split_and!.
Qed.

Lemma X21_witness :
  Raw.message <$> altTextScan asciiMethods sampleImages
  = ["Image missing alt attribute"; "Alt text may be redundant or non-descriptive"].
Proof.
  destruct (X21_alt_text_scan asciiMethods) as (Happ & _ & Hmissing & Hdecorative & _).
  change sampleImages with ([logoWithoutAlt] ++ [decorativeRule] ++ [teamPhoto; campusMap]).
  rewrite !Happ.
  destruct (Hmissing logoWithoutAlt eq_refl) as (finding & -> & _ & Hm).
  rewrite (Hdecorative decorativeRule eq_refl eq_refl).
  cbn [app fmap list_fmap]. rewrite Hm. f_equal.
Defined.

(** ** The DOM scan of the heading checker *)

Lemma headingTurn_appends js maxJump previousLevel results heading :
  headingTurn js maxJump (previousLevel, results) heading =
    (levelOf heading, results ++ turnFindings js maxJump previousLevel heading).
Proof.
  unfold turnFindings, headingTurn, levelOf. cbn [fst snd].
  repeat (match goal with |- context [if ?b then _ else _] => destruct b end);
    cbn [app]; rewrite ?app_nil_r, <- ?app_assoc; done.
Qed.

Lemma headingLoop_appends js maxJump previousLevel results headings :
  (foldl (headingTurn js maxJump) (previousLevel, results) headings).2 =
    results ++ (foldl (headingTurn js maxJump) (previousLevel, []) headings).2.
Proof.
  revert previousLevel results.
  induction headings as [|heading headings IH]; intros previousLevel results.
  { cbn. by rewrite app_nil_r. }
  cbn [foldl]. rewrite !headingTurn_appends, IH.
  rewrite (IH _ ([] ++ _)). cbn [app]. by rewrite app_assoc.
Qed.

Lemma headingLoop_cons js maxJump previousLevel heading headings :
  (foldl (headingTurn js maxJump) (previousLevel, []) (heading :: headings)).2 =
    turnFindings js maxJump previousLevel heading ++
    (foldl (headingTurn js maxJump) (levelOf heading, []) headings).2.
Proof.
  cbn [foldl]. rewrite headingTurn_appends, headingLoop_appends. done.
Qed.

(** What a turn can add: at most four findings, all about its heading. *)
Lemma turnFindings_kinds js maxJump previousLevel heading finding :
  finding ∈ turnFindings js maxJump previousLevel heading ->
  (Raw.severity finding = "error" /\ Raw.message finding = "Empty heading found" /\
   truthy (headingText js heading) = false) \/
  (Raw.severity finding = "warning" /\ aboutSkippedLevel finding /\
   isPositive previousLevel && exceeds (levelOf heading) previousLevel maxJump = true) \/
  (Raw.severity finding = "info" /\ Raw.message finding = "Heading text is very long" /\
   (120 < String.length (headingText js heading))%nat) \/
  (Raw.severity finding = "warning" /\
   Raw.message finding = "Heading contains only numbers or symbols" /\
   matchesNumbersAndSymbols js (headingText js heading) = true).
Proof.
  unfold turnFindings, headingTurn, levelOf, aboutSkippedLevel. cbn [fst snd].
  destruct (truthy (headingText js heading)) eqn:E1;
    destruct (isPositive previousLevel && _) eqn:E2;
    destruct (120 <? String.length (headingText js heading))%nat eqn:E3;
    destruct (matchesNumbersAndSymbols js (headingText js heading)) eqn:E4;
    cbn [negb app]; rewrite ?elem_of_cons, ?elem_of_nil;
    try apply Nat.ltb_lt in E3;
    intros H; repeat destruct H as [H|H]; try done; subst finding; cbn; tauto.
Qed.

Lemma turnFindings_none js maxJump previousLevel heading :
  turnFindings js maxJump previousLevel heading = [] <->
  headingText js heading <> EmptyString /\
  isPositive previousLevel && exceeds (levelOf heading) previousLevel maxJump = false /\
  (String.length (headingText js heading) <= 120)%nat /\
  matchesNumbersAndSymbols js (headingText js heading) = false.
Proof.
  rewrite <- truthy_true.
  unfold turnFindings, headingTurn, levelOf. cbn [fst snd].
  destruct (truthy (headingText js heading)) eqn:E1;
    destruct (isPositive previousLevel && _) eqn:E2;
    destruct (120 <? String.length (headingText js heading))%nat eqn:E3;
    destruct (matchesNumbersAndSymbols js (headingText js heading)) eqn:E4;
    cbn [negb app];
    first [apply Nat.ltb_lt in E3 | apply Nat.ltb_ge in E3];
    split; intros H; try done;
    try (destruct H as (? & ? & ? & ?); done || lia);
    try (split_and!; done || lia).
Qed.

Lemma turnFindings_length js maxJump previousLevel heading :
  (length (turnFindings js maxJump previousLevel heading) <= 4)%nat.
Proof.
  unfold turnFindings, headingTurn. cbn [fst snd].
  repeat (match goal with |- context [if ?b then _ else _] => destruct b end);
    cbn; lia.
Qed.

Lemma turnFindings_infos js maxJump previousLevel heading :
  length (filter (fun finding => Raw.severity finding = "info")
                 (turnFindings js maxJump previousLevel heading)) =
  if (120 <? String.length (headingText js heading))%nat then 1%nat else 0%nat.
Proof.
  unfold turnFindings, headingTurn. cbn [fst snd].
  repeat (match goal with |- context [if ?b then _ else _] => destruct b end);
    cbn [negb app]; rewrite ?filter_cons, ?filter_nil; cbn;
    repeat case_decide; done.
Qed.

Lemma headingLoop_kinds js maxJump previousLevel headings finding :
  finding ∈ (foldl (headingTurn js maxJump) (previousLevel, []) headings).2 ->
  exists previous heading,
    heading ∈ headings /\ finding ∈ turnFindings js maxJump previous heading.
Proof.
  revert previousLevel.
  induction headings as [|heading headings IH]; intros previousLevel.
  { by intros ?%elem_of_nil. }
  rewrite headingLoop_cons, elem_of_app. intros [H|H].
  - exists previousLevel, heading. split; [by left|done].
  - destruct (IH _ H) as (previous & heading' & Hin & Hf).
    exists previous, heading'. split; [by right|done].
Qed.

Lemma headingLoop_none js maxJump previousLevel headings :
  (foldl (headingTurn js maxJump) (previousLevel, []) headings).2 = [] <->
  Forall (fun heading =>
            headingText js heading <> EmptyString /\
            (String.length (headingText js heading) <= 120)%nat /\
            matchesNumbersAndSymbols js (headingText js heading) = false) headings /\
  steady maxJump previousLevel headings.
Proof.
  revert previousLevel.
  induction headings as [|heading headings IH]; intros previousLevel.
  { cbn. split; [by split|done]. }
  rewrite headingLoop_cons, Forall_cons. cbn [steady]. split.
  - intros [Hturn Hrest]%app_eq_nil.
    apply turnFindings_none in Hturn. apply IH in Hrest. tauto.
  - intros [[Hheading Hall] [Hstep Hsteady]].
    rewrite (proj2 (turnFindings_none js maxJump previousLevel heading)) by tauto.
    cbn [app]. apply IH. tauto.
Qed.

Lemma headingLoop_length js maxJump previousLevel headings :
  (length (foldl (headingTurn js maxJump) (previousLevel, []) headings).2
   <= 4 * length headings)%nat.
Proof.
  revert previousLevel.
  induction headings as [|heading headings IH]; intros previousLevel; [cbn; lia|].
  rewrite headingLoop_cons, length_app. cbn [length].
  pose proof (turnFindings_length js maxJump previousLevel heading).
  specialize (IH (levelOf heading)). lia.
Qed.

Lemma headingLoop_infos js maxJump previousLevel headings :
  length (filter (fun finding => Raw.severity finding = "info")
                 (foldl (headingTurn js maxJump) (previousLevel, []) headings).2) =
  length (filter (fun heading => (120 < String.length (headingText js heading))%nat)
                 headings).
Proof.
  revert previousLevel.
  induction headings as [|heading headings IH]; intros previousLevel; [done|].
  rewrite headingLoop_cons, filter_app, length_app, IH, turnFindings_infos, filter_cons.
  destruct (120 <? String.length (headingText js heading))%nat eqn:E.
  - apply Nat.ltb_lt in E. by rewrite decide_True.
  - apply Nat.ltb_ge in E. rewrite decide_False by lia. done.
Qed.

(** With a negative allowed jump a heading at the level of the one before
    it is reported as skipping a level. *)
Lemma turnFindings_negative_jump js maxJump previousLevel heading level :
  previousLevel = Some level -> levelOf heading = Some level -> 0 < level ->
  (maxJump < 0)%Q ->
  isPositive previousLevel && exceeds (levelOf heading) previousLevel maxJump = true /\
  exists finding,
    finding ∈ turnFindings js maxJump previousLevel heading /\
    Raw.severity finding = "warning" /\ aboutSkippedLevel finding.
Proof.
  intros -> Hl Hpos Hneg.
  assert (Hcond : isPositive (Some level) && exceeds (levelOf heading) (Some level) maxJump
                  = true).
  { rewrite Hl. cbn [isPositive exceeds]. apply andb_true_iff. split; [by apply Z.ltb_lt|].
    destruct (Qle_bool _ _) eqn:E; [|done].
    apply Qle_bool_iff in E. exfalso. apply (Qlt_not_le _ _ Hneg).
    apply (Qplus_le_r _ _ (inject_Z level)). by rewrite Qplus_0_r. }
  split; [done|].
  unfold turnFindings, headingTurn. cbn [fst snd].
  fold (levelOf heading). rewrite Hcond.
  assert (Hin : forall (l : list Raw.t) x, x ∈ l ++ [x])
    by (intros; apply elem_of_app; right; by left).
  repeat match goal with |- context [if ?b then _ else _] => destruct b end;
    (eexists; split;
     [apply Hin + (apply elem_of_app; left; (apply Hin + (apply elem_of_app; left; apply Hin)))|];
     by split).
Qed.

(** X22. The scan of the heading checker.  A document without headings
    gets one warning and nothing else.  Otherwise the scan is silent
    exactly when the document has one [h1], every heading has a text that
    is not empty, has at most 120 characters and is more than numbers and
    symbols, and no heading lies more than the allowed jump below the one
    before it.  The first heading is never reported for its level.  When
    the allowed jump is not negative, as the command line and the default
    configuration have it, neither is a heading that is not below the one
    before it; with a negative allowed jump a heading at the level of the
    one before it is reported as skipping a level.  The only errors are
    the missing [h1] and the empty heading, the infos are the headings
    that are too long, one each, and there are at most one finding for the
    document and four per heading. *)
Theorem X22_heading_scan :
  forall js maxJump,
    (exists finding,
       headingScan js maxJump [] = [finding] /\
       Raw.severity finding = "warning" /\ Raw.element finding = None /\
       Raw.message finding = "No headings found on page") /\
    (forall headings,
       headingScan js maxJump headings = [] <->
       headings <> [] /\
       length (filter (fun h => toLowerCase js (Heading.tagName h) = "h1") headings) = 1%nat /\
       Forall (fun heading =>
                 headingText js heading <> EmptyString /\
                 (String.length (headingText js heading) <= 120)%nat /\
                 matchesNumbersAndSymbols js (headingText js heading) = false) headings /\
       steady maxJump (Some 0) headings) /\
    (forall heading headings,
       steady maxJump (Some 0) (heading :: headings) <->
       steady maxJump (levelOf heading) headings) /\
    (forall previousLevel heading headings level level',
       previousLevel = Some level -> levelOf heading = Some level' -> level' <= level ->
       (0 <= maxJump)%Q ->
       steady maxJump previousLevel (heading :: headings) <->
       steady maxJump (levelOf heading) headings) /\
    (forall previousLevel heading headings level,
       previousLevel = Some level -> levelOf heading = Some level -> 0 < level ->
       (maxJump < 0)%Q ->
       ~ steady maxJump previousLevel (heading :: headings) /\
       exists finding,
         finding ∈ turnFindings js maxJump previousLevel heading /\
         Raw.severity finding = "warning" /\ aboutSkippedLevel finding) /\
    (forall headings finding,
       finding ∈ headingScan js maxJump headings -> Raw.severity finding = "error" ->
       (Raw.message finding = "No H1 heading found" /\
        Forall (fun h => toLowerCase js (Heading.tagName h) <> "h1") headings) \/
       (Raw.message finding = "Empty heading found" /\
        exists heading, heading ∈ headings /\ headingText js heading = EmptyString)) /\
    (forall headings,
       headings <> [] ->
       length (filter (fun finding => Raw.severity finding = "info")
                      (headingScan js maxJump headings)) =
       length (filter (fun heading => (120 < String.length (headingText js heading))%nat)
                      headings)) /\
    (forall headings,
       (length (headingScan js maxJump headings) <= 1 + 4 * length headings)%nat).
Proof.
  intros js maxJump.
  assert (Hscan : forall headings, headings <> [] ->
            exists document,
              headingScan js maxJump headings =
                document ++ (foldl (headingTurn js maxJump) (Some 0, []) headings).2 /\
              (length document <= 1)%nat /\
              (document = [] <->
               length (filter (fun h => toLowerCase js (Heading.tagName h) = "h1")
                              headings) = 1%nat) /\
              (forall finding, finding ∈ document ->
                 Raw.severity finding <> "info" /\
                 (Raw.severity finding = "error" ->
                  Raw.message finding = "No H1 heading found" /\
                  Forall (fun h => toLowerCase js (Heading.tagName h) <> "h1") headings))).
  { intros headings Hne. unfold headingScan.
    rewrite bool_decide_false by (by destruct headings).
    cbn zeta. rewrite headingLoop_appends.
    set (h1Count := length (filter _ headings)).
    eexists. split; [reflexivity|].
    case_bool_decide as Hzero; [|case_bool_decide as Hmany].
    - split_and!; [cbn; lia|split; [done|lia]|].
      intros finding ->%list_elem_of_singleton. cbn. split; [done|]. intros _.
      split; [done|]. apply Forall_forall. intros h Hin Hh1.
      assert (Hf : h ∈ filter (fun h => toLowerCase js (Heading.tagName h) = "h1") headings)
        by (by apply list_elem_of_filter).
      subst h1Count. destruct (filter _ headings); [by apply elem_of_nil in Hf|done].
    - split_and!; [cbn; lia|split; [done|lia]|].
      intros finding ->%list_elem_of_singleton. cbn. by split.
    - split_and!; [cbn; lia|split; [lia|done]|]. by intros finding ?%elem_of_nil. }
  split_and!.
  - unfold headingScan. rewrite bool_decide_true by done. eexists. by split_and!.
  - intros headings. destruct (decide (headings = [])) as [->|Hne].
    { unfold headingScan. rewrite bool_decide_true by done.
      split; [done|]. by intros [? _]. }
    destruct (Hscan headings Hne) as (document & -> & _ & Hdoc & _).
    rewrite <- Hdoc, <- headingLoop_none. split.
    + intros [? ?]%app_eq_nil. tauto.
    + intros (_ & -> & ->). done.
  - intros heading headings. cbn [steady isPositive]. cbn. tauto.
  - intros previousLevel heading headings level level' -> Hl Hle Hjump.
    cbn [steady]. rewrite Hl. cbn [exceeds isPositive].
    assert (Qle_bool (inject_Z level') (inject_Z level + maxJump) = true) as ->.
    { apply Qle_bool_iff.
      apply Qle_trans with (inject_Z level + 0)%Q.
      - rewrite Qplus_0_r. by rewrite <- Zle_Qle.
      - by apply Qplus_le_r. }
    cbn. rewrite andb_false_r. tauto.
  - intros previousLevel heading headings level Hp Hl Hpos Hneg.
    destruct (turnFindings_negative_jump js maxJump _ _ _ Hp Hl Hpos Hneg) as [Hcond Hf].
    split; [|done]. cbn [steady]. rewrite Hcond. by intros [? _].
  - intros headings finding Hin Herr. destruct (decide (headings = [])) as [->|Hne].
    { unfold headingScan in Hin. rewrite bool_decide_true in Hin by done.
      apply list_elem_of_singleton in Hin as ->. done. }
    destruct (Hscan headings Hne) as (document & Heq & _ & _ & Hdoc).
    rewrite Heq in Hin. apply elem_of_app in Hin as [Hin|Hin].
    + left. by apply Hdoc.
    + right. apply headingLoop_kinds in Hin as (previous & heading & Hh & Hf).
      apply turnFindings_kinds in Hf
        as [(_ & Hm & Ht) | [(Hs & _) | [(Hs & _) | (Hs & _)]]];
        [|rewrite Hs in Herr; discriminate..].
      split; [done|]. exists heading. split; [done|].
      by destruct (headingText js heading).
  - intros headings Hne.
    destruct (Hscan headings Hne) as (document & -> & _ & _ & Hdoc).
    rewrite filter_app, length_app, headingLoop_infos.
    rewrite length_filter_none; [done|]. intros finding Hin. by apply Hdoc.
  - intros headings. destruct (decide (headings = [])) as [->|Hne].
    { unfold headingScan. rewrite bool_decide_true by done. cbn. lia. }
    destruct (Hscan headings Hne) as (document & -> & Hlen & _).
    rewrite length_app. pose proof (headingLoop_length js maxJump (Some 0) headings). lia.
Qed.

Lemma X22_witness :
  headingScan asciiMethods 1
    [sampleHeading "H1" "Accessibility report"; sampleHeading "H2" "Findings";
     sampleHeading "H3" "Images"; sampleHeading "H2" "Next steps"] = [] /\
  ~ steady (-1) (Some 2) [sampleHeading "H2" "Findings"].
Proof.
  split.
  - destruct (X22_heading_scan asciiMethods 1) as (_ & Hsilent & _).
    apply Hsilent. split_and!; [done|done| |].
    + repeat (constructor; [split_and!; [by vm_compute|vm_compute; lia|by vm_compute]|]).
      constructor.
    + by vm_compute.
  - destruct (X22_heading_scan asciiMethods (-1)) as (_ & _ & _ & _ & Hneg & _).
    by apply (Hneg (Some 2) (sampleHeading "H2" "Findings") [] 2).
Defined.

(** ** The DOM scan of the colour contrast checker *)

Lemma truthy_length s : truthy s = negb (String.length s =? 0)%nat.
Proof. by destruct s. Qed.

Lemma contrastFinding_measured js colours thresholdRatio element :
  contrastFinding js colours thresholdRatio element =
    match contrastFinding js colours thresholdRatio element with
    | Some finding =>
        if below (measured js colours element) thresholdRatio then Some finding else None
    | None => None
    end /\
  (is_Some (contrastFinding js colours thresholdRatio element) <->
   below (measured js colours element) thresholdRatio = true) /\
  (forall finding,
     contrastFinding js colours thresholdRatio element = Some finding ->
     Raw.severity finding =
       if below (measured js colours element) 3 then "error" else "warning").
Proof.
  unfold contrastFinding, measured.
  destruct (trim js <$> TextElement.textContent element) as [text|]; cbn zeta.
  2:{ split_and!; [done| |done]. split; [by intros [? ?]|done]. }
  rewrite (truthy_length text).
  destruct (String.length text =? 0)%nat; cbn [negb orb andb].
  { split_and!; [done| |done]. split; [by intros [? ?]|done]. }
  destruct (String.eqb (TextElement.backgroundColor element) "rgba(0, 0, 0, 0)");
    cbn [negb orb andb].
  { split_and!; [done| |done]. split; [by intros [? ?]|done]. }
  destruct (String.eqb (TextElement.backgroundColor element) "transparent");
    cbn [negb orb andb].
  { split_and!; [done| |done]. split; [by intros [? ?]|done]. }
  destruct (toHex colours (TextElement.color element)) as [colorHex|].
  2:{ split_and!; [done| |done]. split; [by intros [? ?]|done]. }
  destruct (toHex colours (TextElement.backgroundColor element)) as [bgHex|].
  2:{ split_and!; [done| |done]. split; [by intros [? ?]|done]. }
  destruct (below (getContrastRatio colours colorHex bgHex) thresholdRatio) eqn:E.
  - split_and!; [done| |by intros finding [= <-]]. split; [done|by eexists].
  - split_and!; [done| |done]. split; [by intros [? ?]|done].
Qed.

Lemma below_mono ratio bound bound' :
  (bound <= bound')%Q -> below ratio bound = true -> below ratio bound' = true.
Proof.
  destruct ratio as [ratio|]; [|done]. cbn. intros Hle.
  rewrite !negb_true_iff. intros Hb.
  destruct (Qle_bool bound' ratio) eqn:E; [|done].
  apply Qle_bool_iff in E.
  assert (Qle_bool bound ratio = true); [|congruence].
  apply Qle_bool_iff. by apply Qle_trans with bound'.
Qed.

(** X23. The scan of the colour contrast checker reports at most one
    finding per text element, in document order.  It reports nothing for an
    element without text, with a transparent background, or whose colours
    cannot be read or give no number as contrast ratio.  Otherwise the
    element is reported exactly when its ratio is below the threshold, as
    an error when the ratio is below 3 and as a warning when not.  So
    raising the threshold never loses a finding, and with a configured
    threshold of 3 or less every issue of the checker is an error. *)
Theorem X23_contrast_scan :
  forall js colours,
    (forall thresholdRatio elements1 elements2,
       contrastScan js colours thresholdRatio (elements1 ++ elements2) =
       contrastScan js colours thresholdRatio elements1 ++
       contrastScan js colours thresholdRatio elements2) /\
    (forall thresholdRatio elements,
       (length (contrastScan js colours thresholdRatio elements) <= length elements)%nat) /\
    (forall thresholdRatio element,
       contrastScan js colours thresholdRatio [element] <> [] <->
       exists ratio,
         measured js colours element = Some ratio /\ (ratio < thresholdRatio)%Q) /\
    (forall thresholdRatio element,
       trim js <$> TextElement.textContent element = None \/
       trim js <$> TextElement.textContent element = Some EmptyString \/
       TextElement.backgroundColor element = "rgba(0, 0, 0, 0)" \/
       TextElement.backgroundColor element = "transparent" \/
       toHex colours (TextElement.color element) = None \/
       toHex colours (TextElement.backgroundColor element) = None ->
       contrastScan js colours thresholdRatio [element] = []) /\
    (forall thresholdRatio element finding,
       finding ∈ contrastScan js colours thresholdRatio [element] ->
       exists ratio,
         measured js colours element = Some ratio /\ (ratio < thresholdRatio)%Q /\
         (Raw.severity finding = "error" <-> (ratio < 3)%Q) /\
         (Raw.severity finding = "warning" <-> (3 <= ratio)%Q)) /\
    (forall thresholdRatio thresholdRatio' elements,
       (thresholdRatio <= thresholdRatio')%Q ->
       (length (contrastScan js colours thresholdRatio elements)
        <= length (contrastScan js colours thresholdRatio' elements))%nat) /\
    (forall page config elements,
       (Config.colorContrastRatio (Config.thresholds config) <= 3)%Q ->
       Dom.evaluate page CheckType.COLOR_CONTRAST
         (Some (Config.colorContrastRatio (Config.thresholds config))) =
         Some (contrastScan js colours
                 (Config.colorContrastRatio (Config.thresholds config)) elements) ->
       exists result,
         outcome (Checker.check ColorContrastChecker page config) = Ok result /\
         (length (CheckerResult.issues result) <= length elements)%nat /\
         forall issue, issue ∈ CheckerResult.issues result ->
           Issue.severity issue = Severity.ERROR /\
           Issue.wcagLevel issue = Config.wcagLevel config).
Proof.
  intros js colours.
  assert (Hbelow : forall ratio bound,
            below ratio bound = true <-> exists q, ratio = Some q /\ (q < bound)%Q).
  { intros [q|] bound; cbn.
    - rewrite negb_true_iff. split.
      + intros Hb. exists q. split; [done|]. apply Qnot_le_lt. intros Hle.
        apply Qle_bool_iff in Hle. congruence.
      + intros (q' & [= <-] & Hlt). destruct (Qle_bool bound q) eqn:E; [|done].
        apply Qle_bool_iff in E. by apply Qlt_not_le in Hlt.
    - split; [done|]. by intros (? & ? & _). }
  assert (Hone : forall thresholdRatio element finding,
            finding ∈ contrastScan js colours thresholdRatio [element] <->
            contrastFinding js colours thresholdRatio element = Some finding).
  { intros thresholdRatio element finding. unfold contrastScan. cbn [omap list_omap].
    destruct (contrastFinding _ _ _ element) as [f|]; cbn.
    - rewrite list_elem_of_singleton. split; [by intros ->|by intros [= ->]].
    - split; [by intros ?%elem_of_nil|done]. }
  assert (Herrors : forall thresholdRatio elements finding,
            (thresholdRatio <= 3)%Q ->
            finding ∈ contrastScan js colours thresholdRatio elements ->
            Raw.severity finding = "error").
  { intros thresholdRatio elements finding Hle (element & Hin & Hf)%list_elem_of_omap.
    destruct (contrastFinding_measured js colours thresholdRatio element)
      as (_ & Hsome & Hsev).
    rewrite (Hsev _ Hf).
    rewrite (below_mono _ thresholdRatio 3 Hle); [done|]. apply Hsome. by eexists. }
  refine (conj _ (conj _ (conj _ (conj _ (conj _ (conj _ _)))))).
  - intros. apply omap_app.
  - intros. apply length_omap_le.
  - intros thresholdRatio element. rewrite <- Hbelow.
    destruct (contrastFinding_measured js colours thresholdRatio element) as (_ & <- & _).
    unfold contrastScan. cbn [omap list_omap].
    destruct (contrastFinding _ _ _ element); cbn; split.
    + intros _. by eexists.
    + done.
    + done.
    + by intros [? ?].
  - intros thresholdRatio element Hskip. unfold contrastScan. cbn [omap list_omap].
    assert (contrastFinding js colours thresholdRatio element = None) as ->; [|done].
    unfold contrastFinding.
    destruct Hskip as [-> | [-> | [Ht | [Ht | [Hc | Hb]]]]]; try done.
    + destruct (trim js <$> _) as [text|]; [|done]. cbn zeta.
      destruct (_ || _); [done|]. by rewrite Ht.
    + destruct (trim js <$> _) as [text|]; [|done]. cbn zeta.
      destruct (_ || _); [done|]. rewrite Ht. cbn. done.
    + destruct (trim js <$> _) as [text|]; [|done]. cbn zeta.
      destruct (_ || _); [done|]. destruct (_ || _); [done|]. by rewrite Hc.
    + destruct (trim js <$> _) as [text|]; [|done]. cbn zeta.
      destruct (_ || _); [done|]. destruct (_ || _); [done|]. rewrite Hb.
      by destruct (toHex colours (TextElement.color element)).
  - intros thresholdRatio element finding Hin%Hone.
    destruct (contrastFinding_measured js colours thresholdRatio element)
      as (_ & Hsome & Hsev).
    assert (Hb : below (measured js colours element) thresholdRatio = true)
      by (apply Hsome; by eexists).
    apply Hbelow in Hb as (ratio & Hm & Hlt).
    exists ratio. refine (conj Hm (conj Hlt (conj _ _))).
    + rewrite (Hsev _ Hin), Hm.
      destruct (below (Some ratio) 3) eqn:E.
      * apply Hbelow in E as (q & [= <-] & Hq). by split.
      * split; [done|]. intros Hq.
        assert (below (Some ratio) 3 = true) by (apply Hbelow; eauto). congruence.
    + rewrite (Hsev _ Hin), Hm.
      destruct (below (Some ratio) 3) eqn:E.
      * apply Hbelow in E as (q & [= <-] & Hq). split; [done|].
        intros Hle. by apply Qlt_not_le in Hq.
      * split; [|done]. intros _. apply Qnot_lt_le. intros Hq.
        assert (below (Some ratio) 3 = true) by (apply Hbelow; eauto). congruence.
  - intros thresholdRatio thresholdRatio' elements Hle. unfold contrastScan.
    induction elements as [|element elements IH]; [done|]. cbn [omap list_omap].
    destruct (contrastFinding_measured js colours thresholdRatio element)
      as (_ & Hsome & _).
    destruct (contrastFinding_measured js colours thresholdRatio' element)
      as (_ & Hsome' & _).
    destruct (contrastFinding js colours thresholdRatio element) as [f|] eqn:E.
    + destruct (contrastFinding js colours thresholdRatio' element) as [f'|] eqn:E'.
      * cbn. lia.
      * assert (Hb : below (measured js colours element) thresholdRatio = true)
          by (apply Hsome; by eexists).
        apply (below_mono _ _ _ Hle), Hsome' in Hb. by destruct Hb.
    + destruct (contrastFinding js colours thresholdRatio' element); cbn; lia.
  - intros page config elements Hle Hscan. cbn. rewrite Hscan.
    eexists. split; [done|]. cbn [CheckerResult.issues]. split.
    + rewrite length_imap. apply length_omap_le.
    + intros issue (n & finding & -> & Hn)%elem_of_lookup_imap.
      assert (Hin : finding ∈ contrastScan js colours
                       (Config.colorContrastRatio (Config.thresholds config)) elements)
        by (by eapply list_elem_of_lookup_2).
      cbn. by rewrite (Herrors _ _ _ Hle Hin).
Qed.

Lemma X23_witness :
  (3 <= 45 # 10)%Q /\
  (length (contrastScan asciiMethods greyLevels 3
             [greyText "12345" "1"; greyText "1234567" "1"; greyText "1" "1234"])
   <= length (contrastScan asciiMethods greyLevels (45 # 10)
                [greyText "12345" "1"; greyText "1234567" "1"; greyText "1" "1234"]))%nat.
Proof.
  destruct (X23_contrast_scan asciiMethods greyLevels)
    as (_ & _ & _ & _ & _ & Hmono & _).
  split; [done|]. by apply Hmono.
Defined.

(** ** The DOM scan of the form labels checker *)

Lemma labelFinding_cases js control :
  match labelling js control with
  | None =>
      exists finding,
        labelFinding js control = Some finding /\
        if notBlank js (Control.placeholder control)
        then Raw.severity finding = "warning" /\
             Raw.message finding = "Form control relies only on placeholder text"
        else Raw.severity finding = "error" /\
             Raw.message finding = "Form control missing label"
  | Some (labelText, labelMethod) =>
      match String.length labelText with
      | 0%nat =>
          exists finding,
            labelFinding js control = Some finding /\
            Raw.severity finding = "error" /\
            Raw.message finding = "Form control has empty label" /\
            Raw.description finding =
              "Form control has " +:+ labelMethod +:+ " but the label text is empty"
      | 1%nat =>
          exists finding,
            labelFinding js control = Some finding /\
            Raw.severity finding = "warning" /\
            Raw.message finding = "Form control has very short label"
      | _ => labelFinding js control = None
      end
  end.
Proof.
  unfold labelFinding. destruct (labelling js control) as [[labelText labelMethod]|].
  - rewrite bool_decide_eq_true_2 by (by eexists). cbn [negb andb fmap option_fmap
      option_map default from_option id fst snd].
    destruct (String.length labelText) as [|[|n]]; cbn [Nat.eqb Nat.ltb Nat.leb].
    + eexists. by split_and!.
    + eexists. by split_and!.
    + done.
  - rewrite bool_decide_eq_false_2 by (by intros [? ?]). cbn [negb andb].
    destruct (notBlank js (Control.placeholder control)); cbn [negb];
      eexists; by split_and!.
Qed.

Lemma labelling_explicit js control textContent :
  Control.id control <> EmptyString ->
  Control.labelFor control = Some textContent ->
  labelling js control =
    Some (or_else (trim js <$> textContent) EmptyString, "explicit label").
Proof.
  intros Hid Hfor. unfold labelling. rewrite Hfor.
  assert (truthy (Control.id control) = true) as ->.
  { unfold truthy. apply negb_true_iff. by apply String.eqb_neq. }
  done.
Qed.

Lemma labelling_aria_not_empty js control labelText labelMethod :
  labelling js control = Some (labelText, labelMethod) ->
  labelMethod = "aria-label" \/ labelMethod = "title attribute" ->
  labelText <> EmptyString.
Proof.
  unfold labelling, unlessLabelled.
  set (explicit := if truthy _ then _ else _).
  assert (Hexplicit : explicit = None \/ exists text, explicit = Some (text, "explicit label")).
  { subst explicit. destruct (truthy _); [|by left].
    destruct (Control.labelFor control); [right; by eexists|by left]. }
  clearbody explicit. destruct Hexplicit as [-> | (text & ->)].
  2:{ intros [= <- <-]. by intros [?|?]. }
  destruct (Control.closestLabel control).
  { intros [= <- <-]. by intros [?|?]. }
  destruct (notBlank js (Control.ariaLabel control)) eqn:Ea.
  { intros [= <- <-] _. unfold notBlank in Ea.
    destruct (Control.ariaLabel control) as [a|]; [|done].
    apply andb_true_iff in Ea as [_ Ha]. cbn. by apply truthy_true in Ha. }
  destruct (match Control.ariaLabelledby control with Some _ => _ | None => _ end)
    as [[? ?]|] eqn:El.
  { intros [= <- <-]. destruct (Control.ariaLabelledby control); [|done].
    destruct (_ && _); [|done]. injection El as <- <-. by intros [?|?]. }
  destruct (notBlank js (Control.title control)) eqn:Et; [|done].
  intros [= <- <-] _. unfold notBlank in Et.
  destruct (Control.title control) as [a|]; [|done].
  apply andb_true_iff in Et as [_ Ha]. cbn. by apply truthy_true in Ha.
Qed.

(** X24. The scan of the form labels checker reports at most one finding
    per form control and one per required field.  A label element wins
    over the attributes: a control whose [label for] has no text is
    reported with an empty label, an error, even when it has an
    [aria-label] or a [title]; labels from [aria-label] and [title] are
    never reported as empty.  A control without any label is an error,
    unless it has a placeholder, which makes it a warning.  Wherever the
    label comes from, a label element, [aria-label], [aria-labelledby] or
    [title]: a label without text is the one error of the empty label, a
    label of one character is the one warning of the very short label, and
    a longer one is accepted.  A required field is reported, with the one
    warning that it is not properly indicated, unless it has
    [aria-required] true, an asterisk in its label or the word required in
    its parent.  The issues of the checker are of level A whatever level
    is configured. *)
Theorem X24_form_labels_scan :
  forall js,
    (forall formControls requiredFields,
       (length (formLabelsScan js formControls requiredFields)
        <= length formControls + length requiredFields)%nat) /\
    (forall control textContent,
       Control.id control <> EmptyString ->
       Control.labelFor control = Some textContent ->
       or_else (trim js <$> textContent) EmptyString = EmptyString ->
       exists finding,
         formLabelsScan js [control] [] = [finding] /\
         Raw.severity finding = "error" /\
         Raw.message finding = "Form control has empty label" /\
         Raw.description finding =
           "Form control has explicit label but the label text is empty") /\
    (forall control labelText labelMethod finding,
       labelling js control = Some (labelText, labelMethod) ->
       labelMethod = "aria-label" \/ labelMethod = "title attribute" ->
       finding ∈ formLabelsScan js [control] [] ->
       Raw.message finding = "Form control has very short label") /\
    (forall control,
       labelling js control = None ->
       exists finding,
         formLabelsScan js [control] [] = [finding] /\
         if notBlank js (Control.placeholder control)
         then Raw.severity finding = "warning" /\
              Raw.message finding = "Form control relies only on placeholder text"
         else Raw.severity finding = "error" /\
              Raw.message finding = "Form control missing label") /\
    (forall control labelText labelMethod,
       labelling js control = Some (labelText, labelMethod) ->
       (formLabelsScan js [control] [] = [] <-> (2 <= String.length labelText)%nat) /\
       (String.length labelText = 1%nat ->
        exists finding,
          formLabelsScan js [control] [] = [finding] /\
          Raw.severity finding = "warning" /\
          Raw.message finding = "Form control has very short label") /\
       (String.length labelText = 0%nat ->
        exists finding,
          formLabelsScan js [control] [] = [finding] /\
          Raw.severity finding = "error" /\
          Raw.message finding = "Form control has empty label" /\
          Raw.description finding =
            "Form control has " +:+ labelMethod +:+ " but the label text is empty")) /\
    (forall field,
       (formLabelsScan js [] [field] = [] <->
        Field.ariaRequired field = Some "true" \/
        mentions (Field.closestLabel field) "*" = true \/
        mentions (Field.parentElement field) "required" = true \/
        mentions (Field.parentElement field) "Required" = true) /\
       (formLabelsScan js [] [field] <> [] ->
        exists finding,
          formLabelsScan js [] [field] = [finding] /\
          Raw.severity finding = "warning" /\
          Raw.message finding = "Required field not properly indicated")) /\
    (forall formControls requiredFields finding,
       finding ∈ formLabelsScan js formControls requiredFields ->
       (Raw.severity finding = "error" /\
        (Raw.message finding = "Form control missing label" \/
         Raw.message finding = "Form control has empty label")) \/
       (Raw.severity finding = "warning" /\
        (Raw.message finding = "Form control relies only on placeholder text" \/
         Raw.message finding = "Form control has very short label" \/
         Raw.message finding = "Required field not properly indicated"))) /\
    (forall page config formControls requiredFields,
       Dom.evaluate page CheckType.FORM_LABELS None =
         Some (formLabelsScan js formControls requiredFields) ->
       exists result,
         outcome (Checker.check FormLabelsChecker page config) = Ok result /\
         (length (CheckerResult.issues result)
          <= length formControls + length requiredFields)%nat /\
         forall issue, issue ∈ CheckerResult.issues result ->
           Issue.wcagLevel issue = WcagLevel.A).
Proof.
  intros js.
  assert (Hlen : forall formControls requiredFields,
            (length (formLabelsScan js formControls requiredFields)
             <= length formControls + length requiredFields)%nat).
  { intros formControls requiredFields. unfold formLabelsScan. rewrite length_app.
    pose proof (length_omap_le (labelFinding js) formControls).
    pose proof (length_omap_le (requiredFinding js) requiredFields). lia. }
  assert (Hone : forall control,
            formLabelsScan js [control] [] = option_list (labelFinding js control)).
  { intros control. unfold formLabelsScan. cbn [omap list_omap].
    destruct (labelFinding js control); by cbn. }
  refine (conj Hlen (conj _ (conj _ (conj _ (conj _ (conj _ (conj _ _))))))).
  - intros control textContent Hid Hfor Hempty. rewrite Hone.
    pose proof (labelFinding_cases js control) as Hcases.
    rewrite (labelling_explicit js control textContent Hid Hfor), Hempty in Hcases.
    cbn in Hcases. destruct Hcases as (finding & -> & Hs & Hm & Hd).
    exists finding. by split_and!.
  - intros control labelText labelMethod finding Hlab Hmethod. rewrite Hone.
    pose proof (labelling_aria_not_empty js control _ _ Hlab Hmethod) as Hne.
    pose proof (labelFinding_cases js control) as Hcases. rewrite Hlab in Hcases.
    destruct labelText as [|c [|c' s]]; [done| |]; cbn in Hcases.
    + destruct Hcases as (f & -> & _ & Hm). cbn. by intros ->%list_elem_of_singleton.
    + rewrite Hcases. cbn. by intros ?%elem_of_nil.
  - intros control Hnone. rewrite Hone.
    pose proof (labelFinding_cases js control) as Hcases. rewrite Hnone in Hcases.
    destruct Hcases as (finding & -> & Hrest). by exists finding.
  - intros control labelText labelMethod Hlab. rewrite Hone.
    pose proof (labelFinding_cases js control) as Hcases. rewrite Hlab in Hcases.
    destruct (String.length labelText) as [|[|n]].
    + destruct Hcases as (f & -> & Hs & Hm & Hd). cbn.
      split_and!; [split; [done|lia]|done|]. intros _. by exists f.
    + destruct Hcases as (f & -> & Hs & Hm). cbn.
      split_and!; [split; [done|lia]| |done]. intros _. by exists f.
    + rewrite Hcases. cbn. split_and!; [split; [lia|done]|done|done].
  - intros field. unfold formLabelsScan, requiredFinding. cbn [omap list_omap app].
    unfold hasRequiredIndicator.
    destruct (negb _) eqn:E; cbn.
    + apply negb_true_iff in E. rewrite !orb_false_iff in E.
      destruct E as [[[E1 E2] E3] E4]. apply bool_decide_eq_false in E1.
      split; [|intros _; eexists; by split_and!].
      split; [done|]. intros [?|[?|[?|?]]]; congruence.
    + apply negb_false_iff in E. rewrite !orb_true_iff in E.
      rewrite bool_decide_eq_true in E. split; [|done].
      split; [|done]. intros _. tauto.
  - intros formControls requiredFields finding. unfold formLabelsScan.
    rewrite elem_of_app.
    intros [(control & _ & Hf)%list_elem_of_omap | (field & _ & Hf)%list_elem_of_omap].
    + pose proof (labelFinding_cases js control) as Hcases.
      destruct (labelling js control) as [[labelText labelMethod]|].
      * destruct (String.length labelText) as [|[|n]].
        -- destruct Hcases as (f & Hf' & Hs & Hm & _).
           assert (f = finding) as -> by congruence. left. auto.
        -- destruct Hcases as (f & Hf' & Hs & Hm).
           assert (f = finding) as -> by congruence. right. auto.
        -- congruence.
      * destruct Hcases as (f & Hf' & Hrest).
        assert (f = finding) as -> by congruence.
        destruct (notBlank js (Control.placeholder control));
          destruct Hrest as [Hs Hm]; [right|left]; auto.
    + unfold requiredFinding in Hf. destruct (negb _); [|done].
      injection Hf as <-. right. cbn. auto.
  - intros page config formControls requiredFields Hscan. cbn. rewrite Hscan.
    eexists. split; [done|]. cbn [CheckerResult.issues]. split.
    + rewrite length_imap. apply Hlen.
    + by intros issue (n & finding & -> & Hn)%elem_of_lookup_imap.
Qed.

Lemma X24_witness :
  Raw.message <$> formLabelsScan asciiMethods [emailInput; bareInput] []
  = ["Form control has empty label"; "Form control missing label"].
Proof.
  destruct (X24_form_labels_scan asciiMethods) as (_ & Hempty & _ & Hnone & _).
  destruct (Hempty emailInput (Some EmptyString) ltac:(done) eq_refl eq_refl)
    as (finding & Hscan & _ & Hm & _).
  destruct (Hnone bareInput eq_refl) as (finding' & Hscan' & Hrest).
  change (formLabelsScan asciiMethods [emailInput; bareInput] [])
    with (formLabelsScan asciiMethods [emailInput] [] ++
          formLabelsScan asciiMethods [bareInput] []).
  rewrite Hscan, Hscan'. cbn [app fmap list_fmap]. rewrite Hm.
  cbn in Hrest. destruct Hrest as [_ ->]. done.
Defined.

(** ** The DOM scan of the ARIA attributes checker *)

Lemma attributeFindings_errors js element attr finding :
  finding ∈ attributeFindings js element attr -> Raw.severity finding = "error".
Proof.
  unfold attributeFindings. destruct (_ || _); [|by intros ?%elem_of_nil].
  rewrite !elem_of_app.
  intros [H|[H|[H|H]]]; revert H;
    repeat (match goal with |- context [if ?b then _ else _] => destruct b end);
    rewrite ?list_elem_of_singleton; try (by intros ?%elem_of_nil); by intros ->.
Qed.

Lemma validAriaAttributes_scanned name :
  name ∈ validAriaAttributes ->
  String.prefix "aria-" name || String.eqb name "role" = true.
Proof.
  unfold validAriaAttributes. rewrite !elem_of_cons, elem_of_nil. intros Hvalid.
  repeat (destruct Hvalid as [->|Hvalid]; [by vm_compute|]). done.
Qed.

Lemma attributeFindings_valid js element name value :
  name ∈ validAriaAttributes ->
  attributeFindings js element (name, value) =
    if String.eqb value EmptyString then
      if Array_includes mayBeEmpty name then []
      else attributeFindings js element (name, value)
    else if String.eqb name "role" then
      if Array_includes validRoles value then []
      else attributeFindings js element (name, value)
    else if Array_includes booleanAttributes name then
      if Array_includes ["true"; "false"] (toLowerCase js value) then []
      else attributeFindings js element (name, value)
    else [].
Proof.
  intros Hvalid.
  destruct (String.eqb value EmptyString) eqn:Ev.
  - destruct (Array_includes mayBeEmpty name) eqn:Ee; [|done].
    apply String.eqb_eq in Ev as ->.
    unfold Array_includes in Ee. apply bool_decide_eq_true in Ee.
    unfold mayBeEmpty in Ee. rewrite !elem_of_cons, elem_of_nil in Ee.
    destruct Ee as [->|[->|[->|[->|[->|[]]]]]]; by vm_compute.
  - destruct (String.eqb name "role") eqn:Er.
    + destruct (Array_includes validRoles value) eqn:Eroles; [|done].
      apply String.eqb_eq in Er as ->.
      unfold attributeFindings. cbn [fst snd].
      unfold truthy. rewrite Ev, Eroles. by vm_compute.
    + assert (Hfind : attributeFindings js element (name, value) =
                if Array_includes booleanAttributes name then
                  if negb (Array_includes ["true"; "false"] (toLowerCase js value))
                  then attributeFindings js element (name, value) else []
                else []).
      { pose proof (validAriaAttributes_scanned name Hvalid) as Hscanned.
        unfold attributeFindings. cbn [fst snd].
        unfold truthy. rewrite Hscanned, Ev, Er. cbn [negb andb].
        assert (Array_includes validAriaAttributes name = true) as ->
          by (by apply bool_decide_eq_true).
        cbn [negb app].
        destruct (Array_includes booleanAttributes name) eqn:Eb; [|done].
        by destruct (Array_includes ["true"; "false"] (toLowerCase js value)). }
      rewrite Hfind at 1.
      destruct (Array_includes booleanAttributes name); [|done].
      by destruct (Array_includes ["true"; "false"] (toLowerCase js value)).
Qed.

Lemma attributeFindings_length js element attr :
  (length (attributeFindings js element attr) <= 2)%nat.
Proof.
  destruct attr as [name value]. unfold attributeFindings. cbn [fst snd].
  destruct (_ || _); [|cbn; lia].
  destruct (Array_includes validAriaAttributes name) eqn:Evalid; cbn [negb app].
  - destruct (truthy value); cbn [negb andb app].
    + rewrite andb_true_r.
      destruct (String.eqb name "role") eqn:Er; cbn [andb].
      * apply String.eqb_eq in Er as ->.
        assert (Array_includes booleanAttributes "role" = false) as -> by (by vm_compute).
        repeat case_match; cbn; lia.
      * cbn [app]. repeat case_match; cbn; lia.
    + rewrite andb_false_r. cbn [app]. repeat case_match; cbn; lia.
  - assert (String.eqb name "role" = false) as ->.
    { apply String.eqb_neq. intros ->. by vm_compute in Evalid. }
    assert (Array_includes booleanAttributes name = false) as ->.
    { apply bool_decide_eq_false. intros Hb.
      unfold Array_includes in Evalid. apply bool_decide_eq_false in Evalid.
      apply Evalid. unfold booleanAttributes in Hb. unfold validAriaAttributes.
      rewrite !elem_of_cons, elem_of_nil in Hb. rewrite !elem_of_cons.
      repeat (destruct Hb as [->|Hb]; [tauto|]). done. }
    cbn [andb app]. rewrite app_nil_r. repeat case_match; cbn; lia.
Qed.

Lemma bind_length_le {A B} (f : A -> list B) (bound : nat) (l : list A) :
  (forall x, length (f x) <= bound)%nat ->
  (length (l ≫= f) <= bound * length l)%nat.
Proof.
  intros Hf. induction l as [|x l IH]; [cbn; lia|].
  rewrite bind_cons, length_app. cbn [length]. specialize (Hf x). lia.
Qed.

(** The selector of the first query names the attributes the scan knows. *)
Lemma ariaSelector_valid : ariaSelector ≡ₚ validAriaAttributes.
Proof.
  change validAriaAttributes with (tail ariaSelector ++ ["role"]).
  change ariaSelector with ("role" :: tail ariaSelector) at 1.
  apply Permutation_cons_append.
Qed.

Lemma querySelectorAllAria_elem elements element :
  element ∈ querySelectorAllAria elements <->
  element ∈ elements /\
  exists name value,
    (name, value) ∈ AriaElement.attributes element /\ name ∈ validAriaAttributes.
Proof.
  unfold querySelectorAllAria. rewrite list_elem_of_filter, Exists_exists.
  setoid_rewrite ariaSelector_valid. split.
  - intros [([name value] & Hin & Hv) He]. split; [done|]. by exists name, value.
  - intros [He (name & value & Hin & Hv)]. split; [|done]. by exists (name, value).
Qed.

(** X25. Every finding of the scan of the ARIA attributes checker is an
    error, so the checker never gives a warning, and its issues are of
    level A.  The attributes of an element are looked at only when the
    element has [role] or one of the 36 [aria-...] attributes the scan
    knows.  On such an element an attribute gives at most two findings
    and one that is neither [role] nor named [aria-...] gives none.  A
    known attribute is accepted exactly when its value is not empty and,
    for [role], is one of the known roles as written (a role in capitals
    is not), and for a boolean attribute is true or false in any case of
    letters; or when its value is empty and it is one of the five
    attributes that may be empty.  An unknown [aria-...] attribute is
    reported when its element also has [role] or a known [aria-...]
    attribute; on an element without any of these it is not, and such an
    element is not reported for its attributes at all.  An interactive
    element is reported exactly when it has no text, no [aria-label], no
    [aria-labelledby] and no image inside. *)
Theorem X25_aria_scan :
  forall js,
    (forall elementsWithAria interactiveElements finding,
       finding ∈ ariaScan js elementsWithAria interactiveElements ->
       Raw.severity finding = "error") /\
    (forall elementsWithAria interactiveElements,
       (length (ariaScan js elementsWithAria interactiveElements)
        <= 2 * attributeCount elementsWithAria + length interactiveElements)%nat) /\
    (forall element name value,
       String.prefix "aria-" name = false -> name <> "role" ->
       attributeFindings js element (name, value) = []) /\
    (forall element name value,
       name ∈ validAriaAttributes ->
       (attributeFindings js element (name, value) = [] <->
        if String.eqb value EmptyString then name ∈ mayBeEmpty
        else if String.eqb name "role" then value ∈ validRoles
        else (name ∈ booleanAttributes ->
              toLowerCase js value = "true" \/ toLowerCase js value = "false"))) /\
    (forall element name value,
       String.prefix "aria-" name = true -> name ∉ validAriaAttributes ->
       exists finding findings,
         attributeFindings js element (name, value) = finding :: findings /\
         Raw.message finding = "Invalid ARIA attribute: " +:+ name) /\
    (forall elements element,
       element ∈ querySelectorAllAria elements <->
       element ∈ elements /\
       exists name value,
         (name, value) ∈ AriaElement.attributes element /\ name ∈ validAriaAttributes) /\
    (forall elements interactiveElements element name value known value',
       element ∈ elements ->
       (known, value') ∈ AriaElement.attributes element -> known ∈ validAriaAttributes ->
       (name, value) ∈ AriaElement.attributes element ->
       String.prefix "aria-" name = true -> name ∉ validAriaAttributes ->
       exists finding,
         finding ∈ ariaScanDocument js elements interactiveElements /\
         Raw.severity finding = "error" /\
         Raw.message finding = "Invalid ARIA attribute: " +:+ name) /\
    (forall elements interactiveElements,
       Forall (fun element =>
                 forall name value,
                   (name, value) ∈ AriaElement.attributes element ->
                   name ∉ validAriaAttributes) elements ->
       ariaScanDocument js elements interactiveElements
       = ariaScan js [] interactiveElements) /\
    (forall element,
       ariaScan js [] [element] = [] <->
       or_else (trim js <$> Interactive.textContent element) EmptyString <> EmptyString \/
       or_else (Interactive.ariaLabel element) EmptyString <> EmptyString \/
       or_else (Interactive.ariaLabelledby element) EmptyString <> EmptyString \/
       Interactive.hasImage element = true) /\
    (forall page config elementsWithAria interactiveElements,
       Dom.evaluate page CheckType.ARIA_ATTRIBUTES None =
         Some (ariaScan js elementsWithAria interactiveElements) ->
       exists result,
         outcome (Checker.check AriaAttributesChecker page config) = Ok result /\
         forall issue, issue ∈ CheckerResult.issues result ->
           Issue.severity issue = Severity.ERROR /\
           Issue.wcagLevel issue = WcagLevel.A).
Proof.
  intros js.
  assert (Herrors : forall elementsWithAria interactiveElements finding,
            finding ∈ ariaScan js elementsWithAria interactiveElements ->
            Raw.severity finding = "error").
  { intros elementsWithAria interactiveElements finding. unfold ariaScan.
    rewrite elem_of_app, list_elem_of_bind.
    intros [(element & (attr & Hf & _)%list_elem_of_bind & _) |
            (element & _ & Hf)%list_elem_of_omap].
    - by eapply attributeFindings_errors.
    - unfold nameFinding in Hf. destruct (_ && _); [|done]. by injection Hf as <-. }
  assert (Htruthy : forall s, truthy s = negb (String.eqb s EmptyString)) by done.
  assert (Hunknown : forall element name value,
            String.prefix "aria-" name = true -> name ∉ validAriaAttributes ->
            exists finding findings,
              attributeFindings js element (name, value) = finding :: findings /\
              Raw.severity finding = "error" /\
              Raw.message finding = "Invalid ARIA attribute: " +:+ name).
  { intros element name value Hprefix Hinvalid. unfold attributeFindings. cbn [fst snd].
    rewrite Hprefix. cbn [orb].
    assert (Array_includes validAriaAttributes name = false) as ->
      by (by apply bool_decide_eq_false).
    cbn [negb app]. eexists _, _. by split. }
  refine (conj Herrors (conj _ (conj _ (conj _ (conj _ (conj _ (conj _ (conj _ (conj _ _))))))))).
  - intros elementsWithAria interactiveElements. unfold ariaScan, attributeCount.
    rewrite length_app.
    pose proof (length_omap_le (nameFinding js) interactiveElements).
    assert (length (elementsWithAria ≫= fun element =>
                      AriaElement.attributes element ≫= attributeFindings js element)
            <= 2 * sum_list_with (fun element => length (AriaElement.attributes element))
                     elementsWithAria)%nat;
      [|lia].
    induction elementsWithAria as [|element elements IH]; [cbn; lia|].
    rewrite bind_cons, length_app. cbn [sum_list_with].
    pose proof (bind_length_le (attributeFindings js element) 2
                  (AriaElement.attributes element)
                  (attributeFindings_length js element)).
    lia.
  - intros element name value Hprefix Hrole. unfold attributeFindings. cbn [fst snd].
    rewrite Hprefix. apply String.eqb_neq in Hrole. by rewrite Hrole.
  - intros element name value Hvalid.
    rewrite (attributeFindings_valid js element name value Hvalid).
    assert (Hne : attributeFindings js element (name, value) = [] ->
                  if String.eqb value EmptyString then name ∈ mayBeEmpty
                  else if String.eqb name "role" then value ∈ validRoles
                  else (name ∈ booleanAttributes ->
                        toLowerCase js value = "true" \/ toLowerCase js value = "false")).
    { unfold attributeFindings. cbn [fst snd]. rewrite Htruthy.
      assert (Array_includes validAriaAttributes name = true) as ->
        by (by apply bool_decide_eq_true).
      cbn [negb app].
      rewrite (validAriaAttributes_scanned name Hvalid).
      destruct (String.eqb value EmptyString); cbn [negb andb].
      - unfold Array_includes at 1. case_bool_decide; [done|]. by cbn.
      - rewrite andb_true_r. destruct (String.eqb name "role"); cbn [andb].
        + unfold Array_includes at 1. case_bool_decide; [done|]. by cbn.
        + cbn [app]. unfold Array_includes. case_bool_decide as Hb; [|done].
          case_bool_decide as Ht; cbn [negb]; [|done].
          intros _ _. rewrite !elem_of_cons, elem_of_nil in Ht. tauto. }
    destruct (String.eqb value EmptyString).
    { unfold Array_includes. case_bool_decide; [done|]. split; [apply Hne|done]. }
    destruct (String.eqb name "role").
    { unfold Array_includes. case_bool_decide; [done|]. split; [apply Hne|done]. }
    unfold Array_includes. case_bool_decide as Hb; [|done].
    case_bool_decide as Ht.
    + split; [|done]. intros _ _. rewrite !elem_of_cons, elem_of_nil in Ht. tauto.
    + split; [apply Hne|]. intros Hor. destruct Ht.
      rewrite !elem_of_cons. destruct (Hor Hb); auto.
  - intros element name value Hprefix Hinvalid.
    destruct (Hunknown element name value Hprefix Hinvalid) as (finding & findings & ? & _ & ?).
    by exists finding, findings.
  - apply querySelectorAllAria_elem.
  - intros elements interactiveElements element name value known value'
      He Hk Hv Hin Hprefix Hinvalid.
    destruct (Hunknown element name value Hprefix Hinvalid)
      as (finding & findings & Hf & Hs & Hm).
    exists finding. split; [|done].
    unfold ariaScanDocument, ariaScan. apply elem_of_app. left.
    apply list_elem_of_bind. exists element. split.
    + apply list_elem_of_bind. exists (name, value). split; [|done]. rewrite Hf. by left.
    + apply querySelectorAllAria_elem. split; [done|]. by exists known, value'.
  - intros elements interactiveElements Hno. unfold ariaScanDocument.
    assert (querySelectorAllAria elements = []) as ->; [|done].
    destruct (querySelectorAllAria elements) as [|e l] eqn:E; [done|].
    assert (He : e ∈ querySelectorAllAria elements) by (rewrite E; by left).
    apply querySelectorAllAria_elem in He as [He (n & v & Hin & Hv)].
    rewrite Forall_forall in Hno. by destruct (Hno e He n v Hin).
  - intros element. unfold ariaScan, nameFinding. cbn [mbind list_bind app omap list_omap].
    assert (Hor : forall x : option string,
              truthy (default EmptyString x) = true <-> or_else x EmptyString <> EmptyString).
    { intros [s|]; cbn; [|done]. destruct (truthy s) eqn:E; [|done].
      split; [|done]. intros _. by apply truthy_true. }
    assert (Htext : forall s, truthy s = true <-> s <> EmptyString).
    { intros s. split; [apply truthy_true|]. rewrite Htruthy. intros Hs.
      apply negb_true_iff. by apply String.eqb_neq. }
    destruct (_ && _) eqn:E; cbn.
    + rewrite !andb_true_iff, !negb_true_iff in E. destruct E as [[[E1 E2] E3] E4].
      split; [done|]. rewrite <- Htext, <- !Hor. intros [?|[?|[?|?]]]; congruence.
    + split; [|done]. intros _. rewrite <- Htext, <- !Hor.
      rewrite !andb_false_iff, !negb_false_iff in E. tauto.
  - intros page config elementsWithAria interactiveElements Hscan. cbn. rewrite Hscan.
    eexists. split; [done|]. cbn [CheckerResult.issues].
    intros issue (n & finding & -> & Hn)%elem_of_lookup_imap.
    assert (Hin : finding ∈ ariaScan js elementsWithAria interactiveElements)
      by (by eapply list_elem_of_lookup_2).
    cbn. by rewrite (Herrors _ _ _ Hin).
Qed.

Lemma X25_witness :
  Raw.message <$> ariaScan asciiMethods [menuDiv] []
  = ["Invalid ARIA role: Menu"; "Empty value for ARIA attribute: aria-disabled";
     "Invalid ARIA attribute: aria-foo"; "Empty value for ARIA attribute: aria-foo"] /\
  ariaScanDocument asciiMethods [fooSpan] [] = [].
Proof.
  destruct (X25_aria_scan asciiMethods)
    as (_ & _ & Hother & Hvalid & _ & _ & _ & Hskipped & _).
  assert (Hhidden : "aria-hidden" ∈ validAriaAttributes)
    by (apply (bool_decide_unpack _); by vm_compute).
  assert (Hempty : "aria-hidden" ∈ mayBeEmpty)
    by (apply (bool_decide_unpack _); by vm_compute).
  split.
  - unfold ariaScan, menuDiv.
    cbn [mbind list_bind AriaElement.attributes app omap list_omap].
    fold menuDiv.
    rewrite (Hother menuDiv "id" "menu" eq_refl ltac:(done)).
    rewrite (Hother menuDiv "class" "nav" eq_refl ltac:(done)).
    rewrite (proj2 (Hvalid menuDiv "aria-hidden" EmptyString Hhidden) Hempty).
    by vm_compute.
  - rewrite Hskipped; [done|]. constructor; [|constructor].
    intros name value. cbn [fooSpan AriaElement.attributes].
    rewrite !elem_of_cons, elem_of_nil.
    intros [[= -> ->]|[[= -> ->]|[]]]; apply (bool_decide_unpack _); by vm_compute.
Defined.

(** ** The issues section of the HTML report *)

(** The table that pushing one more issue under its key gives. *)
Lemma pushTo_table (key : AccessibilityIssue -> string) issues issue record :
  NoDup record.*1 ->
  Forall (fun entry => entry.2 = filter (fun issue => key issue = entry.1) issues) record ->
  (key issue ∉ record.*1 -> filter (fun issue' => key issue' = key issue) issues = []) ->
  NoDup (pushTo (key issue) issue record).*1 /\
  Forall (fun entry => entry.2 = filter (fun issue => key issue = entry.1) (issues ++ [issue]))
         (pushTo (key issue) issue record) /\
  (forall k, k ∈ (pushTo (key issue) issue record).*1 <-> k = key issue \/ k ∈ record.*1).
Proof.
  induction record as [|[k l] record IH]; intros Hnd Hall Hnew.
  - cbn. split_and!.
    + apply NoDup_singleton.
    + constructor; [|constructor]. cbn [fst snd].
      rewrite filter_app, Hnew by (by intros ?%elem_of_nil).
      rewrite filter_cons, decide_True by done. done.
    + intros k. rewrite list_elem_of_singleton, elem_of_nil. tauto.
  - cbn [pushTo]. cbn [fmap list_fmap fst] in Hnd, Hnew.
    change (list_fmap _ _ fst ?l) with (l.*1) in Hnd, Hnew.
    apply NoDup_cons in Hnd as [Hk Hnd].
    apply Forall_cons in Hall as [Hl Hall]. cbn [fst snd] in Hl.
    destruct (String.eqb_spec k (key issue)) as [->|Hne].
    + cbn [fmap list_fmap fst]. change (list_fmap _ _ fst ?l) with (l.*1).
      split_and!.
      * by apply NoDup_cons.
      * constructor.
        -- cbn [fst snd]. rewrite filter_app, Hl, filter_cons, decide_True by done. done.
        -- rewrite Forall_forall in Hall. apply Forall_forall. intros [k' l'] Hin.
           cbn [fst snd]. rewrite filter_app, filter_cons, decide_False, app_nil_r.
           ++ exact (Hall _ Hin).
           ++ intros Heq. apply Hk. rewrite Heq. apply list_elem_of_fmap.
              by exists (k', l').
      * intros k. rewrite elem_of_cons. tauto.
    + destruct (IH Hnd Hall) as (IH1 & IH2 & IH3).
      { intros Hno. apply Hnew. rewrite elem_of_cons. intros [?|?]; [congruence|done]. }
      cbn [fmap list_fmap fst]. change (list_fmap _ _ fst ?l) with (l.*1).
      split_and!.
      * apply NoDup_cons. split; [|done]. rewrite IH3. intros [?|?]; [congruence|done].
      * constructor; [|done]. cbn [fst snd].
        rewrite filter_app, filter_cons, decide_False, app_nil_r by congruence. exact Hl.
      * intros k'. rewrite !elem_of_cons, IH3. tauto.
Qed.

(** The table that pushing the issues of a list one by one gives: one
    entry for each key that occurs, with the issues of that key in the
    order of the list. *)
Lemma pushTo_all (key : AccessibilityIssue -> string) issues :
  let record := foldl (fun record issue => pushTo (key issue) issue record) [] issues in
  NoDup record.*1 /\
  Forall (fun entry => entry.2 = filter (fun issue => key issue = entry.1) issues) record /\
  (forall k, k ∈ record.*1 <-> exists issue, issue ∈ issues /\ key issue = k).
Proof.
  cbn zeta. induction issues as [|issue issues IH] using rev_ind.
  - cbn. split_and!; [constructor|constructor|].
    intros k. split; [by intros ?%elem_of_nil|]. by intros (? & ?%elem_of_nil & _).
  - rewrite foldl_app. cbn [foldl]. destruct IH as (IH1 & IH2 & IH3).
    destruct (pushTo_table key issues issue _ IH1 IH2) as (H1 & H2 & H3).
    { intros Hno. apply filter_none. intros issue' Hin Heq. apply Hno, IH3. eauto. }
    split_and!; [done|done|].
    intros k. rewrite H3, IH3. split.
    + intros [->|(issue' & Hin & Hk)].
      * exists issue. split; [|done]. apply elem_of_app. right. by apply list_elem_of_singleton.
      * exists issue'. split; [|done]. apply elem_of_app. by left.
    + intros (issue' & [Hin|Hin]%elem_of_app & Hk); [right; eauto|].
      apply list_elem_of_singleton in Hin as ->. by left.
Qed.

(** The loop of [generateIssuesSection] fills its two tables side by side. *)
Lemma pushTo_both (issues : list AccessibilityIssue) start :
  foldl (fun records issue =>
           (pushTo (CheckType.value (Issue.type issue)) issue records.1,
            pushTo (severityValue (Issue.severity issue)) issue records.2))
        start issues
  = (foldl (fun record issue => pushTo (CheckType.value (Issue.type issue)) issue record)
           start.1 issues,
     foldl (fun record issue => pushTo (severityValue (Issue.severity issue)) issue record)
           start.2 issues).
Proof.
  revert start. induction issues as [|issue issues IH]; intros [start1 start2]; [done|].
  cbn [foldl]. by rewrite IH.
Qed.

(** What the groups of a tab are, in terms of the table they are made of. *)
Lemma breakdown_tab (key : AccessibilityIssue -> string) issues :
  let tab :=
    breakdownGroup <$>
      Array_sort (fun a b => Z.of_nat (length b.2) - Z.of_nat (length a.2))
        (foldl (fun record issue => pushTo (key issue) issue record) [] issues) in
  NoDup (Breakdown.key <$> tab) /\
  (forall k, k ∈ Breakdown.key <$> tab <-> exists issue, issue ∈ issues /\ key issue = k) /\
  (forall group, group ∈ tab ->
     (exists issue, issue ∈ issues /\ key issue = Breakdown.key group) /\
     showsFirstFive group (filter (fun issue => key issue = Breakdown.key group) issues)) /\
  StronglySorted (fun a b => (Breakdown.count b <= Breakdown.count a)%nat) tab.
Proof.
  cbn zeta. destruct (pushTo_all key issues) as (Hnd & Hall & Hkeys).
  set (record := foldl _ [] issues) in *.
  set (compareFn := fun a b : string * list AccessibilityIssue =>
                      Z.of_nat (length b.2) - Z.of_nat (length a.2)).
  pose proof (Array_sort_Permutation_any compareFn record) as Hperm.
  assert (Hfst : Breakdown.key <$> (breakdownGroup <$> Array_sort compareFn record)
                 = (Array_sort compareFn record).*1).
  { rewrite <- list_fmap_compose. by apply list_fmap_ext. }
  split_and!.
  - rewrite Hfst, Hperm. exact Hnd.
  - intros k. rewrite Hfst, Hperm. apply Hkeys.
  - intros group (entry & -> & Hin)%list_elem_of_fmap. rewrite Hperm in Hin.
    rewrite Forall_forall in Hall. pose proof (Hall _ Hin) as Hentry.
    split.
    + apply Hkeys, list_elem_of_fmap. by exists entry.
    + unfold showsFirstFive, breakdownGroup. cbn [Breakdown.key Breakdown.count
        Breakdown.items Breakdown.more]. rewrite <- Hentry.
      split_and!; [done|by apply slice_from_start|].
      case_bool_decide; by case_decide.
  - apply (StronglySorted_fmap _
             (fun a b : string * list AccessibilityIssue =>
                Z.of_nat (length b.2) <= Z.of_nat (length a.2))).
    + intros a b Hab. cbn. lia.
    + apply (Array_sort_by_key (fun entry : string * list AccessibilityIssue =>
                                  Z.of_nat (length entry.2))).
Qed.

(** X26. The issues section of the HTML report says that there are no
    issues exactly when no page has one.  Otherwise each of its two tabs
    has one group for each severity, or for each type, that occurs among
    the issues of all pages, and none for the others; the group shows how
    many issues of the report have that severity or type and the first five
    of them in the order of the report, the rest being counted; and the
    groups with more issues come first. *)
Theorem X26_issues_section :
  forall report,
    (generateIssuesSection report = None <->
     Report.pages report ≫= PageReport.issues = []) /\
    forall bySeverity byType,
      generateIssuesSection report = Some (bySeverity, byType) ->
      NoDup (Breakdown.key <$> bySeverity) /\
      NoDup (Breakdown.key <$> byType) /\
      (forall severity,
         severityValue severity ∈ Breakdown.key <$> bySeverity <->
         exists issue, issue ∈ Report.pages report ≫= PageReport.issues /\
                       Issue.severity issue = severity) /\
      (forall type,
         CheckType.value type ∈ Breakdown.key <$> byType <->
         exists issue, issue ∈ Report.pages report ≫= PageReport.issues /\
                       Issue.type issue = type) /\
      (forall group, group ∈ bySeverity ->
         exists severity,
           Breakdown.key group = severityValue severity /\
           showsFirstFive group
             (filter (fun issue => Issue.severity issue = severity)
                     (Report.pages report ≫= PageReport.issues))) /\
      (forall group, group ∈ byType ->
         exists type,
           Breakdown.key group = CheckType.value type /\
           showsFirstFive group
             (filter (fun issue => Issue.type issue = type)
                     (Report.pages report ≫= PageReport.issues))) /\
      StronglySorted (fun a b => (Breakdown.count b <= Breakdown.count a)%nat) bySeverity /\
      StronglySorted (fun a b => (Breakdown.count b <= Breakdown.count a)%nat) byType.
Proof.
  intros report. unfold generateIssuesSection. cbn zeta.
  set (allIssues := Report.pages report ≫= PageReport.issues).
  split.
  { case_bool_decide as Hlen; [|split; [done|]].
    - split; [|done]. intros _. by apply length_zero_iff_nil.
    - intros Hnil. by rewrite Hnil in Hlen. }
  intros bySeverity byType. case_bool_decide as Hlen; [done|].
  rewrite pushTo_both. cbn [fst snd]. intros [= <- <-].
  destruct (breakdown_tab (fun issue => severityValue (Issue.severity issue)) allIssues)
    as (Hnd1 & Hkeys1 & Hgroups1 & Hsorted1).
  destruct (breakdown_tab (fun issue => CheckType.value (Issue.type issue)) allIssues)
    as (Hnd2 & Hkeys2 & Hgroups2 & Hsorted2).
  split_and!; try done.
  - intros severity. rewrite Hkeys1. split.
    + intros (issue & Hin & Heq%severityValue_inj). eauto.
    + intros (issue & Hin & <-). eauto.
  - intros type. rewrite Hkeys2. split.
    + intros (issue & Hin & Heq%CheckType_value_inj). eauto.
    + intros (issue & Hin & <-). eauto.
  - intros group Hin. destruct (Hgroups1 group Hin) as ((issue & _ & Hkey) & Hshows).
    exists (Issue.severity issue). split; [done|].
    erewrite list_filter_iff; [exact Hshows|].
    intros issue'. rewrite <- Hkey. split; [by intros ->|apply severityValue_inj].
  - intros group Hin. destruct (Hgroups2 group Hin) as ((issue & _ & Hkey) & Hshows).
    exists (Issue.type issue). split; [done|].
    erewrite list_filter_iff; [exact Hshows|].
    intros issue'. rewrite <- Hkey. split; [by intros ->|apply CheckType_value_inj].
Qed.

Lemma X26_witness :
  exists bySeverity byType,
    generateIssuesSection sevenIssues = Some (bySeverity, byType) /\
    (Breakdown.key <$> bySeverity) = ["error"; "warning"] /\
    NoDup (Breakdown.key <$> byType).
Proof.
  destruct (generateIssuesSection sevenIssues) as [[bySeverity byType]|] eqn:H.
  - exists bySeverity, byType. split; [done|].
    destruct (X26_issues_section sevenIssues) as [_ Hsome].
    destruct (Hsome bySeverity byType H) as (_ & Hnd & _).
    split; [|exact Hnd].
    apply (f_equal (fun section => match section with
                                   | Some (tab, _) => Breakdown.key <$> tab
                                   | None => []
                                   end)) in H.
    cbv beta iota in H. rewrite <- H. by vm_compute.
  - by vm_compute in H.
Defined.
